(** * Fimbul: dependency-graph computation manager

    A shallow embedding of the two graph managers of the repository,
    [Fimbul] (src/index.ts, synchronous) and [FimbulAsync] (src/async.ts,
    promise based), together with the properties stated about them.

    Conventions of the embedding.
    - A node identifier ([keyof R]) is a [string].
    - A JavaScript value is a [Value]; numbers are restricted to integers.
    - A result object ([ResultObject<R>], a plain JS object used as a map) is
      a [gmap string Value] holding its own properties; its prototype is
      [Object.prototype].  A property can be present with the value
      [undefined].  Reading a property that the object does not own gives the
      member of [Object.prototype] of that name when there is one
      ([inherited]), and [undefined] otherwise ([prop]).
    - The private [nodes] map of a graph instance is a [gmap] from keys to
      stored functions.  A stored function is either the user function
      itself or the closure built by [provideDependencies]; the closure is
      represented by the data it captures.
    - A user function is a function of its two arguments that returns a value
      or throws an [Error]; the instrumentation of the tests (a call counter)
      is the [calls] log of the state.
    - Recursion through the registry is bounded by a fuel argument; [None]
      stands for exhausted fuel and is never a result of the program. *)

From stdpp Require Import gmap strings list relations.
From Stdlib Require Import ZArith Lia Ascii.

Set Default Proof Using "Type".

(** ** Values, errors and result objects *)

Inductive Value : Type :=
  | VUndefined
  | VNull
  | VBool (b : bool)
  | VNum (n : Z)
  | VStr (s : string)
  | VBuiltin (member : string).

#[global] Instance Value_eq_dec : EqDecision Value.
Proof. solve_decision. Defined.

Abbreviation Key := string (only parsing).
Abbreviation ResultObject := (gmap string Value) (only parsing).

(** The names of the properties of [Object.prototype].  They hold built-in
    functions, but for [__proto__], an accessor: its getter gives the
    prototype of the object, [Object.prototype] itself for a plain object,
    and its setter replaces the prototype.  [VBuiltin name] is the value that
    a plain object without a property [name] of its own reads under
    [name]. *)
Definition objectPrototype : list string :=
  ["constructor"; "hasOwnProperty"; "isPrototypeOf"; "propertyIsEnumerable";
   "toLocaleString"; "toString"; "valueOf"; "__defineGetter__";
   "__defineSetter__"; "__lookupGetter__"; "__lookupSetter__"; "__proto__"].

(** [Object.prototype[key]] *)
Definition inherited (key : Key) : option Value :=
  if decide (key ∈ objectPrototype) then Some (VBuiltin key) else None.

(** The inherited property [key] is an accessor. *)
Definition accessor (key : Key) : bool := bool_decide (key = "__proto__").

(** [results[key]]: the property of the object itself, else the one it
    inherits, else [undefined]. *)
Definition prop (results : ResultObject) (key : Key) : Value :=
  match results !! key with
  | Some v => v
  | None => default VUndefined (inherited key)
  end.

(** [results[key] = v]: a property of the object itself is updated; without
    one, a new property is made, which hides an inherited function of that
    name, but for [__proto__], where the setter of [Object.prototype] runs
    and makes no property.  The setter is reached in the loop of the
    synchronous [getMany] only, with the value just read under [__proto__],
    the prototype itself, and leaves the object as it is. *)
Definition assign (key : Key) (v : Value) (results : ResultObject)
  : ResultObject :=
  match results !! key with
  | Some _ => <[key := v]> results
  | None => if accessor key then results else <[key := v]> results
  end.

(** [v !== undefined] *)
Definition defined (v : Value) : bool :=
  match v with VUndefined => false | _ => true end.

(** [!!v]: the value counts as true in a condition. *)
Definition truthy (v : Value) : bool :=
  match v with
  | VUndefined | VNull => false
  | VBool b => b
  | VNum n => negb (n =? 0)%Z
  | VStr s => match s with EmptyString => false | _ => true end
  | VBuiltin _ => true
  end.

(** An [Error] object, identified with its message. *)
Record JSError : Type := MkError { message : string }.

#[global] Instance JSError_eq_dec : EqDecision JSError.
Proof. solve_decision. Defined.

(** Completion of a call: a returned value or a thrown error. *)
Inductive Completion (A : Type) : Type :=
  | Normal (a : A)
  | Throw (e : JSError).
Arguments Normal {A} a.
Arguments Throw {A} e.

(** The key between double quotes, as the template literals print it. *)
Definition quoted (key : Key) : string :=
  String "034"%char (key +:+ String "034"%char EmptyString).

(** ** The synchronous graph (src/index.ts) *)

Module Sync.
Section Graph.
(** The type [P] of the input parameters. *)
Context {P : Type}.

(** [ComputationNode<P, R>] *)
Definition ComputationNode : Type := P → ResultObject → Completion Value.

(** The values of the [nodes] map: [fn] itself, or
    [provideDependencies(fn, dependencies)]. *)
Inductive Stored : Type :=
  | Plain (fn : ComputationNode)
  | Provided (fn : ComputationNode) (dependencies : list Key).

Definition provideDependencies (fn : ComputationNode) (dependencies : list Key)
  : Stored := Provided fn dependencies.

Definition alreadyDefined (key : Key) : JSError :=
  MkError (quoted key +:+ " already defined").
Definition notFound (key : Key) : JSError :=
  MkError (quoted key +:+ " not found").

(** [nodes.has(key)] *)
Definition has (nodes : gmap string Stored) (key : Key) : bool :=
  bool_decide (is_Some (nodes !! key)).

(** The loop over [dependencies] of [define]: the first key that is not
    registered, if any. *)
Fixpoint firstMissing (nodes : gmap string Stored) (dependencies : list Key)
  : option Key :=
  match dependencies with
  | [] => None
  | depKey :: rest =>
      if has nodes depKey then firstMissing nodes rest else Some depKey
  end.

(** [define(key, fn, dependencies?)]; the registry is threaded through. *)
Definition define (key : Key) (fn : ComputationNode)
    (dependencies : option (list Key)) (nodes : gmap string Stored)
  : Completion unit * gmap string Stored :=
  if has nodes key then (Throw (alreadyDefined key), nodes)
  else
    match dependencies with
    | Some deps =>
        match firstMissing nodes deps with
        | Some depKey => (Throw (notFound depKey), nodes)
        | None => (Normal (), <[key := provideDependencies fn deps]> nodes)
        end
    | None => (Normal (), <[key := Plain fn]> nodes)
    end.

(** The mutable world of one resolution call: the shared [results] object
    and the log of the calls of user functions so far, each with the key of
    the node and the second argument it received. *)
Record State : Type := MkState {
  results : ResultObject;
  calls : list (Key * ResultObject)
}.

(** [results[key] = v] *)
Definition setResult (key : Key) (v : Value) (st : State) : State :=
  MkState (assign key v (results st)) (calls st).

(** A call of the user function registered for [key], with the shared
    [results] object as second argument. *)
Definition invoke (key : Key) (fn : ComputationNode) (params : P) (st : State)
  : Completion Value * State :=
  (fn params (results st),
   MkState (results st) (calls st ++ [(key, results st)])).

Section Resolution.
Variable nodes : gmap string Stored.

(** The [reduce] of [getMany] over a resolver [get1] for single keys. *)
Fixpoint getManyWith
    (get1 : Key → P → State → option (Completion Value * State))
    (keys : list Key) (params : P) (st : State)
  : option (Completion unit * State) :=
  match keys with
  | [] => Some (Normal (), st)
  | key :: rest =>
      match get1 key params st with
      | None => None
      | Some (Throw e, st') => Some (Throw e, st')
      | Some (Normal v, st') =>
          getManyWith get1 rest params (setResult key v st')
      end
  end.

(** A call [fn(params, results)] of a stored function. *)
Definition callStored
    (get1 : Key → P → State → option (Completion Value * State))
    (key : Key) (stored : Stored) (params : P) (st : State)
  : option (Completion Value * State) :=
  match stored with
  | Plain fn => Some (invoke key fn params st)
  | Provided fn dependencies =>
      match getManyWith get1 dependencies params st with
      | None => None
      | Some (Throw e, st') => Some (Throw e, st')
      | Some (Normal _, st') => Some (invoke key fn params st')
      end
  end.

(** [get(key, params, results)] *)
Fixpoint get (fuel : nat) (key : Key) (params : P) (st : State)
  : option (Completion Value * State) :=
  match fuel with
  | 0 => None
  | S fuel' =>
      if defined (prop (results st) key)
      then Some (Normal (prop (results st) key), st)
      else
        match nodes !! key with
        | None => Some (Throw (notFound key), st)
        | Some stored =>
            match callStored (get fuel') key stored params st with
            | None => None
            | Some (Throw e, st') => Some (Throw e, st')
            | Some (Normal v, st') => Some (Normal v, setResult key v st')
            end
        end
  end.

(** [getMany(keys, params, results)]; the object it returns is the
    [results] of the final state. *)
Definition getMany (fuel : nat) (keys : list Key) (params : P) (st : State)
  : option (Completion unit * State) :=
  getManyWith (get fuel) keys params st.
End Resolution.

(** A sequence of [define] calls, failed ones included. *)
Definition defineAll
    (ds : list (Key * ComputationNode * option (list Key)))
    (nodes : gmap string Stored) : gmap string Stored :=
  foldl (λ ns d, (define d.1.1 d.1.2 d.2 ns).2) nodes ds.

(** The registries a graph instance can hold: [nodes] starts empty and
    changes through [define] only. *)
Definition constructed (nodes : gmap string Stored) : Prop :=
  ∃ ds, nodes = defineAll ds ∅.

(** The user function inside a stored function. *)
Definition userFunction (stored : Stored) : ComputationNode :=
  match stored with Plain fn => fn | Provided fn _ => fn end.

(** The declared dependencies inside a stored function. *)
Definition declared (stored : Stored) : list Key :=
  match stored with Plain _ => [] | Provided _ deps => deps end.

(** The dependency graph: an edge from [d] to [k] when [d] is a declared
    dependency of the registered node [k]. *)
Definition dependsOn (nodes : gmap string Stored) (d k : Key) : Prop :=
  ∃ stored, nodes !! k = Some stored ∧ d ∈ declared stored.

Definition acyclic (nodes : gmap string Stored) : Prop :=
  ∀ k, ¬ tc (dependsOn nodes) k k.

(** A numbering of the keys along which every edge goes up. *)
Definition ranked (rank : Key → nat) (nodes : gmap string Stored) : Prop :=
  (∀ d k, dependsOn nodes d k → is_Some (nodes !! d) ∧ rank d < rank k)
  ∧ (∀ k, is_Some (nodes !! k) → rank k < size nodes).

(** The node registered for [key] never returns [undefined]. *)
Definition neverUndefined (nodes : gmap string Stored) (key : Key) : Prop :=
  ∀ stored params deps,
    nodes !! key = Some stored →
    userFunction stored params deps ≠ Normal VUndefined.

(** The number of calls of the function of [key] in a log. *)
Definition timesCalled (key : Key) (log : list (Key * ResultObject)) : nat :=
  length (filter (λ c, c.1 = key) log).

End Graph.
Arguments ComputationNode : clear implicits.
Arguments Stored : clear implicits.
End Sync.

(** ** The asynchronous graph (src/async.ts)

    Promises live in a heap and are named by their index.  An [async]
    function runs synchronously up to its first [await] and hands back its
    promise; what is left of it is a [Reaction] waiting on the awaited
    promise.  Settling a promise moves its reactions to the microtask queue
    ([jobs]); the event loop runs one job per [Microtask] event.  A promise
    returned by a user function is settled by the environment ([Deliver]), at
    a moment of its choice or never. *)

Module Async.
Section Graph.
Context {P : Type}.

(** What a call of a user function hands back when it does not throw: a
    value that is not a promise, or a promise together with the outcome
    that the environment will deliver to it. *)
Inductive Returned : Type :=
  | Plainly (v : Value)
  | Promised (outcome : Completion Value).

(** [AsyncComputationNode<P, R>] *)
Definition AsyncComputationNode : Type :=
  P → ResultObject → Completion Returned.

(** The values of the [nodes] map, [ResolvedComputationNode]: always the
    closure of [provideDependencies], over [fn] and [dependencies]. *)
Record Resolved : Type := Provide {
  userFn : AsyncComputationNode;
  dependencies : list Key
}.

Definition provideDependencies (fn : AsyncComputationNode)
    (dependencies : list Key) : Resolved := Provide fn dependencies.

Definition alreadyExists (key : Key) : JSError :=
  MkError ("Key " +:+ quoted key +:+ " already exists!").
Definition notFound (key : Key) : JSError :=
  MkError ("Key " +:+ quoted key +:+ " not found!").

(** [`${error}`] for an [Error] object. *)
Definition errorToString (e : JSError) : string :=
  match message e with
  | EmptyString => "Error"
  | msg => "Error: " +:+ msg
  end.

(** The error thrown by the [catch] handler of [resolveDependencies]. *)
Definition failedToResolve (key : Key) (error : JSError) : JSError :=
  MkError ("Failed to resolve dependencies for key " +:+ quoted key
           +:+ ": " +:+ errorToString error).

Definition has (nodes : gmap string Resolved) (key : Key) : bool :=
  bool_decide (is_Some (nodes !! key)).

Fixpoint firstMissing (nodes : gmap string Resolved) (dependencies : list Key)
  : option Key :=
  match dependencies with
  | [] => None
  | dependencyKey :: rest =>
      if has nodes dependencyKey then firstMissing nodes rest
      else Some dependencyKey
  end.

(** [define(key, fn, dependencies?)] *)
Definition define (key : Key) (fn : AsyncComputationNode)
    (dependencies : option (list Key)) (nodes : gmap string Resolved)
  : Completion unit * gmap string Resolved :=
  if has nodes key then (Throw (alreadyExists key), nodes)
  else
    match dependencies ≫= firstMissing nodes with
    | Some dependencyKey => (Throw (notFound dependencyKey), nodes)
    | None =>
        (Normal (),
         <[key := provideDependencies fn (default [] dependencies)]> nodes)
    end.

(** What a promise of this program is fulfilled with. *)
Inductive Settled : Type :=
  | OfValue (v : Value)
  | OfEntry (key : Key) (v : Value)
  | OfEntries (entries : list (Key * Value))
  | OfObject (o : ResultObject).

(** The code that waits for a promise. *)
Inductive Reaction : Type :=
  | ResumeComputation (rc : nat)
  | ResumeProvided (key : Key) (fn : AsyncComputationNode) (pw : nat)
  | ResumeReturn (pw : nat)
  | Catch (key : Key) (derived : nat)
  | ResumeEntry (key : Key) (cb : nat)
  | AllElement (index : nat) (all : nat)
  | ResumeDependencies (rd : nat)
  | Adopt (outer : nat).

Inductive PromiseState : Type :=
  | Pending (reactions : list Reaction)
  | Fulfilled (s : Settled)
  | Rejected (e : JSError).

Inductive Job : Type :=
  | React (r : Reaction) (c : Completion Settled)
  | ResolveThenable (outer : nat) (p : nat).

Record World : Type := MkWorld {
  promises : list PromiseState;
  collected : gmap nat (list (option (Key * Value)));
  cache : gmap string nat;
  jobs : list Job;
  external : gmap nat (Completion Value);
  invocations : list (Key * ResultObject);
  supplied : ResultObject
}.

Definition withPromises (ps : list PromiseState) (w : World) : World :=
  MkWorld ps (collected w) (cache w) (jobs w) (external w) (invocations w)
          (supplied w).
Definition withCollected (cs : gmap nat (list (option (Key * Value))))
    (w : World) : World :=
  MkWorld (promises w) cs (cache w) (jobs w) (external w) (invocations w)
          (supplied w).
Definition withJobs (js : list Job) (w : World) : World :=
  MkWorld (promises w) (collected w) (cache w) js (external w)
          (invocations w) (supplied w).
Definition withExternal (ext : gmap nat (Completion Value)) (w : World)
  : World :=
  MkWorld (promises w) (collected w) (cache w) (jobs w) ext (invocations w)
          (supplied w).

(** [results[key] = p], on the promise cache. *)
Definition setCache (key : Key) (p : nat) (w : World) : World :=
  MkWorld (promises w) (collected w) (<[key := p]> (cache w)) (jobs w)
          (external w) (invocations w) (supplied w).

(** The call of the user function of [key] is recorded with its second
    argument. *)
Definition record (key : Key) (deps : ResultObject) (w : World) : World :=
  MkWorld (promises w) (collected w) (cache w) (jobs w) (external w)
          (invocations w ++ [(key, deps)]) (supplied w).

Definition enqueue (job : Job) (w : World) : World :=
  withJobs (jobs w ++ [job]) w.

(** A new promise in the given state. *)
Definition allocate (state : PromiseState) (w : World) : nat * World :=
  (length (promises w), withPromises (promises w ++ [state]) w).

Definition newPromise (w : World) : nat * World := allocate (Pending []) w.

Definition settledState (c : Completion Settled) : PromiseState :=
  match c with Normal s => Fulfilled s | Throw e => Rejected e end.

(** Fulfil or reject the promise [p]; a promise settles once, and its
    reactions become jobs. *)
Definition settle (p : nat) (c : Completion Settled) (w : World) : World :=
  match promises w !! p with
  | Some (Pending reactions) =>
      withJobs (jobs w ++ ((λ r, React r c) <$> reactions))
        (withPromises (<[p := settledState c]> (promises w)) w)
  | _ => w
  end.

(** [await p] and [p.then(...)]: the reaction waits for [p], or becomes a
    job at once when [p] is settled already. *)
Definition subscribe (p : nat) (r : Reaction) (w : World) : World :=
  match promises w !! p with
  | Some (Pending reactions) =>
      withPromises (<[p := Pending (reactions ++ [r])]> (promises w)) w
  | Some (Fulfilled s) => enqueue (React r (Normal s)) w
  | Some (Rejected e) => enqueue (React r (Throw e)) w
  | None => w
  end.

(** [await v] for a value [v] that is not a promise: a promise fulfilled with
    [v] is made and awaited. *)
Definition awaitValue (v : Value) (r : Reaction) (w : World) : World :=
  let '(p, w) := allocate (Fulfilled (OfValue v)) w in
  subscribe p r w.

(** What [results[key]] reads on the promise cache when it holds no promise
    for [key]: the cache is a plain object, so this is the member of
    [Object.prototype] named [key] when there is one, and [undefined]
    otherwise. *)
Definition unfilled (key : Key) : Value := prop ∅ key.

(** [await results[key]] *)
Definition awaitSlot (key : Key) (r : Reaction) (w : World) : World :=
  match cache w !! key with
  | Some p => subscribe p r w
  | None => awaitValue (unfilled key) r w
  end.

(** [Promise.all(ps)]: an array of results to fill, one reaction per
    element; with no element the promise is fulfilled at once. *)
Fixpoint subscribeAll (all : nat) (index : nat) (ps : list nat) (w : World)
  : World :=
  match ps with
  | [] => w
  | p :: rest =>
      subscribeAll all (S index) rest (subscribe p (AllElement index all) w)
  end.

Definition promiseAll (ps : list nat) (w : World) : nat * World :=
  let '(all, w) := newPromise w in
  match ps with
  | [] => (all, settle all (Normal (OfEntries [])) w)
  | _ =>
      (all,
       subscribeAll all 0 ps
         (withCollected (<[all := replicate (length ps) None]> (collected w))
            w))
  end.

(** [Object.fromEntries]: a later entry overwrites an earlier one. *)
Definition fromEntries (entries : list (Key * Value)) : ResultObject :=
  foldl (λ o e, <[e.1 := e.2]> o) ∅ entries.

(** Readings of a settled value at the type the code expects; the types of
    the source exclude the other cases. *)
Definition asValue (s : Settled) : Value :=
  match s with OfValue v => v | _ => VUndefined end.
Definition asEntry (s : Settled) : Key * Value :=
  match s with OfEntry k v => (k, v) | _ => (EmptyString, VUndefined) end.
Definition asEntries (s : Settled) : list (Key * Value) :=
  match s with OfEntries es => es | _ => [] end.
Definition asObject (s : Settled) : ResultObject :=
  match s with OfObject o => o | _ => ∅ end.

Definition Resolver : Type := Key → P → World → option (nat * World).

Section Resolution.
Variable nodes : gmap string Resolved.

(** The callback of [keys.map] in [resolveDependencies], up to its
    [await]. *)
Definition entryOf (resolve : Resolver) (key : Key) (input : P) (w : World)
  : option (nat * World) :=
  let '(cb, w) := newPromise w in
  match
    match cache w !! key with
    | Some _ => Some w
    | None =>
        if truthy (unfilled key) then Some w
        else
          match resolve key input w with
          | None => None
          | Some (rc, w) =>
              let '(derived, w) := newPromise w in
              Some (setCache key derived
                      (subscribe rc (Catch key derived) w))
          end
    end
  with
  | None => None
  | Some w => Some (cb, awaitSlot key (ResumeEntry key cb) w)
  end.

Fixpoint mapEntries (resolve : Resolver) (keys : list Key) (input : P)
    (w : World) : option (list nat * World) :=
  match keys with
  | [] => Some ([], w)
  | key :: rest =>
      match entryOf resolve key input w with
      | None => None
      | Some (cb, w) =>
          match mapEntries resolve rest input w with
          | None => None
          | Some (cbs, w) => Some (cb :: cbs, w)
          end
      end
  end.

(** [resolveDependencies(keys, input, results)], up to its [await]. *)
Definition resolveDependenciesWith (resolve : Resolver) (keys : list Key)
    (input : P) (w : World) : option (nat * World) :=
  let '(rd, w) := newPromise w in
  match mapEntries resolve keys input w with
  | None => None
  | Some (asyncResults, w) =>
      let '(all, w) := promiseAll asyncResults w in
      Some (rd, subscribe all (ResumeDependencies rd) w)
  end.

(** A call [fn(input, results)] of a stored closure, up to its first
    [await]. *)
Definition callResolved (resolve : Resolver) (key : Key) (stored : Resolved)
    (input : P) (w : World) : option (nat * World) :=
  let '(pw, w) := newPromise w in
  match resolveDependenciesWith resolve (dependencies stored) input w with
  | None => None
  | Some (rd, w) =>
      Some (pw, subscribe rd (ResumeProvided key (userFn stored) pw) w)
  end.

(** [resolveComputation(key, input, results)], up to its [await]. *)
Fixpoint resolveComputation (fuel : nat) (key : Key) (input : P) (w : World)
  : option (nat * World) :=
  match fuel with
  | 0 => None
  | S fuel' =>
      let '(rc, w) := newPromise w in
      match cache w !! key with
      | Some result => Some (rc, subscribe result (ResumeComputation rc) w)
      | None =>
          if defined (unfilled key)
          then Some (rc, awaitValue (unfilled key) (ResumeComputation rc) w)
          else
            match nodes !! key with
            | None => Some (rc, settle rc (Throw (notFound key)) w)
            | Some fn =>
                match callResolved (resolveComputation fuel') key fn input w
                with
                | None => None
                | Some (p, w) =>
                    Some (rc, awaitSlot key (ResumeComputation rc)
                                (setCache key p w))
                end
            end
      end
  end.

Definition resolveDependencies (fuel : nat) (keys : list Key) (input : P)
    (w : World) : option (nat * World) :=
  resolveDependenciesWith (resolveComputation fuel) keys input w.

(** [[key, Promise.resolve(value)]], put into the new object. *)
Definition seed (entry : Key * Value) (w : World) : World :=
  let '(p, w) := allocate (Fulfilled (OfValue entry.2)) w in
  setCache entry.1 p w.

(** [resultsToPromises(results)]: a new object, with a fulfilled promise
    for each entry of [results]. *)
Definition resultsToPromises (results : ResultObject) (w : World) : World :=
  foldr seed w (map_to_list results).

(** The world in which a call of [get] or [getMany] starts. *)
Definition initial (results : ResultObject) : World :=
  MkWorld [] ∅ ∅ [] ∅ [] results.

(** [get(key, input, results)], up to the return of its promise. *)
Definition get (fuel : nat) (key : Key) (input : P) (results : ResultObject)
  : option (nat * World) :=
  let '(g, w) := newPromise (initial results) in
  if defined (prop results key)
  then Some (g, settle g (Normal (OfValue (prop results key))) w)
  else
    match resolveComputation fuel key input (resultsToPromises results w)
    with
    | None => None
    | Some (rc, w) => Some (g, enqueue (ResolveThenable g rc) w)
    end.

(** [getMany(keys, input, results)], up to the return of its promise. *)
Definition getMany (fuel : nat) (keys : list Key) (input : P)
    (results : ResultObject) : option (nat * World) :=
  let '(g, w) := newPromise (initial results) in
  match resolveDependencies fuel keys input (resultsToPromises results w)
  with
  | None => None
  | Some (rd, w) => Some (g, enqueue (ResolveThenable g rd) w)
  end.
End Resolution.

(** *** The event loop *)

(** The rest of an [async] function or promise combinator, resumed with the
    outcome [c] of the promise it waited for. *)
Definition react (input : P) (r : Reaction) (c : Completion Settled)
    (w : World) : World :=
  match r with
  | ResumeComputation rc => settle rc c w
  | ResumeProvided key fn pw =>
      match c with
      | Throw e => settle pw (Throw e) w
      | Normal s =>
          let resolvedDependencies := asObject s in
          let w := record key resolvedDependencies w in
          match fn input resolvedDependencies with
          | Throw e => settle pw (Throw e) w
          | Normal (Plainly v) => awaitValue v (ResumeReturn pw) w
          | Normal (Promised outcome) =>
              let '(u, w) := allocate (Pending [ResumeReturn pw]) w in
              withExternal (<[u := outcome]> (external w)) w
          end
      end
  | ResumeReturn pw => settle pw c w
  | Catch key derived =>
      match c with
      | Normal s => settle derived (Normal s) w
      | Throw error => settle derived (Throw (failedToResolve key error)) w
      end
  | ResumeEntry key cb =>
      match c with
      | Normal s => settle cb (Normal (OfEntry key (asValue s))) w
      | Throw e => settle cb (Throw e) w
      end
  | AllElement index all =>
      match c with
      | Throw e => settle all (Throw e) w
      | Normal s =>
          let values :=
            <[index := Some (asEntry s)]> (default [] (collected w !! all)) in
          let w := withCollected (<[all := values]> (collected w)) w in
          match mapM id values with
          | Some entries => settle all (Normal (OfEntries entries)) w
          | None => w
          end
      end
  | ResumeDependencies rd =>
      match c with
      | Normal s =>
          settle rd (Normal (OfObject (fromEntries (asEntries s)))) w
      | Throw e => settle rd (Throw e) w
      end
  | Adopt outer => settle outer c w
  end.

Definition runJob (input : P) (job : Job) (w : World) : World :=
  match job with
  | React r c => react input r c w
  | ResolveThenable outer p => subscribe p (Adopt outer) w
  end.

Inductive Event : Type :=
  | Microtask
  | Deliver (u : nat).

Definition liftOutcome (c : Completion Value) : Completion Settled :=
  match c with Normal v => Normal (OfValue v) | Throw e => Throw e end.

Definition step (input : P) (ev : Event) (w : World) : World :=
  match ev with
  | Microtask =>
      match jobs w with
      | [] => w
      | job :: rest => runJob input job (withJobs rest w)
      end
  | Deliver u =>
      match external w !! u with
      | Some outcome =>
          settle u (liftOutcome outcome)
            (withExternal (delete u (external w)) w)
      | None => w
      end
  end.

Definition run (input : P) (events : list Event) (w : World) : World :=
  foldl (λ w ev, step input ev w) w events.

(** The event loop left alone for [n] microtasks. *)
Definition drain (input : P) (n : nat) (w : World) : World :=
  run input (replicate n Microtask) w.

(** A sequence of [define] calls, failed ones included. *)
Definition defineAll
    (ds : list (Key * AsyncComputationNode * option (list Key)))
    (nodes : gmap string Resolved) : gmap string Resolved :=
  foldl (λ ns d, (define d.1.1 d.1.2 d.2 ns).2) nodes ds.

Definition constructed (nodes : gmap string Resolved) : Prop :=
  ∃ ds, nodes = defineAll ds ∅.

Definition dependsOn (nodes : gmap string Resolved) (d k : Key) : Prop :=
  ∃ stored, nodes !! k = Some stored ∧ d ∈ dependencies stored.

Definition acyclic (nodes : gmap string Resolved) : Prop :=
  ∀ k, ¬ tc (dependsOn nodes) k k.

Definition ranked (rank : Key → nat) (nodes : gmap string Resolved) : Prop :=
  (∀ d k, dependsOn nodes d k → is_Some (nodes !! d) ∧ rank d < rank k)
  ∧ (∀ k, is_Some (nodes !! k) → rank k < size nodes).

Definition timesCalled (key : Key) (log : list (Key * ResultObject)) : nat :=
  length (filter (λ c, c.1 = key) log).

(** The world at the moment a resolution call hands its promise [g] back to
    the caller: no job has run yet. *)
Definition started (nodes : gmap string Resolved) (input : P)
    (results : ResultObject) (g : nat) (w : World) : Prop :=
  (∃ fuel key, get nodes fuel key input results = Some (g, w))
  ∨ (∃ fuel keys, getMany nodes fuel keys input results = Some (g, w)).

(** *** Measures of the code that is still to run

    The reactions waiting in the heap and the jobs of the queue, weighed by
    [f] (and a job [ResolveThenable] by [t]). *)
Definition stateWeight (f : Reaction → nat) (state : PromiseState) : nat :=
  match state with
  | Pending reactions => sum_list_with f reactions
  | _ => 0
  end.

Definition jobWeight (f : Reaction → nat) (t : nat) (job : Job) : nat :=
  match job with
  | React r _ => f r
  | ResolveThenable _ _ => t
  end.

Definition measure (f : Reaction → nat) (t : nat) (w : World) : nat :=
  sum_list_with (stateWeight f) (promises w)
  + sum_list_with (jobWeight f t) (jobs w).

(** The closures of [provideDependencies] for [key] that have not called the
    user function yet. *)
Definition startsCall (key : Key) (r : Reaction) : nat :=
  match r with
  | ResumeProvided k _ _ => if decide (k = key) then 1 else 0
  | _ => 0
  end.

Definition pendingCalls (key : Key) (w : World) : nat :=
  measure (startsCall key) 0 w.

(** An upper bound of the number of jobs that the world can still run without
    the environment. *)
Definition workLeft (w : World) : nat :=
  measure (λ r, match r with ResumeProvided _ _ _ => 2 | _ => 1 end) 2 w.
End Graph.
Arguments AsyncComputationNode : clear implicits.
Arguments Resolved : clear implicits.
Arguments Reaction : clear implicits.
Arguments PromiseState : clear implicits.
Arguments Job : clear implicits.
Arguments World : clear implicits.
End Async.

(** ** The example graph of the documentation: height and temperature *)

Module WorldGen.
Record Params : Type := MkParams { x : Z; y : Z }.

Definition height : Sync.ComputationNode Params :=
  λ p _, Normal (VNum (x p + y p)).

(** [(p, {height}) => p.y - height] *)
Definition temperature : Sync.ComputationNode Params :=
  λ p deps,
    match prop deps "height" with
    | VNum h => Normal (VNum (y p - h))
    | _ => Throw (MkError "not a number")
    end.

Definition graph : gmap string (Sync.Stored Params) :=
  Sync.defineAll
    [("height", height, None); ("temperature", temperature, Some ["height"])]
    ∅.
End WorldGen.

(** The graph of the test about a dependency shared by two children; the
    value returned by the dependency is a parameter. *)
Module Shared.
Definition child (offset : Z) : Sync.ComputationNode unit :=
  λ _ deps,
    match prop deps "dependency" with
    | VNum n => Normal (VNum (n + offset))
    | _ => Normal (VStr "none")
    end.

Definition graph (returned : Value) : gmap string (Sync.Stored unit) :=
  Sync.defineAll
    [("dependency", (λ _ _, Normal returned), None);
     ("child1", child 1, Some ["dependency"]);
     ("child2", child 2, Some ["dependency"])]
    ∅.

Definition fresh : Sync.State := Sync.MkState ∅ [].
End Shared.

(** The same graph for the asynchronous manager; the dependency returns a
    promise. *)
Module SharedAsync.
Definition child (offset : Z) : Async.AsyncComputationNode unit :=
  λ _ deps,
    match prop deps "dependency" with
    | VNum n => Normal (Async.Plainly (VNum (n + offset)))
    | _ => Normal (Async.Plainly (VStr "none"))
    end.

Definition graph (outcome : Completion Value)
  : gmap string (Async.Resolved unit) :=
  Async.defineAll
    [("dependency", (λ _ _, Normal (Async.Promised outcome)), None);
     ("child1", child 1, Some ["dependency"]);
     ("child2", child 2, Some ["dependency"])]
    ∅.
End SharedAsync.

(** A chain of three nodes of the asynchronous manager: [top] needs [mid],
    which needs [base]; how the function of [base] ends is a parameter. *)
Module Chain.
Definition pass (key : Key) : Async.AsyncComputationNode unit :=
  λ _ deps, Normal (Async.Plainly (prop deps key)).

Definition graph (base : Completion Async.Returned)
  : gmap string (Async.Resolved unit) :=
  Async.defineAll
    [("base", (λ _ _, base), None);
     ("mid", pass "base", Some ["base"]);
     ("top", pass "mid", Some ["mid"])]
    ∅.

Definition boom : JSError := MkError "boom".
End Chain.

(** Graphs with a node named like a member of [Object.prototype]: [top]
    needs [toString]. *)
Module Named.
Definition graph : gmap string (Sync.Stored unit) :=
  Sync.defineAll
    [("toString", (λ _ _, Normal (VNum 1)), None);
     ("top", (λ _ deps, Normal (prop deps "toString")), Some ["toString"])]
    ∅.

Definition asyncGraph : gmap string (Async.Resolved unit) :=
  Async.defineAll
    [("toString", (λ _ _, Normal (Async.Plainly (VNum 1))), None);
     ("top", Chain.pass "toString", Some ["toString"])]
    ∅.
End Named.

Example worldgen_temperature :
  Sync.get WorldGen.graph 3 "temperature" (WorldGen.MkParams 1 5) (Sync.MkState ∅ [])
  = Some (Normal (VNum (-1)),
          Sync.MkState (<["temperature" := VNum (-1)]> (<["height" := VNum 6]> ∅))
                       [("height", ∅); ("temperature", <["height" := VNum 6]> ∅)]).
Proof. vm_compute. reflexivity. Qed.

(** ** Facts about plain objects *)

Module ObjectFacts.

Lemma inherited_defined key v : inherited key = Some v → defined v = true.
Proof. unfold inherited. destruct (decide _); [|done]. by intros [= <-]. Qed.

Lemma inherited_truthy key v : inherited key = Some v → truthy v = true.
Proof. unfold inherited. destruct (decide _); [|done]. by intros [= <-]. Qed.

Lemma accessor_inherited key : accessor key = true → is_Some (inherited key).
Proof.
  unfold accessor. intros ->%bool_decide_eq_true. vm_compute. eauto.
Qed.

Lemma prop_own (r : ResultObject) key v : r !! key = Some v → prop r key = v.
Proof. unfold prop. by intros ->. Qed.

Lemma prop_absent (r : ResultObject) key :
  r !! key = None → prop r key = default VUndefined (inherited key).
Proof. unfold prop. by intros ->. Qed.

Lemma prop_empty key : prop ∅ key = default VUndefined (inherited key).
Proof. apply prop_absent, lookup_empty. Qed.

(** A property reads as [undefined] when the object has it with that value,
    or has none of that name and inherits none. *)
Lemma prop_undefined (r : ResultObject) key :
  defined (prop r key) = false ↔
  r !! key = Some VUndefined ∨ (r !! key = None ∧ inherited key = None).
Proof.
  unfold prop. destruct (r !! key) as [v|] eqn:E.
  - split.
    + intros H. left. by destruct v.
    + by intros [[= ->]|[? _]].
  - destruct (inherited key) as [v|] eqn:Hin; simpl.
    + rewrite (inherited_defined _ _ Hin). split; [done|].
      by intros [?|[_ ?]].
    + split; [by right|done].
Qed.

Lemma prop_present (r : ResultObject) key :
  defined (prop r key) = true → is_Some (r !! key) ∨ is_Some (inherited key).
Proof.
  unfold prop. destruct (r !! key); [by left; eauto|].
  destruct (inherited key); [by right; eauto|done].
Qed.

Lemma assign_undefined (r : ResultObject) key v :
  defined (prop r key) = false → assign key v r = <[key := v]> r.
Proof.
  intros [H|[H Hin]]%prop_undefined; unfold assign; rewrite H; [done|].
  destruct (accessor key) eqn:Ha; [|done].
  apply accessor_inherited in Ha as [? ?]. congruence.
Qed.

Lemma assign_ne (r : ResultObject) key v j :
  j ≠ key → assign key v r !! j = r !! j.
Proof.
  intros Hne. unfold assign.
  destruct (r !! key); [by rewrite lookup_insert_ne|].
  destruct (accessor key); [done|by rewrite lookup_insert_ne].
Qed.

Lemma assign_is_Some (r : ResultObject) key v :
  accessor key = false → is_Some (assign key v r !! key).
Proof.
  intros Ha. unfold assign. rewrite Ha.
  destruct (r !! key); rewrite lookup_insert_eq; eauto.
Qed.

(** What a resolution leaves at a key whose function it does not call: the
    entry as it was or, when there was none and the key names a member of
    [Object.prototype], a new entry that holds that member. *)
Definition kept (r r' : ResultObject) (j : Key) : Prop :=
  r' !! j = r !! j
  ∨ (r !! j = None ∧ is_Some (inherited j) ∧ r' !! j = inherited j).

Lemma kept_refl r j : kept r r j.
Proof. by left. Qed.

Lemma kept_trans r1 r2 r3 j : kept r1 r2 j → kept r2 r3 j → kept r1 r3 j.
Proof.
  intros [H1|(H1 & Hi & H1')] [H2|(H2 & Hi2 & H2')].
  - left. congruence.
  - right. split; [congruence|]. split; [done|congruence].
  - right. split; [done|]. split; [done|congruence].
  - destruct Hi as [? ?]. congruence.
Qed.

Lemma kept_prop r r' j : kept r r' j → prop r' j = prop r j.
Proof.
  intros [H|(H & [v Hv] & H')]; unfold prop; [by rewrite H|].
  by rewrite H, H', Hv.
Qed.

Lemma kept_own r r' j : kept r r' j → is_Some (r !! j) → r' !! j = r !! j.
Proof. intros [H|(H & _)] [v Hv]; [done|congruence]. Qed.

Lemma kept_dom r r' j : kept r r' j → is_Some (r !! j) → is_Some (r' !! j).
Proof. intros K H. by rewrite (kept_own _ _ _ K H). Qed.

Lemma kept_plain r r' j : kept r r' j → inherited j = None → r' !! j = r !! j.
Proof. intros [H|(_ & [? ?] & _)] Hn; [done|congruence]. Qed.

(** Writing back the value just read, as the loop of [getMany] does. *)
Lemma assign_read (r : ResultObject) key j :
  is_Some (r !! key) ∨ is_Some (inherited key) →
  kept r (assign key (prop r key) r) j.
Proof.
  intros Hk. destruct (decide (j = key)) as [->|Hne].
  2:{ left. by apply assign_ne. }
  unfold assign, prop. destruct (r !! key) as [v|] eqn:E.
  - left. by rewrite insert_id.
  - destruct (accessor key); [by left|].
    destruct Hk as [[? ?]|[v Hv]]; [done|].
    right. split; [done|]. split; [by eauto|].
    by rewrite lookup_insert_eq, Hv.
Qed.
End ObjectFacts.

(** ** Facts about the synchronous graph *)

Module SyncFacts.
Import Sync ObjectFacts.
Section Facts.
Context {P : Type}.
Implicit Types (nodes : gmap string (Stored P)) (st : @State) (key : Key).
#[local] Arguments invoke : simpl never.
#[local] Arguments setResult : simpl never.

Lemma has_spec nodes key : has nodes key = true ↔ is_Some (nodes !! key).
Proof. unfold has. apply bool_decide_eq_true. Qed.

Lemma has_false nodes key : has nodes key = false ↔ nodes !! key = None.
Proof.
  unfold has. rewrite bool_decide_eq_false, eq_None_not_Some. done.
Qed.

Lemma firstMissing_None nodes deps :
  firstMissing nodes deps = None ↔ ∀ d, d ∈ deps → is_Some (nodes !! d).
Proof.
  induction deps as [|d deps IH]; simpl.
  - split; [intros _ d Hd; by apply elem_of_nil in Hd | done].
  - destruct (has nodes d) eqn:Hd.
    + rewrite IH. apply has_spec in Hd. split.
      * intros H d' [->|Hin]%elem_of_cons; auto.
      * intros H d' Hin. apply H. by right.
    + apply has_false in Hd. split; [done|].
      intros H. destruct (H d) as [s Hs]; [by left|congruence].
Qed.

Lemma firstMissing_Some nodes deps d :
  firstMissing nodes deps = Some d → d ∈ deps ∧ nodes !! d = None.
Proof.
  induction deps as [|d' deps IH]; simpl; [done|].
  destruct (has nodes d') eqn:Hd.
  - intros [? ?]%IH. split; [by right|done].
  - intros [= ->]. apply has_false in Hd. split; [by left|done].
Qed.

(** *** The registry: ranks and acyclicity *)

Lemma ranked_empty : ranked (λ _, 0) (∅ : gmap string (Stored P)).
Proof.
  split.
  - intros d k (s & Hs & _). by rewrite lookup_empty in Hs.
  - intros k [s Hs]. by rewrite lookup_empty in Hs.
Qed.

Lemma ranked_insert rank nodes key stored :
  ranked rank nodes →
  nodes !! key = None →
  (∀ d, d ∈ declared stored → is_Some (nodes !! d)) →
  ranked (λ k, if decide (k = key) then size nodes else rank k)
         (<[key := stored]> nodes).
Proof.
  intros [Hedge Hsize] Hfresh Hdeps. split.
  - intros d k (s & Hs & Hd).
    assert (is_Some (nodes !! d) ∧ d ≠ key) as [Hsome Hne].
    { destruct (decide (k = key)) as [->|Hk].
      - rewrite lookup_insert_eq in Hs. injection Hs as <-.
        split; [by apply Hdeps|]. intros ->.
        destruct (Hdeps key Hd) as [? ?]; congruence.
      - rewrite lookup_insert_ne in Hs by done.
        destruct (Hedge d k) as [Hsome _]; [by exists s|].
        split; [done|]. intros ->. destruct Hsome; congruence. }
    split.
    + rewrite lookup_insert_ne by done. done.
    + rewrite (decide_False (P := d = key)) by done.
      destruct (decide (k = key)) as [->|Hk]; [by apply Hsize|].
      rewrite lookup_insert_ne in Hs by done.
      apply (Hedge d k). by exists s.
  - intros k Hk. rewrite map_size_insert_None by done.
    destruct (decide (k = key)) as [->|Hne]; [lia|].
    rewrite lookup_insert_ne in Hk by done. apply Hsize in Hk. lia.
Qed.

Lemma define_ranked rank nodes key fn deps :
  ranked rank nodes → ∃ rank', ranked rank' (define key fn deps nodes).2.
Proof.
  intros Hr. unfold define.
  destruct (has nodes key) eqn:Hhas; [by exists rank|].
  apply has_false in Hhas.
  destruct deps as [deps|]; simpl.
  - destruct (firstMissing nodes deps) as [d|] eqn:Hm; [by exists rank|].
    eexists. apply ranked_insert; [done..|].
    by apply firstMissing_None.
  - eexists. apply ranked_insert; [done..|].
    intros d Hd. by apply elem_of_nil in Hd.
Qed.

Lemma defineAll_ranked ds nodes :
  (∃ rank, ranked rank nodes) → ∃ rank, ranked rank (defineAll ds nodes).
Proof.
  revert nodes. induction ds as [|[[key fn] deps] ds IH]; intros nodes [rank Hr].
  - by exists rank.
  - simpl. apply IH. by eapply define_ranked.
Qed.

Lemma constructed_ranked nodes : constructed nodes → ∃ rank, ranked rank nodes.
Proof.
  intros [ds ->]. apply defineAll_ranked. eexists. apply ranked_empty.
Qed.

Lemma ranked_tc rank nodes a b :
  ranked rank nodes → tc (dependsOn nodes) a b → rank a < rank b.
Proof.
  intros [Hedge _]. induction 1 as [a b H|a b c H _ IH].
  - by apply Hedge.
  - apply Hedge in H. lia.
Qed.

Lemma ranked_acyclic rank nodes : ranked rank nodes → acyclic nodes.
Proof. intros Hr k Hk. pose proof (ranked_tc _ _ _ _ Hr Hk). lia. Qed.

(** *** The call log *)

Lemma timesCalled_app key (l1 l2 : list (Key * ResultObject)) :
  timesCalled key (l1 ++ l2) = timesCalled key l1 + timesCalled key l2.
Proof. unfold timesCalled. by rewrite filter_app, length_app. Qed.

Lemma timesCalled_cons key k a (l : list (Key * ResultObject)) :
  timesCalled key ((k, a) :: l)
  = (if decide (k = key) then 1 else 0) + timesCalled key l.
Proof.
  unfold timesCalled. rewrite filter_cons. simpl.
  destruct (decide (k = key)); done.
Qed.

Lemma timesCalled_pos key (l : list (Key * ResultObject)) :
  0 < timesCalled key l ↔ ∃ a, (key, a) ∈ l.
Proof.
  induction l as [|[k a] l IH].
  - split; [cbn; lia|]. intros [a Ha]. by apply elem_of_nil in Ha.
  - rewrite timesCalled_cons. destruct (decide (k = key)) as [->|Hne].
    + split; [|lia]. intros _. exists a. by left.
    + simpl. rewrite IH. split.
      * intros [a' Ha']. exists a'. by right.
      * intros [a' [Heq|Hin]%elem_of_cons]; [congruence|by exists a'].
Qed.

Lemma timesCalled_zero key (l : list (Key * ResultObject)) :
  timesCalled key l = 0 ↔ ∀ a, (key, a) ∉ l.
Proof.
  split.
  - intros H a Ha. assert (0 < timesCalled key l); [|lia].
    apply timesCalled_pos. by exists a.
  - intros H. destruct (timesCalled key l) eqn:E; [done|].
    assert (0 < timesCalled key l) as [a Ha]%timesCalled_pos by lia.
    by destruct (H a).
Qed.

(** *** Runs of the resolver *)

Definition isNormal {A} (c : Completion A) : bool :=
  match c with Normal _ => true | Throw _ => false end.

Lemma setResult_results key v st :
  results (setResult key v st) = assign key v (results st).
Proof. done. Qed.

Lemma setResult_calls key v st : calls (setResult key v st) = calls st.
Proof. done. Qed.

Section Runs.
Variable nodes : gmap string (Stored P).
Variable rank : Key → nat.
Hypothesis Hranked : ranked rank nodes.

(** What one run of the resolver, from [st] to [st'] with the calls [l],
    does to the shared state.  [m] bounds the ranks of the nodes called. *)
Record Run (m : nat) (st : State) (normal : bool) (st' : State)
    (l : list (Key * ResultObject)) : Prop := {
  run_calls : calls st' = calls st ++ l;
  run_fresh : ∀ j a, (j, a) ∈ l →
    rank j < m ∧ defined (prop (results st) j) = false
    ∧ is_Some (nodes !! j);
  run_frame : ∀ j, timesCalled j l = 0 →
    kept (results st) (results st') j;
  run_once : ∀ j, neverUndefined nodes j → timesCalled j l ≤ 1;
  run_stored : normal = true → ∀ j, 0 < timesCalled j l →
    is_Some (results st' !! j)
    ∧ (neverUndefined nodes j → defined (prop (results st') j) = true);
  run_deps : normal = true → ∀ j stored d, 0 < timesCalled j l →
    nodes !! j = Some stored → d ∈ declared stored → accessor d = false →
    is_Some (results st' !! d);
  run_args : ∀ j a, (j, a) ∈ l →
    (∀ i, defined (prop (results st) i) = true → kept (results st) a i)
    ∧ (∀ stored d, nodes !! j = Some stored → d ∈ declared stored →
         accessor d = false → is_Some (a !! d))
    ∧ (normal = true → ∀ i, defined (prop a i) = true →
         kept a (results st') i)
}.

Lemma Run_nil m st b : Run m st b st [].
Proof.
  split; try done.
  - by rewrite app_nil_r.
  - intros j a Hin. by apply elem_of_nil in Hin.
  - intros j _. apply kept_refl.
  - intros j _. cbn. lia.
  - intros _ j. cbn. lia.
  - intros _ j s d. cbn. lia.
  - intros j a Hin. by apply elem_of_nil in Hin.
Qed.

Lemma Run_mono m m' st b st' l : m ≤ m' → Run m st b st' l → Run m' st b st' l.
Proof.
  intros Hle [H1 H2 H3 H4 H5 H6 H7]. split; try done.
  intros j a Hin. destruct (H2 j a Hin) as (? & ? & ?). split; [lia|done].
Qed.

(** Defined values are never overwritten. *)
Lemma Run_stable m st b st' l i :
  Run m st b st' l →
  defined (prop (results st) i) = true →
  kept (results st) (results st') i.
Proof.
  intros HR Hdef. apply (run_frame _ _ _ _ _ HR).
  apply timesCalled_zero. intros a Ha.
  destruct (run_fresh _ _ _ _ _ HR i a Ha) as (_ & Hu & _). congruence.
Qed.

Lemma Run_stable_prop m st b st' l i :
  Run m st b st' l →
  defined (prop (results st) i) = true →
  prop (results st') i = prop (results st) i.
Proof. intros HR Hdef. by eapply kept_prop, Run_stable. Qed.

(** Properties are never removed. *)
Lemma Run_dom m st st' l i :
  Run m st true st' l →
  is_Some (results st !! i) → is_Some (results st' !! i).
Proof.
  intros HR Hi. destruct (timesCalled i l) eqn:E.
  - eapply kept_dom; [|done]. by apply (run_frame _ _ _ _ _ HR i).
  - apply (run_stored _ _ _ _ _ HR eq_refl i). lia.
Qed.

Lemma Run_app m st st1 b st2 l1 l2 :
  Run m st true st1 l1 → Run m st1 b st2 l2 → Run m st b st2 (l1 ++ l2).
Proof.
  intros R1 R2.
  assert (Hfresh2 : ∀ j a, (j, a) ∈ l2 →
            defined (prop (results st) j) = false).
  { intros j a Hin.
    destruct (run_fresh _ _ _ _ _ R2 j a Hin) as (_ & Hu & _).
    destruct (defined (prop (results st) j)) eqn:Hd; [|done].
    rewrite (Run_stable_prop _ _ _ _ _ _ R1 Hd) in Hu. congruence. }
  split.
  - rewrite (run_calls _ _ _ _ _ R2), (run_calls _ _ _ _ _ R1).
    by rewrite app_assoc.
  - intros j a [Hin|Hin]%elem_of_app.
    + apply (run_fresh _ _ _ _ _ R1 j a Hin).
    + destruct (run_fresh _ _ _ _ _ R2 j a Hin) as (? & _ & ?).
      split; [done|]. split; [by eapply Hfresh2|done].
  - intros j. rewrite timesCalled_app. intros Hz.
    eapply kept_trans.
    + apply (run_frame _ _ _ _ _ R1 j). lia.
    + apply (run_frame _ _ _ _ _ R2 j). lia.
  - intros j Hj. rewrite timesCalled_app.
    pose proof (run_once _ _ _ _ _ R1 j Hj).
    pose proof (run_once _ _ _ _ _ R2 j Hj).
    destruct (timesCalled j l1) eqn:E1; [lia|].
    destruct (run_stored _ _ _ _ _ R1 eq_refl j) as [_ Hd]; [lia|].
    specialize (Hd Hj).
    destruct (timesCalled j l2) eqn:E2; [lia|].
    assert (0 < timesCalled j l2) as [a Ha]%timesCalled_pos by lia.
    destruct (run_fresh _ _ _ _ _ R2 j a Ha) as (_ & Hu & _). congruence.
  - intros -> j. rewrite timesCalled_app. intros Hpos.
    destruct (timesCalled j l2) eqn:E2.
    + pose proof (run_frame _ _ _ _ _ R2 j E2) as K.
      destruct (run_stored _ _ _ _ _ R1 eq_refl j) as [Hs Hd]; [lia|].
      split; [by eapply kept_dom|].
      intros Hnu. rewrite (kept_prop _ _ _ K). by apply Hd.
    + apply (run_stored _ _ _ _ _ R2 eq_refl j). lia.
  - intros -> j s d. rewrite timesCalled_app. intros Hpos Hs Hd Ha.
    destruct (timesCalled j l2) eqn:E2.
    + eapply Run_dom; [exact R2|].
      eapply (run_deps _ _ _ _ _ R1 eq_refl j); [lia|done..].
    + eapply (run_deps _ _ _ _ _ R2 eq_refl j); [lia|done..].
  - intros j a [Hin|Hin]%elem_of_app.
    + destruct (run_args _ _ _ _ _ R1 j a Hin) as (A1 & A2 & A3).
      split; [done|]. split; [done|].
      intros -> i Hi. eapply kept_trans; [by apply A3|].
      eapply Run_stable; [exact R2|].
      by rewrite (kept_prop _ _ _ (A3 eq_refl i Hi)).
    + destruct (run_args _ _ _ _ _ R2 j a Hin) as (A1 & A2 & A3).
      split; [|done].
      intros i Hi. eapply kept_trans; [by eapply Run_stable|].
      apply A1. by rewrite (Run_stable_prop _ _ _ _ _ _ R1 Hi).
Qed.

(** The assignment of the loop of [getMany], with the value that [get]
    returned for the key. *)
Lemma Run_write m st b key :
  is_Some (results st !! key) ∨ is_Some (inherited key) →
  Run m st b (setResult key (prop (results st) key) st) [].
Proof.
  intros Hk. split; try done.
  - by rewrite app_nil_r.
  - intros j a Hin. by apply elem_of_nil in Hin.
  - intros j _. by apply assign_read.
  - intros j _. cbn. lia.
  - intros _ j. cbn. lia.
  - intros _ j s d. cbn. lia.
  - intros j a Hin. by apply elem_of_nil in Hin.
Qed.

Lemma invoke_Run key stored params st c st1 st' :
  nodes !! key = Some stored →
  defined (prop (results st) key) = false →
  (∀ d, d ∈ declared stored → accessor d = false →
     is_Some (results st !! d)) →
  invoke key (userFunction stored) params st = (c, st1) →
  st' = match c with Normal v => setResult key v st1 | Throw _ => st1 end →
  Run (S (rank key)) st (isNormal c) st' [(key, results st)]
  ∧ (∀ v, c = Normal v → results st' = <[key := v]> (results st)).
Proof.
  intros Hs Hu Hdeps Hinv ->. unfold invoke in Hinv.
  injection Hinv as Hc <-.
  assert (Hone : ∀ j, 0 < timesCalled j [(key, results st)] → j = key).
  { intros j. rewrite timesCalled_cons.
    destruct (decide (key = j)); [done|cbn; lia]. }
  assert (Hnone : ∀ j, timesCalled j [(key, results st)] = 0 → j ≠ key).
  { intros j. rewrite timesCalled_cons.
    destruct (decide (key = j)); [cbn; lia|done]. }
  assert (Hw : ∀ v, results (setResult key v
                 (MkState (results st) (calls st ++ [(key, results st)])))
               = <[key := v]> (results st)).
  { intros v. rewrite setResult_results. by apply assign_undefined. }
  split; [split|].
  - by destruct c.
  - intros j a [= -> ->]%list_elem_of_singleton.
    split; [lia|]. split; [done|by exists stored].
  - intros j Hj%Hnone. left. destruct c; [|done].
    rewrite Hw. by rewrite lookup_insert_ne.
  - intros j _. rewrite timesCalled_cons. cbn.
    destruct (decide (key = j)); lia.
  - intros Hn j ->%Hone. destruct c as [v|]; [|done].
    rewrite Hw, lookup_insert_eq. split; [by exists v|].
    intros Hnu. unfold prop. rewrite lookup_insert_eq.
    destruct v; try done. by destruct (Hnu stored params (results st) Hs).
  - intros Hn j s d ->%Hone Hs' Hd Ha. destruct c as [v|]; [|done].
    rewrite Hw. apply lookup_insert_is_Some'. right. apply Hdeps; congruence.
  - intros j a [= -> ->]%list_elem_of_singleton.
    split; [intros; apply kept_refl|].
    split; [intros s d Hs' Hd; apply Hdeps; congruence|].
    intros Hn i Hi. left. destruct c as [v|]; [|done].
    rewrite Hw. rewrite lookup_insert_ne; [done|]. intros <-. congruence.
  - intros v ->. apply Hw.
Qed.

(** The resolver [get1] behaves as [get] is shown to behave below. *)
Definition GetSpec
    (get1 : Key → P → State → option (Completion Value * State)) : Prop :=
  ∀ key params st c st',
    get1 key params st = Some (c, st') →
    ∃ l, Run (S (rank key)) st (isNormal c) st' l
      ∧ (∀ v, c = Normal v →
           prop (results st') key = v
           ∧ (is_Some (results st' !! key) ∨ is_Some (inherited key))
           ∧ (defined (prop (results st) key) = false →
                results st' !! key = Some v))
      ∧ (defined (prop (results st) key) = false → isNormal c = true →
           timesCalled key l = 1)
      ∧ (defined (prop (results st) key) = true →
           l = [] ∧ st' = st ∧ c = Normal (prop (results st) key))
      ∧ (defined (prop (results st) key) = false → isNormal c = true →
           ∀ stored d, nodes !! key = Some stored → d ∈ declared stored →
             defined (prop (results st) d) = false → 0 < timesCalled d l).

Lemma getManyWith_Run get1 keys m params st c st' :
  GetSpec get1 →
  (∀ k, k ∈ keys → rank k < m) →
  getManyWith get1 keys params st = Some (c, st') →
  ∃ l, Run m st (isNormal c) st' l
    ∧ (isNormal c = true → ∀ k, k ∈ keys →
         (accessor k = false → is_Some (results st' !! k))
         ∧ (defined (prop (results st) k) = false → 0 < timesCalled k l)).
Proof.
  intros Hget. revert st. induction keys as [|k keys IH]; intros st Hm; simpl.
  - intros [= <- <-]. exists []. split; [apply Run_nil|].
    intros _ k Hk. by apply elem_of_nil in Hk.
  - destruct (get1 k params st) as [[[v|e] st1]|] eqn:Hk; [| |done].
    + apply Hget in Hk as (l1 & R1 & Hv & Hone & _ & _).
      destruct (Hv v eq_refl) as (Hread & Hin & _).
      intros Hrest. apply IH in Hrest as (l2 & R2 & Hpost).
      2:{ intros k' Hk'. apply Hm. by right. }
      assert (R1' : Run m st true (setResult k v st1) l1).
      { rewrite <- (app_nil_r l1). eapply Run_app.
        - eapply Run_mono; [|exact R1]. assert (rank k < m); [|lia].
          apply Hm. by left.
        - rewrite <- Hread. by apply Run_write. }
      exists (l1 ++ l2). split; [by eapply Run_app|].
      intros Hn k' [->|Hk']%elem_of_cons.
      * rewrite Hn in R2. split.
        -- intros Ha. eapply Run_dom; [exact R2|].
           rewrite setResult_results. by apply assign_is_Some.
        -- intros Hu. rewrite timesCalled_app, Hone by done. lia.
      * destruct (Hpost Hn k' Hk') as [Hsome Hcalled]. split; [done|].
        intros Hu. rewrite timesCalled_app.
        destruct (defined (prop (results (setResult k v st1)) k')) eqn:Hd1.
        -- destruct (timesCalled k' l1) eqn:E1; [|lia].
           rewrite (kept_prop _ _ _ (run_frame _ _ _ _ _ R1' k' E1)) in Hd1.
           congruence.
        -- specialize (Hcalled eq_refl). lia.
    + intros [= <- <-].
      apply Hget in Hk as (l1 & R1 & _). exists l1. split; [|done].
      eapply Run_mono; [|exact R1]. assert (rank k < m); [|lia].
      apply Hm. by left.
Qed.

Lemma get_Run fuel : GetSpec (get nodes fuel).
Proof using Hranked.
  induction fuel as [|fuel IH]; intros key params st c st'; [done|].
  simpl. destruct (defined (prop (results st) key)) eqn:Hdef.
  { intros [= <- <-]. exists []. split; [apply Run_nil|].
    split; [|done]. intros v [= <-].
    split; [done|]. split; [by apply prop_present|done]. }
  destruct (nodes !! key) as [stored|] eqn:Hs.
  2:{ intros [= <- <-]. exists []. split; [apply Run_nil|]. done. }
  destruct stored as [fn|fn deps]; unfold callStored.
  - destruct (invoke key fn params st) as [c1 st1] eqn:Hinv.
    intros Hres.
    assert (c = c1 ∧ st' = match c1 with
                            | Normal v => setResult key v st1
                            | Throw _ => st1 end) as [-> Hst'].
    { destruct c1; by injection Hres as <- <-. }
    destruct (invoke_Run key (Plain fn) params st c1 st1 st') as [R Hv];
      try done.
    { intros d Hd. by apply elem_of_nil in Hd. }
    exists [(key, results st)]. split; [done|]. split.
    { intros v Hc. rewrite (Hv v Hc). unfold prop.
      rewrite lookup_insert_eq. split; [done|]. split; [left; eauto|done]. }
    split; [|split; [done|]].
    * intros _ _. rewrite timesCalled_cons. by rewrite decide_True.
    * intros _ _ s d [= <-] Hd. by apply elem_of_nil in Hd.
  - destruct (getManyWith (get nodes fuel) deps params st)
      as [[[[]|e] st0]|] eqn:Hdeps; [| |done].
    + apply (getManyWith_Run _ _ (rank key)) in Hdeps as (l0 & R0 & Hpost);
        [|done|].
      2:{ intros d Hd. apply Hranked. exists (Provided fn deps). done. }
      specialize (Hpost eq_refl). simpl in R0.
      assert (Hz : timesCalled key l0 = 0).
      { apply timesCalled_zero. intros a Ha.
        destruct (run_fresh _ _ _ _ _ R0 key a Ha) as (? & _). lia. }
      destruct (invoke key fn params st0) as [c1 st1] eqn:Hinv.
      intros Hres.
      assert (c = c1 ∧ st' = match c1 with
                              | Normal v => setResult key v st1
                              | Throw _ => st1 end) as [-> Hst'].
      { destruct c1; by injection Hres as <- <-. }
      destruct (invoke_Run key (Provided fn deps) params st0 c1 st1 st')
        as [R Hv]; try done.
      { by rewrite (kept_prop _ _ _ (run_frame _ _ _ _ _ R0 key Hz)). }
      { intros d Hd. by apply Hpost. }
      exists (l0 ++ [(key, results st0)]). split.
      { eapply Run_app; [|exact R]. eapply Run_mono; [|exact R0]. lia. }
      split.
      { intros v Hc. rewrite (Hv v Hc). unfold prop.
        rewrite lookup_insert_eq. split; [done|]. split; [left; eauto|done]. }
      split; [|split; [done|]].
      * intros _ _. rewrite timesCalled_app, Hz, timesCalled_cons.
        by rewrite decide_True.
      * intros _ _ s d [= <-] Hd Hu. rewrite timesCalled_app.
        destruct (Hpost d Hd) as [_ Hc]. specialize (Hc Hu). lia.
    + intros [= <- <-].
      apply (getManyWith_Run _ _ (rank key)) in Hdeps as (l0 & R0 & _);
        [|done|].
      2:{ intros d Hd. apply Hranked. exists (Provided fn deps). done. }
      exists l0. split; [|done]. eapply Run_mono; [|exact R0]. lia.
Qed.


(** With fuel above the size of the registry the resolver returns. *)
Lemma getManyWith_total
    (get1 : Key → P → State → option (Completion Value * State))
    keys params st :
  (∀ k st, k ∈ keys → is_Some (get1 k params st)) →
  is_Some (getManyWith get1 keys params st).
Proof.
  revert st. induction keys as [|k keys IH]; intros st Hget; simpl; [done|].
  destruct (Hget k st) as [[[v|e] st1] ->]; [by left| |done].
  apply IH. intros k' st2 Hk'. apply Hget. by right.
Qed.

Lemma get_total fuel key params st :
  (is_Some (nodes !! key) → rank key < fuel) → 0 < fuel →
  is_Some (get nodes fuel key params st).
Proof using Hranked.
  revert key st. induction fuel as [|fuel IH]; intros key st Hr Hpos; [lia|].
  simpl. destruct (defined (prop (results st) key)); [done|].
  destruct (nodes !! key) as [[fn|fn deps]|] eqn:Hs; [| |done];
    unfold callStored.
  { by destruct (invoke key fn params st) as [[v|e] s1]. }
  destruct (getManyWith_total (get nodes fuel) deps params st) as [[c s0] ->].
  { intros d st0 Hd.
    destruct (proj1 Hranked d key) as [Hsome Hlt].
    { exists (Provided fn deps). done. }
    specialize (Hr (ltac:(done))). apply IH; lia. }
  destruct c as [[]|]; [|done].
  by destruct (invoke key fn params s0) as [[v|e] s1].
Qed.
End Runs.

End Facts.
End SyncFacts.

(** ** The claims about the synchronous graph *)

Section SyncClaims.
Import Sync ObjectFacts SyncFacts.
Context {P : Type}.
Implicit Types (nodes : gmap string (Stored P)) (st : @State).


(** A miss of the cache on a successful call: the function of the key is
    called exactly once. *)
Lemma get_computed nodes fuel key (params : P) st v st' :
  constructed nodes →
  defined (prop (results st) key) = false →
  get nodes fuel key params st = Some (Normal v, st') →
  timesCalled key (calls st') = S (timesCalled key (calls st))
  ∧ results st' !! key = Some v.
Proof.
  intros [rank Hr]%constructed_ranked Hu Hget.
  apply (get_Run nodes rank Hr) in Hget as (l & R & Hv & Hone & _).
  rewrite (run_calls _ _ _ _ _ _ _ R), timesCalled_app, (Hone Hu eq_refl).
  split; [lia|by apply (Hv v eq_refl)].
Qed.


(** C10.  In the synchronous graph a node whose function returned
    [undefined] is not cached: after such a [get] the slot of the key is
    still not defined, and the next successful [get] for the key on the same
    cache calls the function again.  In the graph where the dependency
    shared by [child1] and [child2] returns [undefined],
    [getMany(["child1", "child2"])] calls it twice. *)
Theorem sync_undefined_not_cached nodes key fuel1 fuel2 (params : P)
    st st1 v st2 :
  constructed nodes →
  get nodes fuel1 key params st = Some (Normal VUndefined, st1) →
  get nodes fuel2 key params st1 = Some (Normal v, st2) →
  defined (prop (results st1) key) = false
  ∧ timesCalled key (calls st2) = S (timesCalled key (calls st1))
  ∧ ∃ st', getMany (Shared.graph VUndefined) 3 ["child1"; "child2"] ()
             Shared.fresh = Some (Normal (), st')
           ∧ timesCalled "dependency" (calls st') = 2.
Proof.
  intros Hc G1 G2.
  assert (Hu : defined (prop (results st1) key) = false).
  { destruct (constructed_ranked _ Hc) as [rank Hr].
    apply (get_Run nodes rank Hr) in G1 as (l & R & Hv & _).
    destruct (Hv _ eq_refl) as (Hp & _). by rewrite Hp. }
  split; [done|]. split.
  - by destruct (get_computed nodes fuel2 key params st1 v st2).
  - eexists. split; [vm_compute; reflexivity|]. vm_compute. reflexivity.
Qed.
End SyncClaims.



Lemma sync_undefined_not_cached_witness :
  let st1 := Sync.MkState (<["dependency" := VUndefined]> ∅)
               [("dependency", ∅)] in
  let st2 := Sync.MkState (<["dependency" := VUndefined]> ∅)
               [("dependency", ∅);
                ("dependency", <["dependency" := VUndefined]> ∅)] in
  Sync.get (Shared.graph VUndefined) 1 "dependency" () Shared.fresh
    = Some (Normal VUndefined, st1)
  ∧ Sync.get (Shared.graph VUndefined) 1 "dependency" () st1
    = Some (Normal VUndefined, st2)
  ∧ defined (prop (Sync.results st1) "dependency") = false
  ∧ Sync.timesCalled "dependency" (Sync.calls st2)
    = S (Sync.timesCalled "dependency" (Sync.calls st1)).
Proof.
  intros st1 st2.
  assert (G1 : Sync.get (Shared.graph VUndefined) 1 "dependency" ()
                 Shared.fresh = Some (Normal VUndefined, st1))
    by (vm_compute; reflexivity).
  assert (G2 : Sync.get (Shared.graph VUndefined) 1 "dependency" () st1
               = Some (Normal VUndefined, st2))
    by (vm_compute; reflexivity).
  split; [exact G1|]. split; [exact G2|].
  destruct (sync_undefined_not_cached (Shared.graph VUndefined) "dependency"
              1 1 () Shared.fresh st1 VUndefined st2) as (H1 & H2 & _).
  - eexists. reflexivity.
  - exact G1.
  - exact G2.
  - split; [exact H1|exact H2].
Defined.

(** ** Facts about the asynchronous graph *)

Module AsyncFacts.
Import Async ObjectFacts.
Section Facts.
Context {P : Type}.
Implicit Types (w : World P) (nodes : gmap string (Resolved P)) (key : Key).
#[local] Arguments allocate : simpl never.
#[local] Arguments newPromise : simpl never.
#[local] Arguments settle : simpl never.
#[local] Arguments subscribe : simpl never.
#[local] Arguments enqueue : simpl never.
#[local] Arguments awaitSlot : simpl never.
#[local] Arguments awaitValue : simpl never.
#[local] Arguments setCache : simpl never.
#[local] Arguments record : simpl never.
#[local] Arguments withCollected : simpl never.
#[local] Arguments withExternal : simpl never.
#[local] Arguments withJobs : simpl never.
#[local] Arguments withPromises : simpl never.

Lemma sum_list_with_insert {A} (f : A → nat) (l : list A) i x y :
  l !! i = Some y →
  sum_list_with f (<[i := x]> l) + f y = sum_list_with f l + f x.
Proof.
  revert i. induction l as [|a l IH]; intros [|i]; simpl; try done.
  - intros [= ->]. lia.
  - intros H. specialize (IH i H). lia.
Qed.

(** *** What the promise cache reads without a slot *)

Lemma unfilled_inherited key v : inherited key = Some v → unfilled key = v.
Proof. intros H. unfold unfilled. by rewrite prop_empty, H. Qed.

Lemma unfilled_plain key : inherited key = None → unfilled key = VUndefined.
Proof. intros H. unfold unfilled. by rewrite prop_empty, H. Qed.

Lemma unfilled_defined key :
  defined (unfilled key) = true ↔ is_Some (inherited key).
Proof.
  unfold unfilled. rewrite prop_empty.
  destruct (inherited key) as [v|] eqn:Hin; simpl.
  - rewrite (inherited_defined _ _ Hin). split; eauto.
  - split; [done|]. by intros [? ?].
Qed.

Lemma unfilled_truthy key : truthy (unfilled key) = defined (unfilled key).
Proof.
  unfold unfilled. rewrite prop_empty.
  destruct (inherited key) as [v|] eqn:Hin; simpl; [|done].
  by rewrite (inherited_defined _ _ Hin), (inherited_truthy _ _ Hin).
Qed.

(** *** The measures under the operations on the world *)

Section Measure.
Variable f : Reaction P → nat.
Variable t : nat.

Lemma measure_allocate state w :
  measure f t (allocate state w).2 = measure f t w + stateWeight f state.
Proof.
  unfold measure, allocate. simpl. rewrite sum_list_with_app. simpl. lia.
Qed.

Lemma measure_settle p c w : measure f t (settle p c w) = measure f t w.
Proof.
  unfold settle. destruct (promises w !! p) as [[rs| |]|] eqn:Hp; try done.
  unfold measure. simpl. rewrite sum_list_with_app.
  pose proof (sum_list_with_insert (stateWeight f) _ _ (settledState c) _ Hp)
    as Hins.
  assert (stateWeight f (settledState c) = 0) as Hz by by destruct c.
  assert (sum_list_with (jobWeight f t) ((λ r, React r c) <$> rs)
          = sum_list_with f rs) as ->.
  { clear. induction rs; simpl; [done|]. by f_equal. }
  simpl in Hins. lia.
Qed.

Lemma measure_enqueue job w :
  measure f t (enqueue job w) = measure f t w + jobWeight f t job.
Proof.
  unfold measure, enqueue. simpl. rewrite sum_list_with_app. simpl. lia.
Qed.

Lemma measure_subscribe p r w :
  measure f t (subscribe p r w) ≤ measure f t w + f r.
Proof.
  unfold subscribe. destruct (promises w !! p) as [[rs| |]|] eqn:Hp.
  - unfold measure. simpl.
    pose proof (sum_list_with_insert (stateWeight f) _ _
                  (Pending (rs ++ [r])) _ Hp) as Hins.
    simpl in Hins. rewrite sum_list_with_app in Hins. simpl in Hins. lia.
  - rewrite measure_enqueue. done.
  - rewrite measure_enqueue. done.
  - lia.
Qed.

Lemma measure_awaitValue v r w :
  measure f t (awaitValue v r w) ≤ measure f t w + f r.
Proof.
  unfold awaitValue.
  pose proof (measure_allocate (Fulfilled (OfValue v)) w) as Ha.
  destruct (allocate (Fulfilled (OfValue v)) w) as [p w1]. simpl in Ha.
  etrans; [apply measure_subscribe|]. lia.
Qed.

Lemma measure_awaitSlot key r w :
  measure f t (awaitSlot key r w) ≤ measure f t w + f r.
Proof.
  unfold awaitSlot. destruct (cache w !! key).
  - apply measure_subscribe.
  - apply measure_awaitValue.
Qed.

Lemma measure_setCache key p w : measure f t (setCache key p w) = measure f t w.
Proof. done. Qed.

Lemma measure_withCollected cs w :
  measure f t (withCollected cs w) = measure f t w.
Proof. done. Qed.

Lemma measure_withExternal ext w :
  measure f t (withExternal ext w) = measure f t w.
Proof. done. Qed.

Lemma measure_record key o w : measure f t (record key o w) = measure f t w.
Proof. done. Qed.

Lemma measure_pop job rest w :
  jobs w = job :: rest →
  measure f t (withJobs rest w) + jobWeight f t job = measure f t w.
Proof. unfold measure. simpl. intros ->. simpl. lia. Qed.

Lemma measure_subscribeAll all index ps w :
  (∀ i, f (AllElement i all) = 0) →
  measure f t (subscribeAll all index ps w) ≤ measure f t w.
Proof.
  intros Hz. revert index w. induction ps as [|p ps IH]; intros index w; simpl.
  - done.
  - etrans; [apply IH|]. etrans; [apply measure_subscribe|].
    rewrite Hz. lia.
Qed.

Lemma measure_react input r c w :
  measure f t (react input r c w)
  ≤ measure f t w
    + match r with ResumeProvided _ _ pw => f (ResumeReturn pw) | _ => 0 end.
Proof.
  destruct r; cbn [react]; try (rewrite measure_settle; lia).
  - destruct c as [s|e]; [|rewrite measure_settle; lia].
    destruct (fn input (asObject s)) as [[v|outcome]|e].
    + etrans; [apply measure_awaitValue|]. by rewrite measure_record.
    + pose proof (measure_allocate (Pending [ResumeReturn pw])
                    (record key (asObject s) w)) as Ha.
      destruct (allocate _ _) as [u w1]. simpl in *.
      rewrite measure_withExternal, Ha, measure_record. lia.
    + rewrite measure_settle, measure_record. lia.
  - destruct c; rewrite measure_settle; lia.
  - destruct c; rewrite measure_settle; lia.
  - destruct c as [s|e]; [|rewrite measure_settle; lia].
    destruct (mapM id _); [rewrite measure_settle|]; rewrite measure_withCollected; lia.
  - destruct c; rewrite measure_settle; lia.
Qed.
End Measure.


(** *** The registry: ranks and acyclicity *)

Lemma async_has_spec nodes key : has nodes key = true ↔ is_Some (nodes !! key).
Proof. unfold has. apply bool_decide_eq_true. Qed.

Lemma async_has_false nodes key : has nodes key = false ↔ nodes !! key = None.
Proof. unfold has. rewrite bool_decide_eq_false, eq_None_not_Some. done. Qed.

Lemma async_firstMissing_None nodes deps :
  firstMissing nodes deps = None ↔ ∀ d, d ∈ deps → is_Some (nodes !! d).
Proof.
  induction deps as [|d deps IH]; simpl.
  - split; [intros _ d Hd; by apply elem_of_nil in Hd | done].
  - destruct (has nodes d) eqn:Hd.
    + rewrite IH. apply async_has_spec in Hd. split.
      * intros H d' [->|Hin]%elem_of_cons; auto.
      * intros H d' Hin. apply H. by right.
    + apply async_has_false in Hd. split; [done|].
      intros H. destruct (H d) as [s Hs]; [by left|congruence].
Qed.

Lemma async_firstMissing_Some nodes deps d :
  firstMissing nodes deps = Some d → d ∈ deps ∧ nodes !! d = None.
Proof.
  induction deps as [|d' deps IH]; simpl; [done|].
  destruct (has nodes d') eqn:Hd.
  - intros [? ?]%IH. split; [by right|done].
  - intros [= ->]. apply async_has_false in Hd. split; [by left|done].
Qed.

Lemma async_ranked_empty : ranked (λ _, 0) (∅ : gmap string (Resolved P)).
Proof.
  split.
  - intros d k (s & Hs & _). by rewrite lookup_empty in Hs.
  - intros k [s Hs]. by rewrite lookup_empty in Hs.
Qed.

Lemma async_ranked_insert rank nodes key stored :
  ranked rank nodes →
  nodes !! key = None →
  (∀ d, d ∈ dependencies stored → is_Some (nodes !! d)) →
  ranked (λ k, if decide (k = key) then size nodes else rank k)
         (<[key := stored]> nodes).
Proof.
  intros [Hedge Hsize] Hfresh Hdeps. split.
  - intros d k (s & Hs & Hd).
    assert (is_Some (nodes !! d) ∧ d ≠ key) as [Hsome Hne].
    { destruct (decide (k = key)) as [->|Hk].
      - rewrite lookup_insert_eq in Hs. injection Hs as <-.
        split; [by apply Hdeps|]. intros ->.
        destruct (Hdeps key Hd) as [? ?]; congruence.
      - rewrite lookup_insert_ne in Hs by done.
        destruct (Hedge d k) as [Hsome _]; [by exists s|].
        split; [done|]. intros ->. destruct Hsome; congruence. }
    split.
    + rewrite lookup_insert_ne by done. done.
    + rewrite (decide_False (P := d = key)) by done.
      destruct (decide (k = key)) as [->|Hk]; [by apply Hsize|].
      rewrite lookup_insert_ne in Hs by done.
      apply (Hedge d k). by exists s.
  - intros k Hk. rewrite map_size_insert_None by done.
    destruct (decide (k = key)) as [->|Hne]; [lia|].
    rewrite lookup_insert_ne in Hk by done. apply Hsize in Hk. lia.
Qed.

Lemma async_define_ranked rank nodes key fn deps :
  ranked rank nodes → ∃ rank', ranked rank' (define key fn deps nodes).2.
Proof.
  intros Hr. unfold define.
  destruct (has nodes key) eqn:Hhas; [by exists rank|].
  apply async_has_false in Hhas.
  destruct deps as [deps|]; simpl.
  - destruct (firstMissing nodes deps) as [d|] eqn:Hm; [by exists rank|].
    eexists. apply async_ranked_insert; [done..|].
    by apply async_firstMissing_None.
  - eexists. apply async_ranked_insert; [done..|].
    intros d Hd. by apply elem_of_nil in Hd.
Qed.

Lemma async_defineAll_ranked ds nodes :
  (∃ rank, ranked rank nodes) → ∃ rank, ranked rank (defineAll ds nodes).
Proof.
  revert nodes. induction ds as [|[[key fn] deps] ds IH]; intros nodes [rank Hr].
  - by exists rank.
  - simpl. apply IH. by eapply async_define_ranked.
Qed.

Lemma async_constructed_ranked nodes :
  constructed nodes → ∃ rank, ranked rank nodes.
Proof.
  intros [ds ->]. apply async_defineAll_ranked. eexists.
  apply async_ranked_empty.
Qed.

Lemma async_ranked_tc rank nodes a b :
  ranked rank nodes → tc (dependsOn nodes) a b → rank a < rank b.
Proof.
  intros [Hedge _]. induction 1 as [a b H|a b c H _ IH].
  - by apply Hedge.
  - apply Hedge in H. lia.
Qed.

Lemma async_ranked_acyclic rank nodes : ranked rank nodes → acyclic nodes.
Proof. intros Hr k Hk. pose proof (async_ranked_tc _ _ _ _ Hr Hk). lia. Qed.

(** *** Calls made and calls to come *)

Definition total (key : Key) (w : World P) : nat :=
  timesCalled key (invocations w) + pendingCalls key w.

(** Every function is called or about to be called at most once, and not at
    all while the slot of its key is empty. *)
Definition Counted (w : World P) : Prop :=
  ∀ k, total k w ≤ 1 ∧ (cache w !! k = None → total k w = 0).

(** A change of the world that starts no call and leaves the cache alone. *)
Definition Neutral (w w' : World P) : Prop :=
  cache w' = cache w ∧ ∀ k, total k w' ≤ total k w.

Lemma Neutral_refl w : Neutral w w.
Proof. by split. Qed.

Lemma Neutral_trans w1 w2 w3 : Neutral w1 w2 → Neutral w2 w3 → Neutral w1 w3.
Proof.
  intros [C1 T1] [C2 T2]. split; [congruence|].
  intros k. specialize (T1 k). specialize (T2 k). lia.
Qed.

Lemma invocations_settle p c w : invocations (settle p c w) = invocations w.
Proof. unfold settle. by destruct (promises w !! p) as [[]|]. Qed.

Lemma cache_settle p c w : cache (settle p c w) = cache w.
Proof. unfold settle. by destruct (promises w !! p) as [[]|]. Qed.

Lemma supplied_settle p c w : supplied (settle p c w) = supplied w.
Proof. unfold settle. by destruct (promises w !! p) as [[]|]. Qed.

Lemma invocations_subscribe p r w :
  invocations (subscribe p r w) = invocations w.
Proof. unfold subscribe. by destruct (promises w !! p) as [[]|]. Qed.

Lemma cache_subscribe p r w : cache (subscribe p r w) = cache w.
Proof. unfold subscribe. by destruct (promises w !! p) as [[]|]. Qed.

Lemma supplied_subscribe p r w : supplied (subscribe p r w) = supplied w.
Proof. unfold subscribe. by destruct (promises w !! p) as [[]|]. Qed.

Lemma invocations_awaitValue v r w :
  invocations (awaitValue v r w) = invocations w.
Proof. unfold awaitValue. simpl. by rewrite invocations_subscribe. Qed.

Lemma cache_awaitValue v r w : cache (awaitValue v r w) = cache w.
Proof. unfold awaitValue. simpl. by rewrite cache_subscribe. Qed.

Lemma supplied_awaitValue v r w : supplied (awaitValue v r w) = supplied w.
Proof. unfold awaitValue. simpl. by rewrite supplied_subscribe. Qed.

Lemma Neutral_allocate state w :
  (∀ k, stateWeight (startsCall k) state = 0) →
  Neutral w (allocate state w).2.
Proof.
  intros Hz. split; [done|]. intros k. unfold total, pendingCalls.
  rewrite measure_allocate, Hz. simpl. lia.
Qed.

Lemma Neutral_newPromise w p w' : newPromise w = (p, w') → Neutral w w'.
Proof.
  intros H. replace w' with (allocate (Pending []) w).2.
  - by apply Neutral_allocate.
  - unfold newPromise in H. by rewrite H.
Qed.

Lemma Neutral_settle p c w : Neutral w (settle p c w).
Proof.
  split; [apply cache_settle|]. intros k. unfold total, pendingCalls.
  by rewrite measure_settle, invocations_settle.
Qed.

Lemma Neutral_subscribe p r w :
  (∀ k, startsCall k r = 0) → Neutral w (subscribe p r w).
Proof.
  intros Hz. split; [apply cache_subscribe|]. intros k.
  unfold total, pendingCalls. rewrite invocations_subscribe.
  pose proof (measure_subscribe (startsCall k) 0 p r w). rewrite Hz in *. lia.
Qed.

Lemma Neutral_enqueue job w :
  (∀ k, jobWeight (startsCall k) 0 job = 0) → Neutral w (enqueue job w).
Proof.
  intros Hz. split; [done|]. intros k. unfold total, pendingCalls.
  rewrite measure_enqueue, Hz. simpl. lia.
Qed.

Lemma Neutral_awaitValue v r w :
  (∀ k, startsCall k r = 0) → Neutral w (awaitValue v r w).
Proof.
  intros Hz. unfold awaitValue.
  pose proof (Neutral_allocate (Fulfilled (OfValue v)) w) as Ha.
  destruct (allocate (Fulfilled (OfValue v)) w) as [p w1]. simpl in Ha.
  eapply Neutral_trans; [by apply Ha|]. by apply Neutral_subscribe.
Qed.

Lemma Neutral_awaitSlot key r w :
  (∀ k, startsCall k r = 0) → Neutral w (awaitSlot key r w).
Proof.
  intros Hz. unfold awaitSlot. destruct (cache w !! key).
  - by apply Neutral_subscribe.
  - by apply Neutral_awaitValue.
Qed.

Lemma Neutral_subscribeAll all index ps w :
  Neutral w (subscribeAll all index ps w).
Proof.
  revert index w. induction ps as [|p ps IH]; intros index w; simpl.
  - apply Neutral_refl.
  - eapply Neutral_trans; [|apply IH]. by apply Neutral_subscribe.
Qed.

Lemma Neutral_promiseAll ps w all w' :
  promiseAll ps w = (all, w') → Neutral w w'.
Proof.
  unfold promiseAll. destruct (newPromise w) as [a w1] eqn:Hn.
  apply Neutral_newPromise in Hn.
  destruct ps as [|p ps]; intros [= <- <-].
  - eapply Neutral_trans; [done|]. apply Neutral_settle.
  - eapply Neutral_trans; [done|].
    eapply Neutral_trans; [|apply Neutral_subscribeAll].
    eapply Neutral_trans; [|by apply Neutral_subscribe]. by split.
Qed.

(** *** The synchronous part of a resolution: at most one call per key *)

Section Counting.
Variable nodes : gmap string (Resolved P).
Variable rank : Key → nat.
Hypothesis Hranked : ranked rank nodes.

(** A change of the world that keeps the count and touches only keys of
    rank below [m]. *)
Definition Confined (m : nat) (w w' : World P) : Prop :=
  (Counted w → Counted w')
  ∧ (∀ j, m ≤ rank j → cache w' !! j = cache w !! j ∧ total j w' ≤ total j w)
  ∧ (∀ j, is_Some (cache w !! j) → is_Some (cache w' !! j)).

Lemma Confined_neutral m w w' : Neutral w w' → Confined m w w'.
Proof.
  intros [Hc Ht]. split; [|split].
  - intros HC k. destruct (HC k) as [H1 H2]. specialize (Ht k).
    split; [lia|]. rewrite Hc. intros Hn. specialize (H2 Hn). lia.
  - intros j _. by rewrite Hc.
  - intros j. by rewrite Hc.
Qed.

Lemma Confined_trans m w1 w2 w3 :
  Confined m w1 w2 → Confined m w2 w3 → Confined m w1 w3.
Proof.
  intros (A1 & B1 & C1) (A2 & B2 & C2). split; [|split]; [auto| |auto].
  intros j Hj. destruct (B1 j Hj) as [E1 ?], (B2 j Hj) as [E2 ?].
  split; [congruence|lia].
Qed.

Lemma Confined_mono m m' w w' : m ≤ m' → Confined m w w' → Confined m' w w'.
Proof.
  intros Hle (A & B & C). split; [|split]; [done| |done].
  intros j Hj. apply B. lia.
Qed.

Lemma Confined_setCache key p w : Confined (S (rank key)) w (setCache key p w).
Proof.
  split; [|split].
  - intros HC k. destruct (HC k) as [H1 H2]. split; [done|].
    unfold setCache; simpl. destruct (decide (k = key)) as [->|Hne].
    + by rewrite lookup_insert_eq.
    + by rewrite lookup_insert_ne.
  - intros j Hj. split; [|done]. unfold setCache; simpl.
    rewrite lookup_insert_ne; [done|]. intros ->. lia.
  - intros j Hj. unfold setCache; simpl. apply lookup_insert_is_Some'. by right.
Qed.

Definition ResolverSpec (resolve : Resolver) : Prop :=
  ∀ key (input : P) w p w',
    resolve key input w = Some (p, w') → Confined (S (rank key)) w w'.

Lemma entryOf_Confined resolve key (input : P) w cb w' :
  ResolverSpec resolve →
  entryOf resolve key input w = Some (cb, w') →
  Confined (S (rank key)) w w'.
Proof.
  intros Hres. unfold entryOf.
  destruct (newPromise w) as [cb0 w1] eqn:Hn. apply Neutral_newPromise in Hn.
  destruct (cache w1 !! key) as [q|] eqn:Hq.
  - intros [= <- <-]. apply Confined_neutral.
    eapply Neutral_trans; [done|]. by apply Neutral_awaitSlot.
  - destruct (truthy (unfilled key)).
    { intros [= <- <-]. apply Confined_neutral.
      eapply Neutral_trans; [done|]. by apply Neutral_awaitSlot. }
    destruct (resolve key input w1) as [[rc w2]|] eqn:Hr; [|done].
    apply Hres in Hr.
    destruct (newPromise w2) as [derived w3] eqn:Hn3.
    apply Neutral_newPromise in Hn3.
    intros [= <- <-].
    eapply Confined_trans; [by apply Confined_neutral|].
    eapply Confined_trans; [done|].
    eapply Confined_trans; [by apply Confined_neutral|].
    eapply Confined_trans;
      [apply Confined_neutral, (Neutral_subscribe rc (Catch key derived)); done|].
    eapply Confined_trans; [apply Confined_setCache|].
    apply Confined_neutral. by apply Neutral_awaitSlot.
Qed.

Lemma mapEntries_Confined resolve keys m (input : P) w cbs w' :
  ResolverSpec resolve →
  (∀ k, k ∈ keys → rank k < m) →
  mapEntries resolve keys input w = Some (cbs, w') →
  Confined m w w'.
Proof.
  intros Hres. revert w cbs.
  induction keys as [|k keys IH]; intros w cbs Hm; simpl.
  - intros [= <- <-]. apply Confined_neutral, Neutral_refl.
  - destruct (entryOf resolve k input w) as [[cb w1]|] eqn:He; [|done].
    apply entryOf_Confined in He; [|done].
    destruct (mapEntries resolve keys input w1) as [[cbs' w2]|] eqn:Hm'; [|done].
    intros [= <- <-]. apply IH in Hm'.
    2:{ intros k' Hk'. apply Hm. by right. }
    eapply Confined_trans; [|done].
    eapply Confined_mono; [|done]. assert (rank k < m); [|lia].
    apply Hm. by left.
Qed.

Lemma resolveDependenciesWith_Confined resolve keys m (input : P) w rd w' :
  ResolverSpec resolve →
  (∀ k, k ∈ keys → rank k < m) →
  resolveDependenciesWith resolve keys input w = Some (rd, w') →
  Confined m w w'.
Proof.
  intros Hres Hm. unfold resolveDependenciesWith.
  destruct (newPromise w) as [rd0 w1] eqn:Hn. apply Neutral_newPromise in Hn.
  destruct (mapEntries resolve keys input w1) as [[cbs w2]|] eqn:Hmap; [|done].
  apply (mapEntries_Confined _ _ m) in Hmap; [|done..].
  destruct (promiseAll cbs w2) as [all w3] eqn:Hall.
  apply Neutral_promiseAll in Hall.
  intros [= <- <-].
  eapply Confined_trans; [by apply Confined_neutral|].
  eapply Confined_trans; [done|].
  eapply Confined_trans; [by apply Confined_neutral|].
  apply Confined_neutral. by apply Neutral_subscribe.
Qed.

Lemma resolveComputation_Confined fuel :
  ResolverSpec (resolveComputation nodes fuel).
Proof using Hranked.
  induction fuel as [|fuel IH]; intros key input w p w'; [done|].
  cbn [resolveComputation].
  destruct (newPromise w) as [rc w1] eqn:Hn. apply Neutral_newPromise in Hn.
  destruct (cache w1 !! key) as [q|] eqn:Hq.
  { intros [= <- <-]. apply Confined_neutral.
    eapply Neutral_trans; [done|]. by apply Neutral_subscribe. }
  destruct (defined (unfilled key)).
  { intros [= <- <-]. apply Confined_neutral.
    eapply Neutral_trans; [done|]. by apply Neutral_awaitValue. }
  destruct (nodes !! key) as [stored|] eqn:Hs.
  2:{ intros [= <- <-]. apply Confined_neutral.
      eapply Neutral_trans; [done|]. apply Neutral_settle. }
  unfold callResolved.
  destruct (newPromise w1) as [pw w2] eqn:Hn2. apply Neutral_newPromise in Hn2.
  destruct (resolveDependenciesWith (resolveComputation nodes fuel)
              (dependencies stored) input w2) as [[rd w3]|] eqn:Hrd; [|done].
  apply (resolveDependenciesWith_Confined _ _ (rank key)) in Hrd; [|done|].
  2:{ intros d Hd. apply Hranked. by exists stored. }
  intros [= <- <-].
  set (w4 := subscribe rd (ResumeProvided key (userFn stored) pw) w3).
  set (w6 := awaitSlot key (ResumeComputation rc) (setCache key pw w4)).
  assert (H12 : Neutral w w2) by by eapply Neutral_trans.
  assert (Hlast : Neutral (setCache key pw w4) w6)
    by by apply Neutral_awaitSlot.
  destruct H12 as [C12 T12], Hrd as (A3 & B3 & D3), Hlast as [CL TL].
  assert (C6 : cache w6 = <[key := pw]> (cache w3)).
  { rewrite CL. unfold w4. change (cache (setCache key pw ?x))
      with (<[key := pw]> (cache x)). by rewrite cache_subscribe. }
  assert (T6 : ∀ k, total k w6
                    ≤ total k w3 + (if decide (key = k) then 1 else 0)).
  { intros k. etrans; [apply TL|].
    change (total k (setCache key pw w4)) with (total k w4).
    unfold total, pendingCalls, w4. rewrite invocations_subscribe.
    pose proof (measure_subscribe (startsCall k) 0 rd
                  (ResumeProvided key (userFn stored) pw) w3) as Hm.
    simpl in Hm. lia. }
  clearbody w4 w6. clear CL TL.
  split; [|split].
  - intros HC.
    assert (HC2 : Counted w2).
    { intros k. destruct (HC k) as [H1 H2]. specialize (T12 k).
      split; [lia|]. rewrite C12. intros Hnone. specialize (H2 Hnone). lia. }
    specialize (A3 HC2). intros k. rewrite C6. specialize (T6 k).
    destruct (A3 k) as [H1 H2].
    destruct (decide (key = k)) as [<-|Hne].
    + rewrite lookup_insert_eq. split; [|done].
      destruct (B3 key) as [_ Hle]; [lia|].
      destruct (HC key) as [_ Hz]. rewrite <- C12 in Hz.
      rewrite <- (proj1 Hn2) in Hq.
      specialize (Hz Hq). specialize (T12 key). lia.
    + rewrite lookup_insert_ne by done. split; [lia|].
      intros Hnone. specialize (H2 Hnone). lia.
  - intros j Hj. rewrite C6.
    assert (key ≠ j) by (intros ->; lia).
    rewrite lookup_insert_ne by done.
    destruct (B3 j) as [-> Hle]; [lia|]. rewrite C12. split; [done|].
    specialize (T6 j). specialize (T12 j).
    rewrite decide_False in T6 by done. lia.
  - intros j Hj. rewrite C6.
    apply lookup_insert_is_Some'. right. apply D3. by rewrite C12.
Qed.
End Counting.

(** *** The event loop: the count never grows *)

Lemma async_timesCalled_app key (l1 l2 : list (Key * ResultObject)) :
  timesCalled key (l1 ++ l2) = timesCalled key l1 + timesCalled key l2.
Proof. unfold timesCalled. by rewrite filter_app, length_app. Qed.

Lemma invocations_react (input : P) r c w :
  invocations (react input r c w)
  = invocations w
    ++ match r, c with
       | ResumeProvided key _ _, Normal s => [(key, asObject s)]
       | _, _ => []
       end.
Proof.
  destruct r; cbn [react];
    try (destruct c; rewrite invocations_settle, app_nil_r; done).
  - destruct c as [s|e]; [|by rewrite invocations_settle, app_nil_r].
    destruct (fn input (asObject s)) as [[v|outcome]|e]; try done.
    + by rewrite invocations_awaitValue.
    + by rewrite invocations_settle.
  - destruct c as [s|e]; [|by rewrite invocations_settle, app_nil_r].
    destruct (mapM id _); [rewrite invocations_settle|]; by rewrite app_nil_r.
Qed.

Lemma total_react (input : P) r c w k :
  total k (react input r c w) ≤ total k w + startsCall k r.
Proof.
  unfold total, pendingCalls. rewrite invocations_react, async_timesCalled_app.
  pose proof (measure_react (startsCall k) 0 input r c w) as Hm.
  assert (timesCalled k match r, c with
                        | ResumeProvided key _ _, Normal s => [(key, asObject s)]
                        | _, _ => []
                        end ≤ startsCall k r) as Hc.
  { destruct r; try (destruct c; cbn; lia).
    destruct c; [|cbn; lia]. unfold timesCalled. rewrite filter_cons. simpl.
    destruct (decide (key = k)); simpl; lia. }
  assert (match r with
          | ResumeProvided _ _ pw => startsCall (P := P) k (ResumeReturn pw)
          | _ => 0
          end = 0) as Hz by by destruct r.
  rewrite Hz in Hm. lia.
Qed.

Lemma total_step (input : P) ev w k : total k (step input ev w) ≤ total k w.
Proof.
  destruct ev as [|u]; simpl.
  - destruct (jobs w) as [|job rest] eqn:Hj; [done|].
    pose proof (measure_pop (startsCall k) 0 job rest w Hj) as Hpop.
    assert (total k (withJobs rest w) + jobWeight (startsCall k) 0 job
            = total k w) as <-.
    { unfold total, pendingCalls in *. simpl. lia. }
    destruct job as [r c|outer p]; simpl.
    + apply total_react.
    + etrans; [apply (Neutral_subscribe p (Adopt outer)); done|]. lia.
  - destruct (external w !! u); [|done].
    etrans; [apply Neutral_settle|]. done.
Qed.

Lemma total_run (input : P) events w k :
  total k (run input events w) ≤ total k w.
Proof.
  revert w. induction events as [|ev events IH]; intros w; simpl; [done|].
  etrans; [apply IH|]. apply total_step.
Qed.

(** *** The start of a resolution call *)

Lemma Counted_weaken w w' :
  (∀ k, total k w' ≤ total k w) →
  (∀ k, cache w' !! k = None → cache w !! k = None) →
  Counted w → Counted w'.
Proof.
  intros Ht Hc HC k. destruct (HC k) as [H1 H2]. specialize (Ht k).
  split; [lia|]. intros Hn. specialize (H2 (Hc k Hn)). lia.
Qed.

Lemma Counted_initial results : Counted (initial (P := P) results).
Proof. intros k. split; [cbn; lia|done]. Qed.

Lemma seed_Counted entry w : Counted w → Counted (seed entry w).
Proof.
  intros HC. unfold seed.
  pose proof (Neutral_allocate (Fulfilled (OfValue entry.2)) w) as [Hc Ht];
    [done|].
  destruct (allocate (Fulfilled (OfValue entry.2)) w) as [p w2]. simpl in *.
  eapply Counted_weaken; [| |exact HC].
  - intros k'. apply Ht.
  - intros k'. change (cache (setCache entry.1 p w2))
      with (<[entry.1 := p]> (cache w2)). rewrite Hc.
    destruct (decide (entry.1 = k')) as [->|Hne].
    + by rewrite lookup_insert_eq.
    + by rewrite lookup_insert_ne.
Qed.

Lemma resultsToPromises_Counted results w :
  Counted w → Counted (resultsToPromises results w).
Proof.
  unfold resultsToPromises. intros HC.
  induction (map_to_list results) as [|entry l IH]; cbn [foldr]; [done|].
  by apply seed_Counted.
Qed.

Lemma get_Counted nodes fuel key (input : P) results g w :
  constructed nodes →
  get nodes fuel key input results = Some (g, w) → Counted w.
Proof.
  intros [rank Hr]%async_constructed_ranked. unfold get.
  destruct (newPromise (initial results)) as [g0 w1] eqn:Hn.
  apply Neutral_newPromise in Hn.
  assert (HC1 : Counted w1).
  { destruct Hn as [Hc Ht].
    eapply Counted_weaken; [exact Ht| |apply Counted_initial].
    intros k. by rewrite Hc. }
  destruct (defined (prop results key)).
  - intros [= <- <-]. destruct (Neutral_settle g0
      (Normal (OfValue (prop results key))) w1) as [Hc Ht].
    eapply Counted_weaken; [exact Ht| |exact HC1]. intros k. by rewrite Hc.
  - destruct (resolveComputation nodes fuel key input
                (resultsToPromises results w1)) as [[rc w2]|] eqn:Hrc; [|done].
    intros [= <- <-].
    apply (resolveComputation_Confined nodes rank Hr) in Hrc as (A & _).
    specialize (A (resultsToPromises_Counted _ _ HC1)).
    eapply Counted_weaken; [| |exact A]; [|done].
    intros k. apply (Neutral_enqueue (ResolveThenable g0 rc) w2). done.
Qed.

Lemma getMany_Counted nodes fuel keys (input : P) results g w :
  constructed nodes →
  getMany nodes fuel keys input results = Some (g, w) → Counted w.
Proof.
  intros [rank Hr]%async_constructed_ranked. unfold getMany.
  destruct (newPromise (initial results)) as [g0 w1] eqn:Hn.
  apply Neutral_newPromise in Hn.
  assert (HC1 : Counted w1).
  { destruct Hn as [Hc Ht].
    eapply Counted_weaken; [exact Ht| |apply Counted_initial].
    intros k. by rewrite Hc. }
  destruct (resolveDependencies nodes fuel keys input
              (resultsToPromises results w1)) as [[rd w2]|] eqn:Hrd; [|done].
  intros [= <- <-].
  apply (resolveDependenciesWith_Confined rank _ _
           (S (max_list (rank <$> keys)))) in Hrd as (A & _).
  - specialize (A (resultsToPromises_Counted _ _ HC1)).
    eapply Counted_weaken; [| |exact A]; [|done].
    intros k. apply (Neutral_enqueue (ResolveThenable g0 rd) w2). done.
  - by apply resolveComputation_Confined.
  - intros k Hk. apply Nat.lt_succ_r, max_list_elem_of_le.
    by apply list_elem_of_fmap_2.
Qed.

Lemma started_Counted nodes (input : P) results g w :
  constructed nodes → started nodes input results g w → Counted w.
Proof.
  intros Hc [(fuel & key & H)|(fuel & keys & H)].
  - by eapply get_Counted.
  - by eapply getMany_Counted.
Qed.

(** The event loop never writes to the cache. *)
Lemma cache_react (input : P) r c w : cache (react input r c w) = cache w.
Proof.
  destruct r; cbn [react]; try (destruct c; by rewrite cache_settle).
  - destruct c as [s|e]; [|by rewrite cache_settle].
    destruct (fn input (asObject s)) as [[v|outcome]|e]; try done.
    + by rewrite cache_awaitValue.
    + by rewrite cache_settle.
  - destruct c as [s|e]; [|by rewrite cache_settle].
    destruct (mapM id _); [by rewrite cache_settle|done].
Qed.

Lemma cache_step (input : P) ev w : cache (step input ev w) = cache w.
Proof.
  destruct ev as [|u]; simpl.
  - destruct (jobs w) as [|[r c|outer p] rest]; [done| |].
    + simpl. by rewrite cache_react.
    + simpl. by rewrite cache_subscribe.
  - destruct (external w !! u); [|done]. by rewrite cache_settle.
Qed.

Lemma cache_run (input : P) events w : cache (run input events w) = cache w.
Proof.
  revert w. induction events as [|ev events IH]; intros w; simpl; [done|].
  by rewrite IH, cache_step.
Qed.

End Facts.
End AsyncFacts.

(** ** The promises of a resolution call

    Every promise that a call of [get] or [getMany] makes plays one part:
    it is a seed of the cache, the promise made to await an inherited member
    of the cache object, the promise of a [resolveComputation], of a
    closure of [provideDependencies], of a [catch], of a callback of
    [keys.map], of [Promise.all], of [resolveDependencies], of a user
    function, or the promise of the call.  The invariant below says, for
    each part, what the state of the promise tells about the promises it
    waits for; it holds when the call returns and after every job. *)

Module AsyncNetwork.
Import Async ObjectFacts AsyncFacts.

#[local] Arguments allocate : simpl never.
#[local] Arguments newPromise : simpl never.
#[local] Arguments settle : simpl never.
#[local] Arguments subscribe : simpl never.
#[local] Arguments enqueue : simpl never.
#[local] Arguments awaitSlot : simpl never.
#[local] Arguments awaitValue : simpl never.
#[local] Arguments setCache : simpl never.
#[local] Arguments record : simpl never.
#[local] Arguments withCollected : simpl never.
#[local] Arguments withExternal : simpl never.
#[local] Arguments withJobs : simpl never.
#[local] Arguments withPromises : simpl never.

Section Network.
Context {P : Type}.
Variable nodes : gmap string (Resolved P).
Variable input : P.
Implicit Types (w : World P) (key : Key).

(** The part that a promise plays in a resolution call. *)
Inductive Role : Type :=
  | Fresh
  | SeedOf (key : Key)
  | InheritedOf (key : Key)
  | ComputationOf (key : Key) (src : nat)
  | MissingOf (key : Key)
  | ProvidedOf (key : Key) (rd : nat)
  | CatchOf (key : Key) (src : nat)
  | EntryOf (key : Key) (src : nat)
  | AllOf (elems : list nat)
  | DependenciesOf (keys : list Key) (all : nat)
  | UserOf (pw : nat)
  | TopOf (src : nat).

(** The reaction [r] waits for the promise [q]: in its list, or as a job
    with the outcome of [q]. *)
Definition waits (w : World P) (r : Reaction P) (q : nat) : Prop :=
  (∃ rs, promises w !! q = Some (Pending rs) ∧ r ∈ rs)
  ∨ (∃ c, promises w !! q = Some (settledState c) ∧ React r c ∈ jobs w).

Definition fulfilled (w : World P) (q : nat) (s : Settled) : Prop :=
  promises w !! q = Some (Fulfilled s).
Definition rejected (w : World P) (q : nat) (e : JSError) : Prop :=
  promises w !! q = Some (Rejected e).

(** What the state of the promise [p] says about the promises it depends
    on, according to its role. *)
Definition Clause (N : list Role) (w : World P) (p : nat) (role : Role)
    (state : PromiseState P) : Prop :=
  match role with
  | Fresh => ∃ rs, state = Pending rs
  | SeedOf _ => ∃ v, state = Fulfilled (OfValue v)
  | InheritedOf key =>
      ∃ v, inherited key = Some v ∧ state = Fulfilled (OfValue v)
  | MissingOf key => state = Rejected (notFound key)
  | ComputationOf _ src =>
      match state with
      | Pending _ => waits w (ResumeComputation p) src
      | Fulfilled s => fulfilled w src s ∧ ∃ v, s = OfValue v
      | Rejected e => rejected w src e
      end
  | ProvidedOf key rd =>
      match state with
      | Pending _ =>
          (∃ fn, waits w (ResumeProvided key fn p) rd)
          ∨ ((∃ o, fulfilled w rd o)
             ∧ ∃ u, N !! u = Some (UserOf p) ∧ waits w (ResumeReturn p) u)
      | Fulfilled s => (∃ v, s = OfValue v) ∧ ∃ o, fulfilled w rd o
      | Rejected e => rejected w rd e ∨ ∃ o, fulfilled w rd o
      end
  | CatchOf key src =>
      match state with
      | Pending _ => waits w (Catch key p) src
      | Fulfilled s => fulfilled w src s ∧ ∃ v, s = OfValue v
      | Rejected e => ∃ e', rejected w src e' ∧ e = failedToResolve key e'
      end
  | EntryOf key src =>
      match state with
      | Pending _ => waits w (ResumeEntry key p) src
      | Fulfilled s => ∃ v, fulfilled w src (OfValue v) ∧ s = OfEntry key v
      | Rejected e => rejected w src e
      end
  | AllOf elems =>
      match state with
      | Pending _ =>
          ∃ values, collected w !! p = Some values
            ∧ length values = length elems
            ∧ ∀ i q, elems !! i = Some q →
                (values !! i = Some None ∧ waits w (AllElement i p) q)
                ∨ (∃ s, values !! i = Some (Some (asEntry s))
                        ∧ fulfilled w q s)
      | Fulfilled s =>
          ∃ entries, s = OfEntries entries
            ∧ Forall2 (λ q e, ∃ s', fulfilled w q s' ∧ e = asEntry s')
                elems entries
      | Rejected e => ∃ q, q ∈ elems ∧ rejected w q e
      end
  | DependenciesOf _ all =>
      match state with
      | Pending _ => waits w (ResumeDependencies p) all
      | Fulfilled s =>
          ∃ entries, fulfilled w all (OfEntries entries)
            ∧ s = OfObject (fromEntries entries)
      | Rejected e => rejected w all e
      end
  | UserOf pw =>
      (∃ key rd o, N !! pw = Some (ProvidedOf key rd) ∧ fulfilled w rd o)
      ∧ match state with Fulfilled s => ∃ v, s = OfValue v | _ => True end
  | TopOf src =>
      match state with
      | Pending _ => ResolveThenable p src ∈ jobs w ∨ waits w (Adopt p) src
      | Fulfilled s => fulfilled w src s
      | Rejected e => rejected w src e
      end
  end.

(** Roles of promises that are fulfilled with the value of a node. *)
Definition isValueRole (role : Role) : Prop :=
  match role with
  | SeedOf _ | InheritedOf _ | ComputationOf _ _ | MissingOf _
  | ProvidedOf _ _ | CatchOf _ _ | UserOf _ => True
  | _ => False
  end.

Definition ValueRole (N : list Role) (q : nat) : Prop :=
  ∃ role, N !! q = Some role ∧ isValueRole role.

(** The promise [rc] is that of a call [resolveComputation(key)] that found
    the slot of [key] empty. *)
Definition Computed (N : list Role) (key : Key) (rc : nat) : Prop :=
  N !! rc = Some (MissingOf key)
  ∨ ∃ pw rd, N !! rc = Some (ComputationOf key pw)
      ∧ N !! pw = Some (ProvidedOf key rd).

(** The promise [src] was in the slot of [key] when a callback of
    [resolveDependencies] started to wait for it. *)
Definition Awaited (N : list Role) (key : Key) (src : nat) : Prop :=
  N !! src = Some (SeedOf key) ∨ ∃ rc, N !! src = Some (CatchOf key rc).

(** The key whose cache slot the structure of the role depends on. *)
Definition slotKey (role : Role) : option Key :=
  match role with
  | EntryOf key _ | InheritedOf key => Some key
  | _ => None
  end.

(** The part of the structure of the network that never changes. *)
Definition Static (N : list Role) (w : World P) (role : Role) : Prop :=
  match role with
  | ProvidedOf key rd =>
      ∃ stored all, nodes !! key = Some stored
        ∧ N !! rd = Some (DependenciesOf (dependencies stored) all)
  | DependenciesOf keys all =>
      ∃ elems, N !! all = Some (AllOf elems)
        ∧ Forall2 (λ k q, ∃ src, N !! q = Some (EntryOf k src)) keys elems
  | EntryOf key src =>
      (cache w !! key = Some src ∧ Awaited N key src)
      ∨ N !! src = Some (InheritedOf key)
  | InheritedOf key => cache w !! key = None ∧ is_Some (inherited key)
  | ComputationOf _ src => ValueRole N src
  | CatchOf key src => Computed N key src
  | MissingOf key => nodes !! key = None
  | _ => True
  end.

(** The reaction [r] is the one that the promise it resumes expects on the
    promise [q]. *)
Definition Feeds (N : list Role) (r : Reaction P) (q : nat) : Prop :=
  match r with
  | ResumeComputation rc => ∃ key, N !! rc = Some (ComputationOf key q)
  | ResumeProvided key fn pw =>
      N !! pw = Some (ProvidedOf key q)
      ∧ ∃ stored, nodes !! key = Some stored ∧ fn = userFn stored
  | ResumeReturn pw => N !! q = Some (UserOf pw)
  | Catch key derived => N !! derived = Some (CatchOf key q)
  | ResumeEntry key cb => N !! cb = Some (EntryOf key q)
  | AllElement index all =>
      ∃ elems, N !! all = Some (AllOf elems) ∧ elems !! index = Some q
  | ResumeDependencies rd => ∃ keys, N !! rd = Some (DependenciesOf keys q)
  | Adopt outer => N !! outer = Some (TopOf q)
  end.

Definition JobOK (N : list Role) (w : World P) (job : Job P) : Prop :=
  match job with
  | React r c => ∃ q, Feeds N r q ∧ promises w !! q = Some (settledState c)
  | ResolveThenable outer src =>
      N !! outer = Some (TopOf src) ∧ is_Some (promises w !! src)
      ∧ src ≠ outer
  end.

(** The errors of this call come from a user function, or say that a key is
    not registered, under zero or more wrappings. *)
Definition Origin (w : World P) (e : JSError) : Prop :=
  (∃ key, nodes !! key = None ∧ e = notFound key)
  ∨ (∃ key o stored,
       (key, o) ∈ invocations w ∧ nodes !! key = Some stored
       ∧ (userFn stored input o = Throw e
          ∨ userFn stored input o = Normal (Promised (Throw e)))).

Definition Blamed (w : World P) (e : JSError) : Prop :=
  ∃ keys e0, e = foldr failedToResolve e0 keys ∧ Origin w e0.

Definition Issued (N : list Role) (w : World P) (u : nat)
    (outcome : Completion Value) : Prop :=
  (∃ pw, N !! u = Some (UserOf pw))
  ∧ ∃ key o stored,
      (key, o) ∈ invocations w ∧ nodes !! key = Some stored
      ∧ userFn stored input o = Normal (Promised outcome).

(** What [await results[key]] gives: the value that the promise in the slot
    of [key] is fulfilled with or, when the cache has no promise for [key],
    the member of [Object.prototype] of that name. *)
Definition slotYields (w : World P) (key : Key) (v : Value) : Prop :=
  (∃ q, cache w !! key = Some q ∧ fulfilled w q (OfValue v))
  ∨ (cache w !! key = None ∧ inherited key = Some v).

(** The second argument of a call: exactly the declared dependencies, each
    with the value that awaiting its slot gave. *)
Definition Exact (w : World P) (key : Key) (o : gmap string Value) : Prop :=
  ∃ stored, nodes !! key = Some stored
    ∧ (∀ d, is_Some (o !! d) ↔ d ∈ dependencies stored)
    ∧ ∀ d v, o !! d = Some v → slotYields w d v.

Definition SlotRole (top : option Key) (N : list Role) (key : Key) (q : nat)
  : Prop :=
  N !! q = Some (SeedOf key)
  ∨ (∃ src, N !! q = Some (CatchOf key src))
  ∨ (∃ rd, N !! q = Some (ProvidedOf key rd) ∧ top = Some key).

(** The promises in [B] are exempt from their clause while they are
    pending: a job taken from the queue is about to settle them, or their
    reactions are being registered. *)
Definition held (B : list nat) (p : nat) (state : PromiseState P) : Prop :=
  p ∉ B ∨ ∃ c, state = settledState c.

(** The invariant of a resolution call. *)
Record Inv (B : list nat) (top : option Key) (N : list Role) (w : World P)
  : Prop := {
  inv_len : length N = length (promises w);
  inv_clause : ∀ p role state,
    held B p state → N !! p = Some role → promises w !! p = Some state →
    Clause N w p role state;
  inv_static : ∀ p role, N !! p = Some role → Static N w role;
  inv_feeds : ∀ q rs r,
    promises w !! q = Some (Pending rs) → r ∈ rs → Feeds N r q;
  inv_jobs : ∀ job, job ∈ jobs w → JobOK N w job;
  inv_blame : ∀ p e, rejected w p e → Blamed w e;
  inv_calls : ∀ key o, (key, o) ∈ invocations w → Exact w key o;
  inv_external : ∀ u c, external w !! u = Some c → Issued N w u c;
  inv_cache : ∀ key q, cache w !! key = Some q → SlotRole top N key q
}.


(** *** Later worlds *)

Definition Ext (N N' : list Role) : Prop :=
  length N ≤ length N'
  ∧ ∀ p role, N !! p = Some role → role ≠ Fresh → N' !! p = Some role.

Definition target (r : Reaction P) : nat :=
  match r with
  | ResumeComputation rc => rc
  | ResumeProvided _ _ pw => pw
  | ResumeReturn pw => pw
  | Catch _ derived => derived
  | ResumeEntry _ cb => cb
  | AllElement _ all => all
  | ResumeDependencies rd => rd
  | Adopt outer => outer
  end.

Definition jobTarget (job : Job P) : nat :=
  match job with
  | React r _ => target r
  | ResolveThenable outer _ => outer
  end.

(** Two states of a promise that differ in the list of reactions at most. *)
Definition likeState (st st' : PromiseState P) : Prop :=
  st = st' ∨ ∃ rs rs', st = Pending rs ∧ st' = Pending rs'.

(** [w'] is a later world than [w]: settled promises stay as they are, the
    reactions and jobs of [w] are still there, but for the jobs in [X], and
    the promises outside [T] are in the state they were in. *)
Record Future (X : Job P → Prop) (T : list nat) (w w' : World P) : Prop := {
  fut_settled : ∀ q c,
    promises w !! q = Some (settledState c) →
    promises w' !! q = Some (settledState c);
  fut_pending : ∀ q rs r,
    promises w !! q = Some (Pending rs) → r ∈ rs →
    (∀ c, ¬ X (React r c)) → waits w' r q;
  fut_jobs : ∀ job, job ∈ jobs w → ¬ X job → job ∈ jobs w';
  fut_calls : ∀ x, x ∈ invocations w → x ∈ invocations w';
  fut_alive : ∀ q, is_Some (promises w !! q) → is_Some (promises w' !! q);
  fut_same : ∀ p, p ∉ T →
    collected w' !! p = collected w !! p
    ∧ ∀ st', promises w' !! p = Some st' →
        ∃ st, promises w !! p = Some st ∧ likeState st st'
}.

Definition nothing : Job P → Prop := λ _, False.

Lemma likeState_refl st : likeState st st.
Proof. by left. Qed.

Lemma likeState_trans st1 st2 st3 :
  likeState st1 st2 → likeState st2 st3 → likeState st1 st3.
Proof.
  intros [->|(rs & rs' & -> & ->)] [<-|(rs2 & rs2' & E & ->)];
    [by left|right; eauto|right; eauto|right; eauto].
Qed.

Lemma Ext_refl N : Ext N N.
Proof. by split. Qed.

Lemma Ext_trans N1 N2 N3 : Ext N1 N2 → Ext N2 N3 → Ext N1 N3.
Proof. intros [L1 H1] [L2 H2]. split; [lia|]. auto. Qed.

Lemma Ext_app N role : Ext N (N ++ [role]).
Proof.
  split; [rewrite length_app; simpl; lia|].
  intros p r Hp _. by apply lookup_app_l_Some.
Qed.

Lemma Ext_assign N t role :
  N !! t = Some Fresh → Ext N (<[t := role]> N).
Proof.
  intros Ht. split; [by rewrite length_insert|].
  intros p r Hp Hne. rewrite list_lookup_insert_ne; [done|].
  intros ->. congruence.
Qed.

Lemma Future_refl X T w : Future X T w w.
Proof.
  split; try done.
  - intros q rs r Hq Hr _. left. eauto.
  - intros p _. split; [done|]. intros st' H. exists st'. split; [done|].
    apply likeState_refl.
Qed.

Lemma waits_mono X T w w' r q :
  Future X T w w' → (∀ c, ¬ X (React r c)) → waits w r q → waits w' r q.
Proof.
  intros F HX [(rs & Hq & Hr)|(c & Hq & Hj)].
  - by eapply fut_pending.
  - right. exists c. split; [by eapply fut_settled|].
    eapply fut_jobs; [done..|apply HX].
Qed.

Lemma Future_trans X T w1 w2 w3 :
  Future X T w1 w2 → Future X T w2 w3 → Future X T w1 w3.
Proof.
  intros F1 F2. split.
  - intros q c Hq. eapply fut_settled; [done|]. by eapply fut_settled.
  - intros q rs r Hq Hr HX. eapply waits_mono; [done..|].
    by eapply fut_pending.
  - intros j Hj HX. eapply fut_jobs; [done| |done]. by eapply fut_jobs.
  - intros x Hx. eapply fut_calls; [done|]. by eapply fut_calls.
  - intros q Hq. eapply fut_alive; [done|]. by eapply fut_alive.
  - intros p Hp. destruct (fut_same _ _ _ _ F1 p Hp) as [C1 S1].
    destruct (fut_same _ _ _ _ F2 p Hp) as [C2 S2]. split; [congruence|].
    intros st' H3. destruct (S2 st' H3) as (st2 & H2 & L2).
    destruct (S1 st2 H2) as (st1 & H1 & L1). exists st1. split; [done|].
    by eapply likeState_trans.
Qed.

Lemma Future_weaken (X X' : Job P → Prop) T T' w w' :
  (∀ j, X j → X' j) → T ⊆ T' → Future X T w w' → Future X' T' w w'.
Proof.
  intros HX HT F. split.
  - apply F.
  - intros q rs r Hq Hr Hn. eapply fut_pending; [done..|].
    intros c Hc. by apply (Hn c), HX.
  - intros j Hj Hn. eapply fut_jobs; [done..|]. intros Hc. by apply Hn, HX.
  - apply F.
  - apply F.
  - intros p Hp. apply (fut_same _ _ _ _ F). intros Hin. by apply Hp, HT.
Qed.

Lemma fulfilled_mono X T w w' q s :
  Future X T w w' → fulfilled w q s → fulfilled w' q s.
Proof. intros F H. by apply (fut_settled _ _ _ _ F q (Normal s)). Qed.

Lemma rejected_mono X T w w' q e :
  Future X T w w' → rejected w q e → rejected w' q e.
Proof. intros F H. by apply (fut_settled _ _ _ _ F q (Throw e)). Qed.

(** The operations give later worlds. *)

Lemma Future_allocate X state w :
  Future X [length (promises w)] w (allocate state w).2.
Proof.
  assert (Hp : promises (allocate state w).2 = promises w ++ [state]) by done.
  split; try done.
  - intros q c Hq. rewrite Hp. by apply lookup_app_l_Some.
  - intros q rs r Hq Hr _. left. exists rs. rewrite Hp.
    split; [by apply lookup_app_l_Some|done].
  - intros q [st Hq]. rewrite Hp. exists st. by apply lookup_app_l_Some.
  - intros p Hn. split; [done|]. intros st'. rewrite Hp. intros H.
    apply lookup_app_Some in H as [H|[Hle H]].
    + exists st'. split; [done|apply likeState_refl].
    + destruct (p - length (promises w)) as [|n] eqn:E; [|done].
      exfalso. apply Hn. apply list_elem_of_singleton. lia.
Qed.

Lemma Future_same_promises X (w w' : World P) :
  promises w' = promises w → collected w' = collected w →
  (∀ j, j ∈ jobs w → j ∈ jobs w') →
  (∀ x, x ∈ invocations w → x ∈ invocations w') →
  Future X [] w w'.
Proof.
  intros Hp Hc Hj Hi. split.
  - intros q c. by rewrite Hp.
  - intros q rs r Hq Hr _. left. exists rs. by rewrite Hp.
  - intros j Hin _. auto.
  - done.
  - intros q. by rewrite Hp.
  - intros p _. rewrite Hp, Hc. split; [done|]. intros st' H. exists st'.
    split; [done|apply likeState_refl].
Qed.

Lemma Future_enqueue X job w : Future X [] w (enqueue job w).
Proof.
  apply Future_same_promises; try done.
  intros j Hj. unfold enqueue; simpl. apply elem_of_app. by left.
Qed.

Lemma Future_setCache X key p w : Future X [] w (setCache key p w).
Proof. by apply Future_same_promises. Qed.

Lemma Future_withExternal X ext w : Future X [] w (withExternal ext w).
Proof. by apply Future_same_promises. Qed.

Lemma Future_record X key o w : Future X [] w (record key o w).
Proof.
  apply Future_same_promises; try done.
  intros x Hx. unfold record; simpl. apply elem_of_app. by left.
Qed.

Lemma Future_withCollected X all values w :
  Future X [all] w (withCollected (<[all := values]> (collected w)) w).
Proof.
  split; try done.
  - intros q rs r Hq Hr _. left. eauto.
  - intros p Hp. split.
    + unfold withCollected; simpl. rewrite lookup_insert_ne; [done|].
      intros ->. apply Hp. by apply list_elem_of_singleton.
    + intros st' H. exists st'. split; [done|apply likeState_refl].
Qed.

Lemma Future_pop job rest w :
  jobs w = job :: rest → Future (λ j, j = job) [] w (withJobs rest w).
Proof.
  intros Hj. split; try done.
  - intros q rs r Hq Hr _. left. eauto.
  - intros j Hin Hne. rewrite Hj in Hin.
    apply elem_of_cons in Hin as [->|Hin]; [done|done].
  - intros p _. split; [done|]. intros st' H. exists st'.
    split; [done|apply likeState_refl].
Qed.

Lemma settle_pending p c w rs :
  promises w !! p = Some (Pending rs) →
  settle p c w
  = withJobs (jobs w ++ ((λ r, React r c) <$> rs))
      (withPromises (<[p := settledState c]> (promises w)) w).
Proof. intros H. unfold settle. by rewrite H. Qed.

Lemma settle_settled p c w c' :
  promises w !! p = Some (settledState c') → settle p c w = w.
Proof. intros H. unfold settle. rewrite H. by destruct c'. Qed.

Lemma settle_none p c w : promises w !! p = None → settle p c w = w.
Proof. intros H. unfold settle. by rewrite H. Qed.

Lemma state_cases (st : PromiseState P) :
  (∃ rs, st = Pending rs) ∨ (∃ c, st = settledState c).
Proof.
  destruct st as [rs|s|e]; [left; eauto|right; by exists (Normal s)|
                            right; by exists (Throw e)].
Qed.

Lemma Future_settle X p c w : Future X [p] w (settle p c w).
Proof.
  destruct (promises w !! p) as [st|] eqn:Hp.
  2:{ rewrite settle_none by done. apply Future_refl. }
  destruct (state_cases st) as [[rs ->]|[c' ->]].
  2:{ erewrite settle_settled by done. apply Future_refl. }
  rewrite (settle_pending _ _ _ _ Hp).
  assert (Hlt : p < length (promises w)) by by eapply lookup_lt_Some.
  split; simpl.
  - intros q c0 Hq. rewrite list_lookup_insert_ne; [done|].
    intros ->. rewrite Hp in Hq. by destruct c0.
  - intros q rs0 r Hq Hr _. destruct (decide (q = p)) as [->|Hne].
    + right. exists c. simpl. rewrite list_lookup_insert_eq by done.
      split; [done|]. apply elem_of_app. right.
      apply list_elem_of_fmap. exists r. split; [done|]. congruence.
    + left. exists rs0. simpl. by rewrite list_lookup_insert_ne.
  - intros j Hj _. apply elem_of_app. by left.
  - done.
  - intros q [st Hq]. destruct (decide (q = p)) as [->|Hne].
    + rewrite list_lookup_insert_eq by done. by eexists.
    + rewrite list_lookup_insert_ne by done. by eexists.
  - intros q Hq. split; [done|]. intros st'.
    rewrite list_lookup_insert_ne.
    + intros H. exists st'. split; [done|apply likeState_refl].
    + intros ->. apply Hq. by apply list_elem_of_singleton.
Qed.

Lemma subscribe_pending q r w rs :
  promises w !! q = Some (Pending rs) →
  subscribe q r w
  = withPromises (<[q := Pending (rs ++ [r])]> (promises w)) w.
Proof. intros H. unfold subscribe. by rewrite H. Qed.

Lemma subscribe_settled q r w c :
  promises w !! q = Some (settledState c) →
  subscribe q r w = enqueue (React r c) w.
Proof. intros H. unfold subscribe. rewrite H. by destruct c. Qed.

Lemma Future_subscribe X q r w : Future X [] w (subscribe q r w).
Proof.
  destruct (promises w !! q) as [st|] eqn:Hq.
  2:{ unfold subscribe. rewrite Hq. apply Future_refl. }
  destruct (state_cases st) as [[rs ->]|[c' ->]].
  2:{ erewrite subscribe_settled by done. apply Future_enqueue. }
  rewrite (subscribe_pending _ _ _ _ Hq).
  assert (Hlt : q < length (promises w)) by by eapply lookup_lt_Some.
  split; simpl; try done.
  - intros q' c0 Hq'. rewrite list_lookup_insert_ne; [done|].
    intros ->. rewrite Hq in Hq'. by destruct c0.
  - intros q' rs0 r0 Hq' Hr _. left. destruct (decide (q' = q)) as [->|Hne].
    + exists (rs ++ [r]). simpl. rewrite list_lookup_insert_eq by done.
      split; [done|]. apply elem_of_app. left. congruence.
    + exists rs0. simpl. by rewrite list_lookup_insert_ne.
  - intros q' [st Hq']. destruct (decide (q' = q)) as [->|Hne].
    + rewrite list_lookup_insert_eq by done. by eexists.
    + rewrite list_lookup_insert_ne by done. by eexists.
  - intros p _. split; [done|]. intros st'.
    destruct (decide (p = q)) as [->|Hne].
    + rewrite list_lookup_insert_eq by done. intros [= <-].
      exists (Pending rs). split; [done|]. right. eauto.
    + rewrite list_lookup_insert_ne by done. intros H. exists st'.
      split; [done|apply likeState_refl].
Qed.

(** After [subscribe] the reaction waits, when the promise exists. *)
Lemma subscribe_waits q r w :
  is_Some (promises w !! q) → waits (subscribe q r w) r q.
Proof.
  intros [st Hq]. destruct (state_cases st) as [[rs ->]|[c' ->]].
  - rewrite (subscribe_pending _ _ _ _ Hq). left. exists (rs ++ [r]). simpl.
    rewrite list_lookup_insert_eq by by eapply lookup_lt_Some.
    split; [done|]. apply elem_of_app. right. by apply list_elem_of_singleton.
  - rewrite (subscribe_settled _ _ _ _ Hq). right. exists c'.
    split; [done|]. unfold enqueue; simpl. apply elem_of_app. right.
    by apply list_elem_of_singleton.
Qed.

(** *** The invariant in a later world *)

Lemma ValueRole_mono N N' q : Ext N N' → ValueRole N q → ValueRole N' q.
Proof.
  intros [_ HE] (role & Hq & Hv). exists role. split; [|done].
  apply HE; [done|]. intros ->. done.
Qed.

Lemma Clause_like N w p role st st' :
  likeState st st' → Clause N w p role st → Clause N w p role st'.
Proof.
  intros [->|(rs & rs' & -> & ->)]; [done|].
  destruct role; simpl; try done.
  - intros _. eauto.
  - intros [v ?]. done.
  - intros (v & _ & ?). done.
Qed.

Lemma Clause_mono X T N N' w w' p role st :
  Ext N N' → Future X T w w' →
  (∀ rs, st = Pending rs →
     (∀ j, X j → jobTarget j ≠ p)
     ∧ collected w' !! p = collected w !! p) →
  Clause N w p role st → Clause N' w' p role st.
Proof.
  intros [_ HE] F Hpend.
  assert (HW : ∀ r q rs, st = Pending rs → target r = p →
                 waits w r q → waits w' r q).
  { intros r q rs Hst Ht. destruct (Hpend rs Hst) as [HX _].
    eapply waits_mono; [done|]. intros c Hc. by apply (HX _ Hc). }
  assert (HF : ∀ q s, fulfilled w q s → fulfilled w' q s)
    by (intros; by eapply fulfilled_mono).
  assert (HR : ∀ q e, rejected w q e → rejected w' q e)
    by (intros; by eapply rejected_mono).
  destruct role; simpl; try done.
  - destruct st; [by eapply HW|intros [? ?]; auto|auto].
  - destruct st.
    + intros [[fn Hw]|[[o Ho] (u & Hu & Hw)]].
      * left. exists fn. by eapply HW.
      * right. split; [eauto|]. exists u.
        split; [by apply HE|by eapply HW].
    + intros [? [o Ho]]. eauto.
    + intros [?|[o Ho]]; eauto.
  - destruct st; [by eapply HW|intros [? ?]; auto|].
    intros (e' & ? & ?). eauto.
  - destruct st; [by eapply HW| |auto].
    intros (v & ? & ?). eauto.
  - destruct st.
    + intros (values & Hc & Hl & Hall). exists values.
      destruct (Hpend _ eq_refl) as [_ ->].
      split; [done|]. split; [done|]. intros i q Hi.
      destruct (Hall i q Hi) as [[? Hw]|(s & ? & ?)].
      * left. split; [done|]. by eapply HW.
      * right. eauto.
    + intros (entries & -> & Hall). exists entries. split; [done|].
      eapply Forall2_impl; [done|]. intros q e (s' & ? & ?). eauto.
    + intros (q & ? & ?). eauto.
  - destruct st; [by eapply HW| |auto].
    intros (entries & ? & ?). eauto.
  - intros [(key & rd & o & Hpw & Ho) Hst]. split; [|done].
    exists key, rd, o. split; [by apply HE|auto].
  - destruct st; [|auto..].
    intros [Hj|Hw]; [left|right; by eapply HW].
    destruct (Hpend _ eq_refl) as [HX _].
    eapply fut_jobs; [done..|]. intros Hc. by apply (HX _ Hc).
Qed.

Lemma Computed_mono N N' key rc : Ext N N' → Computed N key rc → Computed N' key rc.
Proof.
  intros [_ HE] [?|(pw & rd & ? & ?)]; [left; by apply HE|right].
  exists pw, rd. split; by apply HE.
Qed.

Lemma Computed_value N key rc : Computed N key rc → ValueRole N rc.
Proof. intros [?|(pw & rd & ? & ?)]; eexists; (split; [done|done]). Qed.

Lemma Static_mono N N' w w' role :
  Ext N N' →
  (∀ k, slotKey role = Some k → cache w' !! k = cache w !! k) →
  Static N w role → Static N' w' role.
Proof.
  intros HEx Hc. pose proof HEx as [_ HE]. destruct role; simpl; try done.
  - by rewrite (Hc key eq_refl).
  - by apply ValueRole_mono.
  - intros (stored & all & ? & ?). exists stored, all. split; [done|].
    by apply HE.
  - by apply Computed_mono.
  - rewrite (Hc key eq_refl). intros [[? HA]|?]; [left|right; by apply HE].
    split; [done|].
    destruct HA as [?|[rc ?]]; [left|right; exists rc]; by apply HE.
  - intros (elems & Ha & Hall). exists elems. split; [by apply HE|].
    eapply Forall2_impl; [done|]. intros k q (src & ?). exists src.
    by apply HE.
Qed.

Lemma Feeds_mono N N' r q : Ext N N' → Feeds N r q → Feeds N' r q.
Proof.
  intros [_ HE]. destruct r; simpl.
  - intros (k & ?). exists k. by apply HE.
  - intros [? ?]. split; [by apply HE|done].
  - intros ?. by apply HE.
  - intros ?. by apply HE.
  - intros ?. by apply HE.
  - intros (elems & ? & ?). exists elems. split; [by apply HE|done].
  - intros (keys & ?). exists keys. by apply HE.
  - intros ?. by apply HE.
Qed.

Lemma JobOK_mono X T N N' w w' job :
  Ext N N' → Future X T w w' → JobOK N w job → JobOK N' w' job.
Proof.
  intros HEx F. destruct job as [r c|outer src]; simpl.
  - intros (q & Hf & Hq). exists q. split; [by eapply Feeds_mono|].
    by eapply fut_settled.
  - intros (? & ? & ?). split; [by apply HEx|]. split; [|done].
    by eapply fut_alive.
Qed.

Lemma Origin_mono X T w w' e : Future X T w w' → Origin w e → Origin w' e.
Proof.
  intros F [?|(key & o & stored & Hin & ?)]; [by left|right].
  exists key, o, stored. split; [by eapply fut_calls|done].
Qed.

Lemma Blamed_mono X T w w' e : Future X T w w' → Blamed w e → Blamed w' e.
Proof.
  intros F (keys & e0 & ? & ?). exists keys, e0. split; [done|].
  by eapply Origin_mono.
Qed.

Lemma Issued_mono X T N N' w w' u c :
  Ext N N' → Future X T w w' → Issued N w u c → Issued N' w' u c.
Proof.
  intros [_ HE] F [[pw Hu] (key & o & stored & Hin & ?)]. split.
  - exists pw. by apply HE.
  - exists key, o, stored. split; [by eapply fut_calls|done].
Qed.

Lemma SlotRole_mono top N N' key q :
  Ext N N' → SlotRole top N key q → SlotRole top N' key q.
Proof.
  intros [_ HE] [?|[(src & ?)|(rd & ? & ?)]].
  - left. by apply HE.
  - right. left. exists src. by apply HE.
  - right. right. exists rd. split; [by apply HE|done].
Qed.

Lemma SlotRole_top N key q top : SlotRole None N key q → SlotRole top N key q.
Proof. intros [?|[?|(rd & ? & ?)]]; [by left|by right; left|done]. Qed.

Lemma slotYields_mono X T w w' key v :
  Future X T w w' → cache w' = cache w →
  slotYields w key v → slotYields w' key v.
Proof.
  intros F Hc [(q & ? & ?)|[? ?]]; [left|right; by rewrite Hc].
  exists q. rewrite Hc. split; [done|]. by eapply fulfilled_mono.
Qed.

Lemma Exact_mono X T w w' key o :
  Future X T w w' → cache w' = cache w → Exact w key o → Exact w' key o.
Proof.
  intros F Hc (stored & ? & ? & Hv). exists stored. split; [done|].
  split; [done|]. intros d v Hd. eapply slotYields_mono; [done..|].
  by apply Hv.
Qed.

Lemma held_settled B p (c : Completion Settled) : held B p (settledState c).
Proof. right. eauto. Qed.

Lemma held_nil p st : held [] p st.
Proof. left. apply not_elem_of_nil. Qed.

Lemma held_like B p st st' : likeState st st' → held B p st' → held B p st.
Proof.
  intros [->|(rs & rs' & -> & ->)]; [done|].
  intros [?|[c Hc]]; [by left|by destruct c].
Qed.

Lemma Inv_change B B' top top' X T N N' w w' :
  Inv B top N w →
  Ext N N' → Future X T w w' →
  length N' = length (promises w') →
  (∀ j, X j → jobTarget j ∈ T) →
  (∀ p, p ∉ T → N' !! p = N !! p) →
  (∀ p, p ∉ T → p ∈ B → p ∈ B') →
  (∀ p role st, p ∈ T → held B' p st →
     N' !! p = Some role → promises w' !! p = Some st →
     Clause N' w' p role st) →
  (∀ p role, p ∈ T → N' !! p = Some role → Static N' w' role) →
  (∀ p role k, p ∉ T → N !! p = Some role → slotKey role = Some k →
     cache w' !! k = cache w !! k) →
  (∀ q rs r, promises w' !! q = Some (Pending rs) → r ∈ rs →
     (∃ rs0, promises w !! q = Some (Pending rs0) ∧ r ∈ rs0) ∨ Feeds N' r q) →
  (∀ j, j ∈ jobs w' → j ∈ jobs w ∨ JobOK N' w' j) →
  (∀ p e, rejected w' p e → rejected w p e ∨ Blamed w' e) →
  (∀ k o, (k, o) ∈ invocations w' →
     Exact w' k o ∨ ((k, o) ∈ invocations w ∧ cache w' = cache w)) →
  (∀ u c, external w' !! u = Some c →
     external w !! u = Some c ∨ Issued N' w' u c) →
  (∀ k q, cache w' !! k = Some q → SlotRole top' N' k q) →
  Inv B' top' N' w'.
Proof.
  intros I HEx F Hlen HX HN HBB HC HS1 HS2 HF HJ HB HCalls HU HSlot.
  split; try done.
  - intros p role st' Hheld Hrole Hst'.
    destruct (decide (p ∈ T)) as [Hin|Hout]; [by eapply HC|].
    rewrite (HN p Hout) in Hrole.
    destruct (fut_same _ _ _ _ F p Hout) as [Hcol Hsame].
    destruct (Hsame st' Hst') as (st & Hst & Hlike).
    eapply Clause_like; [done|]. eapply Clause_mono; [done..| |].
    + intros rs _. split; [|done].
      intros j Hj Heq. apply Hout. rewrite <- Heq. by apply (HX j).
    + eapply inv_clause; [done| |done..].
      eapply held_like; [done|]. destruct Hheld as [Hn|?]; [left|by right].
      intros Hb. apply Hn. by apply HBB.
  - intros p role Hrole.
    destruct (decide (p ∈ T)) as [Hin|Hout]; [by eapply HS1|].
    rewrite (HN p Hout) in Hrole.
    eapply Static_mono; [done| |by eapply inv_static].
    intros k Hk. by eapply HS2.
  - intros q rs r Hq Hr.
    destruct (HF q rs r Hq Hr) as [(rs0 & Hq0 & Hr0)|?]; [|done].
    eapply Feeds_mono; [done|]. by eapply inv_feeds.
  - intros j Hj. destruct (HJ j Hj) as [Hold|?]; [|done].
    eapply JobOK_mono; [done..|]. by eapply inv_jobs.
  - intros p e Hp. destruct (HB p e Hp) as [Hold|?]; [|done].
    eapply Blamed_mono; [done|]. by eapply inv_blame.
  - intros k o Hin. destruct (HCalls k o Hin) as [?|[Hold Hc]]; [done|].
    eapply Exact_mono; [done..|]. by eapply inv_calls.
  - intros u c Hu. destruct (HU u c Hu) as [Hold|?]; [|done].
    eapply Issued_mono; [done..|]. by eapply inv_external.
Qed.

(** The exemptions may be dropped for settled promises. *)
Lemma Inv_held B B' top N w :
  Inv B top N w →
  (∀ p st, promises w !! p = Some st → held B' p st → held B p st) →
  Inv B' top N w.
Proof.
  intros I Hh. split; try apply I.
  intros p role st Hheld Hrole Hst. eapply inv_clause; eauto.
Qed.

(** *** The operations and the invariant *)

Lemma external_settle p c w : external (settle p c w) = external w.
Proof. unfold settle. by destruct (promises w !! p) as [[]|]. Qed.

Lemma collected_settle p c w : collected (settle p c w) = collected w.
Proof. unfold settle. by destruct (promises w !! p) as [[]|]. Qed.

Lemma external_subscribe q r w : external (subscribe q r w) = external w.
Proof. unfold subscribe. by destruct (promises w !! q) as [[]|]. Qed.

Lemma collected_subscribe q r w : collected (subscribe q r w) = collected w.
Proof. unfold subscribe. by destruct (promises w !! q) as [[]|]. Qed.

Lemma length_settle p c w :
  length (promises (settle p c w)) = length (promises w).
Proof.
  unfold settle. destruct (promises w !! p) as [[]|]; try done.
  simpl. by rewrite length_insert.
Qed.

Lemma length_subscribe q r w :
  length (promises (subscribe q r w)) = length (promises w).
Proof.
  unfold subscribe. destruct (promises w !! q) as [[]|]; try done.
  simpl. by rewrite length_insert.
Qed.

Lemma rejected_back X T w w' p e :
  Future X T w w' → p ∉ T → rejected w' p e → rejected w p e.
Proof.
  intros F Hp Hr. destruct (fut_same _ _ _ _ F p Hp) as [_ Hs].
  destruct (Hs _ Hr) as (st & Hst & [->|(rs & rs' & _ & ?)]); done.
Qed.

Lemma pending_back X T w w' p rs' :
  Future X T w w' → p ∉ T → promises w' !! p = Some (Pending rs') →
  ∃ rs, promises w !! p = Some (Pending rs).
Proof.
  intros F Hp Hr. destruct (fut_same _ _ _ _ F p Hp) as [_ Hs].
  destruct (Hs _ Hr) as (st & Hst & [->|(rs & rs'' & -> & ?)]); eauto.
Qed.

Lemma subscribe_reactions q r w q0 rs' r0 :
  promises (subscribe q r w) !! q0 = Some (Pending rs') → r0 ∈ rs' →
  (∃ rs0, promises w !! q0 = Some (Pending rs0) ∧ r0 ∈ rs0)
  ∨ (q0 = q ∧ r0 = r).
Proof.
  destruct (promises w !! q) as [st|] eqn:Hq.
  2:{ unfold subscribe. rewrite Hq. eauto. }
  destruct (state_cases st) as [[rs ->]|[c' ->]].
  2:{ erewrite subscribe_settled by done. eauto. }
  rewrite (subscribe_pending _ _ _ _ Hq). simpl.
  destruct (decide (q0 = q)) as [->|Hne].
  - rewrite list_lookup_insert_eq by by eapply lookup_lt_Some.
    intros [= <-] [Hin|Hin%list_elem_of_singleton]%elem_of_app; eauto.
  - rewrite list_lookup_insert_ne by done. eauto.
Qed.

Lemma subscribe_jobs q r w job :
  job ∈ jobs (subscribe q r w) →
  job ∈ jobs w
  ∨ ∃ c, job = React r c ∧ promises w !! q = Some (settledState c).
Proof.
  destruct (promises w !! q) as [st|] eqn:Hq.
  2:{ unfold subscribe. rewrite Hq. eauto. }
  destruct (state_cases st) as [[rs ->]|[c' ->]].
  - rewrite (subscribe_pending _ _ _ _ Hq). eauto.
  - rewrite (subscribe_settled _ _ _ _ Hq). unfold enqueue; simpl.
    intros [?|Hj%list_elem_of_singleton]%elem_of_app; [eauto|].
    subst job. eauto.
Qed.

Lemma settle_state p c w rs :
  promises w !! p = Some (Pending rs) →
  promises (settle p c w) !! p = Some (settledState c).
Proof.
  intros Hp. rewrite (settle_pending _ _ _ _ Hp). simpl.
  apply list_lookup_insert_eq. by eapply lookup_lt_Some.
Qed.

Lemma settle_other p c w q :
  q ≠ p → promises (settle p c w) !! q = promises w !! q.
Proof.
  intros Hne. unfold settle. destruct (promises w !! p) as [[]|]; try done.
  simpl. by rewrite list_lookup_insert_ne.
Qed.

Lemma settle_reactions p c w q0 rs' :
  promises (settle p c w) !! q0 = Some (Pending rs') →
  promises w !! q0 = Some (Pending rs').
Proof.
  destruct (decide (q0 = p)) as [->|Hne]; [|by rewrite settle_other].
  intros H. destruct (promises w !! p) as [st|] eqn:Hp.
  2:{ rewrite settle_none in H by done. congruence. }
  destruct (state_cases st) as [[rs ->]|[c' ->]].
  - rewrite (settle_state _ _ _ _ Hp) in H. by destruct c.
  - erewrite settle_settled in H by done. congruence.
Qed.

Lemma settle_jobs p c w job :
  job ∈ jobs (settle p c w) →
  job ∈ jobs w
  ∨ ∃ rs r, promises w !! p = Some (Pending rs) ∧ r ∈ rs ∧ job = React r c.
Proof.
  destruct (promises w !! p) as [st|] eqn:Hp.
  2:{ rewrite settle_none by done. eauto. }
  destruct (state_cases st) as [[rs ->]|[c' ->]].
  2:{ erewrite settle_settled by done. eauto. }
  rewrite (settle_pending _ _ _ _ Hp). simpl.
  intros [?|(r & -> & ?)%list_elem_of_fmap]%elem_of_app; [eauto|].
  right. eauto.
Qed.

Lemma settle_rejected_back p c w q e :
  rejected (settle p c w) q e →
  rejected w q e
  ∨ (q = p ∧ c = Throw e ∧ ∃ rs, promises w !! p = Some (Pending rs)).
Proof.
  unfold rejected. destruct (decide (q = p)) as [->|Hne].
  2:{ rewrite settle_other by done. eauto. }
  intros H. destruct (promises w !! p) as [st|] eqn:Hp.
  2:{ rewrite settle_none in H by done. congruence. }
  destruct (state_cases st) as [[rs ->]|[c' ->]].
  - rewrite (settle_state _ _ _ _ Hp) in H. destruct c; [done|].
    injection H as ->. right. eauto.
  - erewrite settle_settled in H by done. left. congruence.
Qed.

Lemma lookup_snoc_role (N : list Role) role p :
  p ≠ length N → (N ++ [role]) !! p = N !! p.
Proof.
  intros Hne. destruct (decide (p < length N)).
  - by rewrite lookup_app_l.
  - rewrite !lookup_ge_None_2; [done|lia|]. rewrite length_app. simpl. lia.
Qed.

(** A callback of [keys.map] waits for the promise in the slot of its key,
    or for the promise made of the inherited member when the slot holds
    none. *)
Lemma Inv_entry B top N w q k src :
  Inv B top N w → N !! q = Some (EntryOf k src) →
  (cache w !! k = Some src ∧ Awaited N k src)
  ∨ (N !! src = Some (InheritedOf k) ∧ cache w !! k = None).
Proof.
  intros I Hq.
  destruct (inv_static _ _ _ _ I q (EntryOf k src) Hq) as [?|Hin]; [by left|].
  right. split; [done|].
  apply (inv_static _ _ _ _ I src (InheritedOf k) Hin).
Qed.

Lemma Inv_inherited B top N w q k :
  Inv B top N w → N !! q = Some (InheritedOf k) →
  cache w !! k = None ∧ is_Some (inherited k).
Proof. intros I Hq. apply (inv_static _ _ _ _ I q (InheritedOf k) Hq). Qed.

(** While the cache reads [undefined] under a key, no promise waits for its
    slot. *)
Lemma Inv_no_slot B top N w key :
  Inv B top N w → cache w !! key = None → inherited key = None →
  ∀ q role, N !! q = Some role → slotKey role ≠ Some key.
Proof.
  intros I Hc Hin q role Hq Hk. destruct role; try done; injection Hk as ->.
  - destruct (Inv_inherited _ _ _ _ _ _ I Hq) as [_ [? ?]]. congruence.
  - destruct (Inv_entry _ _ _ _ _ _ _ I Hq) as [[? _]|[Hi _]]; [congruence|].
    destruct (Inv_inherited _ _ _ _ _ _ I Hi) as [_ [? ?]]. congruence.
Qed.

Lemma Inv_entry_cache B top N w q k src p :
  Inv B top N w → N !! q = Some (EntryOf k src) → cache w !! k = Some p →
  p = src ∧ Awaited N k src.
Proof.
  intros I Hq Hp. destruct (Inv_entry _ _ _ _ _ _ _ I Hq) as [[? ?]|[_ ?]];
    [|congruence].
  split; [congruence|done].
Qed.

Lemma Inv_allocate B top N w state role p w' :
  allocate state w = (p, w') →
  Inv B top N w →
  Clause (N ++ [role]) w' p role state →
  Static (N ++ [role]) w' role →
  (∀ rs r, state = Pending rs → r ∈ rs → Feeds (N ++ [role]) r p) →
  (∀ e, state = Rejected e → Blamed w' e) →
  Inv B top (N ++ [role]) w' ∧ p = length N ∧ (N ++ [role]) !! p = Some role
  ∧ promises w' !! p = Some state.
Proof.
  intros Ha I HC HS HF HB.
  assert (Hw' : w' = (allocate state w).2) by by rewrite Ha.
  assert (Hp : p = length (promises w)) by by injection Ha.
  assert (HpN : p = length N) by by rewrite (inv_len _ _ _ _ I).
  assert (Hps : promises w' = promises w ++ [state]) by by rewrite Hw'.
  assert (Hca : cache w' = cache w) by by rewrite Hw'.
  assert (Hjo : jobs w' = jobs w) by by rewrite Hw'.
  assert (Hex : external w' = external w) by by rewrite Hw'.
  assert (Hin : invocations w' = invocations w) by by rewrite Hw'.
  assert (Hst : promises w' !! p = Some state).
  { rewrite Hps, Hp. by rewrite lookup_app_r, Nat.sub_diag. }
  assert (HN : (N ++ [role]) !! p = Some role).
  { rewrite HpN. by rewrite lookup_app_r, Nat.sub_diag. }
  split; [|done].
  eapply (Inv_change B B top top nothing [p]); try done.
  - apply Ext_app.
  - rewrite Hw', Hp. apply Future_allocate.
  - rewrite Hps, !length_app. simpl. by rewrite (inv_len _ _ _ _ I).
  - intros q Hq. apply lookup_snoc_role. intros ->. apply Hq.
    apply list_elem_of_singleton. done.
  - intros q r st ->%list_elem_of_singleton _ Hr Hs. congruence.
  - intros q r ->%list_elem_of_singleton Hr. congruence.
  - intros q role0 k _ _ _. rewrite Hca. done.
  - intros q rs r Hq Hr. rewrite Hps in Hq.
    apply lookup_app_Some in Hq as [Hq|[Hle Hq]]; [left; eauto|right].
    assert (q = p) as ->.
    { apply lookup_lt_Some in Hq. simpl in Hq. lia. }
    rewrite Hp, Nat.sub_diag in Hq. injection Hq as Hq. by eapply HF.
  - intros j Hj. left. by rewrite Hjo in Hj.
  - intros q e Hq. unfold rejected in Hq. rewrite Hps in Hq.
    apply lookup_app_Some in Hq as [Hq|[Hle Hq]]; [by left|right].
    assert (q = p) as ->.
    { apply lookup_lt_Some in Hq. simpl in Hq. lia. }
    rewrite Hp, Nat.sub_diag in Hq. injection Hq as Hq. by apply HB.
  - intros k o Hk. right. by rewrite Hin in Hk.
  - intros u c Hu. left. by rewrite Hex in Hu.
  - intros k q Hq. eapply SlotRole_mono; [apply Ext_app|].
    rewrite Hca in Hq. by eapply inv_cache.
Qed.

Lemma subscribe_other q r w t :
  t ≠ q → promises (subscribe q r w) !! t = promises w !! t.
Proof.
  intros Hne. unfold subscribe. destruct (promises w !! q) as [[]|]; try done.
  simpl. by rewrite list_lookup_insert_ne.
Qed.

Lemma Inv_subscribe B B' top N w q r role :
  Inv B top N w →
  N !! target r = Some Fresh ∨ N !! target r = Some role →
  q ≠ target r →
  is_Some (promises w !! q) →
  Feeds (<[target r := role]> N) r q →
  Static (<[target r := role]> N) w role →
  (∀ p, p ≠ target r → p ∈ B → p ∈ B') →
  (∀ st, promises w !! target r = Some st → held B' (target r) st →
     waits (subscribe q r w) r q →
     Clause (<[target r := role]> N) (subscribe q r w) (target r) role st) →
  Inv B' top (<[target r := role]> N) (subscribe q r w).
Proof.
  intros I Ht Hne Hq HFe HSt HBB HCl.
  set (t := target r) in *. set (N' := <[t := role]> N) in *.
  assert (Hlt : t < length N).
  { destruct Ht as [Ht|Ht]; by eapply lookup_lt_Some. }
  assert (HE : Ext N N').
  { destruct Ht as [Ht|Ht]; [by apply Ext_assign|].
    unfold N'. rewrite list_insert_id by done. apply Ext_refl. }
  eapply (Inv_change B B' top top nothing [t]); [exact I|exact HE|..].
  - eapply Future_weaken; [| |apply (Future_subscribe nothing)]; [done|].
    apply list_subseteq_nil.
  - unfold N'. rewrite length_insert, length_subscribe.
    exact (inv_len _ _ _ _ I).
  - intros j [].
  - intros p Hp. unfold N'. rewrite list_lookup_insert_ne; [done|].
    intros ->. apply Hp. by apply list_elem_of_singleton.
  - intros p Hp. apply HBB. intros ->. apply Hp.
    by apply list_elem_of_singleton.
  - intros p role' st Hp Hheld Hrole Hst.
    apply list_elem_of_singleton in Hp. subst p.
    unfold N' in Hrole. rewrite list_lookup_insert_eq in Hrole by done.
    injection Hrole as <-. rewrite subscribe_other in Hst by done.
    apply HCl; [done..|]. by apply subscribe_waits.
  - intros p role' Hp Hrole. apply list_elem_of_singleton in Hp. subst p.
    unfold N' in Hrole. rewrite list_lookup_insert_eq in Hrole by done.
    injection Hrole as <-.
    eapply Static_mono; [apply Ext_refl| |exact HSt].
    intros k _. by rewrite cache_subscribe.
  - intros p role0 k _ _ _. rewrite cache_subscribe. done.
  - intros q0 rs r0 Hq0 Hr0.
    destruct (subscribe_reactions _ _ _ _ _ _ Hq0 Hr0) as [?|[-> ->]];
      [by left|by right].
  - intros j Hj. destruct (subscribe_jobs _ _ _ _ Hj) as [?|(c & -> & Hc)];
      [by left|right].
    exists q. split; [done|].
    by apply (fut_settled _ _ _ _ (Future_subscribe nothing q r w)).
  - intros p e Hp. left.
    eapply rejected_back; [apply (Future_subscribe nothing)| |done].
    apply not_elem_of_nil.
  - intros k o Hin. right. rewrite invocations_subscribe in Hin.
    by rewrite cache_subscribe.
  - intros u c Hu. left. by rewrite external_subscribe in Hu.
  - intros k p Hp. eapply SlotRole_mono; [done|].
    rewrite cache_subscribe in Hp. by eapply inv_cache.
Qed.

(** A new promise of this call starts to wait: it gets its role. *)
Lemma Inv_await top N w q r role :
  Inv [] top N w →
  N !! target r = Some Fresh →
  q ≠ target r →
  is_Some (promises w !! q) →
  Feeds (<[target r := role]> N) r q →
  Static (<[target r := role]> N) w role →
  (∀ rs, waits (subscribe q r w) r q →
     Clause (<[target r := role]> N) (subscribe q r w) (target r) role
       (Pending rs)) →
  Inv [] top (<[target r := role]> N) (subscribe q r w).
Proof.
  intros I Ht Hne Hq HFe HSt HCl.
  eapply Inv_subscribe; try done; [by left|].
  intros st Hst _ Hw.
  destruct (inv_clause _ _ _ _ I _ _ _ (held_nil _ _) Ht Hst) as [rs ->].
  by apply HCl.
Qed.

Lemma Inv_settle B B' top N w p c :
  Inv B top N w →
  (∀ q, q ≠ p → q ∈ B → q ∈ B') →
  (∀ role rs, N !! p = Some role → promises w !! p = Some (Pending rs) →
     Clause N (settle p c w) p role (settledState c)) →
  (∀ e rs, c = Throw e → promises w !! p = Some (Pending rs) → Blamed w e) →
  Inv B' top N (settle p c w).
Proof.
  intros I HBB HCl HBl.
  assert (Hsame : (∀ rs, promises w !! p ≠ Some (Pending rs)) →
                  Inv B' top N w).
  { intros Hnp. eapply Inv_held; [done|]. intros q st Hq [Hn|Hs]; [|by right].
    destruct (decide (q = p)) as [->|Hne].
    - right. destruct (state_cases st) as [[rs ->]|[c' ->]]; [|eauto].
      by destruct (Hnp rs).
    - left. intros Hb. apply Hn. by apply HBB. }
  destruct (promises w !! p) as [st|] eqn:Hp.
  2:{ rewrite settle_none by done. by apply Hsame. }
  destruct (state_cases st) as [[rs ->]|[c' ->]].
  2:{ erewrite settle_settled by done. apply Hsame. intros rs.
      by destruct c'. }
  clear Hsame.
  eapply (Inv_change B B' top top nothing [p]); [exact I|apply Ext_refl|..].
  - apply Future_settle.
  - rewrite length_settle. exact (inv_len _ _ _ _ I).
  - intros j [].
  - done.
  - intros q Hq. apply HBB. intros ->. apply Hq.
    by apply list_elem_of_singleton.
  - intros q role st Hq Hheld Hrole Hst.
    apply list_elem_of_singleton in Hq. subst q.
    rewrite (settle_state _ _ _ _ Hp) in Hst. injection Hst as <-.
    by eapply HCl.
  - intros q role Hq Hrole.
    eapply Static_mono; [apply Ext_refl| |by eapply inv_static].
    intros k _. rewrite cache_settle. done.
  - intros q role0 k _ _ _. rewrite cache_settle. done.
  - intros q rs0 r Hq Hr. left. apply settle_reactions in Hq. eauto.
  - intros j Hj.
    destruct (settle_jobs _ _ _ _ Hj) as [?|(rs0 & r & Hp0 & Hr & ->)];
      [by left|right].
    exists p. split; [by eapply inv_feeds|by eapply settle_state].
  - intros q e Hq.
    destruct (settle_rejected_back _ _ _ _ _ Hq) as [?|(-> & -> & rs0 & Hp0)];
      [by left|right].
    eapply Blamed_mono; [apply (Future_settle nothing)|]. by eapply HBl.
  - intros k o Hin. right. rewrite invocations_settle in Hin.
    by rewrite cache_settle.
  - intros u c' Hu. left. by rewrite external_settle in Hu.
  - intros k q Hq. rewrite cache_settle in Hq. by eapply inv_cache.
Qed.

(** A role for a new promise whose clause is still to be established. *)
Lemma Inv_role B top N w t role rs :
  Inv B top N w →
  N !! t = Some Fresh → promises w !! t = Some (Pending rs) →
  Static (<[t := role]> N) w role →
  Inv (t :: B) top (<[t := role]> N) w.
Proof.
  intros I Ht Hst HSt.
  assert (Hlt : t < length N) by by eapply lookup_lt_Some.
  eapply (Inv_change B (t :: B) top top nothing [t]);
    [exact I|by apply Ext_assign|apply Future_refl|..].
  - rewrite length_insert. exact (inv_len _ _ _ _ I).
  - intros j [].
  - intros p Hp. rewrite list_lookup_insert_ne; [done|].
    intros ->. apply Hp. by apply list_elem_of_singleton.
  - intros p _ Hp. by right.
  - intros p role' st Hp [Hn|[c Hc]] Hrole Hst'.
    + apply list_elem_of_singleton in Hp. subst p. destruct Hn. by left.
    + apply list_elem_of_singleton in Hp. subst p.
      rewrite Hst in Hst'. injection Hst' as <-. by destruct c.
  - intros p role' Hp Hrole. apply list_elem_of_singleton in Hp. subst p.
    rewrite list_lookup_insert_eq in Hrole by done. by injection Hrole as <-.
  - intros p role0 k _ _ _. done.
  - intros q rs0 r Hq Hr. left. eauto.
  - intros j Hj. by left.
  - intros p e Hp. by left.
  - intros k o Hin. by right.
  - intros u c Hu. by left.
  - intros k q Hq. eapply SlotRole_mono; [by apply Ext_assign|].
    by eapply inv_cache.
Qed.

(** The clause of an exempt promise is established. *)
Lemma Inv_release B top N w t :
  Inv (t :: B) top N w →
  (∀ role rs, N !! t = Some role → promises w !! t = Some (Pending rs) →
     Clause N w t role (Pending rs)) →
  Inv B top N w.
Proof.
  intros I HCl. split; try apply I.
  intros p role st Hheld Hrole Hst.
  destruct (state_cases st) as [[rs ->]|[c ->]].
  2:{ eapply inv_clause; [done|apply held_settled|done..]. }
  destruct (decide (p = t)) as [->|Hne]; [by eapply HCl|].
  eapply inv_clause; [done| |done..]. left.
  destruct Hheld as [Hn|[c Hc]]; [|by destruct c].
  intros [?|?]%elem_of_cons; done.
Qed.

Lemma Inv_thenable B top N w g src :
  Inv B top N w →
  N !! g = Some Fresh → src ≠ g →
  is_Some (promises w !! src) →
  Inv B top (<[g := TopOf src]> N) (enqueue (ResolveThenable g src) w).
Proof.
  intros I Hg Hne Hsrc.
  assert (Hlt : g < length N) by by eapply lookup_lt_Some.
  eapply (Inv_change B B top top nothing [g]);
    [exact I|by apply Ext_assign|..].
  - eapply Future_weaken; [| |apply (Future_enqueue nothing)]; [done|].
    apply list_subseteq_nil.
  - rewrite length_insert. exact (inv_len _ _ _ _ I).
  - intros j [].
  - intros p Hp. rewrite list_lookup_insert_ne; [done|].
    intros ->. apply Hp. by apply list_elem_of_singleton.
  - done.
  - intros p role st Hp Hheld Hrole Hst.
    apply list_elem_of_singleton in Hp. subst p.
    rewrite list_lookup_insert_eq in Hrole by done. injection Hrole as <-.
    change (promises (enqueue (ResolveThenable g src) w)) with (promises w)
      in Hst.
    destruct (state_cases st) as [[rs ->]|[c ->]].
    + simpl. left. apply elem_of_app. right. by apply list_elem_of_singleton.
    + assert (Hfresh : Clause N w g Fresh (settledState c)).
      { eapply inv_clause; [done|apply held_settled|done..]. }
      destruct Hfresh as [rs Hrs]. by destruct c.
  - intros p role Hp Hrole. apply list_elem_of_singleton in Hp. subst p.
    rewrite list_lookup_insert_eq in Hrole by done. by injection Hrole as <-.
  - intros p role0 k _ _ _. done.
  - intros q rs0 r Hq Hr. left. eauto.
  - intros j [?|Hj%list_elem_of_singleton]%elem_of_app; [by left|right].
    subst j. simpl. split; [by apply list_lookup_insert_eq|done].
  - intros p e Hp. by left.
  - intros k o Hin. right. done.
  - intros u c Hu. by left.
  - intros k q Hq. eapply SlotRole_mono; [by apply Ext_assign|].
    simpl in Hq. by eapply inv_cache.
Qed.

Lemma Inv_setCache B top top' N w key p :
  Inv B top N w → invocations w = [] →
  SlotRole top' N key p →
  (∀ k q, k ≠ key → cache w !! k = Some q → SlotRole top' N k q) →
  (∀ q role, N !! q = Some role → slotKey role ≠ Some key) →
  Inv B top' N (setCache key p w).
Proof.
  intros I Hinv Hslot Hothers Hentries.
  eapply (Inv_change B B top top' nothing []);
    [exact I|apply Ext_refl|apply Future_setCache|..].
  - exact (inv_len _ _ _ _ I).
  - intros j [].
  - done.
  - done.
  - intros q role st Hq. by apply elem_of_nil in Hq.
  - intros q role Hq. by apply elem_of_nil in Hq.
  - intros q role k _ Hq Hk. change (cache (setCache key p w))
      with (<[key := p]> (cache w)).
    destruct (decide (k = key)) as [->|Hne];
      [|by rewrite lookup_insert_ne].
    by destruct (Hentries q role Hq).
  - intros q rs r Hq Hr. left. eauto.
  - intros j Hj. by left.
  - intros q e Hq. by left.
  - intros k o Hin. change (invocations (setCache key p w))
      with (invocations w) in Hin. rewrite Hinv in Hin.
    by apply elem_of_nil in Hin.
  - intros u c Hu. by left.
  - intros k q. change (cache (setCache key p w)) with (<[key := p]> (cache w)).
    destruct (decide (k = key)) as [->|Hne].
    + rewrite lookup_insert_eq. by intros [= <-].
    + rewrite lookup_insert_ne by done. by apply Hothers.
Qed.

Lemma Inv_record B top N w key o :
  Inv B top N w → Exact w key o → Inv B top N (record key o w).
Proof.
  intros I HEx.
  eapply (Inv_change B B top top nothing []);
    [exact I|apply Ext_refl|apply Future_record|..].
  - exact (inv_len _ _ _ _ I).
  - intros j [].
  - done.
  - done.
  - intros q role st Hq. by apply elem_of_nil in Hq.
  - intros q role Hq. by apply elem_of_nil in Hq.
  - intros q role0 k _ _ _. done.
  - intros q rs r Hq Hr. left. eauto.
  - intros j Hj. by left.
  - intros q e Hq. by left.
  - intros k o' [?|Hin%list_elem_of_singleton]%elem_of_app;
      [by right|left].
    injection Hin as -> ->. destruct HEx as (stored & ? & ? & Hv).
    exists stored. split; [done|]. split; [done|]. exact Hv.
  - intros u c Hu. by left.
  - intros k q Hq. simpl in Hq. by eapply inv_cache.
Qed.

Lemma Inv_withExternal B top N w ext :
  Inv B top N w →
  (∀ u c, ext !! u = Some c → external w !! u = Some c ∨ Issued N w u c) →
  Inv B top N (withExternal ext w).
Proof.
  intros I Hext.
  eapply (Inv_change B B top top nothing []);
    [exact I|apply Ext_refl|apply Future_withExternal|..].
  - exact (inv_len _ _ _ _ I).
  - intros j [].
  - done.
  - done.
  - intros q role st Hq. by apply elem_of_nil in Hq.
  - intros q role Hq. by apply elem_of_nil in Hq.
  - intros q role0 k _ _ _. done.
  - intros q rs r Hq Hr. left. eauto.
  - intros j Hj. by left.
  - intros q e Hq. by left.
  - intros k o Hin. by right.
  - exact Hext.
  - intros k q Hq. simpl in Hq. by eapply inv_cache.
Qed.

Lemma Inv_withCollected B top N w all values :
  Inv B top N w → all ∈ B →
  Inv B top N (withCollected (<[all := values]> (collected w)) w).
Proof.
  intros I Hall.
  eapply (Inv_change B B top top nothing [all]);
    [exact I|apply Ext_refl|apply Future_withCollected|..].
  - exact (inv_len _ _ _ _ I).
  - intros j [].
  - done.
  - done.
  - intros q role st Hq Hheld Hrole Hst.
    apply list_elem_of_singleton in Hq. subst q.
    destruct Hheld as [?|[c ->]]; [done|].
    eapply (Clause_mono nothing [all]);
      [apply Ext_refl|apply Future_withCollected| |].
    + intros rs Hrs. by destruct c.
    + eapply inv_clause; [done|apply held_settled|done..].
  - intros q role Hq Hrole.
    eapply Static_mono; [apply Ext_refl| |by eapply inv_static].
    intros k _. done.
  - intros q role0 k _ _ _. done.
  - intros q rs r Hq Hr. left. eauto.
  - intros j Hj. by left.
  - intros q e Hq. by left.
  - intros k o Hin. by right.
  - intros u c Hu. by left.
  - intros k q Hq. simpl in Hq. by eapply inv_cache.
Qed.

Lemma Inv_pop top N w job rest :
  Inv [] top N w → jobs w = job :: rest →
  Inv [jobTarget job] top N (withJobs rest w)
  ∧ JobOK N (withJobs rest w) job
  ∧ Future (λ j, j = job) [] w (withJobs rest w).
Proof.
  intros I Hj. pose proof (Future_pop _ _ _ Hj) as F.
  split; [|split; [|done]].
  - eapply (Inv_change [] [jobTarget job] top top (λ j, j = job)
              [jobTarget job]); [exact I|apply Ext_refl|..].
    + eapply Future_weaken; [| |exact F]; [done|]. apply list_subseteq_nil.
    + exact (inv_len _ _ _ _ I).
    + intros j ->. by apply list_elem_of_singleton.
    + done.
    + intros p _ Hp. by apply elem_of_nil in Hp.
    + intros q role st Hq Hheld Hrole Hst.
      destruct Hheld as [?|[c ->]]; [done|].
      eapply Clause_mono; [apply Ext_refl|exact F| |].
      * intros rs Hrs. by destruct c.
      * eapply inv_clause; [done|apply held_settled|done..].
    + intros q role _ Hrole.
      eapply Static_mono; [apply Ext_refl| |by eapply inv_static].
      intros k _. done.
    + intros q role0 k _ _ _. done.
    + intros q rs r Hq Hr. left. eauto.
    + intros j Hin. left. rewrite Hj. by right.
    + intros q e Hq. by left.
    + intros k o Hin. by right.
    + intros u c Hu. by left.
    + intros k q Hq. simpl in Hq. by eapply inv_cache.
  - eapply JobOK_mono; [apply Ext_refl|exact F|].
    eapply inv_jobs; [done|]. rewrite Hj. by left.
Qed.

(** *** The synchronous part of a call *)

(** The roles of the promises of [N] are those of [N'], which has more
    promises. *)
Definition Grow (N N' : list Role) : Prop :=
  length N ≤ length N' ∧ ∀ p, p < length N → N' !! p = N !! p.

Lemma Grow_refl N : Grow N N.
Proof. by split. Qed.

Lemma Grow_trans N1 N2 N3 : Grow N1 N2 → Grow N2 N3 → Grow N1 N3.
Proof.
  intros [L1 H1] [L2 H2]. split; [lia|]. intros p Hp.
  rewrite H2 by lia. by apply H1.
Qed.

Lemma Grow_app N role : Grow N (N ++ [role]).
Proof.
  split; [rewrite length_app; simpl; lia|].
  intros p Hp. by rewrite lookup_app_l.
Qed.

Lemma Grow_insert N0 N t role :
  Grow N0 N → length N0 ≤ t → Grow N0 (<[t := role]> N).
Proof.
  intros [L H] Ht. split; [by rewrite length_insert|].
  intros p Hp. rewrite list_lookup_insert_ne by lia. by apply H.
Qed.

Lemma Grow_lookup N N' p role :
  Grow N N' → N !! p = Some role → N' !! p = Some role.
Proof.
  intros [_ H] Hp. rewrite H; [done|]. by eapply lookup_lt_Some.
Qed.

Lemma Grow_Ext N N' : Grow N N' → Ext N N'.
Proof. intros G. split; [apply G|]. intros p role Hp _. by eapply Grow_lookup. Qed.

Lemma lookup_snoc (N : list Role) role : (N ++ [role]) !! length N = Some role.
Proof. by rewrite lookup_app_r, Nat.sub_diag. Qed.

(** No job has run yet. *)
Definition Quiet (top : option Key) (N : list Role) (w : World P) : Prop :=
  Inv [] top N w ∧ invocations w = [].

Lemma Inv_alive B top N w p role :
  Inv B top N w → N !! p = Some role → is_Some (promises w !! p).
Proof.
  intros I Hp. apply lookup_lt_is_Some. rewrite <- (inv_len _ _ _ _ I).
  by eapply lookup_lt_Some.
Qed.

Lemma Quiet_newPromise top N w p w' :
  newPromise w = (p, w') → Quiet top N w →
  Quiet top (N ++ [Fresh]) w' ∧ p = length N ∧ cache w' = cache w
  ∧ promises w' !! p = Some (Pending []).
Proof.
  intros Hn [I Hi].
  destruct (Inv_allocate [] top N w (Pending []) Fresh p w' Hn I)
    as (I' & Hp & _ & Hst).
  - simpl. eauto.
  - done.
  - intros rs r [= <-] Hr. by apply elem_of_nil in Hr.
  - intros e [=].
  - injection Hn as <- <-. done.
Qed.

Lemma Quiet_await top N w q r role qrole :
  Quiet top N w →
  N !! target r = Some Fresh →
  N !! q = Some qrole → qrole ≠ Fresh →
  Feeds (<[target r := role]> N) r q →
  Static (<[target r := role]> N) w role →
  (∀ rs, waits (subscribe q r w) r q →
     Clause (<[target r := role]> N) (subscribe q r w) (target r) role
       (Pending rs)) →
  Quiet top (<[target r := role]> N) (subscribe q r w).
Proof.
  intros [I Hi] Ht Hq Hqr HFe HSt HCl. split.
  - apply Inv_await; try done; [|by eapply Inv_alive].
    intros ->. congruence.
  - by rewrite invocations_subscribe.
Qed.

Lemma Quiet_setCache top top' N w key p :
  Quiet top N w →
  SlotRole top' N key p →
  (∀ k q, k ≠ key → cache w !! k = Some q → SlotRole top' N k q) →
  (∀ q role, N !! q = Some role → slotKey role ≠ Some key) →
  Quiet top' N (setCache key p w).
Proof. intros [I Hi] ???. split; [by eapply Inv_setCache|done]. Qed.

(** [await v] for a member [v] of [Object.prototype] read from the cache: the
    promise made of it and the promise [target r] that waits for it get their
    roles. *)
Lemma Quiet_awaitInherited top N w key v r role :
  Quiet top N w →
  inherited key = Some v → cache w !! key = None →
  N !! target r = Some Fresh →
  (∀ u, u = length N →
     Feeds (<[target r := role]> (N ++ [InheritedOf key])) r u
     ∧ Static (<[target r := role]> (N ++ [InheritedOf key])) w role
     ∧ ∀ w' rs, waits w' r u →
         Clause (<[target r := role]> (N ++ [InheritedOf key])) w' (target r)
           role (Pending rs)) →
  Quiet top (<[target r := role]> (N ++ [InheritedOf key]))
    (awaitValue v r w)
  ∧ (N ++ [InheritedOf key]) !! length N = Some (InheritedOf key)
  ∧ cache (awaitValue v r w) = cache w.
Proof.
  intros [I Hi] Hin Hc Ht Hrole. unfold awaitValue.
  destruct (allocate (Fulfilled (OfValue v)) w) as [u w1] eqn:Ha.
  destruct (Inv_allocate [] top N w _ (InheritedOf key) u w1 Ha I)
    as (I1 & Hu & Hurole & Hst); try done.
  { simpl. eauto. }
  { simpl. assert (cache w1 = cache w) as -> by by injection Ha as <- <-.
    split; [done|eauto]. }
  assert (Hi1 : invocations w1 = []) by by injection Ha as <- <-.
  assert (Hc1 : cache w1 = cache w) by by injection Ha as <- <-.
  assert (Ht1 : (N ++ [InheritedOf key]) !! target r = Some Fresh)
    by by apply lookup_app_l_Some.
  destruct (Hrole u Hu) as (HFe & HSt & HCl).
  split; [|split; [by subst u|by rewrite cache_subscribe]].
  eapply (Quiet_await top _ w1 u r role (InheritedOf key)); try done.
  - eapply Static_mono; [apply Ext_refl| |exact HSt]. intros k _.
    by rewrite Hc1.
  - intros rs Hw. by apply HCl.
Qed.

(** What the invariant needs of the resolver that [entryOf] calls. *)
Definition Resolves (resolve : Resolver (P := P)) : Prop :=
  ∀ key N w rc w',
    resolve key input w = Some (rc, w') →
    Quiet None N w →
    ∃ N', Quiet (Some key) N' w' ∧ Grow N N' ∧ ValueRole N' rc
      ∧ (cache w !! key = None → inherited key = None →
         (∀ q role, N' !! q = Some role → slotKey role ≠ Some key)
         ∧ Computed N' key rc)
      ∧ (∀ p, cache w !! key = Some p →
           N' !! rc = Some (ComputationOf key p)).

Lemma SlotRole_not_fresh top N key q : SlotRole top N key q → N !! q ≠ Some Fresh.
Proof. intros [H|[(src & H)|(rd & H & _)]]; rewrite H; done. Qed.

Lemma SlotRole_value top N key q : SlotRole top N key q → ValueRole N q.
Proof.
  intros [H|[(src & H)|(rd & H & _)]]; eexists; (split; [exact H|done]).
Qed.

Lemma Inv_entry_value B top N w cb key src :
  Inv B top N w → N !! cb = Some (EntryOf key src) → ValueRole N src.
Proof.
  intros I Hcb. destruct (Inv_entry _ _ _ _ _ _ _ I Hcb) as [[Hc _]|[Hin _]].
  - eapply SlotRole_value. by eapply inv_cache.
  - eexists. split; [exact Hin|done].
Qed.

Lemma entryOf_Inv resolve key N w cb w' :
  Resolves resolve →
  entryOf resolve key input w = Some (cb, w') →
  Quiet None N w →
  ∃ N', Quiet None N' w' ∧ Grow N N'
    ∧ ∃ src, N' !! cb = Some (EntryOf key src).
Proof.
  intros Hres. unfold entryOf.
  destruct (newPromise w) as [cb0 w1] eqn:Hn. intros Hrun Q.
  destruct (Quiet_newPromise _ _ _ _ _ Hn Q) as (Q1 & Hcb & Hc1 & Hp1).
  set (N1 := N ++ [Fresh]) in *.
  assert (G1 : Grow N N1) by apply Grow_app.
  assert (Hfresh1 : N1 !! cb0 = Some Fresh) by (subst cb0; apply lookup_snoc).
  destruct (decide (cache w1 !! key = None ∧ is_Some (inherited key)))
    as [[Hk [v Hin]]|Hnot].
  { (* the cache holds no promise for the key and inherits a member *)
    rewrite Hk, unfilled_truthy in Hrun.
    rewrite (proj2 (unfilled_defined key)) in Hrun by eauto.
    injection Hrun as <- <-. unfold awaitSlot.
    rewrite Hk, (unfilled_inherited _ _ Hin).
    assert (Hcb1 : cb0 < length N1) by by eapply lookup_lt_Some.
    destruct (Quiet_awaitInherited None N1 w1 key v (ResumeEntry key cb0)
                (EntryOf key (length N1)) Q1 Hin Hk Hfresh1) as (Q2 & _).
    { intros u ->. simpl.
      assert (Hlt : cb0 < length (N1 ++ [InheritedOf key]))
        by (rewrite length_app; simpl; lia).
      split; [by apply list_lookup_insert_eq|]. split.
      - right. rewrite list_lookup_insert_ne by lia. apply lookup_snoc.
      - intros w0 rs Hw. done. }
    exists (<[cb0 := EntryOf key (length N1)]> (N1 ++ [InheritedOf key])).
    split; [done|]. split.
    - apply Grow_insert; [|by subst cb0].
      eapply Grow_trans; [exact G1|apply Grow_app].
    - exists (length N1). apply list_lookup_insert_eq.
      rewrite length_app. simpl. lia. }
  (* the slot is filled *)
  assert (∃ N2 w2 slot, Quiet None N2 w2 ∧ Grow N1 N2
            ∧ cache w2 !! key = Some slot
            ∧ w' = awaitSlot key (ResumeEntry key cb0) w2 ∧ cb = cb0)
    as (N2 & w2 & slot & Q2 & G2 & Hslot & -> & ->).
  { destruct (cache w1 !! key) as [slot|] eqn:Hk.
    { injection Hrun as <- <-. exists N1, w1, slot. split; [done|].
      split; [apply Grow_refl|done]. }
    assert (Hplain : inherited key = None).
    { destruct (inherited key) eqn:E; [|done]. destruct Hnot. eauto. }
    rewrite unfilled_truthy, (unfilled_plain _ Hplain) in Hrun.
    cbn [defined] in Hrun.
    destruct (resolve key input w1) as [[rc w2]|] eqn:Hr; [|done].
    destruct (Hres _ _ _ _ _ Hr Q1) as (N2 & Q2 & G2 & Hrc & Hk2 & _).
    destruct (Hk2 Hk Hplain) as [Hno Hcomp].
    destruct (newPromise w2) as [derived w3] eqn:Hn3.
    destruct (Quiet_newPromise _ _ _ _ _ Hn3 Q2) as (Q3 & Hd & Hc3 & Hp3).
    set (N3 := N2 ++ [Fresh]) in *.
    assert (Hfresh3 : N3 !! derived = Some Fresh)
      by (subst derived; apply lookup_snoc).
    assert (Hrc3 : ValueRole N3 rc)
      by (eapply ValueRole_mono; [apply Grow_Ext, Grow_app|done]).
    destruct Hrc3 as (rrole & Hrrole & Hval).
    assert (Hne : rc ≠ derived).
    { intros ->. rewrite Hfresh3 in Hrrole. injection Hrrole as <-. done. }
    assert (Hlt : derived < length N3) by by eapply lookup_lt_Some.
    pose proof (Quiet_await (Some key) N3 w3 rc (Catch key derived)
                  (CatchOf key rc) rrole Q3 Hfresh3 Hrrole) as Q4.
    simpl in Q4. set (N4 := <[derived := CatchOf key rc]> N3) in *.
    assert (Hd4 : N4 !! derived = Some (CatchOf key rc))
      by by apply list_lookup_insert_eq.
    assert (Hrc4 : N4 !! rc = Some rrole)
      by (unfold N4; by rewrite list_lookup_insert_ne).
    assert (Hcomp4 : Computed N4 key rc).
    { eapply Computed_mono; [|exact Hcomp].
      eapply Ext_trans; [apply Grow_Ext, Grow_app|]. by apply Ext_assign. }
    specialize (Q4 ltac:(by intros ->) Hd4 Hcomp4 ltac:(by intros rs Hw)).
    set (w4 := subscribe rc (Catch key derived) w3) in *.
    assert (Q5 : Quiet None N4 (setCache key derived w4)).
    { eapply Quiet_setCache; [exact Q4|..].
      - right. left. by exists rc.
      - intros k q Hkq Hq. destruct Q4 as [I4 _].
        destruct (inv_cache _ _ _ _ I4 _ _ Hq) as [?|[?|(rd & ? & [= ->])]];
          [by left|by right; left|done].
      - intros q role Hq.
        destruct (decide (q = derived)) as [->|Hqd].
        { rewrite Hd4 in Hq. by injection Hq as <-. }
        unfold N4 in Hq. rewrite list_lookup_insert_ne in Hq by done.
        destruct (decide (q = length N2)) as [->|Hql].
        { unfold N3 in Hq. rewrite lookup_snoc in Hq. by injection Hq as <-. }
        unfold N3 in Hq. rewrite lookup_snoc_role in Hq by done.
        by apply (Hno q role). }
    injection Hrun as <- <-.
    exists N4, (setCache key derived w4), derived. split; [done|].
    split; [|split; [|done]].
    - eapply Grow_trans; [exact G2|]. apply Grow_insert; [apply Grow_app|].
      subst derived. done.
    - change (cache (setCache key derived w4))
        with (<[key := derived]> (cache w4)). apply lookup_insert_eq. }
  (* the callback waits for the promise of the slot *)
  unfold awaitSlot. rewrite Hslot.
  assert (Hcb2 : N2 !! cb0 = Some Fresh) by by eapply Grow_lookup.
  destruct Q2 as [I2 Hi2].
  pose proof (inv_cache _ _ _ _ I2 _ _ Hslot) as Hsr.
  destruct (SlotRole_value _ _ _ _ Hsr) as (srole & Hsrole & Hsval).
  assert (Hlt : cb0 < length N2) by by eapply lookup_lt_Some.
  exists (<[cb0 := EntryOf key slot]> N2). split; [|split].
  - apply (Quiet_await None N2 w2 slot (ResumeEntry key cb0)
             (EntryOf key slot) srole); try done.
    + by intros ->.
    + simpl. by apply list_lookup_insert_eq.
    + assert (Hne : cb0 ≠ slot).
      { intros ->. rewrite Hcb2 in Hsrole. by injection Hsrole as <-. }
      simpl. left. split; [done|].
      destruct Hsr as [?|[[rc ?]|(rd & _ & [=])]];
        [left|right; exists rc]; by rewrite list_lookup_insert_ne.
  - apply Grow_insert; [by eapply Grow_trans|]. by subst cb0.
  - exists slot. by apply list_lookup_insert_eq.
Qed.

Lemma mapEntries_Inv resolve keys :
  Resolves resolve → ∀ N w cbs w',
  mapEntries resolve keys input w = Some (cbs, w') →
  Quiet None N w →
  ∃ N', Quiet None N' w' ∧ Grow N N'
    ∧ Forall2 (λ k q, ∃ src, N' !! q = Some (EntryOf k src)) keys cbs.
Proof.
  intros Hres. induction keys as [|k keys IH]; intros N w cbs w'; simpl.
  - intros [= <- <-] Q. exists N. split; [done|]. split; [apply Grow_refl|].
    constructor.
  - destruct (entryOf resolve k input w) as [[cb w1]|] eqn:He; [|done].
    destruct (mapEntries resolve keys input w1) as [[cbs' w2]|] eqn:Hm;
      [|done].
    intros [= <- <-] Q.
    destruct (entryOf_Inv _ _ _ _ _ _ Hres He Q) as (N1 & Q1 & G1 & src & Hcb).
    destruct (IH _ _ _ _ Hm Q1) as (N2 & Q2 & G2 & Hall).
    exists N2. split; [done|]. split; [by eapply Grow_trans|].
    constructor; [|done]. exists src. by eapply Grow_lookup.
Qed.

Lemma Inv_subscribe_same B B' top N w q r role :
  Inv B top N w →
  N !! target r = Some role →
  q ≠ target r →
  is_Some (promises w !! q) →
  Feeds N r q →
  (∀ p, p ≠ target r → p ∈ B → p ∈ B') →
  (∀ rs, promises w !! target r = Some (Pending rs) → target r ∉ B' →
     waits (subscribe q r w) r q →
     Clause N (subscribe q r w) (target r) role (Pending rs)) →
  Inv B' top N (subscribe q r w).
Proof.
  intros I Ht Hne Hq HFe HBB HCl.
  pose proof (Inv_subscribe B B' top N w q r role I (or_intror Ht) Hne Hq)
    as H.
  rewrite list_insert_id in H by done. apply H; try done.
  - by eapply inv_static.
  - intros st Hst Hheld Hw. destruct (state_cases st) as [[rs ->]|[c ->]].
    + apply HCl; [done| |done]. destruct Hheld as [?|[c Hc]]; [done|].
      by destruct c.
    + eapply (Clause_mono nothing []);
        [apply Ext_refl|apply Future_subscribe| |].
      * intros rs Hrs. by destruct c.
      * eapply inv_clause; [done|apply held_settled|done..].
Qed.

Lemma subscribeAll_Inv top N all elems ps : ∀ i w,
  Inv [all] top N w →
  N !! all = Some (AllOf elems) →
  (∀ j q, ps !! j = Some q →
     elems !! (i + j) = Some q ∧ q ≠ all ∧ q < length N) →
  Inv [all] top N (subscribeAll all i ps w)
  ∧ (∀ j q, ps !! j = Some q →
       waits (subscribeAll all i ps w) (AllElement (i + j) all) q)
  ∧ Future nothing [] w (subscribeAll all i ps w)
  ∧ collected (subscribeAll all i ps w) = collected w
  ∧ invocations (subscribeAll all i ps w) = invocations w
  ∧ cache (subscribeAll all i ps w) = cache w.
Proof.
  induction ps as [|p ps IH]; intros i w I Hall Hps; cbn [subscribeAll].
  - split; [done|]. split; [by intros j q|]. split; [apply Future_refl|done].
  - destruct (Hps 0 p eq_refl) as (Hi & Hpa & Hlt).
    rewrite Nat.add_0_r in Hi.
    set (w1 := subscribe p (AllElement i all) w).
    assert (Hp : is_Some (promises w !! p)).
    { apply lookup_lt_is_Some. by rewrite <- (inv_len _ _ _ _ I). }
    assert (I1 : Inv [all] top N w1).
    { eapply (Inv_subscribe_same [all] [all]); try done.
      - simpl. eauto.
      - intros rs _ Hn. destruct Hn. by apply list_elem_of_singleton. }
    destruct (IH (S i) w1 I1 Hall) as (I2 & Hw2 & F2 & Hc2 & Hi2 & Hk2).
    { intros j q Hj. destruct (Hps (S j) q Hj) as (? & ? & ?).
      split; [|done]. by replace (S i + j) with (i + S j) by lia. }
    split; [done|]. split; [|split; [|split; [|split]]].
    + intros [|j] q Hj.
      * injection Hj as <-. rewrite Nat.add_0_r.
        eapply waits_mono; [exact F2|by intros c []|].
        by apply subscribe_waits.
      * replace (i + S j) with (S i + j) by lia. by apply Hw2.
    + eapply Future_trans; [apply Future_subscribe|exact F2].
    + rewrite Hc2. apply collected_subscribe.
    + rewrite Hi2. apply invocations_subscribe.
    + rewrite Hk2. apply cache_subscribe.
Qed.

Lemma insert_snoc (N : list Role) role role' :
  <[length N := role']> (N ++ [role]) = N ++ [role'].
Proof. rewrite insert_app_r_alt by done. by rewrite Nat.sub_diag. Qed.

Lemma Quiet_top top N w : Quiet None N w → Quiet top N w.
Proof.
  intros [I Hi]. split; [|done]. split; try apply I.
  intros k q Hq. apply SlotRole_top. by eapply inv_cache.
Qed.

Lemma promiseAll_Inv top N w ps all w' :
  promiseAll ps w = (all, w') → Quiet top N w →
  (∀ q, q ∈ ps → q < length N) →
  Quiet top (N ++ [AllOf ps]) w' ∧ all = length N ∧ cache w' = cache w.
Proof.
  unfold promiseAll. destruct (newPromise w) as [all0 w1] eqn:Hn.
  intros Hrun Q Hps.
  destruct (Quiet_newPromise _ _ _ _ _ Hn Q) as ([I1 Hi1] & Ha & Hc1 & Hp1).
  assert (Hfresh : (N ++ [Fresh]) !! all0 = Some Fresh)
    by (subst all0; apply lookup_snoc).
  pose proof (Inv_role [] top _ w1 all0 (AllOf ps) [] I1 Hfresh Hp1 I) as I2.
  assert (HN : <[all0 := AllOf ps]> (N ++ [Fresh]) = N ++ [AllOf ps])
    by (subst all0; apply insert_snoc).
  rewrite HN in I2.
  assert (Hrole : (N ++ [AllOf ps]) !! all0 = Some (AllOf ps))
    by (subst all0; apply lookup_snoc).
  destruct ps as [|p ps].
  - injection Hrun as <- <-. split; [split|].
    + eapply Inv_settle; [exact I2|..].
      * intros q Hq [?|Hin]%elem_of_cons; [done|]. by apply elem_of_nil in Hin.
      * intros role rs Hr _. rewrite Hrole in Hr. injection Hr as <-.
        exists []. split; [done|]. constructor.
      * intros e rs [=].
    + by rewrite invocations_settle.
    + split; [done|]. by rewrite cache_settle.
  - set (qs := p :: ps) in *.
    set (w2 := withCollected
                 (<[all0 := replicate (length qs) None]> (collected w1)) w1)
      in *.
    assert (I3 : Inv [all0] top (N ++ [AllOf qs]) w2).
    { apply Inv_withCollected; [done|]. by left. }
    destruct (subscribeAll_Inv top _ all0 qs qs 0 w2 I3 Hrole)
      as (I4 & Hw4 & F4 & Hc4 & Hi4 & Hk4).
    { intros j q Hj. split; [done|]. apply list_elem_of_lookup_2 in Hj.
      apply Hps in Hj. split; [subst all0; lia|].
      rewrite length_app. simpl. lia. }
    assert (all = all0) as -> by by injection Hrun.
    assert (w' = subscribeAll all0 0 qs w2) as -> by by injection Hrun.
    split; [split|].
    + eapply Inv_release; [exact I4|].
      intros role rs Hr Hst. rewrite Hrole in Hr. injection Hr as <-.
      exists (replicate (length qs) None). split; [|split].
      * rewrite Hc4. unfold w2. simpl. apply lookup_insert_eq.
      * by rewrite length_replicate.
      * intros i q Hi. left. split; [|by apply Hw4].
        apply lookup_replicate. split; [done|]. by eapply lookup_lt_Some.
    + by rewrite Hi4.
    + split; [done|]. by rewrite Hk4.
Qed.

Lemma resolveDependenciesWith_Inv resolve keys N w rd w' :
  Resolves resolve →
  resolveDependenciesWith resolve keys input w = Some (rd, w') →
  Quiet None N w →
  ∃ N' all, Quiet None N' w' ∧ Grow N N'
    ∧ N' !! rd = Some (DependenciesOf keys all).
Proof.
  intros Hres. unfold resolveDependenciesWith.
  destruct (newPromise w) as [rd0 w1] eqn:Hn.
  destruct (mapEntries resolve keys input w1) as [[cbs w2]|] eqn:Hm; [|done].
  destruct (promiseAll cbs w2) as [all w3] eqn:Ha.
  intros [= <- <-] Q.
  destruct (Quiet_newPromise _ _ _ _ _ Hn Q) as (Q1 & Hrd & Hc1 & Hp1).
  destruct (mapEntries_Inv _ _ Hres _ _ _ _ Hm Q1) as (N2 & Q2 & G2 & Hcbs).
  destruct (promiseAll_Inv _ _ _ _ _ _ Ha Q2) as (Q3 & Hall & Hc3).
  { intros q Hq. apply list_elem_of_lookup in Hq as [i Hi].
    destruct (Forall2_lookup_r _ _ _ _ _ Hcbs Hi) as (k & _ & src & Hq).
    by eapply lookup_lt_Some. }
  set (N3 := N2 ++ [AllOf cbs]) in *.
  assert (G3 : Grow N2 N3) by apply Grow_app.
  assert (Hfresh : N3 !! rd0 = Some Fresh).
  { eapply Grow_lookup; [exact G3|]. eapply Grow_lookup; [exact G2|].
    subst rd0. apply lookup_snoc. }
  assert (Hrole : N3 !! all = Some (AllOf cbs))
    by (subst all; apply lookup_snoc).
  assert (Hlt : rd0 < length N3) by by eapply lookup_lt_Some.
  assert (Hne : rd0 ≠ all) by (intros ->; congruence).
  exists (<[rd0 := DependenciesOf keys all]> N3), all.
  split; [|split].
  - apply (Quiet_await None N3 w3 all (ResumeDependencies rd0)
             (DependenciesOf keys all) (AllOf cbs)); try done.
    + simpl. exists keys. by apply list_lookup_insert_eq.
    + simpl. exists cbs. split; [by rewrite list_lookup_insert_ne|].
      eapply Forall2_impl; [exact Hcbs|]. intros k q (src & Hq).
      exists src. rewrite list_lookup_insert_ne.
      * by eapply Grow_lookup.
      * intros <-. apply (Grow_lookup _ _ _ _ G3) in Hq. congruence.
  - apply Grow_insert; [|subst rd0; done].
    eapply Grow_trans; [apply Grow_app|]. by eapply Grow_trans.
  - by apply list_lookup_insert_eq.
Qed.

Variable rank : Key → nat.
Hypothesis Hranked : ranked rank nodes.

Lemma cache_newPromise w p w' : newPromise w = (p, w') → cache w' = cache w.
Proof. by intros [= <- <-]. Qed.

Lemma callResolved_Inv resolve key stored N w pw w' :
  Resolves resolve → ResolverSpec rank resolve →
  nodes !! key = Some stored →
  callResolved resolve key stored input w = Some (pw, w') →
  Quiet None N w →
  ∃ N' rd, Quiet None N' w' ∧ Grow N N'
    ∧ N' !! pw = Some (ProvidedOf key rd)
    ∧ cache w' !! key = cache w !! key.
Proof using Hranked.
  intros Hres Hspec Hstored. unfold callResolved.
  destruct (newPromise w) as [pw0 w1] eqn:Hn.
  destruct (resolveDependenciesWith resolve (dependencies stored) input w1)
    as [[rd w2]|] eqn:Hrd; [|done].
  intros [= <- <-] Q.
  destruct (Quiet_newPromise _ _ _ _ _ Hn Q) as (Q1 & Hpw & Hc1 & Hp1).
  destruct (resolveDependenciesWith_Inv _ _ _ _ _ _ Hres Hrd Q1)
    as (N2 & all & Q2 & G2 & Hrole).
  apply (resolveDependenciesWith_Confined rank _ _ (rank key)) in Hrd;
    [|done|].
  2:{ intros d Hd. apply Hranked. by exists stored. }
  destruct Hrd as (_ & Hframe & _).
  destruct (Hframe key (Nat.le_refl _)) as [Hkey _].
  assert (Hfresh : N2 !! pw0 = Some Fresh).
  { eapply Grow_lookup; [exact G2|]. subst pw0. apply lookup_snoc. }
  assert (Hlt : pw0 < length N2) by by eapply lookup_lt_Some.
  assert (Hne : pw0 ≠ rd) by (intros ->; congruence).
  exists (<[pw0 := ProvidedOf key rd]> N2), rd. split; [|split; [|split]].
  - apply (Quiet_await None N2 w2 rd (ResumeProvided key (userFn stored) pw0)
             (ProvidedOf key rd) (DependenciesOf (dependencies stored) all));
      try done.
    + simpl. split; [by apply list_lookup_insert_eq|]. by exists stored.
    + simpl. exists stored, all. split; [done|].
      by rewrite list_lookup_insert_ne.
    + intros rs Hw. simpl. left. by exists (userFn stored).
  - apply Grow_insert; [|subst pw0; done].
    eapply Grow_trans; [apply Grow_app|done].
  - by apply list_lookup_insert_eq.
  - by rewrite cache_subscribe, Hkey, Hc1.
Qed.

Lemma Blamed_notFound w key : nodes !! key = None → Blamed w (notFound key).
Proof. intros Hk. exists [], (notFound key). split; [done|]. left. eauto. Qed.

Lemma resolveComputation_Inv fuel :
  Resolves (resolveComputation nodes fuel).
Proof using Hranked.
  induction fuel as [|fuel IH]; intros key N w rc w'; [done|].
  cbn [resolveComputation].
  destruct (newPromise w) as [rc0 w1] eqn:Hn. intros Hrun Q.
  destruct (Quiet_newPromise _ _ _ _ _ Hn Q) as (Q1 & Hrc & Hc1 & Hp1).
  set (N1 := N ++ [Fresh]) in *.
  assert (Hfresh1 : N1 !! rc0 = Some Fresh) by (subst rc0; apply lookup_snoc).
  destruct (cache w1 !! key) as [result|] eqn:Hk.
  { (* the slot is filled *)
    injection Hrun as <- <-. pose proof Q1 as [I1 _].
    pose proof (inv_cache _ _ _ _ I1 _ _ Hk) as Hsr.
    destruct (SlotRole_value _ _ _ _ Hsr) as (srole & Hsrole & Hsval).
    assert (Hlt : rc0 < length N1) by by eapply lookup_lt_Some.
    assert (Hne : rc0 ≠ result).
    { intros ->. rewrite Hfresh1 in Hsrole. by injection Hsrole as <-. }
    exists (<[rc0 := ComputationOf key result]> N1).
    split; [|split; [|split]].
    - apply (Quiet_await (Some key) N1 w1 result (ResumeComputation rc0)
               (ComputationOf key result) srole); try done.
      + by apply Quiet_top.
      + by intros ->.
      + simpl. exists key. by apply list_lookup_insert_eq.
      + simpl. exists srole. split; [by rewrite list_lookup_insert_ne|done].
    - apply Grow_insert; [apply Grow_app|]. by subst rc0.
    - eexists. split; [by apply list_lookup_insert_eq|done].
    - rewrite <- Hc1, Hk. split; [done|].
      intros p [= <-]. by apply list_lookup_insert_eq. }
  destruct (inherited key) as [v|] eqn:Hplain.
  { (* the cache object inherits a member under the key *)
    rewrite (unfilled_inherited _ _ Hplain), (inherited_defined _ _ Hplain)
      in Hrun.
    injection Hrun as <- <-.
    assert (Hrc1 : rc0 < length N1) by by eapply lookup_lt_Some.
    destruct (Quiet_awaitInherited (Some key) N1 w1 key v
                (ResumeComputation rc0) (ComputationOf key (length N1))
                (Quiet_top _ _ _ Q1) Hplain Hk Hfresh1) as (Q2 & _).
    { intros u ->. simpl.
      assert (Hlt : rc0 < length (N1 ++ [InheritedOf key]))
        by (rewrite length_app; simpl; lia).
      split; [exists key; by apply list_lookup_insert_eq|]. split.
      - exists (InheritedOf key). split; [|done].
        rewrite list_lookup_insert_ne by lia. apply lookup_snoc.
      - intros w0 rs Hw. done. }
    exists (<[rc0 := ComputationOf key (length N1)]>
              (N1 ++ [InheritedOf key])).
    split; [done|]. split; [|split; [|split]].
    - apply Grow_insert; [|by subst rc0].
      eapply Grow_trans; [apply Grow_app|apply Grow_app].
    - exists (ComputationOf key (length N1)). split; [|done].
      apply list_lookup_insert_eq. rewrite length_app. simpl. lia.
    - by intros _ [=].
    - intros p Hp. rewrite <- Hc1, Hk in Hp. done. }
  rewrite (unfilled_plain _ Hplain) in Hrun. cbn [defined] in Hrun.
  assert (Hkw : cache w !! key = None) by by rewrite <- Hc1.
  destruct (nodes !! key) as [stored|] eqn:Hstored.
  2:{ (* no such node *)
    injection Hrun as <- <-. destruct Q1 as [I1 Hi1].
    pose proof (Inv_role [] None N1 w1 rc0 (MissingOf key) [] I1 Hfresh1 Hp1
                  Hstored) as I2.
    assert (Hlt : rc0 < length N1) by by eapply lookup_lt_Some.
    set (N2 := <[rc0 := MissingOf key]> N1) in *.
    assert (Hrole : N2 !! rc0 = Some (MissingOf key))
      by by apply list_lookup_insert_eq.
    assert (I3 : Inv [] None N2 (settle rc0 (Throw (notFound key)) w1)).
    { eapply Inv_settle; [exact I2|..].
      - intros q Hq [?|Hin]%elem_of_cons; [done|]. by apply elem_of_nil in Hin.
      - intros role rs Hr _. rewrite Hrole in Hr. by injection Hr as <-.
      - intros e rs [= <-] _. by apply Blamed_notFound. }
    exists N2. split; [|split; [|split]].
    - apply Quiet_top. split; [done|]. by rewrite invocations_settle.
    - apply Grow_insert; [apply Grow_app|]. by subst rc0.
    - eexists. split; [exact Hrole|done].
    - split; [|by rewrite Hkw].
      intros _ _. split; [|by left].
      apply (Inv_no_slot _ _ _ _ _ I3); [|done]. by rewrite cache_settle. }
  (* the node is computed *)
  destruct (callResolved (resolveComputation nodes fuel) key stored input w1)
    as [[pw w2]|] eqn:Hcall; [|done].
  injection Hrun as <- <-.
  destruct (callResolved_Inv _ _ _ _ _ _ _ IH
              (resolveComputation_Confined nodes rank Hranked fuel)
              Hstored Hcall Q1) as (N2 & rd & Q2 & G2 & Hpw & Hkey).
  rewrite Hk in Hkey. pose proof Q2 as [I2 _].
  pose proof (Inv_no_slot _ _ _ _ _ I2 Hkey Hplain) as Hno.
  assert (Q3 : Quiet (Some key) N2 (setCache key pw w2)).
  { eapply Quiet_setCache; [exact Q2|..].
    - right. right. by exists rd.
    - intros k q _ Hq. apply SlotRole_top. by eapply inv_cache.
    - exact Hno. }
  unfold awaitSlot.
  change (cache (setCache key pw w2)) with (<[key := pw]> (cache w2)).
  rewrite lookup_insert_eq.
  assert (Hfresh2 : N2 !! rc0 = Some Fresh) by by eapply Grow_lookup.
  assert (Hlt : rc0 < length N2) by by eapply lookup_lt_Some.
  assert (Hne : rc0 ≠ pw) by (intros ->; congruence).
  set (N3 := <[rc0 := ComputationOf key pw]> N2).
  assert (Hrc3 : N3 !! rc0 = Some (ComputationOf key pw))
    by by apply list_lookup_insert_eq.
  assert (Hpw3 : N3 !! pw = Some (ProvidedOf key rd))
    by (unfold N3; by rewrite list_lookup_insert_ne).
  exists N3. split; [|split; [|split]].
  - apply (Quiet_await (Some key) N2 (setCache key pw w2) pw
             (ResumeComputation rc0) (ComputationOf key pw)
             (ProvidedOf key rd)); try done.
    + simpl. by exists key.
    + simpl. by eexists.
  - apply Grow_insert; [|by subst rc0].
    eapply Grow_trans; [apply Grow_app|done].
  - eexists. split; [exact Hrc3|done].
  - split; [|by rewrite Hkw].
    intros _ _. split.
    + intros q role Hq. destruct (decide (q = rc0)) as [->|Hq0].
      { rewrite Hrc3 in Hq. by injection Hq as <-. }
      unfold N3 in Hq. rewrite list_lookup_insert_ne in Hq by done.
      by apply (Hno q role).
    + right. by exists pw, rd.
Qed.

(** *** The start of a call *)

(** The roles while the cache is being filled with the entries of the
    caller. *)
Definition OnlySeeds (N : list Role) : Prop :=
  ∀ q role, N !! q = Some role → role = Fresh ∨ ∃ k, role = SeedOf k.

Lemma OnlySeeds_no_slot N key :
  OnlySeeds N → ∀ q role, N !! q = Some role → slotKey role ≠ Some key.
Proof. intros H q role Hq. by destruct (H q role Hq) as [->|[k ->]]. Qed.

Lemma OnlySeeds_snoc N role :
  OnlySeeds N → role = Fresh ∨ (∃ k, role = SeedOf k) →
  OnlySeeds (N ++ [role]).
Proof.
  intros H Hr q role' Hq. destruct (decide (q = length N)) as [->|Hne].
  - rewrite lookup_snoc in Hq. by injection Hq as <-.
  - rewrite lookup_snoc_role in Hq by done. by eapply H.
Qed.

Lemma Inv_initial results : Inv [] None [] (initial results).
Proof.
  split; try done.
  - intros job Hj. by apply elem_of_nil in Hj.
  - intros key o Hin. by apply elem_of_nil in Hin.
Qed.

Lemma seed_Inv N w entry :
  Quiet None N w → OnlySeeds N →
  Quiet None (N ++ [SeedOf entry.1]) (seed entry w)
  ∧ cache (seed entry w) = <[entry.1 := length (promises w)]> (cache w).
Proof.
  intros [I Hi] Hno. unfold seed.
  destruct (allocate (Fulfilled (OfValue entry.2)) w) as [p w1] eqn:Ha.
  destruct (Inv_allocate [] None N w _ (SeedOf entry.1) p w1 Ha I)
    as (I1 & Hp & Hrole & Hst); try done.
  { simpl. eauto. }
  assert (Hi1 : invocations w1 = []) by by injection Ha as <- <-.
  assert (Hc1 : cache w1 = cache w) by by injection Ha as <- <-.
  assert (Hpl : p = length (promises w)) by by injection Ha.
  split.
  - eapply Quiet_setCache; [by split|..].
    + by left.
    + intros k q _ Hq. by eapply inv_cache.
    + apply OnlySeeds_no_slot, OnlySeeds_snoc; [done|]. right. eauto.
  - change (cache (setCache entry.1 p w1)) with (<[entry.1 := p]> (cache w1)).
    by rewrite Hc1, Hpl.
Qed.

Lemma seeds_Inv entries : ∀ N w,
  Quiet None N w → OnlySeeds N →
  ∃ N', Quiet None N' (foldr seed w entries) ∧ Grow N N' ∧ OnlySeeds N'.
Proof.
  induction entries as [|entry entries IH]; intros N w Q Hno; simpl.
  - exists N. split; [done|]. split; [apply Grow_refl|done].
  - destruct (IH N w Q Hno) as (N1 & Q1 & G1 & Hno1).
    destruct (seed_Inv N1 _ entry Q1 Hno1) as [Q2 _].
    exists (N1 ++ [SeedOf entry.1]). split; [done|].
    split; [eapply Grow_trans; [done|apply Grow_app]|].
    apply OnlySeeds_snoc; [done|]. right. eauto.
Qed.

Lemma cache_seeds_None entries w k :
  k ∉ entries.*1 → cache w !! k = None →
  cache (foldr seed w entries) !! k = None.
Proof.
  induction entries as [|entry entries IH]; simpl; [done|].
  intros Hk Hc. apply not_elem_of_cons in Hk as [Hne Hk].
  unfold seed at 1.
  destruct (allocate (Fulfilled (OfValue entry.2)) (foldr seed w entries))
    as [p w1] eqn:Ha.
  change (cache (setCache entry.1 p w1)) with (<[entry.1 := p]> (cache w1)).
  rewrite lookup_insert_ne by done.
  by apply IH.
Qed.

Lemma cache_resultsToPromises_None results w k :
  results !! k = None → cache w !! k = None →
  cache (resultsToPromises results w) !! k = None.
Proof.
  intros Hr Hc. apply cache_seeds_None; [|done].
  intros ((k' & v) & -> & Hin%elem_of_map_to_list)%list_elem_of_fmap.
  simpl in Hr. congruence.
Qed.

Lemma cache_seeds_Some entries w k :
  k ∈ entries.*1 → is_Some (cache (foldr seed w entries) !! k).
Proof.
  induction entries as [|entry entries IH]; simpl.
  { intros Hk. by apply elem_of_nil in Hk. }
  intros Hk. unfold seed at 1.
  destruct (allocate (Fulfilled (OfValue entry.2)) (foldr seed w entries))
    as [p w1] eqn:Ha.
  change (cache (setCache entry.1 p w1)) with (<[entry.1 := p]> (cache w1)).
  apply lookup_insert_is_Some'.
  apply elem_of_cons in Hk as [->|Hk]; [by left|right].
  by apply IH.
Qed.

Lemma cache_resultsToPromises_Some results w k :
  is_Some (results !! k) → is_Some (cache (resultsToPromises results w) !! k).
Proof.
  intros [v Hv]. apply cache_seeds_Some.
  apply list_elem_of_fmap. exists (k, v). split; [done|].
  by apply elem_of_map_to_list.
Qed.

Lemma Computed_registered B top N w key rc stored :
  Inv B top N w → Computed N key rc → nodes !! key = Some stored →
  ∃ pw rd, N !! rc = Some (ComputationOf key pw)
    ∧ N !! pw = Some (ProvidedOf key rd).
Proof.
  intros I [Hm|?] Hs; [exfalso|done].
  pose proof (inv_static _ _ _ _ I _ _ Hm) as Hn. simpl in Hn. congruence.
Qed.

Lemma Quiet_start results g w :
  newPromise (initial results) = (g, w) →
  Quiet None [Fresh] w ∧ g = 0 ∧ cache w = ∅
  ∧ promises w !! g = Some (Pending []).
Proof.
  intros Hn.
  destruct (Quiet_newPromise None [] _ _ _ Hn) as (Q & Hg & Hc & Hp).
  { split; [apply Inv_initial|done]. }
  done.
Qed.

Lemma Quiet_thenable top N w g src role :
  Quiet top N w →
  N !! g = Some Fresh → N !! src = Some role → role ≠ Fresh →
  Quiet top (<[g := TopOf src]> N) (enqueue (ResolveThenable g src) w).
Proof.
  intros [I Hi] Hg Hsrc Hrole. split; [|done].
  apply Inv_thenable; try done; [|by eapply Inv_alive].
  intros ->. congruence.
Qed.

Lemma get_Inv fuel key results g w :
  get nodes fuel key input results = Some (g, w) →
  ∃ top N, Quiet top N w ∧ (top = None ∨ top = Some key)
    ∧ (defined (prop results key) = false →
       ∃ rc, N !! g = Some (TopOf rc)
         ∧ (results !! key = None → Computed N key rc)
         ∧ (is_Some (results !! key) →
            ∃ src, N !! rc = Some (ComputationOf key src)
              ∧ N !! src = Some (SeedOf key)))
    ∧ (defined (prop results key) = true →
       cache w = ∅ ∧ fulfilled w g (OfValue (prop results key))).
Proof using Hranked.
  unfold get. destruct (newPromise (initial results)) as [g0 w1] eqn:Hn.
  destruct (Quiet_start _ _ _ Hn) as (Q1 & Hg & Hc1 & Hp1). subst g0.
  destruct (defined (prop results key)) eqn:Hdef.
  { intros [= <- <-]. destruct Q1 as [I1 Hi1].
    pose proof (Inv_role [] None [Fresh] w1 0 (SeedOf key) [] I1 eq_refl Hp1 I)
      as I2.
    exists None, [SeedOf key].
    split; [split|split; [by left|split; [done|]]].
    - eapply Inv_settle; [exact I2|..].
      + intros q Hq [?|Hin]%elem_of_cons; [done|]. by apply elem_of_nil in Hin.
      + intros role rs [= <-] _. simpl. eauto.
      + intros e rs [=].
    - by rewrite invocations_settle.
    - intros _. split; [by rewrite cache_settle|].
      by apply (settle_state _ (Normal _) _ []). }
  destruct (seeds_Inv (map_to_list results) [Fresh] w1 Q1)
    as (N2 & Q2 & G2 & Hno2).
  { intros [|q] role [=]. by left. }
  fold (resultsToPromises results w1) in Q2.
  destruct (resolveComputation nodes fuel key input
              (resultsToPromises results w1)) as [[rc w3]|] eqn:Hrc; [|done].
  intros [= <- <-].
  destruct (resolveComputation_Inv fuel _ _ _ _ _ Hrc Q2)
    as (N3 & Q3 & G3 & (rrole & Hrrole & Hval) & Hcond & Hfilled).
  assert (Hg3 : N3 !! 0 = Some Fresh).
  { eapply Grow_lookup; [exact G3|]. by eapply Grow_lookup. }
  exists (Some key), (<[0 := TopOf rc]> N3).
  split; [|split; [by right|split; [|done]]].
  - eapply Quiet_thenable; [done..|]. by intros ->.
  - intros _. exists rc.
    assert (Hlt : 0 < length N3) by by eapply lookup_lt_Some.
    assert (HE : Ext N3 (<[0 := TopOf rc]> N3)) by by apply Ext_assign.
    split; [by apply list_lookup_insert_eq|]. split.
    + intros Hr. eapply Computed_mono; [exact HE|]. apply Hcond.
      * apply cache_resultsToPromises_None; [done|]. by rewrite Hc1.
      * apply prop_undefined in Hdef as [?|[_ ?]]; [congruence|done].
    + intros Hr.
      destruct (cache_resultsToPromises_Some results w1 key Hr) as [src Hsrc].
      exists src. split; [apply HE; [by apply Hfilled|done]|].
      destruct Q2 as [I2 _].
      pose proof (inv_cache _ _ _ _ I2 _ _ Hsrc) as Hslot.
      apply HE; [|done]. eapply Grow_lookup; [exact G3|].
      destruct Hslot as [?|[[c Hc]|(rd & Hrd & _)]]; [done|exfalso..].
      * by destruct (Hno2 _ _ Hc) as [?|[? ?]].
      * by destruct (Hno2 _ _ Hrd) as [?|[? ?]].
Qed.



(** *** The jobs of the event loop *)

Lemma settled_settle p c w q c0 :
  promises w !! q = Some (settledState c0) →
  promises (settle p c w) !! q = Some (settledState c0).
Proof. apply (fut_settled _ _ _ _ (Future_settle nothing p c w)). Qed.

Lemma settled_subscribe p r w q c0 :
  promises w !! q = Some (settledState c0) →
  promises (subscribe p r w) !! q = Some (settledState c0).
Proof. apply (fut_settled _ _ _ _ (Future_subscribe nothing p r w)). Qed.

Lemma value_fulfilled B top N w q s :
  Inv B top N w → ValueRole N q → fulfilled w q s → ∃ v, s = OfValue v.
Proof.
  intros I (role & Hrole & Hval) Hq.
  pose proof (inv_clause _ _ _ _ I q role _ (held_settled _ _ (Normal s))
                Hrole Hq) as HC.
  destruct role; simpl in *; try done.
  - destruct HC as [v [= ->]]. eauto.
  - destruct HC as (v & _ & [= ->]). eauto.
  - by destruct HC.
  - by destruct HC.
  - by destruct HC.
  - by destruct HC.
Qed.

Lemma foldl_insert_lookup (entries : list (Key * Value)) :
  ∀ (o : gmap string Value) d v,
  foldl (λ o e, <[e.1 := e.2]> o) o entries !! d = Some v →
  (d, v) ∈ entries ∨ o !! d = Some v.
Proof.
  induction entries as [|[k x] entries IH]; intros o d v; simpl; [by right|].
  intros [Hin|Ho]%IH; [left; by right|].
  destruct (decide (k = d)) as [->|Hne].
  - rewrite lookup_insert_eq in Ho. injection Ho as ->. left. by left.
  - rewrite lookup_insert_ne in Ho by done. by right.
Qed.

Lemma foldl_insert_is_Some (entries : list (Key * Value)) :
  ∀ (o : gmap string Value) d,
  is_Some (foldl (λ o e, <[e.1 := e.2]> o) o entries !! d)
  ↔ d ∈ entries.*1 ∨ is_Some (o !! d).
Proof.
  induction entries as [|[k x] entries IH]; intros o d; simpl.
  - split; [by right|]. intros [Hin|?]; [|done]. by apply elem_of_nil in Hin.
  - rewrite IH, lookup_insert_is_Some', elem_of_cons. simpl.
    split; [intros [?|[?|?]]|intros [[?|?]|?]]; auto.
Qed.

Lemma fromEntries_lookup entries d v :
  fromEntries entries !! d = Some v → (d, v) ∈ entries.
Proof. intros [?|?]%foldl_insert_lookup; done. Qed.

Lemma fromEntries_is_Some entries d :
  is_Some (fromEntries entries !! d) ↔ d ∈ entries.*1.
Proof.
  unfold fromEntries. rewrite foldl_insert_is_Some.
  rewrite lookup_empty. split; [|by left]. intros [?|[? ?]]; done.
Qed.

(** The object that [resolveDependencies] is fulfilled with. *)
Lemma Exact_of_dependencies B top N w pw key rd stored s :
  Inv B top N w →
  N !! pw = Some (ProvidedOf key rd) → nodes !! key = Some stored →
  fulfilled w rd s → Exact w key (asObject s).
Proof.
  intros I Hpw Hstored Hrd.
  destruct (inv_static _ _ _ _ I _ _ Hpw) as (stored' & all & Hs' & Hrdrole).
  assert (stored' = stored) as -> by congruence.
  destruct (inv_clause _ _ _ _ I rd _ _ (held_settled _ _ (Normal s))
              Hrdrole Hrd) as (entries & Hall & ->).
  destruct (inv_static _ _ _ _ I _ _ Hrdrole) as (elems & Hallrole & Hkeys).
  destruct (inv_clause _ _ _ _ I all _ _
              (held_settled _ _ (Normal (OfEntries entries))) Hallrole Hall)
    as (entries' & [= <-] & Helems).
  assert (Hke : Forall2 (λ k e, e.1 = k ∧ slotYields w k e.2)
                  (dependencies stored) entries).
  { apply Forall2_same_length_lookup. split.
    { apply Forall2_length in Hkeys, Helems. congruence. }
    intros i k e Hk He.
    destruct (Forall2_lookup_l _ _ _ _ _ Hkeys Hk) as (qi & Hqi & src & Hqrole).
    destruct (Forall2_lookup_lr _ _ _ _ _ _ Helems Hqi He) as (s' & Hs'' & ->).
    destruct (inv_clause _ _ _ _ I qi _ _ (held_settled _ _ (Normal s'))
                Hqrole Hs'') as (v & Hsrc & ->).
    simpl. split; [done|].
    destruct (Inv_entry _ _ _ _ _ _ _ I Hqrole) as [[Hc _]|[Hin Hc]].
    - left. by exists src.
    - right. split; [done|].
      destruct (inv_clause _ _ _ _ I src _ _
                  (held_settled _ _ (Normal (OfValue v))) Hin Hsrc)
        as (v' & Hv' & [= ->]). done. }
  assert (Hfst : dependencies stored = entries.*1).
  { apply list_eq_Forall2, Forall2_fmap_r.
    eapply Forall2_impl; [exact Hke|]. intros k e [He _]. simpl. done. }
  exists stored. split; [done|]. split.
  - intros d. simpl. by rewrite fromEntries_is_Some, Hfst.
  - intros d v Hd. simpl in Hd. apply fromEntries_lookup in Hd.
    apply list_elem_of_lookup in Hd as [i Hi].
    destruct (Forall2_lookup_r _ _ _ _ _ Hke Hi) as (k & _ & Hk & Hy).
    simpl in *. by subst k.
Qed.

Lemma Inv_resume top N w t c :
  Inv [t] top N w →
  (∀ role rs, N !! t = Some role → promises w !! t = Some (Pending rs) →
     Clause N (settle t c w) t role (settledState c)) →
  (∀ e, c = Throw e → Blamed w e) →
  Inv [] top N (settle t c w).
Proof.
  intros I HCl HBl. eapply Inv_settle; [exact I| |exact HCl|].
  - intros q Hq [?|Hin]%elem_of_cons; [done|]. by apply elem_of_nil in Hin.
  - intros e rs He _. by apply HBl.
Qed.

Lemma Blamed_wrap w key e : Blamed w e → Blamed w (failedToResolve key e).
Proof.
  intros (keys & e0 & -> & HO). exists (key :: keys), e0. by split.
Qed.

Lemma react_Inv top N w r c rest :
  Inv [] top N w → jobs w = React r c :: rest →
  ∃ N', Inv [] top N' (react input r c (withJobs rest w)) ∧ Ext N N'.
Proof.
  intros I Hj.
  destruct (Inv_pop _ _ _ _ _ I Hj) as (I1 & (q & HFe & Hq) & F1).
  set (w1 := withJobs rest w) in *. simpl in I1.
  destruct r as [rc|key fn pw|pw|key derived|key cb|index all|rd|outer];
    simpl in HFe.
  - (* the rest of [resolveComputation] *)
    destruct HFe as [key Hrole]. exists N. split; [|apply Ext_refl].
    apply Inv_resume; [done| |].
    + intros role rs Hr _. rewrite Hrole in Hr. injection Hr as <-.
      destruct c as [s|e]; simpl.
      * split; [by apply (settled_settle _ _ _ _ (Normal s))|].
        eapply value_fulfilled; [exact I1| |exact Hq].
        apply (inv_static _ _ _ _ I1 _ _ Hrole).
      * by apply (settled_settle _ _ _ _ (Throw e)).
    + intros e ->. by eapply inv_blame.
  - (* the closure of [provideDependencies] calls the function *)
    destruct HFe as [Hrole (stored & Hstored & ->)].
    destruct c as [s|e]; cbn [react].
    2:{ exists N. split; [|apply Ext_refl]. apply Inv_resume; [done| |].
        - intros role rs Hr _. rewrite Hrole in Hr. injection Hr as <-.
          simpl. left. by apply (settled_settle _ _ _ _ (Throw e)).
        - intros e' [= <-]. by eapply inv_blame. }
    set (o := asObject s).
    assert (HEx : Exact w1 key o) by by eapply Exact_of_dependencies.
    pose proof (Inv_record _ _ _ _ key o I1 HEx) as I2.
    set (w2 := record key o w1) in *.
    assert (Hq2 : fulfilled w2 q s) by done.
    assert (Hin2 : (key, o) ∈ invocations w2).
    { unfold w2, record. simpl. apply elem_of_app. right.
      by apply list_elem_of_singleton. }
    assert (Hlt : pw < length N) by by eapply lookup_lt_Some.
    destruct (userFn stored input o) as [[v|outcome]|e] eqn:Hfn.
    + (* it returns a value, which is awaited *)
      unfold awaitValue.
      destruct (allocate (Fulfilled (OfValue v)) w2) as [u w3] eqn:Ha.
      assert (Hq3 : fulfilled w3 q s).
      { assert (promises w3 = promises w2 ++ [Fulfilled (OfValue v)]) as Hps
          by by injection Ha as <- <-.
        unfold fulfilled. rewrite Hps. by apply lookup_app_l_Some. }
      destruct (Inv_allocate [pw] top N w2 _ (UserOf pw) u w3 Ha I2)
        as (I3 & Hu & Hurole & Hust); try done.
      { simpl. split; [|eauto]. exists key, q, s.
        split; [by apply lookup_app_l_Some|done]. }
      set (N3 := N ++ [UserOf pw]) in *.
      assert (Hrole3 : N3 !! pw = Some (ProvidedOf key q))
        by by apply lookup_app_l_Some.
      exists N3. split; [|apply Ext_app].
      eapply (Inv_subscribe_same [pw] [] top N3 w3 u (ResumeReturn pw));
        [exact I3|exact Hrole3|simpl; lia|by eexists|exact Hurole| |].
      * intros p Hp [?|Hin]%elem_of_cons; [done|]. by apply elem_of_nil in Hin.
      * intros rs _ _ Hw. simpl. right. split.
        { exists s. by apply (settled_subscribe _ _ _ _ (Normal s)). }
        exists u. by split.
    + (* it returns a promise *)
      destruct (allocate (Pending [ResumeReturn pw]) w2) as [u w3] eqn:Ha.
      assert (Hps : promises w3 = promises w2 ++ [Pending [ResumeReturn pw]])
        by by injection Ha as <- <-.
      assert (Hul : u = length N).
      { rewrite (inv_len _ _ _ _ I2). by injection Ha. }
      assert (Hq3 : fulfilled w3 q s).
      { unfold fulfilled. rewrite Hps. by apply lookup_app_l_Some. }
      destruct (Inv_allocate [pw] top N w2 _ (UserOf pw) u w3 Ha I2)
        as (I3 & Hu & Hurole & Hust); try done.
      { simpl. split; [|done]. exists key, q, s.
        split; [by apply lookup_app_l_Some|done]. }
      { intros rs r [= <-] Hr%list_elem_of_singleton. subst r. simpl.
        subst u. apply lookup_snoc. }
      set (N3 := N ++ [UserOf pw]) in *.
      assert (Hrole3 : N3 !! pw = Some (ProvidedOf key q))
        by by apply lookup_app_l_Some.
      assert (Hin3 : (key, o) ∈ invocations w3) by by injection Ha as <- <-.
      exists N3. split; [|apply Ext_app].
      apply (Inv_release [] top N3 _ pw).
      * apply Inv_withExternal; [done|]. intros u' c'.
        destruct (decide (u' = u)) as [->|Hne].
        { rewrite lookup_insert_eq. intros [= <-]. right. split; [by exists pw|].
          by exists key, o, stored. }
        rewrite lookup_insert_ne by done. by left.
      * intros role rs Hr _. rewrite Hrole3 in Hr. injection Hr as <-.
        simpl. right. split; [by exists s|]. exists u. split; [done|].
        left. exists [ResumeReturn pw]. split; [done|].
        by apply list_elem_of_singleton.
    + (* it throws *)
      exists N. split; [|apply Ext_refl]. apply Inv_resume; [done| |].
      * intros role rs Hr _. rewrite Hrole in Hr. injection Hr as <-.
        simpl. right. exists s. by apply (settled_settle _ _ _ _ (Normal s)).
      * intros e' [= <-]. exists [], e. split; [done|]. right.
        exists key, o, stored. split; [done|]. split; [done|]. by left.
  - (* the closure of [provideDependencies] returns *)
    exists N. split; [|apply Ext_refl]. apply Inv_resume; [done| |].
    + intros role rs Hr _.
      destruct (inv_clause _ _ _ _ I1 q _ _ (held_settled _ _ c) HFe Hq)
        as [(key & rd & o & Hpw & Ho) Hval].
      rewrite Hpw in Hr. injection Hr as <-.
      assert (Ho' : fulfilled (settle pw c w1) rd o)
        by by apply (settled_settle _ _ _ _ (Normal o)).
      destruct c as [s|e]; simpl; [split; [done|]|right]; eauto.
    + intros e ->. by eapply inv_blame.
  - (* the handler of [catch] *)
    pose proof (inv_static _ _ _ _ I1 _ _ HFe) as Hcomp. simpl in Hcomp.
    destruct c as [s|e]; cbn [react].
    + exists N. split; [|apply Ext_refl]. apply Inv_resume; [done| |done].
      intros role rs Hr _. rewrite HFe in Hr. injection Hr as <-. simpl.
      split; [by apply (settled_settle _ _ _ _ (Normal s))|].
      eapply value_fulfilled; [exact I1| |exact Hq].
      by eapply Computed_value.
    + exists N. split; [|apply Ext_refl]. apply Inv_resume; [done| |].
      * intros role rs Hr _. rewrite HFe in Hr. injection Hr as <-. simpl.
        exists e. split; [|done]. by apply (settled_settle _ _ _ _ (Throw e)).
      * intros e' [= <-]. apply Blamed_wrap. by eapply inv_blame.
  - (* the callback of [keys.map] returns its entry *)
    pose proof (Inv_entry_value _ _ _ _ _ _ _ I1 HFe) as Hslot.
    destruct c as [s|e]; cbn [react].
    + destruct (value_fulfilled _ _ _ _ _ _ I1 Hslot Hq) as [v ->].
      exists N. split; [|apply Ext_refl]. apply Inv_resume; [done| |done].
      intros role rs Hr _. rewrite HFe in Hr. injection Hr as <-. simpl.
      exists v. split; [|done].
      by apply (settled_settle _ _ _ _ (Normal (OfValue v))).
    + exists N. split; [|apply Ext_refl]. apply Inv_resume; [done| |].
      * intros role rs Hr _. rewrite HFe in Hr. injection Hr as <-. simpl.
        by apply (settled_settle _ _ _ _ (Throw e)).
      * intros e' [= <-]. by eapply inv_blame.
  - (* an element of [Promise.all] *)
    destruct HFe as (elems & Hrole & Hidx).
    destruct c as [s|e]; cbn [react].
    2:{ exists N. split; [|apply Ext_refl]. apply Inv_resume; [done| |].
        - intros role rs Hr _. rewrite Hrole in Hr. injection Hr as <-.
          simpl. exists q. split; [by eapply list_elem_of_lookup_2|].
          by apply (settled_settle _ _ _ _ (Throw e)).
        - intros e' [= <-]. by eapply inv_blame. }
    set (values := <[index := Some (asEntry s)]>
                     (default [] (collected w1 !! all))).
    set (w2 := withCollected (<[all := values]> (collected w1)) w1).
    assert (I2 : Inv [all] top N w2).
    { apply Inv_withCollected; [done|]. by left. }
    assert (F2 : Future (λ j, j = React (AllElement index all) (Normal s))
                   [all] w w2).
    { eapply Future_trans.
      - eapply Future_weaken; [| |exact F1]; [done|apply list_subseteq_nil].
      - apply Future_withCollected. }
    assert (HCl : ∀ rs, promises w1 !! all = Some (Pending rs) →
              length values = length elems
              ∧ ∀ i qi, elems !! i = Some qi →
                  (values !! i = Some None ∧ waits w2 (AllElement i all) qi)
                  ∨ (∃ s', values !! i = Some (Some (asEntry s'))
                       ∧ fulfilled w2 qi s')).
    { intros rs Hst.
      destruct (inv_clause _ _ _ _ I all _ _ (held_nil _ _) Hrole Hst)
        as (values0 & Hcol & Hlen & Hel).
      assert (Hv : values = <[index := Some (asEntry s)]> values0).
      { unfold values. change (collected w1) with (collected w).
        by rewrite Hcol. }
      split; [by rewrite Hv, length_insert|]. intros i qi Hi.
      destruct (decide (i = index)) as [->|Hne].
      - right. exists s. rewrite Hv, list_lookup_insert_eq.
        + split; [done|]. assert (qi = q) as -> by congruence. exact Hq.
        + rewrite Hlen. by eapply lookup_lt_Some.
      - rewrite Hv, list_lookup_insert_ne by done.
        destruct (Hel i qi Hi) as [[? Hw]|(s' & ? & ?)]; [left|right; eauto].
        split; [done|]. eapply waits_mono; [exact F2| |exact Hw].
        intros c' [= ->]. done. }
    destruct (mapM id values) as [entries|] eqn:Hm.
    + exists N. split; [|apply Ext_refl]. apply Inv_resume; [done| |done].
      intros role rs Hr Hst. rewrite Hrole in Hr. injection Hr as <-.
      destruct (HCl rs Hst) as [Hlen Hel]. apply mapM_Some in Hm.
      simpl. exists entries. split; [done|].
      apply Forall2_same_length_lookup. split.
      { apply Forall2_length in Hm. congruence. }
      intros i qi e Hi He.
      destruct (Forall2_lookup_r _ _ _ _ _ Hm He) as (x & Hx & Hxe).
      simpl in Hxe. subst x.
      destruct (Hel i qi Hi) as [[? _]|(s' & Hs' & Hf)]; [congruence|].
      exists s'. split; [by apply (settled_settle _ _ _ _ (Normal s'))|].
      congruence.
    + exists N. split; [|apply Ext_refl].
      apply (Inv_release [] top N _ all); [done|].
      intros role rs Hr Hst. rewrite Hrole in Hr. injection Hr as <-.
      destruct (HCl rs Hst) as [Hlen Hel]. simpl. exists values.
      split; [|done]. unfold w2. simpl. apply lookup_insert_eq.
  - (* the rest of [resolveDependencies] *)
    destruct HFe as [keys Hrole].
    destruct (inv_static _ _ _ _ I1 _ _ Hrole) as (elems & Hall & _).
    destruct c as [s|e]; cbn [react].
    + destruct (inv_clause _ _ _ _ I1 q _ _ (held_settled _ _ (Normal s))
                  Hall Hq) as (entries & -> & _).
      exists N. split; [|apply Ext_refl]. apply Inv_resume; [done| |done].
      intros role rs Hr _. rewrite Hrole in Hr. injection Hr as <-. simpl.
      exists entries. split; [|done].
      by apply (settled_settle _ _ _ _ (Normal (OfEntries entries))).
    + exists N. split; [|apply Ext_refl]. apply Inv_resume; [done| |].
      * intros role rs Hr _. rewrite Hrole in Hr. injection Hr as <-. simpl.
        by apply (settled_settle _ _ _ _ (Throw e)).
      * intros e' [= <-]. by eapply inv_blame.
  - (* the promise of the call takes the state of the computation *)
    exists N. split; [|apply Ext_refl]. apply Inv_resume; [done| |].
    + intros role rs Hr _. rewrite HFe in Hr. injection Hr as <-.
      destruct c as [s|e]; simpl.
      * by apply (settled_settle _ _ _ _ (Normal s)).
      * by apply (settled_settle _ _ _ _ (Throw e)).
    + intros e ->. by eapply inv_blame.
Qed.

Lemma step_Inv top N ev w :
  Inv [] top N w → ∃ N', Inv [] top N' (step input ev w) ∧ Ext N N'.
Proof.
  intros I. destruct ev as [|u]; simpl.
  - destruct (jobs w) as [|[r c|outer src] rest] eqn:Hj.
    + exists N. split; [done|apply Ext_refl].
    + by eapply react_Inv.
    + destruct (Inv_pop _ _ _ _ _ I Hj) as (I1 & (Hrole & Hsrc & Hne) & F1).
      exists N. split; [|apply Ext_refl]. simpl.
      eapply (Inv_subscribe_same [outer] [] top N _ src (Adopt outer));
        [exact I1|exact Hrole|done|done|exact Hrole| |].
      * intros p Hp [?|Hin]%elem_of_cons; [done|]. by apply elem_of_nil in Hin.
      * intros rs _ _ Hw. simpl. by right.
  - destruct (external w !! u) as [outcome|] eqn:Hu.
    2:{ exists N. split; [done|apply Ext_refl]. }
    destruct (inv_external _ _ _ _ I _ _ Hu)
      as [[pw Hurole] (key & o & stored & Hin & Hstored & Hfn)].
    set (w1 := withExternal (delete u (external w)) w).
    assert (I1 : Inv [] top N w1).
    { apply Inv_withExternal; [done|]. intros u' c' Hd. left.
      by apply lookup_delete_Some in Hd as [_ ?]. }
    exists N. split; [|apply Ext_refl]. eapply Inv_settle; [exact I1|done| |].
    + intros role rs Hr Hst. rewrite Hurole in Hr. injection Hr as <-.
      destruct (inv_clause _ _ _ _ I1 u _ _ (held_nil _ _) Hurole Hst)
        as [(key' & rd & o' & Hpw & Ho') _].
      simpl. split.
      * exists key', rd, o'. split; [done|].
        by apply (settled_settle _ _ _ _ (Normal o')).
      * destruct outcome; simpl; eauto.
    + intros e rs He _. exists [], e. split; [done|]. right.
      exists key, o, stored. split; [done|]. split; [done|]. right.
      destruct outcome; simpl in He; [done|]. by injection He as ->.
Qed.

Lemma run_Inv top events : ∀ N w,
  Inv [] top N w → ∃ N', Inv [] top N' (run input events w) ∧ Ext N N'.
Proof.
  induction events as [|ev events IH]; intros N w I; simpl.
  - exists N. split; [done|apply Ext_refl].
  - destruct (step_Inv _ _ ev _ I) as (N1 & I1 & E1).
    destruct (IH _ _ I1) as (N2 & I2 & E2).
    exists N2. split; [done|]. by eapply Ext_trans.
Qed.

(** A settled promise stays as it is. *)
Lemma settled_allocate state w p w' q c0 :
  allocate state w = (p, w') →
  promises w !! q = Some (settledState c0) →
  promises w' !! q = Some (settledState c0).
Proof. intros [= <- <-] Hq. simpl. by apply lookup_app_l_Some. Qed.

Lemma react_settled r c w q c0 :
  promises w !! q = Some (settledState c0) →
  promises (react input r c w) !! q = Some (settledState c0).
Proof.
  intros Hq. destruct r; cbn [react];
    try (destruct c; by apply settled_settle).
  - destruct c as [s|e]; [|by apply settled_settle].
    destruct (fn input (asObject s)) as [[v|outcome]|e];
      [| |by apply settled_settle].
    + unfold awaitValue.
      destruct (allocate (Fulfilled (OfValue v)) (record key (asObject s) w))
        as [u w3] eqn:Ha.
      apply settled_subscribe. by eapply settled_allocate.
    + destruct (allocate (Pending [ResumeReturn pw])
                  (record key (asObject s) w)) as [u w3] eqn:Ha.
      simpl. by eapply settled_allocate.
  - destruct c as [s|e]; [|by apply settled_settle].
    destruct (mapM id _); [by apply settled_settle|done].
Qed.

Lemma step_settled ev w q c0 :
  promises w !! q = Some (settledState c0) →
  promises (step input ev w) !! q = Some (settledState c0).
Proof.
  intros Hq. destruct ev as [|u]; simpl.
  - destruct (jobs w) as [|[r c|outer src] rest]; [done| |]; simpl.
    + by apply react_settled.
    + by apply settled_subscribe.
  - destruct (external w !! u); [|done]. by apply settled_settle.
Qed.

Lemma run_settled events : ∀ w q c0,
  promises w !! q = Some (settledState c0) →
  promises (run input events w) !! q = Some (settledState c0).
Proof.
  induction events as [|ev events IH]; intros w q c0 Hq; simpl; [done|].
  apply IH. by apply step_settled.
Qed.

(** *** The queue empties *)

Lemma workLeft_step w job rest :
  jobs w = job :: rest → workLeft (step input Microtask w) < workLeft w.
Proof.
  intros Hj. unfold workLeft. simpl. rewrite Hj.
  set (f := λ r : Reaction P,
         match r with ResumeProvided _ _ _ => 2 | _ => 1 end).
  pose proof (measure_pop f 2 job rest w Hj) as Hpop.
  destruct job as [r c|outer src]; simpl in *.
  - pose proof (measure_react f 2 input r c (withJobs rest w)) as Hr.
    destruct r; simpl in *; lia.
  - pose proof (measure_subscribe f 2 src (Adopt outer) (withJobs rest w)).
    simpl in *. lia.
Qed.

Lemma workLeft_zero w : workLeft w = 0 → jobs w = [].
Proof.
  unfold workLeft, measure. destruct (jobs w) as [|[[]|] rest]; simpl;
    first [done|intros; exfalso; lia].
Qed.

Lemma drain_idle n w : jobs w = [] → drain input n w = w.
Proof.
  intros Hj. unfold drain. induction n as [|n IH]; simpl; [done|].
  by rewrite Hj.
Qed.

Lemma drain_quiet n : ∀ w, workLeft w ≤ n → jobs (drain input n w) = [].
Proof.
  induction n as [|n IH]; intros w Hn.
  - unfold drain. simpl. apply workLeft_zero. lia.
  - destruct (jobs w) as [|job rest] eqn:Hj.
    + by rewrite drain_idle.
    + unfold drain. simpl. apply IH.
      pose proof (workLeft_step w job rest Hj). simpl in *. lia.
Qed.

(** *** When the queue is empty *)

Lemma stuck w r q c :
  jobs w = [] → promises w !! q = Some (settledState c) → waits w r q → False.
Proof.
  intros Hj Hq [(rs & Hq' & _)|(c' & _ & Hin)].
  - rewrite Hq in Hq'. by destruct c.
  - rewrite Hj in Hin. by apply elem_of_nil in Hin.
Qed.

Section Quiescent.
Variables (top : option Key) (N : list Role) (w : World P).
Hypothesis I : Inv [] top N w.
Hypothesis Hidle : jobs w = [].

Ltac chain p role Hrole :=
  let st := fresh "st" in let Hst := fresh "Hst" in let HC := fresh "HC" in
  destruct (Inv_alive _ _ _ _ p role I Hrole) as [st Hst];
  pose proof (inv_clause _ _ _ _ I p role st (held_nil _ _) Hrole Hst) as HC;
  destruct st as [?rs|?s|?err]; simpl in HC.

Lemma entry_rejected cb k src e :
  N !! cb = Some (EntryOf k src) → rejected w src e → rejected w cb e.
Proof using I Hidle.
  intros Hrole Hrej. chain cb (EntryOf k src) Hrole.
  - destruct (stuck _ _ _ (Throw e) Hidle Hrej HC).
  - destruct HC as (v & Hf & _). unfold fulfilled, rejected in *. congruence.
  - unfold rejected in *. congruence.
Qed.

Lemma all_rejected all elems q e :
  N !! all = Some (AllOf elems) → q ∈ elems → rejected w q e →
  ∃ q' e', q' ∈ elems ∧ rejected w q' e' ∧ rejected w all e'.
Proof using I Hidle.
  intros Hrole Hq Hrej. apply list_elem_of_lookup in Hq as [i Hi].
  chain all (AllOf elems) Hrole.
  - destruct HC as (values & _ & _ & Hel).
    destruct (Hel i q Hi) as [[_ Hw]|(s & _ & Hf)].
    + destruct (stuck _ _ _ (Throw e) Hidle Hrej Hw).
    + unfold fulfilled, rejected in *. congruence.
  - destruct HC as (entries & _ & Hall).
    destruct (Forall2_lookup_l _ _ _ _ _ Hall Hi) as (x & _ & s' & Hf & _).
    unfold fulfilled, rejected in *. congruence.
  - destruct HC as (q' & Hq' & Hr'). by exists q', err.
Qed.

Lemma dependencies_rejected rd keys all e :
  N !! rd = Some (DependenciesOf keys all) → rejected w all e →
  rejected w rd e.
Proof using I Hidle.
  intros Hrole Hrej. chain rd (DependenciesOf keys all) Hrole.
  - destruct (stuck _ _ _ (Throw e) Hidle Hrej HC).
  - destruct HC as (entries & Hf & _).
    unfold fulfilled, rejected in *. congruence.
  - unfold rejected in *. congruence.
Qed.

Lemma provided_rejected pw key rd e :
  N !! pw = Some (ProvidedOf key rd) → rejected w rd e → rejected w pw e.
Proof using I Hidle.
  intros Hrole Hrej. chain pw (ProvidedOf key rd) Hrole.
  - destruct HC as [[fn Hw]|[[o Ho] _]].
    + destruct (stuck _ _ _ (Throw e) Hidle Hrej Hw).
    + unfold fulfilled, rejected in *. congruence.
  - destruct HC as [_ [o Ho]]. unfold fulfilled, rejected in *. congruence.
  - destruct HC as [?|[o Ho]]; unfold fulfilled, rejected in *; congruence.
Qed.

Lemma computation_rejected rc key src e :
  N !! rc = Some (ComputationOf key src) → rejected w src e →
  rejected w rc e.
Proof using I Hidle.
  intros Hrole Hrej. chain rc (ComputationOf key src) Hrole.
  - destruct (stuck _ _ _ (Throw e) Hidle Hrej HC).
  - destruct HC as [Hf _]. unfold fulfilled, rejected in *. congruence.
  - unfold rejected in *. congruence.
Qed.

Lemma catch_rejected derived key src e :
  N !! derived = Some (CatchOf key src) → rejected w src e →
  rejected w derived (failedToResolve key e).
Proof using I Hidle.
  intros Hrole Hrej. chain derived (CatchOf key src) Hrole.
  - destruct (stuck _ _ _ (Throw e) Hidle Hrej HC).
  - destruct HC as [Hf _]. unfold fulfilled, rejected in *. congruence.
  - destruct HC as (e0 & Hr0 & ->). unfold rejected in *. congruence.
Qed.

Lemma top_rejected g src e :
  N !! g = Some (TopOf src) → rejected w src e → rejected w g e.
Proof using I Hidle.
  intros Hrole Hrej. chain g (TopOf src) Hrole.
  - destruct HC as [Hin|Hw].
    + rewrite Hidle in Hin. by apply elem_of_nil in Hin.
    + destruct (stuck _ _ _ (Throw e) Hidle Hrej Hw).
  - unfold fulfilled, rejected in *. congruence.
  - unfold rejected in *. congruence.
Qed.

(** The closure of [provideDependencies] of a node with a failed dependency
    rejects with the error of one of the failed dependencies. *)
Lemma node_rejected pw key rd stored d qd e :
  N !! pw = Some (ProvidedOf key rd) → nodes !! key = Some stored →
  d ∈ dependencies stored → cache w !! d = Some qd → rejected w qd e →
  ∃ k qk rc cause,
    k ∈ dependencies stored ∧ cache w !! k = Some qk
    ∧ N !! qk = Some (CatchOf k rc) ∧ rejected w rc cause
    ∧ rejected w qk (failedToResolve k cause)
    ∧ rejected w pw (failedToResolve k cause).
Proof using I Hidle.
  intros Hpw Hstored Hd Hqd Hrej.
  destruct (inv_static _ _ _ _ I _ _ Hpw) as (stored' & all & Hs' & Hrd).
  assert (stored' = stored) as -> by congruence.
  destruct (inv_static _ _ _ _ I _ _ Hrd) as (elems & Hall & Hkeys).
  apply list_elem_of_lookup in Hd as [i Hi].
  destruct (Forall2_lookup_l _ _ _ _ _ Hkeys Hi) as (cb & Hcb & src & Hcbrole).
  assert (src = qd) as ->.
  { by destruct (Inv_entry_cache _ _ _ _ _ _ _ _ I Hcbrole Hqd) as [-> _]. }
  pose proof (entry_rejected _ _ _ _ Hcbrole Hrej) as Hcbrej.
  destruct (all_rejected _ _ _ _ Hall (list_elem_of_lookup_2 _ _ _ Hcb) Hcbrej)
    as (q' & e' & Hq' & Hrej' & Hallrej).
  apply list_elem_of_lookup in Hq' as [j Hj].
  destruct (Forall2_lookup_r _ _ _ _ _ Hkeys Hj) as (k & Hk & qk & Hq'role).
  assert (Hqk : rejected w qk e').
  { chain q' (EntryOf k qk) Hq'role; unfold fulfilled, rejected in *;
      congruence. }
  destruct (Inv_entry _ _ _ _ _ _ _ I Hq'role)
    as [[Hslot [Hseed|[rc Hcatch]]]|[Hin _]].
  { chain qk (SeedOf k) Hseed; destruct HC as [v HC];
      unfold rejected in *; congruence. }
  2:{ chain qk (InheritedOf k) Hin; destruct HC as (v & _ & HC);
        unfold rejected in *; congruence. }
  assert (∃ cause, rejected w rc cause ∧ e' = failedToResolve k cause)
    as (cause & Hcause & ->).
  { chain qk (CatchOf k rc) Hcatch; unfold rejected in *; try congruence.
    destruct HC as (e0 & ? & ->). exists e0. split; [done|]. congruence. }
  exists k, qk, rc, cause. split; [by eapply list_elem_of_lookup_2|].
  split; [done|]. split; [done|]. split; [done|]. split; [done|].
  eapply provided_rejected; [done|]. by eapply dependencies_rejected.
Qed.

(** The slot of a node that was computed for a dependent. *)
Lemma slot_rejected m slot rc stored d qd e :
  N !! slot = Some (CatchOf m rc) → nodes !! m = Some stored →
  d ∈ dependencies stored → cache w !! d = Some qd → rejected w qd e →
  ∃ k qk cause,
    k ∈ dependencies stored ∧ cache w !! k = Some qk
    ∧ rejected w qk (failedToResolve k cause)
    ∧ rejected w slot (failedToResolve m (failedToResolve k cause)).
Proof using I Hidle.
  intros Hslot Hstored Hd Hqd Hrej.
  pose proof (inv_static _ _ _ _ I _ _ Hslot) as Hcomp. simpl in Hcomp.
  destruct (Computed_registered _ _ _ _ _ _ _ I Hcomp Hstored)
    as (pw & rd & Hrc & Hpw).
  destruct (node_rejected _ _ _ _ _ _ _ Hpw Hstored Hd Hqd Hrej)
    as (k & qk & rck & cause & Hk & Hqk & _ & _ & Hrejk & Hrejpw).
  exists k, qk, cause. split; [done|]. split; [done|]. split; [done|].
  eapply catch_rejected; [done|]. by eapply computation_rejected.
Qed.

(** The promise that [get] returned. *)
Lemma call_rejected g rc key stored d qd e :
  N !! g = Some (TopOf rc) → Computed N key rc → nodes !! key = Some stored →
  d ∈ dependencies stored → cache w !! d = Some qd → rejected w qd e →
  ∃ k qk cause,
    k ∈ dependencies stored ∧ cache w !! k = Some qk
    ∧ rejected w qk (failedToResolve k cause)
    ∧ rejected w g (failedToResolve k cause).
Proof using I Hidle.
  intros Hg Hcomp Hstored Hd Hqd Hrej.
  destruct (Computed_registered _ _ _ _ _ _ _ I Hcomp Hstored)
    as (pw & rd & Hrc & Hpw).
  destruct (node_rejected _ _ _ _ _ _ _ Hpw Hstored Hd Hqd Hrej)
    as (k & qk & rck & cause & Hk & Hqk & _ & _ & Hrejk & Hrejpw).
  exists k, qk, cause. split; [done|]. split; [done|]. split; [done|].
  eapply top_rejected; [done|]. by eapply computation_rejected.
Qed.
End Quiescent.

End Network.

(** *** The message of the original error *)

(** The message of [e0] can be read off the end of the message of [e]. *)
Definition retrievable (e0 e : JSError) : Prop :=
  ∃ prefix, message e = prefix +:+ message e0.

Lemma string_app_assoc (s1 s2 s3 : string) :
  (s1 +:+ s2) +:+ s3 = s1 +:+ (s2 +:+ s3).
Proof.
  induction s1 as [|a s1 IH]; [done|]. exact (f_equal (String a) IH).
Qed.

Lemma string_app_nil_r (s : string) : s +:+ EmptyString = s.
Proof. induction s as [|a s IH]; [done|]. exact (f_equal (String a) IH). Qed.

Lemma errorToString_message e :
  ∃ prefix, errorToString e = prefix +:+ message e.
Proof.
  unfold errorToString. destruct (message e) as [|a msg].
  - exists "Error". by rewrite string_app_nil_r.
  - by exists "Error: ".
Qed.

Lemma retrievable_refl e : retrievable e e.
Proof. by exists EmptyString. Qed.

Lemma retrievable_wrap key e0 e :
  retrievable e0 e → retrievable e0 (failedToResolve key e).
Proof.
  intros [p Hp]. destruct (errorToString_message e) as [p' Hp'].
  exists ("Failed to resolve dependencies for key " +:+ quoted key +:+ ": "
          +:+ p' +:+ p).
  unfold failedToResolve. cbn [message]. rewrite Hp', Hp.
  by rewrite !string_app_assoc.
Qed.

Lemma retrievable_foldr keys e0 :
  retrievable e0 (foldr failedToResolve e0 keys).
Proof.
  induction keys as [|k keys IH]; simpl; [apply retrievable_refl|].
  by apply retrievable_wrap.
Qed.

Section Propagation.
Context {P : Type}.
Variable nodes : gmap string (Resolved P).
Variable input : P.
Hypothesis Hconstructed : constructed nodes.

Lemma Blamed_retrievable (w : World P) e :
  Blamed nodes input w e →
  ∃ root, Origin nodes input w root ∧ retrievable root e.
Proof.
  intros (keys & e0 & -> & HO). exists e0. split; [done|].
  apply retrievable_foldr.
Qed.

End Propagation.

Section Totality.
Context {P : Type}.
Variable nodes : gmap string (Resolved P).
Variable input : P.
Variable rank : Key → nat.
Hypothesis Hranked : ranked rank nodes.

(** *** The caller's object is never written *)

Lemma supplied_newPromise (w : World P) p w' :
  newPromise w = (p, w') → supplied w' = supplied w.
Proof. by intros [= <- <-]. Qed.

Lemma supplied_awaitSlot key r (w : World P) :
  supplied (awaitSlot key r w) = supplied w.
Proof.
  unfold awaitSlot. destruct (cache w !! key).
  - apply supplied_subscribe.
  - apply supplied_awaitValue.
Qed.

Lemma supplied_subscribeAll all ps : ∀ index (w : World P),
  supplied (subscribeAll all index ps w) = supplied w.
Proof.
  induction ps as [|p ps IH]; intros index w; simpl; [done|].
  by rewrite IH, supplied_subscribe.
Qed.

Lemma supplied_promiseAll ps (w : World P) all w' :
  promiseAll ps w = (all, w') → supplied w' = supplied w.
Proof.
  unfold promiseAll. destruct (newPromise w) as [all0 w1] eqn:Hn.
  apply supplied_newPromise in Hn. destruct ps as [|p ps].
  - intros [= <- <-]. by rewrite supplied_settle.
  - intros [= <- <-]. rewrite supplied_subscribeAll, supplied_subscribe.
    exact Hn.
Qed.

Definition Keeps (resolve : Resolver (P := P)) : Prop :=
  ∀ key w p w', resolve key input w = Some (p, w') → supplied w' = supplied w.

Lemma supplied_entryOf resolve key w cb w' :
  Keeps resolve →
  entryOf resolve key input w = Some (cb, w') → supplied w' = supplied w.
Proof.
  intros Hres. unfold entryOf.
  destruct (newPromise w) as [cb0 w1] eqn:Hn. apply supplied_newPromise in Hn.
  destruct (cache w1 !! key) as [q|].
  - intros [= <- <-]. by rewrite supplied_awaitSlot.
  - destruct (truthy (unfilled key)).
    { intros [= <- <-]. by rewrite supplied_awaitSlot. }
    destruct (resolve key input w1) as [[rc w2]|] eqn:Hr; [|done].
    apply Hres in Hr.
    destruct (newPromise w2) as [derived w3] eqn:Hn3.
    apply supplied_newPromise in Hn3.
    intros [= <- <-]. rewrite supplied_awaitSlot.
    change (supplied (setCache key derived ?x)) with (supplied x).
    rewrite supplied_subscribe. congruence.
Qed.

Lemma supplied_mapEntries resolve keys : Keeps resolve → ∀ w cbs w',
  mapEntries resolve keys input w = Some (cbs, w') → supplied w' = supplied w.
Proof.
  intros Hres. induction keys as [|k keys IH]; intros w cbs w'; simpl.
  - by intros [= <- <-].
  - destruct (entryOf resolve k input w) as [[cb w1]|] eqn:He; [|done].
    apply supplied_entryOf in He; [|done].
    destruct (mapEntries resolve keys input w1) as [[cbs' w2]|] eqn:Hm;
      [|done].
    apply IH in Hm. intros [= <- <-]. congruence.
Qed.

Lemma supplied_resolveDependenciesWith resolve keys w rd w' :
  Keeps resolve →
  resolveDependenciesWith resolve keys input w = Some (rd, w') →
  supplied w' = supplied w.
Proof.
  intros Hres. unfold resolveDependenciesWith.
  destruct (newPromise w) as [rd0 w1] eqn:Hn. apply supplied_newPromise in Hn.
  destruct (mapEntries resolve keys input w1) as [[cbs w2]|] eqn:Hm; [|done].
  apply supplied_mapEntries in Hm; [|done].
  destruct (promiseAll cbs w2) as [all w3] eqn:Ha.
  apply supplied_promiseAll in Ha.
  intros [= <- <-]. rewrite supplied_subscribe. congruence.
Qed.

Lemma supplied_resolveComputation fuel :
  Keeps (resolveComputation nodes fuel).
Proof.
  induction fuel as [|fuel IH]; intros key w p w'; [done|].
  cbn [resolveComputation].
  destruct (newPromise w) as [rc w1] eqn:Hn. apply supplied_newPromise in Hn.
  destruct (cache w1 !! key) as [q|].
  { intros [= <- <-]. by rewrite supplied_subscribe. }
  destruct (defined (unfilled key)).
  { intros [= <- <-]. by rewrite supplied_awaitValue. }
  destruct (nodes !! key) as [stored|].
  2:{ intros [= <- <-]. by rewrite supplied_settle. }
  unfold callResolved.
  destruct (newPromise w1) as [pw w2] eqn:Hn2.
  apply supplied_newPromise in Hn2.
  destruct (resolveDependenciesWith (resolveComputation nodes fuel)
              (dependencies stored) input w2) as [[rd w3]|] eqn:Hrd; [|done].
  apply supplied_resolveDependenciesWith in Hrd; [|done].
  intros [= <- <-]. rewrite supplied_awaitSlot.
  change (supplied (setCache key pw ?x)) with (supplied x).
  rewrite supplied_subscribe. congruence.
Qed.

Lemma supplied_seed entry (w : World P) :
  supplied (seed entry w) = supplied w.
Proof.
  unfold seed.
  destruct (allocate (Fulfilled (OfValue entry.2)) w) as [p w1] eqn:Ha.
  by injection Ha as <- <-.
Qed.

Lemma supplied_resultsToPromises results (w : World P) :
  supplied (resultsToPromises results w) = supplied w.
Proof.
  unfold resultsToPromises.
  induction (map_to_list results) as [|entry entries IH]; cbn [foldr];
    [done|].
  by rewrite supplied_seed.
Qed.

Lemma supplied_started results g (w : World P) :
  started nodes input results g w → supplied w = results.
Proof.
  intros [(fuel & key & Hg)|(fuel & keys & Hg)]; revert Hg.
  - unfold get. destruct (newPromise (initial results)) as [g0 w1] eqn:Hn.
    apply supplied_newPromise in Hn.
    change (supplied (initial results)) with results in Hn.
    destruct (defined (prop results key)).
    { intros [= <- <-]. by rewrite supplied_settle. }
    destruct (resolveComputation nodes fuel key input
                (resultsToPromises results w1)) as [[rc w2]|] eqn:Hrc; [|done].
    apply supplied_resolveComputation in Hrc.
    rewrite supplied_resultsToPromises in Hrc.
    intros [= <- <-]. simpl. congruence.
  - unfold getMany, resolveDependencies.
    destruct (newPromise (initial results)) as [g0 w1] eqn:Hn.
    apply supplied_newPromise in Hn.
    change (supplied (initial results)) with results in Hn.
    destruct (resolveDependenciesWith (resolveComputation nodes fuel) keys
                input (resultsToPromises results w1)) as [[rd w2]|] eqn:Hrd;
      [|done].
    apply supplied_resolveDependenciesWith in Hrd;
      [|apply supplied_resolveComputation].
    rewrite supplied_resultsToPromises in Hrd.
    intros [= <- <-]. simpl. congruence.
Qed.

Lemma supplied_react r c (w : World P) :
  supplied (react input r c w) = supplied w.
Proof.
  destruct r; cbn [react]; try (destruct c; by rewrite supplied_settle).
  - destruct c as [s|e]; [|by rewrite supplied_settle].
    destruct (fn input (asObject s)) as [[v|outcome]|e]; try done.
    + by rewrite supplied_awaitValue.
    + by rewrite supplied_settle.
  - destruct c as [s|e]; [|by rewrite supplied_settle].
    destruct (mapM id _); [by rewrite supplied_settle|done].
Qed.

Lemma supplied_step ev (w : World P) : supplied (step input ev w) = supplied w.
Proof.
  destruct ev as [|u]; simpl.
  - destruct (jobs w) as [|[r c|outer p] rest]; [done| |].
    + simpl. by rewrite supplied_react.
    + simpl. by rewrite supplied_subscribe.
  - destruct (external w !! u); [|done]. by rewrite supplied_settle.
Qed.

Lemma supplied_run events : ∀ w : World P,
  supplied (run input events w) = supplied w.
Proof.
  induction events as [|ev events IH]; intros w; simpl; [done|].
  by rewrite IH, supplied_step.
Qed.

(** *** Enough fuel *)

Definition Total (keys : list Key) (resolve : Resolver (P := P)) : Prop :=
  ∀ key w, key ∈ keys → is_Some (resolve key input w).

Lemma entryOf_total resolve key w :
  Total [key] resolve → is_Some (entryOf resolve key input w).
Proof.
  intros Hres. unfold entryOf. destruct (newPromise w) as [cb w1].
  destruct (cache w1 !! key); [done|].
  destruct (truthy (unfilled key)); [done|].
  destruct (Hres key w1) as [[rc w2] ->]; [by left|].
  by destruct (newPromise w2).
Qed.

Lemma mapEntries_total resolve keys : Total keys resolve → ∀ w,
  is_Some (mapEntries resolve keys input w).
Proof.
  induction keys as [|k keys IH]; intros Hres w; simpl; [done|].
  destruct (entryOf_total resolve k w) as [[cb w1] ->].
  { intros key w0 ->%list_elem_of_singleton. apply Hres. by left. }
  destruct (IH ltac:(intros key w0 Hk; apply Hres; by right) w1)
    as [[cbs w2] ->].
  done.
Qed.

Lemma resolveDependenciesWith_total resolve keys w :
  Total keys resolve → is_Some (resolveDependenciesWith resolve keys input w).
Proof.
  intros Hres. unfold resolveDependenciesWith.
  destruct (newPromise w) as [rd w1].
  destruct (mapEntries_total resolve keys Hres w1) as [[cbs w2] ->].
  by destruct (promiseAll cbs w2).
Qed.

Lemma resolveComputation_total fuel : ∀ key w,
  (is_Some (nodes !! key) → rank key < fuel) → 0 < fuel →
  is_Some (resolveComputation nodes fuel key input w).
Proof using Hranked.
  induction fuel as [|fuel IH]; intros key w Hr Hpos; [lia|].
  cbn [resolveComputation]. destruct (newPromise w) as [rc w1].
  destruct (cache w1 !! key); [done|].
  destruct (defined (unfilled key)); [done|].
  destruct (nodes !! key) as [stored|] eqn:Hs; [|done].
  unfold callResolved. destruct (newPromise w1) as [pw w2].
  destruct (resolveDependenciesWith_total (resolveComputation nodes fuel)
              (dependencies stored) w2) as [[rd w3] ->]; [|done].
  intros d w0 Hd.
  destruct (proj1 Hranked d key) as [Hsome Hlt]; [by exists stored|].
  specialize (Hr ltac:(done)). apply IH; [intros _|]; lia.
Qed.

Lemma async_get_total fuel key results :
  size nodes < fuel → is_Some (get nodes fuel key input results).
Proof using Hranked.
  intros Hfuel. unfold get.
  destruct (newPromise (initial results)) as [g w1].
  destruct (defined (prop results key)); [done|].
  destruct (resolveComputation_total fuel key (resultsToPromises results w1))
    as [[rc w2] ->]; [| |done].
  - intros Hk. apply (proj2 Hranked) in Hk. lia.
  - lia.
Qed.
End Totality.
End AsyncNetwork.

(** ** The claims about the asynchronous graph *)

Section AsyncClaims.
Import Async AsyncFacts.
Context {P : Type}.
Implicit Types (nodes : gmap string (Resolved P)) (w : World P).

(** C9.  In the asynchronous graph, within one resolution call, the function
    of each node is called at most once, whatever the order in which the
    event loop runs its jobs and the environment settles the promises of the
    user functions.  When the call hands its promise back, before any job has
    run, each closure that is going to call the function of a key is unique
    and the promise of that key is in its cache slot already; a requester that
    finds a slot filled awaits the promise of the slot whatever resolver it
    has, and the event loop never writes to the cache. *)
Theorem async_at_most_once nodes (input : P) results g w :
  constructed nodes →
  started nodes input results g w →
  (∀ events k, timesCalled k (invocations (run input events w)) ≤ 1)
  ∧ (∀ k, pendingCalls k w ≤ 1
          ∧ (0 < pendingCalls k w → is_Some (cache w !! k)))
  ∧ (∀ events k p resolve1 resolve2,
       cache w !! k = Some p →
       entryOf resolve1 k input (run input events w)
       = entryOf resolve2 k input (run input events w)).
Proof.
  intros Hc Hs. pose proof (started_Counted _ _ _ _ _ Hc Hs) as HC.
  split; [|split].
  - intros events k. pose proof (total_run input events w k) as Hle.
    destruct (HC k) as [H1 _]. unfold total in *. lia.
  - intros k. destruct (HC k) as [H1 H2]. unfold total in *. split; [lia|].
    intros Hpos. destruct (cache w !! k) eqn:Hk; [done|].
    specialize (H2 eq_refl). lia.
  - intros events k p r1 r2 Hk. unfold entryOf.
    destruct (newPromise (run input events w)) as [cb w1] eqn:Hn.
    assert (cache w1 !! k = Some p) as ->; [|done].
    apply Neutral_newPromise in Hn as [-> _]. by rewrite cache_run.
Qed.
End AsyncClaims.

Lemma async_at_most_once_witness :
  ∃ g w,
    Async.getMany (SharedAsync.graph (Normal (VNum 10))) 3
      ["child1"; "child2"] () ∅ = Some (g, w)
    ∧ Async.timesCalled "dependency"
        (Async.invocations
           (Async.run () (replicate 20 Async.Microtask ++ [Async.Deliver 22]
                          ++ replicate 20 Async.Microtask) w)) ≤ 1.
Proof.
  eexists _, _. split; [vm_compute; reflexivity|].
  refine (proj1 (async_at_most_once (SharedAsync.graph (Normal (VNum 10))) ()
                   ∅ _ _ _ _) _ "dependency").
  - eexists. reflexivity.
  - right. exists 3, ["child1"; "child2"]. vm_compute. reflexivity.
Defined.

(** ** The example scenario *)

Lemma worldgen_lookup_height :
  WorldGen.graph !! "height" = Some (Sync.Plain WorldGen.height).
Proof. vm_compute. reflexivity. Qed.

Lemma worldgen_lookup_temperature :
  WorldGen.graph !! "temperature"
  = Some (Sync.Provided WorldGen.temperature ["height"]).
Proof. vm_compute. reflexivity. Qed.

(** C8.  In the synchronous graph with [height = (p) => p.x + p.y] and
    [temperature = (p, {height}) => p.y - height] depending on ["height"],
    [get("temperature", {x: 1, y: 5}, results)] on a cache that holds no
    defined value for the two keys returns [-1], and afterwards
    [results.height] is [6]. *)
Theorem worldgen_temperature_is_minus_one fuel (r : gmap string Value) log :
  defined (prop r "temperature") = false →
  defined (prop r "height") = false →
  ∃ st', Sync.get WorldGen.graph (S (S fuel)) "temperature"
           (WorldGen.MkParams 1 5) (Sync.MkState r log)
         = Some (Normal (VNum (-1)), st')
       ∧ prop (Sync.results st') "height" = VNum 6
       ∧ prop (Sync.results st') "temperature" = VNum (-1).
Proof.
  intros Ht Hh.
  assert (H1 : assign "height" (VNum 6) r = <["height" := VNum 6]> r)
    by by apply ObjectFacts.assign_undefined.
  assert (H2 : assign "height" (VNum 6) (<["height" := VNum 6]> r)
               = <["height" := VNum 6]> r).
  { unfold assign. by rewrite lookup_insert_eq, insert_insert_eq. }
  assert (H3 : assign "temperature" (VNum (-1)) (<["height" := VNum 6]> r)
               = <["temperature" := VNum (-1)]> (<["height" := VNum 6]> r)).
  { apply ObjectFacts.assign_undefined. unfold prop.
    rewrite lookup_insert_ne by done. exact Ht. }
  eexists. split.
  - cbn [Sync.get Sync.results]. rewrite Ht, worldgen_lookup_temperature.
    cbn [Sync.callStored Sync.getManyWith Sync.get Sync.results].
    rewrite Hh, worldgen_lookup_height.
    cbn [Sync.callStored Sync.invoke Sync.results Sync.calls WorldGen.height
         WorldGen.x WorldGen.y Sync.setResult Sync.getManyWith].
    change (1 + 5)%Z with 6%Z. rewrite H1, H2.
    unfold WorldGen.temperature at 1. unfold prop at 1.
    rewrite lookup_insert_eq. cbn [WorldGen.y].
    change (5 - 6)%Z with (-1)%Z. unfold Sync.setResult.
    cbn [Sync.results Sync.calls]. rewrite H3. reflexivity.
  - unfold prop. cbn [Sync.results].
    rewrite lookup_insert_ne by done. rewrite !lookup_insert_eq. done.
Qed.

Lemma worldgen_temperature_is_minus_one_witness :
  ∃ st', Sync.get WorldGen.graph 2 "temperature" (WorldGen.MkParams 1 5)
           (Sync.MkState ∅ [])
         = Some (Normal (VNum (-1)), st')
       ∧ prop (Sync.results st') "height" = VNum 6
       ∧ prop (Sync.results st') "temperature" = VNum (-1).
Proof.
  apply (worldgen_temperature_is_minus_one 0 ∅ []); reflexivity.
Defined.

(** ** The claims about [define] *)

Section DefineClaims.
Context {P : Type}.

Lemma sync_define_failure (nodes : gmap string (Sync.Stored P)) key fn deps e
    nodes' :
  Sync.define key fn deps nodes = (Throw e, nodes') → nodes' = nodes.
Proof.
  unfold Sync.define. destruct (Sync.has nodes key); [by intros [= _ <-]|].
  destruct deps as [ds|]; [|done].
  destruct (Sync.firstMissing nodes ds); [by intros [= _ <-]|done].
Qed.

Lemma async_define_failure (nodes : gmap string (Async.Resolved P)) key fn deps
    e nodes' :
  Async.define key fn deps nodes = (Throw e, nodes') → nodes' = nodes.
Proof.
  unfold Async.define. destruct (Async.has nodes key); [by intros [= _ <-]|].
  destruct (deps ≫= Async.firstMissing nodes); [by intros [= _ <-]|done].
Qed.

(** C4.  In both graphs [define(id, fn, dependencies)] fails when [id] is
    registered already, and fails when a declared dependency is not
    registered, with an error that names a missing dependency (the check of
    [id] comes first).  [define] returns the failure itself, at definition
    time; a failed [define] leaves the registry as it was, so every [get]
    behaves as before. *)
Theorem define_fails_at_definition_time
    (snodes : gmap string (Sync.Stored P))
    (anodes : gmap string (Async.Resolved P)) key sfn afn deps :
  (is_Some (snodes !! key) →
     Sync.define key sfn deps snodes = (Throw (Sync.alreadyDefined key), snodes))
  ∧ (is_Some (anodes !! key) →
     Async.define key afn deps anodes
     = (Throw (Async.alreadyExists key), anodes))
  ∧ (∀ ds d, deps = Some ds → d ∈ ds → snodes !! d = None →
       ∃ e, Sync.define key sfn deps snodes = (Throw e, snodes)
            ∧ (snodes !! key = None →
                 ∃ d', d' ∈ ds ∧ snodes !! d' = None ∧ e = Sync.notFound d'
                       ∧ message e = quoted d' +:+ " not found"))
  ∧ (∀ ds d, deps = Some ds → d ∈ ds → anodes !! d = None →
       ∃ e, Async.define key afn deps anodes = (Throw e, anodes)
            ∧ (anodes !! key = None →
                 ∃ d', d' ∈ ds ∧ anodes !! d' = None ∧ e = Async.notFound d'
                       ∧ message e = "Key " +:+ quoted d' +:+ " not found!"))
  ∧ (∀ e snodes', Sync.define key sfn deps snodes = (Throw e, snodes') →
       snodes' = snodes
       ∧ ∀ fuel k params st,
           Sync.get snodes' fuel k params st = Sync.get snodes fuel k params st)
  ∧ (∀ e anodes', Async.define key afn deps anodes = (Throw e, anodes') →
       anodes' = anodes
       ∧ ∀ fuel k input results,
           Async.get anodes' fuel k input results
           = Async.get anodes fuel k input results).
Proof.
  repeat split.
  - intros Hk%SyncFacts.has_spec. unfold Sync.define. by rewrite Hk.
  - intros Hk%AsyncFacts.async_has_spec. unfold Async.define. by rewrite Hk.
  - intros ds d -> Hd Hnone. unfold Sync.define.
    destruct (Sync.has snodes key) eqn:Hk.
    { eexists. split; [done|]. intros Hn.
      apply SyncFacts.has_spec in Hk as [? ?]. congruence. }
    destruct (Sync.firstMissing snodes ds) as [d'|] eqn:Hm.
    + eexists. split; [done|]. intros _.
      apply SyncFacts.firstMissing_Some in Hm as [? ?]. by exists d'.
    + rewrite SyncFacts.firstMissing_None in Hm.
      destruct (Hm d Hd) as [? ?]. congruence.
  - intros ds d -> Hd Hnone. unfold Async.define.
    destruct (Async.has anodes key) eqn:Hk.
    { eexists. split; [done|]. intros Hn.
      apply AsyncFacts.async_has_spec in Hk as [? ?]. congruence. }
    simpl. destruct (Async.firstMissing anodes ds) as [d'|] eqn:Hm.
    + eexists. split; [done|]. intros _.
      apply AsyncFacts.async_firstMissing_Some in Hm as [? ?]. by exists d'.
    + rewrite AsyncFacts.async_firstMissing_None in Hm.
      destruct (Hm d Hd) as [? ?]. congruence.
  - by eapply sync_define_failure.
  - intros fuel k params st. by rewrite (sync_define_failure _ _ _ _ _ _ H).
  - by eapply async_define_failure.
  - intros fuel k input results.
    by rewrite (async_define_failure _ _ _ _ _ _ H).
Qed.

(** C6.  In both graphs, whatever sequence of [define] calls built the
    registry, failed calls included, the dependency graph has no cycle, a
    self-dependency included, and every declared dependency is registered. *)
Theorem registry_always_acyclic
    (sdefs : list (Key * Sync.ComputationNode P * option (list Key)))
    (adefs : list (Key * Async.AsyncComputationNode P * option (list Key))) :
  Sync.acyclic (Sync.defineAll sdefs ∅)
  ∧ Async.acyclic (Async.defineAll adefs ∅)
  ∧ (∀ k, ¬ Sync.dependsOn (Sync.defineAll sdefs ∅) k k)
  ∧ (∀ k, ¬ Async.dependsOn (Async.defineAll adefs ∅) k k)
  ∧ (∀ d k, Sync.dependsOn (Sync.defineAll sdefs ∅) d k →
            is_Some (Sync.defineAll sdefs ∅ !! d))
  ∧ (∀ d k, Async.dependsOn (Async.defineAll adefs ∅) d k →
            is_Some (Async.defineAll adefs ∅ !! d)).
Proof.
  destruct (SyncFacts.constructed_ranked (Sync.defineAll sdefs ∅))
    as [srank Hs]; [by exists sdefs|].
  destruct (AsyncFacts.async_constructed_ranked (Async.defineAll adefs ∅))
    as [arank Ha]; [by exists adefs|].
  pose proof (SyncFacts.ranked_acyclic _ _ Hs) as Hsa.
  pose proof (AsyncFacts.async_ranked_acyclic _ _ Ha) as Haa.
  repeat split; try done.
  - intros k Hk. apply (Hsa k). by apply tc_once.
  - intros k Hk. apply (Haa k). by apply tc_once.
  - intros d k Hd. by apply (proj1 Hs d k).
  - intros d k Hd. by apply (proj1 Ha d k).
Qed.
End DefineClaims.

Import Async AsyncFacts AsyncNetwork.

(** ** The claims about arguments, the caller's cache and unknown ids *)

Section ArgumentClaims.
Context {P : Type}.

End ArgumentClaims.


Section CacheClaims.
Context {P : Type}.
Import ObjectFacts.





Section Called.
Variable nodes : gmap string (Sync.Stored P).
Variable rank : Key → nat.
Hypothesis Hranked : Sync.ranked rank nodes.



End Called.

End CacheClaims.



Section UnknownClaims.
Context {P : Type}.

(** C5.  An id that is not registered.  In the synchronous graph, when the
    cache yields no defined value for it, [get] throws the not-found error
    and leaves the cache and the log of calls as they are.  In the
    asynchronous graph, when the object of the caller has no property for it
    and inherits none, [get] returns a promise, the queue empties and the
    promise is then rejected with the not-found error, the object of the
    caller being untouched.  But when the object of the caller has the
    property [x] with the value [undefined], the asynchronous [get("x")] on
    the empty graph fulfils its promise with [undefined], where the
    synchronous one throws.  And when the id is the name of a member of
    [Object.prototype], [toString] for one, and the object of the caller has
    no property of that name, both variants find the inherited member under
    the id and hand it back: the synchronous [get] returns it and the
    asynchronous [get] fulfils its promise with it, with no error. *)
Theorem get_unknown_id :
  (∀ (nodes : gmap string (Sync.Stored P)) fuel id params st,
     nodes !! id = None →
     defined (prop (Sync.results st) id) = false →
     Sync.get nodes (S fuel) id params st
     = Some (Throw (Sync.notFound id), st))
  ∧ (∀ (nodes : gmap string (Async.Resolved P)) input fuel id results,
       Async.constructed nodes →
       nodes !! id = None → results !! id = None → inherited id = None →
       ∃ g w0, Async.get nodes (S fuel) id input results = Some (g, w0)
         ∧ ∀ events,
             Async.supplied (Async.run input events w0) = results
             ∧ ∃ n,
                 Async.jobs (Async.drain input n (Async.run input events w0))
                 = []
                 ∧ Async.promises
                     (Async.drain input n (Async.run input events w0)) !! g
                   = Some (Async.Rejected (Async.notFound id)))
  ∧ (∃ g w0,
       Async.get (∅ : gmap string (Async.Resolved unit)) 1 "x" ()
         (<["x" := VUndefined]> ∅) = Some (g, w0)
       ∧ Async.jobs (Async.drain () 3 w0) = []
       ∧ Async.promises (Async.drain () 3 w0) !! g
         = Some (Async.Fulfilled (Async.OfValue VUndefined))
       ∧ Sync.get (∅ : gmap string (Sync.Stored unit)) 1 "x" ()
           (Sync.MkState (<["x" := VUndefined]> ∅) [])
         = Some (Throw (Sync.notFound "x"),
                 Sync.MkState (<["x" := VUndefined]> ∅) []))
  ∧ (∀ (snodes : gmap string (Sync.Stored P))
       (anodes : gmap string (Async.Resolved P)) fuel id member params st
       results,
       inherited id = Some member →
       (Sync.results st !! id = None →
        Sync.get snodes (S fuel) id params st = Some (Normal member, st))
       ∧ (results !! id = None →
          ∃ g w0, Async.get anodes fuel id params results = Some (g, w0)
            ∧ Async.promises w0 !! g
              = Some (Async.Fulfilled (Async.OfValue member))
            ∧ Async.invocations w0 = []))
  ∧ inherited "toString" = Some (VBuiltin "toString").
Proof.
  split; [|split; [|split; [|split]]].
  - intros nodes fuel id params st Hn Hu. simpl. by rewrite Hu, Hn.
  - intros nodes input fuel id results Hc Hn Hr Hplain.
    destruct (async_constructed_ranked _ Hc) as [rank Hranked].
    assert (Hmiss : defined (prop results id) = false).
    { apply ObjectFacts.prop_undefined. by right. }
    assert (Hsome : is_Some (Async.get nodes (S fuel) id input results)).
    { unfold Async.get.
      destruct (newPromise (initial results)) as [g0 w1] eqn:Hnew.
      assert (Hc1 : cache w1 = ∅) by by injection Hnew as <- <-.
      rewrite Hmiss. cbn [resolveComputation].
      destruct (newPromise (resultsToPromises results w1)) as [rc w2] eqn:Hn2.
      assert (Hc2 : cache w2 !! id = None).
      { assert (cache w2 = cache (resultsToPromises results w1)) as ->
          by by injection Hn2 as <- <-.
        apply cache_resultsToPromises_None; [done|]. by rewrite Hc1. }
      by rewrite Hc2, (unfilled_plain _ Hplain), Hn. }
    destruct Hsome as [[g w0] Hget]. exists g, w0. split; [done|].
    intros events. split.
    { rewrite supplied_run. eapply supplied_started. left. eauto. }
    destruct (get_Inv nodes input rank Hranked _ _ _ _ _ Hget)
      as (top & N0 & [I0 _] & _ & Hshape & _).
    destruct (Hshape Hmiss) as (rc & Hg & Hcomp & _). specialize (Hcomp Hr).
    destruct (run_Inv nodes input top events _ _ I0) as (N1 & I1 & E1).
    set (w := Async.run input events w0) in *.
    set (n := workLeft w). exists n.
    assert (Hidle : jobs (drain input n w) = []) by by apply drain_quiet.
    split; [done|].
    destruct (run_Inv nodes input top (replicate n Microtask) _ _ I1)
      as (N2 & I2 & E2).
    fold (drain input n w) in I2.
    assert (E02 : Ext N0 N2) by by eapply Ext_trans.
    assert (Hmissing : N2 !! rc = Some (MissingOf id)).
    { destruct (Computed_mono _ _ _ _ E02 Hcomp) as [?|(pw & rd & _ & Hpw)];
        [done|].
      destruct (inv_static _ _ _ _ _ _ I2 _ _ Hpw) as (stored & _ & Hs & _).
      congruence. }
    destruct (Inv_alive _ _ _ _ _ _ _ _ I2 Hmissing) as [st Hst].
    pose proof (inv_clause _ _ _ _ _ _ I2 rc _ st (held_nil _ _) Hmissing Hst)
      as Hcl. simpl in Hcl. subst st.
    eapply (top_rejected nodes input top N2 _ I2 Hidle); [|exact Hst].
    by apply E02.
  - eexists _, _. split; [vm_compute; reflexivity|].
    split; [|split]; vm_compute; reflexivity.
  - intros snodes anodes fuel id member params st results Hin.
    assert (Hd : defined member = true)
      by by eapply ObjectFacts.inherited_defined.
    split.
    + intros Hr.
      assert (Hp : prop (Sync.results st) id = member)
        by (unfold prop; by rewrite Hr, Hin).
      simpl. by rewrite Hp, Hd.
    + intros Hr.
      assert (Hp : prop results id = member)
        by (unfold prop; by rewrite Hr, Hin).
      unfold Async.get.
      destruct (newPromise (initial results)) as [g0 w1] eqn:Hnew.
      rewrite Hp, Hd. eexists _, _. split; [done|].
      injection Hnew as <- <-. split; [|done]. done.
  - vm_compute. reflexivity.
Qed.
End UnknownClaims.

(** A key named like a member of [Object.prototype] in the graphs with the
    nodes [toString] and [top]: on an empty cache the function of [toString]
    is never called.  The synchronous [get("top")] calls the function of
    [top] with the inherited function as the value of the dependency, after
    its loop made it a property of the cache; the asynchronous one does the
    same with a new object. *)
Lemma inherited_member_as_dependency :
  (∃ st',
     Sync.get Named.graph 3 "top" () Shared.fresh
     = Some (Normal (VBuiltin "toString"), st')
     ∧ Sync.calls st' = [("top", <["toString" := VBuiltin "toString"]> ∅)]
     ∧ Sync.results st' !! "toString" = Some (VBuiltin "toString"))
  ∧ (∃ g w0,
       Async.get Named.asyncGraph 3 "top" () ∅ = Some (g, w0)
       ∧ Async.jobs (Async.drain () 40 w0) = []
       ∧ Async.promises (Async.drain () 40 w0) !! g
         = Some (Async.Fulfilled (Async.OfValue (VBuiltin "toString")))
       ∧ Async.invocations (Async.drain () 40 w0)
         = [("top", <["toString" := VBuiltin "toString"]> ∅)]).
Proof.
  split.
  - eexists. split; [vm_compute; reflexivity|].
    split; vm_compute; reflexivity.
  - eexists _, _. split; [vm_compute; reflexivity|].
    split; [|split]; vm_compute; reflexivity.
Qed.

(** ** More about the synchronous graph *)

Module SyncMore.
Import Sync ObjectFacts SyncFacts.
Section More.
Context {P : Type}.
Implicit Types (nodes : gmap string (Stored P)) (st : @State) (key : Key).
#[local] Arguments invoke : simpl never.
#[local] Arguments setResult : simpl never.

Lemma define_success nodes key fn deps nodes' :
  define key fn deps nodes = (Normal (), nodes') →
  nodes !! key = None
  ∧ nodes' = <[key := match deps with
                      | None => Plain fn
                      | Some ds => Provided fn ds
                      end]> nodes
  ∧ ∀ ds d, deps = Some ds → d ∈ ds → is_Some (nodes !! d).
Proof.
  unfold define. destruct (has nodes key) eqn:Hk; [done|].
  apply has_false in Hk. destruct deps as [ds|].
  - destruct (firstMissing nodes ds) eqn:Hm; [done|].
    intros [= <-]. split; [done|]. split; [done|].
    intros ds' d [= <-] Hd. rewrite firstMissing_None in Hm. by apply Hm.
  - intros [= <-]. split; [done|]. split; [done|]. done.
Qed.

Lemma define_keeps nodes key fn deps k s :
  nodes !! k = Some s → (define key fn deps nodes).2 !! k = Some s.
Proof.
  intros Hk. destruct (define key fn deps nodes) as [[[]|e] nodes'] eqn:Hd.
  - apply define_success in Hd as (Hn & -> & _). simpl.
    rewrite lookup_insert_ne; [done|]. intros ->. congruence.
  - unfold define in Hd. destruct (has nodes key); [by injection Hd as _ <-|].
    destruct deps as [ds|]; [|done].
    destruct (firstMissing nodes ds); [by injection Hd as _ <-|done].
Qed.

Lemma defineAll_keeps ds : ∀ nodes k s,
  nodes !! k = Some s → defineAll ds nodes !! k = Some s.
Proof.
  induction ds as [|d ds IH]; intros nodes k s Hk; simpl; [done|].
  apply IH. by apply define_keeps.
Qed.

(** [needs nodes key j]: [j] is [key] or one of its transitive declared
    dependencies. *)
Definition needs nodes (key j : Key) : Prop :=
  j = key ∨ tc (dependsOn nodes) j key.

Lemma needs_dependency nodes key stored d j :
  nodes !! key = Some stored → d ∈ declared stored →
  needs nodes d j → tc (dependsOn nodes) j key.
Proof.
  intros Hs Hd [->|Hj].
  - apply tc_once. by exists stored.
  - eapply tc_r; [exact Hj|]. by exists stored.
Qed.

Section Calls.
Variable nodes : gmap string (Stored P).

Definition NeedSpec
    (get1 : Key → P → State → option (Completion Value * State)) : Prop :=
  ∀ key params st c st',
    get1 key params st = Some (c, st') →
    ∃ l, calls st' = calls st ++ l
      ∧ (∀ j a, (j, a) ∈ l → needs nodes key j)
      ∧ ∀ j, results st' !! j = results st !! j ∨ needs nodes key j.

Lemma getManyWith_needs get1 keys params st c st' :
  NeedSpec get1 →
  getManyWith get1 keys params st = Some (c, st') →
  ∃ l, calls st' = calls st ++ l
    ∧ (∀ j a, (j, a) ∈ l → ∃ k, k ∈ keys ∧ needs nodes k j)
    ∧ ∀ j, results st' !! j = results st !! j
           ∨ ∃ k, k ∈ keys ∧ needs nodes k j.
Proof.
  intros Hget. revert st. induction keys as [|k keys IH]; intros st; simpl.
  - intros [= <- <-]. exists []. split; [by rewrite app_nil_r|].
    split; [|by left]. intros j a Hin. by apply elem_of_nil in Hin.
  - destruct (get1 k params st) as [[[v|e] st1]|] eqn:Hk; [| |done].
    + apply Hget in Hk as (l1 & E1 & H1 & W1).
      intros (l2 & E2 & H2 & W2)%IH. exists (l1 ++ l2). split.
      { rewrite E2. unfold setResult. simpl. by rewrite E1, app_assoc. }
      split.
      * intros j a [Hin|Hin]%elem_of_app.
        -- exists k. split; [by left|by eapply H1].
        -- destruct (H2 j a Hin) as (k' & Hk' & Hn). exists k'.
           split; [by right|done].
      * intros j. destruct (W2 j) as [E|(k' & Hk' & Hn)].
        2:{ right. exists k'. split; [by right|done]. }
        destruct (decide (j = k)) as [->|Hne].
        { right. exists k. split; [by left|by left]. }
        destruct (W1 j) as [E'|Hn].
        -- left. by rewrite E, setResult_results, assign_ne.
        -- right. exists k. split; [by left|done].
    + intros [= <- <-]. apply Hget in Hk as (l1 & E1 & H1 & W1).
      exists l1. split; [done|]. split.
      * intros j a Hin. exists k. split; [by left|by eapply H1].
      * intros j. destruct (W1 j) as [?|?]; [by left|].
        right. exists k. split; [by left|done].
Qed.

Lemma get_needs fuel : NeedSpec (get nodes fuel).
Proof.
  induction fuel as [|fuel IH]; intros key params st c st'; [done|].
  simpl. destruct (defined (prop (results st) key)).
  { intros [= <- <-]. exists []. split; [by rewrite app_nil_r|].
    split; [|by left]. intros j a Hin. by apply elem_of_nil in Hin. }
  destruct (nodes !! key) as [stored|] eqn:Hs.
  2:{ intros [= <- <-]. exists []. split; [by rewrite app_nil_r|].
      split; [|by left]. intros j a Hin. by apply elem_of_nil in Hin. }
  destruct stored as [fn|fn deps]; unfold callStored, invoke.
  - intros Hres. exists [(key, results st)]. split; [|split].
    + by destruct (fn params (results st)); injection Hres as <- <-.
    + intros j a [= -> ->]%list_elem_of_singleton. by left.
    + intros j. destruct (decide (j = key)) as [->|Hne]; [right; by left|].
      left.
      destruct (fn params (results st)); injection Hres as <- <-; [|done].
      rewrite setResult_results. by apply assign_ne.
  - destruct (getManyWith (get nodes fuel) deps params st)
      as [[[[]|e] st0]|] eqn:Hdeps; [| |done].
    + apply getManyWith_needs in Hdeps as (l0 & E0 & H0 & W0); [|done].
      intros Hres. exists (l0 ++ [(key, results st0)]). split; [|split].
      * rewrite app_assoc, <- E0.
        by destruct (fn params (results st0)); injection Hres as <- <-.
      * intros j a [Hin|[= -> ->]%list_elem_of_singleton]%elem_of_app;
          [|by left].
        destruct (H0 j a Hin) as (d & Hd & Hn). right.
        by eapply (needs_dependency nodes key (Provided fn deps) d).
      * intros j. destruct (decide (j = key)) as [->|Hne]; [right; by left|].
        destruct (W0 j) as [E|(d & Hd & Hn)].
        2:{ right. right.
            by eapply (needs_dependency nodes key (Provided fn deps) d). }
        left.
        destruct (fn params (results st0)); injection Hres as <- <-; [|done].
        rewrite setResult_results. by rewrite assign_ne.
    + intros [= <- <-].
      apply getManyWith_needs in Hdeps as (l0 & E0 & H0 & W0); [|done].
      exists l0. split; [done|]. split.
      * intros j a Hin.
        destruct (H0 j a Hin) as (d & Hd & Hn). right.
        by eapply (needs_dependency nodes key (Provided fn deps) d).
      * intros j. destruct (W0 j) as [E|(d & Hd & Hn)]; [by left|].
        right. right.
        by eapply (needs_dependency nodes key (Provided fn deps) d).
Qed.
End Calls.

(** *** How a resolution fails *)

Section Failures.
Variable nodes : gmap string (Stored P).
Variable rank : Key → nat.
Hypothesis Hranked : ranked rank nodes.

(** The error [e] was thrown by the function of a node among [among]: that
    call is the last one of the run, the shared object is left as the call
    saw it, and it holds no value for the node. *)
Definition thrownBy (params : P) (st st' : State) (among : Key → Prop)
    (e : JSError) : Prop :=
  ∃ j stored l,
    among j ∧ nodes !! j = Some stored
    ∧ calls st' = calls st ++ l ++ [(j, results st')]
    ∧ userFunction stored params (results st') = Throw e
    ∧ defined (prop (results st') j) = false.

Definition ThrowSpec
    (get1 : Key → P → State → option (Completion Value * State)) : Prop :=
  ∀ key params st e st',
    get1 key params st = Some (Throw e, st') →
    (nodes !! key = None ∧ e = notFound key ∧ st' = st)
    ∨ thrownBy params st st' (needs nodes key) e.

Lemma getManyWith_throws get1 keys params st e st' :
  GetSpec nodes rank get1 → ThrowSpec get1 →
  getManyWith get1 keys params st = Some (Throw e, st') →
  (∃ k, k ∈ keys ∧ nodes !! k = None ∧ e = notFound k)
  ∨ thrownBy params st st' (λ j, ∃ k, k ∈ keys ∧ needs nodes k j) e.
Proof.
  intros Hget Hthrow. revert st.
  induction keys as [|k keys IH]; intros st; simpl; [done|].
  destruct (get1 k params st) as [[[v|e1] st1]|] eqn:Hk; [| |done].
  - apply Hget in Hk as (l1 & R1 & Hv & _).
    intros [(k' & Hk' & Hn & ->)|(j & stored & l & (k' & Hk' & Hj) & Hs & Hc & Hf)]%IH.
    + left. exists k'. split; [by right|done].
    + right. exists j, stored, (l1 ++ l). split; [|split; [done|split; [|done]]].
      * exists k'. split; [by right|done].
      * rewrite Hc, setResult_calls, (run_calls _ _ _ _ _ _ _ R1).
        by rewrite !app_assoc.
  - intros [= <- <-].
    apply Hthrow in Hk as [(Hn & -> & ->)|(j & stored & l & Hj & Hrest)].
    + left. exists k. split; [by left|done].
    + right. exists j, stored, l. split; [|done].
      exists k. split; [by left|done].
Qed.

Lemma get_throws fuel : ThrowSpec (get nodes fuel).
Proof using Hranked.
  induction fuel as [|fuel IH]; intros key params st e st'; [done|].
  simpl. destruct (defined (prop (results st) key)) eqn:Hdef; [done|].
  destruct (nodes !! key) as [stored|] eqn:Hs.
  2:{ intros [= <- <-]. by left. }
  intros Hres. right.
  destruct stored as [fn|fn deps]; unfold callStored, invoke in Hres.
  - destruct (fn params (results st)) as [v|e1] eqn:Hfn; [done|].
    injection Hres as <- <-. exists key, (Plain fn), []. simpl.
    split; [by left|done].
  - destruct (getManyWith (get nodes fuel) deps params st)
      as [[[[]|e0] st0]|] eqn:Hdeps; [| |done].
    + destruct (fn params (results st0)) as [v|e1] eqn:Hfn; [done|].
      injection Hres as <- <-.
      assert (Hm : ∀ d, d ∈ deps → rank d < rank key).
      { intros d Hd. apply Hranked. exists (Provided fn deps). done. }
      destruct (getManyWith_Run nodes rank _ _ _ _ _ _ _
                  (get_Run nodes rank Hranked fuel) Hm Hdeps) as (l0 & R0 & _).
      exists key, (Provided fn deps), l0. simpl.
      split; [by left|]. split; [done|].
      split; [by rewrite (run_calls _ _ _ _ _ _ _ R0), app_assoc|].
      split; [done|].
      assert (Hz : timesCalled key l0 = 0).
      { apply timesCalled_zero. intros a Ha.
        destruct (run_fresh _ _ _ _ _ _ _ R0 key a Ha) as (? & _). lia. }
      by rewrite (kept_prop _ _ _ (run_frame _ _ _ _ _ _ _ R0 key Hz)).
    + injection Hres as <- <-.
      apply getManyWith_throws in Hdeps
        as [(d & Hd & Hn & _)|(j & sj & l & (d & Hd & Hj) & Hrest)];
        [| |by apply get_Run|done].
      * destruct (proj1 Hranked d key) as [[? Hsome] _];
          [by exists (Provided fn deps)|congruence].
      * exists j, sj, l. split; [|done]. right.
        by eapply (needs_dependency nodes key (Provided fn deps) d).
Qed.
End Failures.
End More.
End SyncMore.

(** An example with a failing node: [top] depends on [base], whose function
    throws. *)
Module Faulty.
Definition oops : JSError := MkError "oops".
Definition graph : gmap string (Sync.Stored unit) :=
  Sync.defineAll
    [("base", (λ _ _, Throw oops), None);
     ("top", (λ _ deps, Normal (prop deps "base")), Some ["base"])] ∅.
End Faulty.

Section SyncProperties.
Import Sync ObjectFacts SyncFacts SyncMore.
Context {P : Type}.
Implicit Types (nodes : gmap string (Stored P)) (st : @State).


(** X4.  The value of a successful synchronous [get] of a key without a
    defined cached value is what the function of the key returned: the call
    of that function is the last call of the run, every call before it is
    for a node the key depends on, and the cache afterwards is the second
    argument of that call with the result added under the key. *)
Theorem sync_get_returns_function_value nodes fuel key (params : P) st v st' :
  constructed nodes →
  defined (prop (results st) key) = false →
  get nodes fuel key params st = Some (Normal v, st') →
  ∃ stored a l,
    nodes !! key = Some stored
    ∧ calls st' = calls st ++ l ++ [(key, a)]
    ∧ userFunction stored params a = Normal v
    ∧ results st' = <[key := v]> a
    ∧ ∀ j b, (j, b) ∈ l → tc (dependsOn nodes) j key.
Proof.
  intros [rank Hr]%constructed_ranked Hu Hget.
  destruct fuel as [|fuel]; [done|]. simpl in Hget. rewrite Hu in Hget.
  destruct (nodes !! key) as [stored|] eqn:Hs; [|done].
  exists stored.
  destruct stored as [fn|fn deps]; unfold callStored, invoke in Hget.
  - destruct (fn params (results st)) as [v'|] eqn:Hfn; [|done].
    injection Hget as <- <-. exists (results st), [].
    split; [done|]. split; [done|]. split; [done|].
    split; [by apply assign_undefined|].
    intros j b Hin. by apply elem_of_nil in Hin.
  - destruct (getManyWith (get nodes fuel) deps params st)
      as [[[[]|e] st0]|] eqn:Hdeps; [| |done]; [|done].
    destruct (fn params (results st0)) as [v'|] eqn:Hfn; [|done].
    injection Hget as <- <-.
    destruct (getManyWith_needs nodes _ _ _ _ _ _ (get_needs nodes fuel) Hdeps)
      as (l0 & E0 & H0 & _).
    assert (Hm : ∀ d, d ∈ deps → rank d < rank key).
    { intros d Hd. apply Hr. exists (Provided fn deps). done. }
    destruct (getManyWith_Run nodes rank _ _ _ _ _ _ _
                (get_Run nodes rank Hr fuel) Hm Hdeps) as (l0' & R0 & _).
    assert (l0' = l0) as ->.
    { apply (app_inv_head (calls st)).
      by rewrite <- E0, (run_calls _ _ _ _ _ _ _ R0). }
    assert (Hz : timesCalled key l0 = 0).
    { apply timesCalled_zero. intros a Ha.
      destruct (run_fresh _ _ _ _ _ _ _ R0 key a Ha) as (? & _). lia. }
    exists (results st0), l0.
    split; [done|]. split; [by rewrite app_assoc, <- E0|].
    split; [done|]. split.
    { apply assign_undefined.
      by rewrite (kept_prop _ _ _ (run_frame _ _ _ _ _ _ _ R0 key Hz)). }
    intros j b Hin. destruct (H0 j b Hin) as (d & Hd & Hn).
    by eapply (needs_dependency nodes key (Provided fn deps) d).
Qed.

(** X5.  A synchronous [get] fails in two ways only.  Either the requested
    key is not registered: the error is the not-found error of that key and
    nothing was called or written.  Or the function of the key or of a node
    it depends on threw the error: that call is the last one, the cache is
    left as that call received it, and it holds no defined value for the
    failing node, so that nothing is cached for it. *)
Theorem sync_get_failure_origin nodes fuel key (params : P) st e st' :
  constructed nodes →
  get nodes fuel key params st = Some (Throw e, st') →
  (nodes !! key = None ∧ e = notFound key ∧ st' = st)
  ∨ ∃ j stored l,
      needs nodes key j ∧ nodes !! j = Some stored
      ∧ calls st' = calls st ++ l ++ [(j, results st')]
      ∧ userFunction stored params (results st') = Throw e
      ∧ defined (prop (results st') j) = false.
Proof.
  intros [rank Hr]%constructed_ranked Hget.
  exact (get_throws nodes rank Hr fuel key params st e st' Hget).
Qed.


(** X7.  A synchronous [getMany] fails in two ways only: a requested key is
    not registered and the error is its not-found error, or the function of
    a requested key or of a node it depends on threw the error; that call is
    then the last one and the cache is left as the call received it. *)
Theorem sync_getMany_failure_origin nodes fuel keys (params : P) st e st' :
  constructed nodes →
  getMany nodes fuel keys params st = Some (Throw e, st') →
  (∃ k, k ∈ keys ∧ nodes !! k = None ∧ e = notFound k)
  ∨ ∃ j stored l,
      (∃ k, k ∈ keys ∧ needs nodes k j) ∧ nodes !! j = Some stored
      ∧ calls st' = calls st ++ l ++ [(j, results st')]
      ∧ userFunction stored params (results st') = Throw e
      ∧ defined (prop (results st') j) = false.
Proof.
  intros [rank Hr]%constructed_ranked Hget.
  exact (getManyWith_throws nodes rank (get nodes fuel) keys params st e st'
           (get_Run nodes rank Hr fuel) (get_throws nodes rank Hr fuel) Hget).
Qed.
End SyncProperties.


(** The exception of X3 is real: [get("top", {}, {})] on the graph whose
    node [top] depends on a node [toString] calls the function of [top]
    only, and leaves the cache with a property [toString] that holds the
    member inherited from [Object.prototype]. *)
Lemma sync_get_writes_inherited_member :
  ∃ st', Sync.get Named.graph 3 "top" () Shared.fresh
         = Some (Normal (VBuiltin "toString"), st')
    ∧ defined (prop (Sync.results Shared.fresh) "toString") = true
    ∧ Sync.timesCalled "toString" (Sync.calls st') = 0
    ∧ Sync.results Shared.fresh !! "toString" = None
    ∧ Sync.results st' !! "toString" = Some (VBuiltin "toString").
Proof. eexists. split; [vm_compute; reflexivity|]. by vm_compute. Qed.

Lemma sync_get_returns_function_value_witness :
  ∃ stored a l,
    Shared.graph (VNum 10) !! "child1" = Some stored
    ∧ Sync.calls
        (Sync.MkState (<["child1" := VNum 11]> (<["dependency" := VNum 10]> ∅))
           [("dependency", ∅); ("child1", <["dependency" := VNum 10]> ∅)])
      = Sync.calls Shared.fresh ++ l ++ [("child1", a)]
    ∧ Sync.userFunction stored () a = Normal (VNum 11)
    ∧ <["child1" := VNum 11]> (<["dependency" := VNum 10]> ∅)
      = <["child1" := VNum 11]> a
    ∧ ∀ j b, (j, b) ∈ l →
        tc (Sync.dependsOn (Shared.graph (VNum 10))) j "child1".
Proof.
  refine (sync_get_returns_function_value (Shared.graph (VNum 10)) 3 "child1"
            () Shared.fresh (VNum 11) _ _ _ _).
  - eexists. reflexivity.
  - reflexivity.
  - vm_compute. reflexivity.
Defined.

Lemma sync_get_failure_origin_witness :
  let st' := Sync.MkState ∅ [("base", ∅)] in
  (Faulty.graph !! "top" = None ∧ Faulty.oops = Sync.notFound "top"
   ∧ st' = Shared.fresh)
  ∨ ∃ j stored l,
      SyncMore.needs Faulty.graph "top" j ∧ Faulty.graph !! j = Some stored
      ∧ Sync.calls st' = Sync.calls Shared.fresh ++ l ++ [(j, Sync.results st')]
      ∧ Sync.userFunction stored () (Sync.results st') = Throw Faulty.oops
      ∧ defined (prop (Sync.results st') j) = false.
Proof.
  intros st'.
  refine (sync_get_failure_origin Faulty.graph 3 "top" () Shared.fresh
            Faulty.oops st' _ _).
  - eexists. reflexivity.
  - vm_compute. reflexivity.
Defined.


(** The two provisos of X6 are real: [getMany(["toString"], {}, {})] on a
    graph without nodes makes a property [toString] of the member the empty
    cache inherits, and [getMany(["__proto__"], {}, {})] leaves the cache
    without a property [__proto__]. *)
Lemma sync_getMany_inherited_keys :
  (∃ st', Sync.getMany (∅ : gmap Key (Sync.Stored unit)) 3 ["toString"] ()
            Shared.fresh = Some (Normal (), st')
     ∧ defined (prop (Sync.results Shared.fresh) "toString") = true
     ∧ Sync.results Shared.fresh !! "toString" = None
     ∧ Sync.results st' !! "toString" = Some (VBuiltin "toString"))
  ∧ (∃ st', Sync.getMany (∅ : gmap Key (Sync.Stored unit)) 3 ["__proto__"] ()
              Shared.fresh = Some (Normal (), st')
       ∧ Sync.results st' !! "__proto__" = None
       ∧ prop (Sync.results st') "__proto__" = VBuiltin "__proto__").
Proof.
  split; (eexists; split; [vm_compute; reflexivity|by vm_compute]).
Qed.

Lemma sync_getMany_failure_origin_witness :
  let st' := Sync.MkState ∅ [("base", ∅)] in
  (∃ k, k ∈ ["top"; "missing"] ∧ Faulty.graph !! k = None
        ∧ Faulty.oops = Sync.notFound k)
  ∨ ∃ j stored l,
      (∃ k, k ∈ ["top"; "missing"] ∧ SyncMore.needs Faulty.graph k j)
      ∧ Faulty.graph !! j = Some stored
      ∧ Sync.calls st' = Sync.calls Shared.fresh ++ l ++ [(j, Sync.results st')]
      ∧ Sync.userFunction stored () (Sync.results st') = Throw Faulty.oops
      ∧ defined (prop (Sync.results st') j) = false.
Proof.
  intros st'.
  refine (sync_getMany_failure_origin Faulty.graph 3 ["top"; "missing"] ()
            Shared.fresh Faulty.oops st' _ _).
  - eexists. reflexivity.
  - vm_compute. reflexivity.
Defined.

(** ** More about the asynchronous graph *)

Module AsyncMore.
Import Async ObjectFacts AsyncFacts AsyncNetwork.
#[local] Arguments allocate : simpl never.
#[local] Arguments newPromise : simpl never.
#[local] Arguments settle : simpl never.
#[local] Arguments subscribe : simpl never.
#[local] Arguments enqueue : simpl never.
#[local] Arguments awaitSlot : simpl never.
#[local] Arguments awaitValue : simpl never.
#[local] Arguments setCache : simpl never.
#[local] Arguments record : simpl never.
#[local] Arguments withCollected : simpl never.
#[local] Arguments withExternal : simpl never.
#[local] Arguments withJobs : simpl never.
#[local] Arguments withPromises : simpl never.

Section More.
Context {P : Type}.
Implicit Types (w : World P) (key : Key).

(** [needs nodes key j]: [j] is [key] or one of its transitive declared
    dependencies. *)
Definition needs (nodes : gmap string (Resolved P)) (key j : Key) : Prop :=
  j = key ∨ tc (dependsOn nodes) j key.

Lemma async_needs_dependency nodes key stored d j :
  nodes !! key = Some stored → d ∈ dependencies stored →
  needs nodes d j → tc (dependsOn nodes) j key.
Proof.
  intros Hs Hd [->|Hj].
  - apply tc_once. by exists stored.
  - eapply tc_r; [exact Hj|]. by exists stored.
Qed.

(** *** Calls are started for needed keys with an empty slot only *)

(** A change of the world that starts a call only for a key in [among]
    whose slot was empty, and empties no slot. *)
Definition Sparing (among : Key → Prop) (w w' : World P) : Prop :=
  (∀ j, is_Some (cache w !! j) → is_Some (cache w' !! j))
  ∧ (∀ j, is_Some (cache w !! j) ∨ ¬ among j → total j w' ≤ total j w).

Lemma Sparing_neutral among w w' : Neutral w w' → Sparing among w w'.
Proof. intros [Hc Ht]. split; [by rewrite Hc|]. intros j _. apply Ht. Qed.

Lemma Sparing_trans among w1 w2 w3 :
  Sparing among w1 w2 → Sparing among w2 w3 → Sparing among w1 w3.
Proof.
  intros [A1 B1] [A2 B2]. split; [auto|].
  intros j Hj. etrans; [apply B2|apply B1; done].
  destruct Hj as [?|?]; [left; auto|by right].
Qed.

Lemma Sparing_mono (among among' : Key → Prop) w w' :
  (∀ j, among j → among' j) → Sparing among w w' → Sparing among' w w'.
Proof.
  intros Hsub [A B]. split; [done|]. intros j [?|Hj]; apply B; auto.
Qed.

Section Lazy.
Variable nodes : gmap string (Resolved P).

Definition Spares (resolve : Resolver (P := P)) : Prop :=
  ∀ key (input : P) w p w',
    resolve key input w = Some (p, w') → Sparing (needs nodes key) w w'.

Lemma Sparing_setCache among key p w :
  Sparing among w (setCache key p w).
Proof.
  split; [|done]. intros j Hj. unfold setCache; simpl.
  apply lookup_insert_is_Some'. by right.
Qed.

Lemma entryOf_Sparing resolve key (input : P) w cb w' :
  Spares resolve →
  entryOf resolve key input w = Some (cb, w') →
  Sparing (needs nodes key) w w'.
Proof.
  intros Hres. unfold entryOf.
  destruct (newPromise w) as [cb0 w1] eqn:Hn. apply Neutral_newPromise in Hn.
  destruct (cache w1 !! key) as [q|] eqn:Hq.
  - intros [= <- <-]. apply Sparing_neutral.
    eapply Neutral_trans; [done|]. by apply Neutral_awaitSlot.
  - destruct (truthy (unfilled key)).
    { intros [= <- <-]. apply Sparing_neutral.
      eapply Neutral_trans; [done|]. by apply Neutral_awaitSlot. }
    destruct (resolve key input w1) as [[rc w2]|] eqn:Hr; [|done].
    apply Hres in Hr.
    destruct (newPromise w2) as [derived w3] eqn:Hn3.
    apply Neutral_newPromise in Hn3.
    intros [= <- <-].
    eapply Sparing_trans; [by apply Sparing_neutral|].
    eapply Sparing_trans; [done|].
    eapply Sparing_trans; [by apply Sparing_neutral|].
    eapply Sparing_trans;
      [apply Sparing_neutral, (Neutral_subscribe rc (Catch key derived)); done|].
    eapply Sparing_trans; [apply Sparing_setCache|].
    apply Sparing_neutral. by apply Neutral_awaitSlot.
Qed.

Lemma mapEntries_Sparing resolve keys (input : P) w cbs w' :
  Spares resolve →
  mapEntries resolve keys input w = Some (cbs, w') →
  Sparing (λ j, ∃ k, k ∈ keys ∧ needs nodes k j) w w'.
Proof.
  intros Hres. revert w cbs.
  induction keys as [|k keys IH]; intros w cbs; simpl.
  - intros [= <- <-]. apply Sparing_neutral, Neutral_refl.
  - destruct (entryOf resolve k input w) as [[cb w1]|] eqn:He; [|done].
    apply entryOf_Sparing in He; [|done].
    destruct (mapEntries resolve keys input w1) as [[cbs' w2]|] eqn:Hm'; [|done].
    intros [= <- <-]. apply IH in Hm'.
    eapply Sparing_trans.
    + eapply Sparing_mono; [|exact He]. intros j Hj. exists k.
      split; [by left|done].
    + eapply Sparing_mono; [|exact Hm']. intros j (k' & Hk' & Hj). exists k'.
      split; [by right|done].
Qed.

Lemma resolveDependenciesWith_Sparing resolve keys (input : P) w rd w' :
  Spares resolve →
  resolveDependenciesWith resolve keys input w = Some (rd, w') →
  Sparing (λ j, ∃ k, k ∈ keys ∧ needs nodes k j) w w'.
Proof.
  intros Hres. unfold resolveDependenciesWith.
  destruct (newPromise w) as [rd0 w1] eqn:Hn. apply Neutral_newPromise in Hn.
  destruct (mapEntries resolve keys input w1) as [[cbs w2]|] eqn:Hmap; [|done].
  apply mapEntries_Sparing in Hmap; [|done].
  destruct (promiseAll cbs w2) as [all w3] eqn:Hall.
  apply Neutral_promiseAll in Hall.
  intros [= <- <-].
  eapply Sparing_trans; [by apply Sparing_neutral|].
  eapply Sparing_trans; [done|].
  eapply Sparing_trans; [by apply Sparing_neutral|].
  apply Sparing_neutral. by apply Neutral_subscribe.
Qed.

Lemma resolveComputation_Sparing fuel :
  Spares (resolveComputation nodes fuel).
Proof.
  induction fuel as [|fuel IH]; intros key input w p w'; [done|].
  cbn [resolveComputation].
  destruct (newPromise w) as [rc w1] eqn:Hn. apply Neutral_newPromise in Hn.
  destruct (cache w1 !! key) as [q|] eqn:Hq.
  { intros [= <- <-]. apply Sparing_neutral.
    eapply Neutral_trans; [done|]. by apply Neutral_subscribe. }
  destruct (defined (unfilled key)).
  { intros [= <- <-]. apply Sparing_neutral.
    eapply Neutral_trans; [done|]. by apply Neutral_awaitValue. }
  destruct (nodes !! key) as [stored|] eqn:Hs.
  2:{ intros [= <- <-]. apply Sparing_neutral.
      eapply Neutral_trans; [done|]. apply Neutral_settle. }
  unfold callResolved.
  destruct (newPromise w1) as [pw w2] eqn:Hn2. apply Neutral_newPromise in Hn2.
  destruct (resolveDependenciesWith (resolveComputation nodes fuel)
              (dependencies stored) input w2) as [[rd w3]|] eqn:Hrd; [|done].
  apply resolveDependenciesWith_Sparing in Hrd; [|done].
  intros [= <- <-].
  set (w4 := subscribe rd (ResumeProvided key (userFn stored) pw) w3).
  set (w6 := awaitSlot key (ResumeComputation rc) (setCache key pw w4)).
  assert (H12 : Neutral w w2) by by eapply Neutral_trans.
  assert (Hlast : Neutral (setCache key pw w4) w6)
    by by apply Neutral_awaitSlot.
  destruct H12 as [C12 T12], Hrd as (A3 & B3), Hlast as [CL TL].
  assert (C6 : cache w6 = <[key := pw]> (cache w3)).
  { rewrite CL. unfold w4. change (cache (setCache key pw ?x))
      with (<[key := pw]> (cache x)). by rewrite cache_subscribe. }
  assert (T6 : ∀ k, total k w6
                    ≤ total k w3 + (if decide (key = k) then 1 else 0)).
  { intros k. etrans; [apply TL|].
    change (total k (setCache key pw w4)) with (total k w4).
    unfold total, pendingCalls, w4. rewrite invocations_subscribe.
    pose proof (measure_subscribe (startsCall k) 0 rd
                  (ResumeProvided key (userFn stored) pw) w3) as Hm.
    simpl in Hm. lia. }
  clearbody w4 w6. clear CL TL.
  rewrite (proj1 Hn) in Hq.
  split.
  - intros j Hj. rewrite C6. apply lookup_insert_is_Some'. right.
    apply A3. by rewrite C12.
  - intros j Hj.
    assert (key ≠ j).
    { intros <-. destruct Hj as [[? Hj]|Hj]; [congruence|].
      apply Hj. by left. }
    specialize (T6 j). rewrite decide_False in T6 by done.
    assert (total j w3 ≤ total j w2) as H3.
    { apply B3. destruct Hj as [Hj|Hj]; [left; by rewrite C12|right].
      intros (d & Hd & Hdj). apply Hj. right.
      by eapply (async_needs_dependency nodes key stored d). }
    specialize (T12 j). lia.
Qed.
End Lazy.

(** *** The promises made of the cache of the caller *)

Lemma seeds_spec (entries : list (Key * Value)) w :
  NoDup entries.*1 →
  (∃ new, promises (foldr seed w entries) = promises w ++ new
          ∧ Forall (λ st, ∃ v, st = Fulfilled (OfValue v)) new)
  ∧ (∀ k, k ∉ entries.*1 →
       cache (foldr seed w entries) !! k = cache w !! k)
  ∧ (∀ k v, (k, v) ∈ entries →
       ∃ q, cache (foldr seed w entries) !! k = Some q
         ∧ promises (foldr seed w entries) !! q = Some (Fulfilled (OfValue v))
         ∧ length (promises w) ≤ q)
  ∧ jobs (foldr seed w entries) = jobs w
  ∧ invocations (foldr seed w entries) = invocations w
  ∧ external (foldr seed w entries) = external w
  ∧ collected (foldr seed w entries) = collected w
  ∧ supplied (foldr seed w entries) = supplied w
  ∧ ∀ k, total k (foldr seed w entries) = total k w.
Proof.
  induction entries as [|[k0 v0] entries IH]; cbn [foldr fmap list_fmap].
  - intros _. split; [exists []; by rewrite app_nil_r|]. split; [done|].
    split; [|done]. intros k v Hin. by apply elem_of_nil in Hin.
  - intros [Hk0 Hnd]%NoDup_cons.
    destruct (IH Hnd) as ((new & Hnew & Hall) & Hout & Hin & Hj & Hi & He & Hc
                          & Hs & Ht).
    set (w1 := foldr seed w entries) in *.
    unfold seed, allocate. cbn [fst snd].
    change (promises (setCache k0 ?p (withPromises ?ps w1))) with ps.
    change (cache (setCache k0 ?p (withPromises ?ps w1)))
      with (<[k0 := p]> (cache w1)).
    split; [|split; [|split; [|split; [done|split; [done|split;
      [done|split; [done|split; [done|]]]]]]]].
    + exists (new ++ [Fulfilled (OfValue v0)]). rewrite Hnew, app_assoc.
      split; [done|]. apply Forall_app. split; [done|].
      apply Forall_singleton. by exists v0.
    + intros k [Hne Hk]%not_elem_of_cons. simpl in Hne.
      rewrite lookup_insert_ne by done. by apply Hout.
    + intros k v [[= -> ->]|Hkv]%elem_of_cons.
      * exists (length (promises w1)). rewrite lookup_insert_eq.
        split; [done|]. split.
        -- by rewrite lookup_app_r, Nat.sub_diag.
        -- rewrite Hnew, length_app. lia.
      * destruct (Hin k v Hkv) as (q & Hq & Hp & Hle). exists q.
        assert (k ≠ k0).
        { intros ->. apply Hk0. apply list_elem_of_fmap. by exists (k0, v). }
        rewrite lookup_insert_ne by done. split; [done|]. split; [|done].
        rewrite lookup_app_l; [done|]. by eapply lookup_lt_Some.
    + intros k. rewrite <- Ht. unfold total, pendingCalls, measure. simpl.
      rewrite sum_list_with_app. simpl. lia.
Qed.

Lemma resultsToPromises_spec results w :
  let w' := resultsToPromises results w in
  (∃ new, promises w' = promises w ++ new
          ∧ Forall (λ st, ∃ v, st = Fulfilled (OfValue v)) new)
  ∧ (∀ k, results !! k = None → cache w' !! k = cache w !! k)
  ∧ (∀ k v, results !! k = Some v →
       ∃ q, cache w' !! k = Some q
         ∧ promises w' !! q = Some (Fulfilled (OfValue v))
         ∧ length (promises w) ≤ q)
  ∧ jobs w' = jobs w ∧ invocations w' = invocations w
  ∧ external w' = external w ∧ collected w' = collected w
  ∧ supplied w' = supplied w
  ∧ ∀ k, total k w' = total k w.
Proof.
  intros w'. subst w'. unfold resultsToPromises.
  destruct (seeds_spec (map_to_list results) w) as (A & B & C & D);
    [apply NoDup_fst_map_to_list|].
  split; [done|]. split; [|split; [|done]].
  - intros k Hk. apply B.
    intros ((k' & v) & -> & Hin%elem_of_map_to_list)%list_elem_of_fmap.
    simpl in Hk. congruence.
  - intros k v Hk. apply C. by apply elem_of_map_to_list.
Qed.

(** *** What the synchronous part of a call settles *)

(** The slots of the cache hold promises that exist. *)
Definition Bounded (w : World P) : Prop :=
  ∀ d q, cache w !! d = Some q → q < length (promises w).

(** From [w] to [w'] nothing was called, no promise of a user function was
    made, no promise was fulfilled but those of [Promise.all] of nothing
    and the new ones made by [await] of a member of [Object.prototype],
    no promise was rejected but with the error of a key that is not
    registered, and the new slots of the cache hold promises that are not
    fulfilled. *)
Record Prelude (w w' : World P) : Prop := {
  pre_external : external w' = external w;
  pre_calls : invocations w' = invocations w;
  pre_grows : length (promises w) ≤ length (promises w');
  pre_bounded : Bounded w → Bounded w';
  pre_fulfilled : ∀ p s,
    fulfilled w' p s →
    fulfilled w p s ∨ s = OfEntries []
    ∨ (length (promises w) ≤ p
       ∧ ∃ k v, inherited k = Some v ∧ s = OfValue v);
  pre_rejected : ∀ p e,
    rejected w' p e → rejected w p e ∨ ∃ k, e = notFound k;
  pre_collected : ∀ a vs,
    collected w' !! a = Some vs →
    collected w !! a = Some vs ∨ mapM id vs = None;
  pre_cache : Bounded w → ∀ d q v,
    cache w' !! d = Some q → fulfilled w' q (OfValue v) →
    cache w !! d = Some q
}.

Lemma Prelude_refl w : Prelude w w.
Proof. split; auto. Qed.

Lemma Prelude_trans w1 w2 w3 : Prelude w1 w2 → Prelude w2 w3 → Prelude w1 w3.
Proof.
  intros [E1 I1 G1 B1 F1 R1 C1 K1] [E2 I2 G2 B2 F2 R2 C2 K2]. split.
  - congruence.
  - congruence.
  - lia.
  - auto.
  - intros p s [H|[H|(Hle & Hv)]]%F2; [by apply F1|by right; left|].
    right. right. split; [lia|done].
  - intros p e [H|H]%R2; [by apply R1|by right].
  - intros a vs [H|H]%C2; [by apply C1|by right].
  - intros Hb d q v Hd Hq.
    pose proof (K2 (B1 Hb) d q v Hd Hq) as Hd2. apply (K1 Hb d q v Hd2).
    destruct (F2 _ _ Hq) as [H|[H|(Hle & _)]]; [done|done|].
    pose proof (B1 Hb d q Hd2). lia.
Qed.

Lemma fulfilled_back (X : Job P → Prop) T w w' p s :
  Future X T w w' → p ∉ T → fulfilled w' p s → fulfilled w p s.
Proof.
  intros F Hp Hf. destruct (fut_same _ _ _ _ F p Hp) as [_ Hsame].
  destruct (Hsame _ Hf) as (st & Hst & [->|(rs & rs' & _ & [=])]). done.
Qed.

Lemma Prelude_same_promises w w' :
  promises w' = promises w → external w' = external w →
  invocations w' = invocations w → collected w' = collected w →
  cache w' = cache w → Prelude w w'.
Proof.
  intros Hp He Hi Hc Hk. split; try done.
  - by rewrite Hp.
  - unfold Bounded. by rewrite Hp, Hk.
  - intros p s. unfold fulfilled. rewrite Hp. by left.
  - intros p e. unfold rejected. rewrite Hp. by left.
  - intros a vs. rewrite Hc. by left.
  - intros _ d q v. by rewrite Hk.
Qed.

Lemma Prelude_allocate state w :
  (∀ s, state = Fulfilled s → ∃ k v, inherited k = Some v ∧ s = OfValue v) →
  (∀ e, state ≠ Rejected e) →
  Prelude w (allocate state w).2.
Proof.
  intros Hst Hnr. unfold allocate. simpl. split; try done.
  - simpl. rewrite length_app. lia.
  - intros Hb d q Hd. simpl. rewrite length_app.
    pose proof (Hb d q Hd). lia.
  - intros p s Hf. unfold fulfilled in *. simpl in Hf.
    apply lookup_app_Some in Hf as [Hf|[Hle Hf]]; [by left|].
    apply list_lookup_singleton_Some in Hf as [_ Hf].
    right. right. split; [done|]. by apply Hst.
  - intros p e Hf. unfold rejected in *. simpl in Hf.
    apply lookup_app_Some in Hf as [Hf|[Hle Hf]]; [by left|].
    apply list_lookup_singleton_Some in Hf as [_ Hf]. by destruct (Hnr e).
  - intros a vs. by left.
Qed.

Lemma Prelude_newPromise w p w' :
  newPromise w = (p, w') →
  Prelude w w' ∧ promises w' !! p = Some (Pending []) ∧ cache w' = cache w.
Proof.
  intros [= <- <-]. split; [|split; [|done]].
  - by apply (Prelude_allocate (Pending [])).
  - simpl. by rewrite lookup_app_r, Nat.sub_diag.
Qed.

Lemma Prelude_settle p c w :
  (∀ s, c = Normal s → s = OfEntries []) →
  (∀ e, c = Throw e → ∃ k, e = notFound k) →
  Prelude w (settle p c w).
Proof.
  intros Hc He. split.
  - apply external_settle.
  - apply invocations_settle.
  - by rewrite length_settle.
  - unfold Bounded. by rewrite cache_settle, length_settle.
  - intros q s Hf. destruct (decide (q = p)) as [->|Hne].
    + destruct (promises w !! p) as [st|] eqn:Hp.
      2:{ rewrite settle_none in Hf by done. by left. }
      destruct (state_cases st) as [[rs ->]|[c' ->]].
      2:{ erewrite settle_settled in Hf by done. by left. }
      unfold fulfilled in Hf. rewrite (settle_state _ _ _ _ Hp) in Hf.
      right. left. apply Hc. destruct c; simpl in Hf; congruence.
    + left. unfold fulfilled in *. by rewrite settle_other in Hf.
  - intros q e Hf. destruct (decide (q = p)) as [->|Hne].
    + destruct (promises w !! p) as [st|] eqn:Hp.
      2:{ rewrite settle_none in Hf by done. by left. }
      destruct (state_cases st) as [[rs ->]|[c' ->]].
      2:{ erewrite settle_settled in Hf by done. by left. }
      unfold rejected in Hf. rewrite (settle_state _ _ _ _ Hp) in Hf.
      right. apply He. destruct c; simpl in Hf; congruence.
    + left. unfold rejected in *. by rewrite settle_other in Hf.
  - intros a vs. rewrite collected_settle. by left.
  - intros _ d q v. by rewrite cache_settle.
Qed.

Lemma Prelude_subscribe q r w : Prelude w (subscribe q r w).
Proof.
  split.
  - apply external_subscribe.
  - apply invocations_subscribe.
  - by rewrite length_subscribe.
  - unfold Bounded. by rewrite cache_subscribe, length_subscribe.
  - intros p s Hf. left.
    eapply (fulfilled_back nothing []); [apply Future_subscribe| |done].
    apply not_elem_of_nil.
  - intros p e Hf. left.
    eapply (rejected_back nothing []); [apply Future_subscribe| |done].
    apply not_elem_of_nil.
  - intros a vs. rewrite collected_subscribe. by left.
  - intros _ d q' v. by rewrite cache_subscribe.
Qed.

Lemma Prelude_setCache key p w :
  is_Some (promises w !! p) →
  (∀ v, ¬ fulfilled w p (OfValue v)) → Prelude w (setCache key p w).
Proof.
  intros Hex Hp. split; try done.
  - intros Hb d q. unfold setCache. simpl.
    destruct (decide (d = key)) as [->|Hne].
    + rewrite lookup_insert_eq. intros [= <-]. by apply lookup_lt_is_Some.
    + rewrite lookup_insert_ne by done. apply Hb.
  - intros q s. by left.
  - intros q e. by left.
  - intros a vs. by left.
  - intros _ d q v. unfold setCache, fulfilled. simpl.
    destruct (decide (d = key)) as [->|Hne].
    + rewrite lookup_insert_eq. intros [= <-] Hf. by destruct (Hp v).
    + by rewrite lookup_insert_ne.
Qed.

Lemma Prelude_awaitValue key v r w :
  inherited key = Some v → Prelude w (awaitValue v r w).
Proof.
  intros Hk. unfold awaitValue.
  destruct (allocate (Fulfilled (OfValue v)) w) as [p w1] eqn:Ha.
  eapply Prelude_trans; [|apply Prelude_subscribe].
  replace w1 with (allocate (Fulfilled (OfValue v)) w).2 by by rewrite Ha.
  apply Prelude_allocate; [|done]. intros s [= <-]. eauto.
Qed.

Lemma Prelude_awaitSlot key r w :
  is_Some (cache w !! key) ∨ is_Some (inherited key) →
  Prelude w (awaitSlot key r w).
Proof.
  unfold awaitSlot. destruct (cache w !! key) as [q|] eqn:Hq.
  - intros _. apply Prelude_subscribe.
  - intros [[? [=]]|[v Hv]]. rewrite (unfilled_inherited _ _ Hv).
    by eapply Prelude_awaitValue.
Qed.

Lemma Prelude_subscribeAll all ps : ∀ index w,
  Prelude w (subscribeAll all index ps w).
Proof.
  induction ps as [|p ps IH]; intros index w; simpl; [apply Prelude_refl|].
  eapply Prelude_trans; [apply Prelude_subscribe|apply IH].
Qed.

Lemma Prelude_promiseAll ps w all w' :
  promiseAll ps w = (all, w') → Prelude w w'.
Proof.
  unfold promiseAll. destruct (newPromise w) as [a w1] eqn:Hn.
  apply Prelude_newPromise in Hn as (Hn & _).
  destruct ps as [|p ps]; intros [= <- <-].
  - eapply Prelude_trans; [done|]. apply Prelude_settle; [|done].
    by intros s [= <-].
  - eapply Prelude_trans; [done|].
    eapply (Prelude_trans _
              (withCollected
                 (<[a := replicate (length (p :: ps)) None]> (collected w1))
                 w1)); [|apply (Prelude_subscribeAll a (p :: ps) 0)].
    split; try done.
    + intros q s. by left.
    + intros q e. by left.
    + intros a' vs. unfold withCollected. simpl.
      destruct (decide (a' = a)) as [->|Hne].
      * rewrite lookup_insert_eq. intros [= <-]. by right.
      * rewrite lookup_insert_ne by done. by left.
Qed.

Definition Prepares (resolve : Resolver (P := P)) : Prop :=
  ∀ key (input : P) w rc w',
    resolve key input w = Some (rc, w') → Prelude w w'.

Lemma pending_not_fulfilled w w' p rs s :
  promises w !! p = Some (Pending rs) → Prelude w w' →
  fulfilled w' p s → s = OfEntries [].
Proof.
  intros Hp Hpre Hf.
  destruct (pre_fulfilled _ _ Hpre _ _ Hf) as [H|[H|(Hle & _)]]; [|done|].
  - unfold fulfilled in H. congruence.
  - apply lookup_lt_Some in Hp. lia.
Qed.

Lemma entryOf_Prelude resolve key (input : P) w cb w' :
  Prepares resolve →
  entryOf resolve key input w = Some (cb, w') → Prelude w w'.
Proof.
  intros Hres. unfold entryOf.
  destruct (newPromise w) as [cb0 w1] eqn:Hn.
  apply Prelude_newPromise in Hn as (Hn & _ & Hc1).
  destruct (cache w1 !! key) as [q|] eqn:Hq.
  - intros [= <- <-]. eapply Prelude_trans; [done|].
    apply Prelude_awaitSlot. left. by rewrite Hq.
  - destruct (truthy (unfilled key)) eqn:Htr.
    { intros [= <- <-]. eapply Prelude_trans; [done|].
      apply Prelude_awaitSlot. right. rewrite unfilled_truthy in Htr.
      by apply unfilled_defined. }
    destruct (resolve key input w1) as [[rc w2]|] eqn:Hr; [|done].
    apply Hres in Hr.
    destruct (newPromise w2) as [derived w3] eqn:Hn3.
    apply Prelude_newPromise in Hn3 as (Hn3 & Hd & _).
    intros [= <- <-].
    eapply Prelude_trans; [done|]. eapply Prelude_trans; [done|].
    eapply Prelude_trans; [done|].
    eapply Prelude_trans; [apply (Prelude_subscribe rc (Catch key derived))|].
    eapply Prelude_trans.
    + apply Prelude_setCache.
      * apply lookup_lt_is_Some. rewrite length_subscribe.
        by eapply lookup_lt_Some.
      * intros v Hf.
        by pose proof (pending_not_fulfilled _ _ _ _ _ Hd
                         (Prelude_subscribe rc (Catch key derived) w3) Hf).
    + apply Prelude_awaitSlot. left. unfold setCache. simpl.
      rewrite lookup_insert_eq. by eexists.
Qed.

Lemma mapEntries_Prelude resolve keys (input : P) : Prepares resolve →
  ∀ w cbs w', mapEntries resolve keys input w = Some (cbs, w') → Prelude w w'.
Proof.
  intros Hres. induction keys as [|k keys IH]; intros w cbs w'; simpl.
  - intros [= <- <-]. apply Prelude_refl.
  - destruct (entryOf resolve k input w) as [[cb w1]|] eqn:He; [|done].
    apply entryOf_Prelude in He; [|done].
    destruct (mapEntries resolve keys input w1) as [[cbs' w2]|] eqn:Hm; [|done].
    intros [= <- <-]. eapply Prelude_trans; [done|]. by eapply IH.
Qed.

Lemma resolveDependenciesWith_Prelude resolve keys (input : P) w rd w' :
  Prepares resolve →
  resolveDependenciesWith resolve keys input w = Some (rd, w') →
  Prelude w w'.
Proof.
  intros Hres. unfold resolveDependenciesWith.
  destruct (newPromise w) as [rd0 w1] eqn:Hn.
  apply Prelude_newPromise in Hn as (Hn & _).
  destruct (mapEntries resolve keys input w1) as [[cbs w2]|] eqn:Hmap; [|done].
  apply mapEntries_Prelude in Hmap; [|done].
  destruct (promiseAll cbs w2) as [all w3] eqn:Hall.
  apply Prelude_promiseAll in Hall.
  intros [= <- <-].
  eapply Prelude_trans; [done|]. eapply Prelude_trans; [done|].
  eapply Prelude_trans; [done|]. apply Prelude_subscribe.
Qed.

Lemma resolveComputation_Prelude nodes fuel :
  Prepares (resolveComputation nodes fuel).
Proof.
  induction fuel as [|fuel IH]; intros key input w p w'; [done|].
  cbn [resolveComputation].
  destruct (newPromise w) as [rc w1] eqn:Hn.
  apply Prelude_newPromise in Hn as (Hn & _).
  destruct (cache w1 !! key) as [q|] eqn:Hq.
  { intros [= <- <-]. eapply Prelude_trans; [done|]. apply Prelude_subscribe. }
  destruct (defined (unfilled key)) eqn:Hdef.
  { intros [= <- <-]. eapply Prelude_trans; [done|].
    apply unfilled_defined in Hdef as [v Hv].
    rewrite (unfilled_inherited _ _ Hv). by eapply Prelude_awaitValue. }
  destruct (nodes !! key) as [stored|] eqn:Hs.
  2:{ intros [= <- <-]. eapply Prelude_trans; [done|].
      apply Prelude_settle; [done|]. intros e [= <-]. eauto. }
  unfold callResolved.
  destruct (newPromise w1) as [pw w2] eqn:Hn2.
  apply Prelude_newPromise in Hn2 as (Hn2 & Hpw & _).
  destruct (resolveDependenciesWith (resolveComputation nodes fuel)
              (dependencies stored) input w2) as [[rd w3]|] eqn:Hrd; [|done].
  apply resolveDependenciesWith_Prelude in Hrd; [|done].
  intros [= <- <-].
  set (w4 := subscribe rd (ResumeProvided key (userFn stored) pw) w3).
  assert (H24 : Prelude w2 w4).
  { eapply Prelude_trans; [done|]. apply Prelude_subscribe. }
  eapply Prelude_trans; [done|]. eapply Prelude_trans; [done|].
  eapply Prelude_trans; [done|]. eapply Prelude_trans.
  - apply (Prelude_setCache key pw).
    + apply lookup_lt_is_Some.
      apply lookup_lt_Some in Hpw. pose proof (pre_grows _ _ H24). lia.
    + intros v Hf.
      by pose proof (pending_not_fulfilled _ _ _ _ _ Hpw H24 Hf).
  - apply Prelude_awaitSlot. left. unfold setCache. simpl.
    rewrite lookup_insert_eq. by eexists.
Qed.

(** The world at the moment a call hands its promise back. *)
Record Dawn (results : ResultObject) (w : World P) : Prop := {
  dawn_external : external w = ∅;
  dawn_calls : invocations w = [];
  dawn_objects : ∀ p o, ¬ fulfilled w p (OfObject o);
  dawn_collected : ∀ a vs, collected w !! a = Some vs → mapM id vs = None;
  dawn_cache : ∀ d q v,
    cache w !! d = Some q → fulfilled w q (OfValue v) → results !! d = Some v;
  dawn_bounded : Bounded w;
  dawn_rejected : ∀ p e, rejected w p e → ∃ k, e = notFound k
}.

Lemma Dawn_seeded results g w1 :
  newPromise (initial results) = (g, w1) →
  Dawn results (resultsToPromises results w1).
Proof.
  intros [= <- <-].
  destruct (resultsToPromises_spec results
              (withPromises [Pending []] (initial results)))
    as ((new & Hnew & Hall) & Hout & Hin & Hj & Hi & He & Hc & Hs & Ht).
  set (w2 := resultsToPromises results _) in *. simpl in *.
  split; try done.
  - intros p o Hf. unfold fulfilled in Hf. rewrite Hnew in Hf.
    destruct p as [|p]; [done|]. simpl in Hf.
    apply list_elem_of_lookup_2 in Hf.
    rewrite Forall_forall in Hall. by destruct (Hall _ Hf) as [v ?].
  - intros a vs. by rewrite Hc.
  - intros d q v Hd Hf. destruct (results !! d) as [v'|] eqn:Hr.
    + destruct (Hin d v' Hr) as (q' & Hq' & Hp' & _).
      unfold fulfilled in Hf. congruence.
    + rewrite (Hout d Hr) in Hd. done.
  - intros d q Hd. destruct (results !! d) as [v'|] eqn:Hr.
    + destruct (Hin d v' Hr) as (q' & Hq' & Hp' & _).
      assert (q' = q) as -> by congruence. by eapply lookup_lt_Some.
    + rewrite (Hout d Hr) in Hd. done.
  - intros p e Hf. unfold rejected in Hf. rewrite Hnew in Hf.
    destruct p as [|p]; [done|]. simpl in Hf.
    apply list_elem_of_lookup_2 in Hf.
    rewrite Forall_forall in Hall. by destruct (Hall _ Hf) as [v ?].
Qed.

Lemma Dawn_Prelude results w w' : Dawn results w → Prelude w w' → Dawn results w'.
Proof.
  intros [E I O C K B R] [E' I' G' B' F' R' C' K']. split.
  - congruence.
  - congruence.
  - intros p o [Hf|[[=]|(_ & k & v & _ & [=])]]%F'. by eapply O.
  - intros a vs [H|H]%C'; [by eapply C|done].
  - intros d q v Hd Hf. pose proof (K' B d q v Hd Hf) as Hd0.
    eapply K; [done|].
    destruct (F' _ _ Hf) as [H|[H|(Hle & _)]]; [done|done|].
    pose proof (B d q Hd0). lia.
  - auto.
  - intros p e [H|H]%R'; [by eapply R|done].
Qed.

Lemma Dawn_enqueue results job w : Dawn results w → Dawn results (enqueue job w).
Proof. intros [E I O C K B R]. by split. Qed.

Lemma started_Dawn nodes (input : P) results g w :
  started nodes input results g w → Dawn results w.
Proof.
  intros [(fuel & key & H)|(fuel & keys & H)].
  - unfold get in H.
    destruct (newPromise (initial results)) as [g0 w1] eqn:Hn.
    destruct (defined (prop results key)) eqn:Hdef.
    + injection Hn as <- <-. injection H as <- <-. split; try done.
      * intros [|p] o; cbv; [congruence|by destruct p].
      * intros [|p] e; cbv; [congruence|by destruct p].
    + destruct (resolveComputation nodes fuel key input
                  (resultsToPromises results w1)) as [[rc w2]|] eqn:Hrc; [|done].
      injection H as <- <-. apply Dawn_enqueue.
      eapply Dawn_Prelude; [by eapply Dawn_seeded|].
      by eapply resolveComputation_Prelude.
  - unfold getMany, resolveDependencies in H.
    destruct (newPromise (initial results)) as [g0 w1] eqn:Hn.
    destruct (resolveDependenciesWith (resolveComputation nodes fuel) keys input
                (resultsToPromises results w1)) as [[rd w2]|] eqn:Hrd; [|done].
    injection H as <- <-. apply Dawn_enqueue.
    eapply Dawn_Prelude; [by eapply Dawn_seeded|].
    eapply resolveDependenciesWith_Prelude; [|done].
    apply resolveComputation_Prelude.
Qed.

(** *** Where the settled value of a node comes from *)

Section Accounts.
Variable nodes : gmap string (Resolved P).
Variable input : P.

(** The function of [key] was called and returned [v], or a promise that
    was fulfilled with [v]. *)
Definition Produced (log : list (Key * ResultObject)) (key : Key) (v : Value)
  : Prop :=
  ∃ o stored, (key, o) ∈ log ∧ nodes !! key = Some stored
    ∧ (userFn stored input o = Normal (Plainly v)
       ∨ userFn stored input o = Normal (Promised (Normal v))).

(** The function of [key] was called and threw [e], or returned a promise
    that was rejected with [e]. *)
Definition Thrown (log : list (Key * ResultObject)) (key : Key) (e : JSError)
  : Prop :=
  ∃ o stored, (key, o) ∈ log ∧ nodes !! key = Some stored
    ∧ (userFn stored input o = Throw e
       ∨ userFn stored input o = Normal (Promised (Throw e))).

Definition Outcome (log : list (Key * ResultObject)) (key : Key)
    (c : Completion Settled) : Prop :=
  match c with
  | Normal s => ∃ v, s = OfValue v ∧ Produced log key v
  | Throw e => Thrown log key e
  end.

Definition PromisedBy (log : list (Key * ResultObject)) (key : Key)
    (c : Completion Value) : Prop :=
  ∃ o stored, (key, o) ∈ log ∧ nodes !! key = Some stored
    ∧ userFn stored input o = Normal (Promised c).

Lemma Outcome_mono log log' key c :
  (∀ x, x ∈ log → x ∈ log') → Outcome log key c → Outcome log' key c.
Proof.
  intros Hsub. destruct c as [s|e]; simpl.
  - intros (v & -> & o & stored & Hin & Hrest). exists v. split; [done|].
    exists o, stored. auto.
  - intros (o & stored & Hin & Hrest). exists o, stored. auto.
Qed.

Lemma PromisedBy_mono log log' key c :
  (∀ x, x ∈ log → x ∈ log') → PromisedBy log key c → PromisedBy log' key c.
Proof. intros Hsub (o & stored & Hin & Hrest). exists o, stored. auto. Qed.

Lemma PromisedBy_Outcome log key c :
  PromisedBy log key c → Outcome log key (liftOutcome c).
Proof.
  intros (o & stored & Hin & Hs & Hfn). destruct c as [v|e]; simpl.
  - exists v. split; [done|]. exists o, stored. auto.
  - exists o, stored. auto.
Qed.

(** The promises of the closures of [provideDependencies] are settled with
    what the function of their key produced, or with the failure of a
    dependency; the promises of user functions that are still pending are
    awaited by the closure and known to the environment; and an array of
    [Promise.all] that is complete belongs to a settled promise.  [N0] gives
    the roles at the start of the event loop. *)
Record Accounted (N0 : list Role) (w : World P) : Prop := {
  acc_returned : ∀ pw key rd c,
    N0 !! pw = Some (ProvidedOf key rd) →
    promises w !! pw = Some (settledState c) →
    Outcome (invocations w) key c ∨ ∃ e, c = Throw e ∧ rejected w rd e;
  acc_returning : ∀ pw key rd c,
    React (ResumeReturn pw) c ∈ jobs w →
    N0 !! pw = Some (ProvidedOf key rd) →
    Outcome (invocations w) key c;
  acc_awaiting : ∀ u rs pw,
    promises w !! u = Some (Pending rs) → ResumeReturn pw ∈ rs →
    ∃ c, external w !! u = Some c
      ∧ ∀ key rd, N0 !! pw = Some (ProvidedOf key rd) →
          PromisedBy (invocations w) key c;
  acc_collecting : ∀ a vs,
    collected w !! a = Some vs →
    mapM id vs = None ∨ ∃ c, promises w !! a = Some (settledState c)
}.

Lemma settledState_inj (c c' : Completion Settled) :
  settledState (P := P) c = settledState c' → c = c'.
Proof. destruct c, c'; simpl; congruence. Qed.

Lemma settled_back (X : Job P → Prop) T w w' p c :
  Future X T w w' → p ∉ T →
  promises w' !! p = Some (settledState c) →
  promises w !! p = Some (settledState c).
Proof.
  intros F Hp Hf. destruct (fut_same _ _ _ _ F p Hp) as [_ Hsame].
  destruct (Hsame _ Hf) as (st & Hst & [->|(rs & rs' & _ & Heq)]); [done|].
  by destruct c.
Qed.

(** At the start no closure has called its function yet. *)
Lemma not_called_yet B top N w pw key rd :
  Inv nodes input B top N w → (∀ p o, ¬ fulfilled w p (OfObject o)) →
  N !! pw = Some (ProvidedOf key rd) → ∀ o, ¬ fulfilled w rd o.
Proof.
  intros I Hno Hpw o Ho.
  destruct (inv_static _ _ _ _ _ _ I _ _ Hpw) as (stored & all & _ & Hrd).
  destruct (inv_clause _ _ _ _ _ _ I rd _ _ (held_settled _ _ (Normal o))
              Hrd Ho) as (entries & _ & ->).
  by eapply Hno.
Qed.

Lemma Accounted_start results top N w :
  Inv nodes input [] top N w → Dawn results w → Accounted N w.
Proof.
  intros I [He Hi Ho Hc Hk _ _].
  pose proof (λ pw key rd, not_called_yet _ _ _ _ pw key rd I Ho) as Hnot.
  split.
  - intros pw key rd c Hpw Hst.
    pose proof (inv_clause _ _ _ _ _ _ I pw _ _ (held_settled _ _ c) Hpw Hst)
      as HC.
    destruct c as [s|e]; simpl in HC.
    + destruct HC as [_ [o Hf]]. by destruct (Hnot _ _ _ Hpw o).
    + destruct HC as [Hr|[o Hf]]; [right; eauto|].
      by destruct (Hnot _ _ _ Hpw o).
  - intros pw key rd c Hjob Hpw.
    destruct (inv_jobs _ _ _ _ _ _ I _ Hjob) as (q & HF & Hq). simpl in HF.
    destruct (inv_clause _ _ _ _ _ _ I q _ _ (held_settled _ _ c) HF Hq)
      as [(key' & rd' & o & Hpw' & Hf) _].
    by destruct (Hnot _ _ _ Hpw' o).
  - intros u rs pw Hu Hin.
    pose proof (inv_feeds _ _ _ _ _ _ I _ _ _ Hu Hin) as HF. simpl in HF.
    destruct (inv_clause _ _ _ _ _ _ I u _ _ (held_nil _ _) HF Hu)
      as [(key' & rd' & o & Hpw' & Hf) _].
    by destruct (Hnot _ _ _ Hpw' o).
  - intros a vs Ha. left. by eapply Hc.
Qed.

(** A change that leaves the promises alone. *)
Lemma Accounted_frame N0 w w' :
  promises w' = promises w → external w' = external w →
  collected w' = collected w →
  (∀ job, job ∈ jobs w' → job ∈ jobs w) →
  (∀ x, x ∈ invocations w → x ∈ invocations w') →
  Accounted N0 w → Accounted N0 w'.
Proof.
  intros Hp He Hc Hj Hi [A1 A2 A3 A4]. split.
  - intros pw key rd c Hpw Hst. rewrite Hp in Hst.
    destruct (A1 _ _ _ _ Hpw Hst) as [HO|(e & -> & Hr)].
    + left. by eapply Outcome_mono.
    + right. exists e. split; [done|]. unfold rejected. by rewrite Hp.
  - intros pw key rd c Hjob Hpw. eapply Outcome_mono; [exact Hi|].
    eapply A2; [|done]. by apply Hj.
  - intros u rs pw Hu Hin. rewrite Hp in Hu.
    destruct (A3 _ _ _ Hu Hin) as (c & Hc' & HP). exists c.
    rewrite He. split; [done|]. intros key rd Hpw.
    eapply PromisedBy_mono; [exact Hi|]. by eapply HP.
  - intros a vs Ha. rewrite Hc in Ha. rewrite Hp. by apply A4.
Qed.

Lemma Accounted_settle N0 t c w :
  Accounted N0 w →
  (∀ key rd rs, N0 !! t = Some (ProvidedOf key rd) →
     promises w !! t = Some (Pending rs) →
     Outcome (invocations w) key c ∨ ∃ e, c = Throw e ∧ rejected w rd e) →
  (∀ rs pw key rd, promises w !! t = Some (Pending rs) →
     ResumeReturn pw ∈ rs → N0 !! pw = Some (ProvidedOf key rd) →
     Outcome (invocations w) key c) →
  Accounted N0 (settle t c w).
Proof.
  intros A H1 H2. destruct (promises w !! t) as [st|] eqn:Ht.
  2:{ by rewrite settle_none. }
  destruct (state_cases st) as [[rs ->]|[c' ->]].
  2:{ by erewrite settle_settled. }
  destruct A as [A1 A2 A3 A4].
  pose proof (Future_settle nothing t c w) as F.
  split.
  - intros pw key rd c0 Hpw Hst. rewrite invocations_settle.
    assert (Outcome (invocations w) key c0
            ∨ ∃ e, c0 = Throw e ∧ rejected w rd e) as [?|(e & -> & Hr)].
    { destruct (decide (pw = t)) as [->|Hne].
      - rewrite (settle_state _ _ _ _ Ht) in Hst.
        injection Hst as Hst. apply settledState_inj in Hst as <-.
        by eapply H1.
      - rewrite settle_other in Hst by done. by eapply A1. }
    + by left.
    + right. exists e. split; [done|].
      by apply (settled_settle _ _ _ _ (Throw e)).
  - intros pw key rd c0 Hjob Hpw. rewrite invocations_settle.
    apply settle_jobs in Hjob as [Hjob|(rs' & r & Hrs & Hr & [= <- <-])].
    + by eapply A2.
    + eapply H2; [done| |done]. congruence.
  - intros u rs' pw Hu Hin. rewrite invocations_settle, external_settle.
    apply settle_reactions in Hu. by eapply A3.
  - intros a vs Ha. rewrite collected_settle in Ha.
    destruct (A4 _ _ Ha) as [?|[c0 Hc0]]; [by left|right].
    exists c0. by apply settled_settle.
Qed.

(** The roles that [settle] is not concerned with. *)
Definition plainRole (role : Role) : Prop :=
  match role with
  | ProvidedOf _ _ | UserOf _ => False
  | _ => True
  end.

Lemma Accounted_settle_plain B top N0 N t role c w :
  Inv nodes input B top N w → Ext N0 N →
  N !! t = Some role → plainRole role →
  Accounted N0 w → Accounted N0 (settle t c w).
Proof.
  intros I [_ E] Ht Hplain A. apply Accounted_settle; [done|..].
  - intros key rd rs Hpw _. apply E in Hpw; [|done].
    rewrite Ht in Hpw. injection Hpw as ->. done.
  - intros rs pw key rd Hst Hin _.
    pose proof (inv_feeds _ _ _ _ _ _ I _ _ _ Hst Hin) as HF. simpl in HF.
    rewrite Ht in HF. injection HF as ->. done.
Qed.

Lemma Accounted_subscribe N0 q r w :
  (∀ pw, r ≠ ResumeReturn pw) →
  Accounted N0 w → Accounted N0 (subscribe q r w).
Proof.
  intros Hr [A1 A2 A3 A4].
  pose proof (Future_subscribe nothing q r w) as F.
  split.
  - intros pw key rd c Hpw Hst. rewrite invocations_subscribe.
    apply (settled_back _ _ _ _ _ _ F) in Hst; [|apply not_elem_of_nil].
    destruct (A1 _ _ _ _ Hpw Hst) as [?|(e & -> & Hrej)]; [by left|right].
    exists e. split; [done|]. by apply (settled_subscribe _ _ _ _ (Throw e)).
  - intros pw key rd c Hjob Hpw. rewrite invocations_subscribe.
    apply subscribe_jobs in Hjob as [Hjob|(c' & [= <- <-] & _)].
    + by eapply A2.
    + by destruct (Hr pw).
  - intros u rs pw Hu Hin. rewrite invocations_subscribe, external_subscribe.
    destruct (subscribe_reactions _ _ _ _ _ _ Hu Hin)
      as [(rs0 & Hu0 & Hin0)|[_ <-]].
    + by eapply A3.
    + by destruct (Hr pw).
  - intros a vs Ha. rewrite collected_subscribe in Ha.
    destruct (A4 _ _ Ha) as [?|[c0 Hc0]]; [by left|right].
    exists c0. by apply settled_subscribe.
Qed.

Lemma Accounted_awaitValue N0 v pw w :
  Accounted N0 w → length N0 ≤ length (promises w) →
  (∀ key rd, N0 !! pw = Some (ProvidedOf key rd) →
     Outcome (invocations w) key (Normal (OfValue v))) →
  Accounted N0 (awaitValue v (ResumeReturn pw) w).
Proof.
  intros [A1 A2 A3 A4] Hlen Hout. unfold awaitValue, allocate.
  set (u := length (promises w)).
  set (w3 := withPromises (promises w ++ [Fulfilled (OfValue v)]) w).
  assert (Hu : promises w3 !! u = Some (settledState (Normal (OfValue v)))).
  { unfold w3, u. simpl. by rewrite lookup_app_r, Nat.sub_diag. }
  rewrite (subscribe_settled _ _ _ _ Hu).
  assert (Hold : ∀ p st, promises w3 !! p = Some st →
            promises w !! p = Some st ∨ (p = u ∧ st = Fulfilled (OfValue v))).
  { intros p st Hp. unfold w3 in Hp. simpl in Hp.
    apply lookup_app_Some in Hp as [?|[Hge Hp]]; [by left|right].
    apply list_lookup_singleton_Some in Hp as [Hz <-]. split; [|done].
    unfold u. lia. }
  split.
  - intros pw' key rd c Hpw Hst.
    destruct (Hold _ _ Hst) as [Hst'|[-> _]].
    + destruct (A1 _ _ _ _ Hpw Hst') as [?|(e & -> & Hr)]; [by left|right].
      exists e. split; [done|]. unfold rejected, w3. simpl.
      by apply lookup_app_l_Some.
    + apply lookup_lt_Some in Hpw. unfold u in Hpw. lia.
  - intros pw' key rd c Hjob Hpw. unfold enqueue, withJobs in Hjob.
    simpl in Hjob.
    apply elem_of_app in Hjob as [Hjob|[= -> ->]%list_elem_of_singleton].
    + by eapply A2.
    + by eapply Hout.
  - intros u' rs pw' Hu' Hin.
    destruct (Hold _ _ Hu') as [Hst'|[_ [=]]]. by eapply A3.
  - intros a vs Ha. destruct (A4 _ _ Ha) as [?|[c0 Hc0]]; [by left|right].
    exists c0. unfold enqueue, w3. simpl. by apply lookup_app_l_Some.
Qed.

Lemma Accounted_promised N0 outcome pw w :
  Accounted N0 w → length N0 ≤ length (promises w) →
  (∀ key rd, N0 !! pw = Some (ProvidedOf key rd) →
     PromisedBy (invocations w) key outcome) →
  Accounted N0
    (let '(u, w') := allocate (Pending [ResumeReturn pw]) w in
     withExternal (<[u := outcome]> (external w')) w').
Proof.
  intros [A1 A2 A3 A4] Hlen Hout. unfold allocate.
  set (u := length (promises w)).
  assert (Hold : ∀ p st, (promises w ++ [Pending [ResumeReturn pw]]) !! p
                         = Some st →
            promises w !! p = Some st
            ∨ (p = u ∧ st = Pending [ResumeReturn pw])).
  { intros p st Hp.
    apply lookup_app_Some in Hp as [?|[Hge Hp]]; [by left|right].
    apply list_lookup_singleton_Some in Hp as [Hz <-]. split; [|done].
    unfold u. lia. }
  split; simpl.
  - intros pw' key rd c Hpw Hst.
    destruct (Hold _ _ Hst) as [Hst'|[_ Hst']]; [|by destruct c].
    destruct (A1 _ _ _ _ Hpw Hst') as [?|(e & -> & Hr)]; [by left|right].
    exists e. split; [done|]. unfold rejected. simpl.
    by apply lookup_app_l_Some.
  - intros pw' key rd c Hjob Hpw. by eapply A2.
  - intros u' rs pw' Hu' Hin.
    destruct (Hold _ _ Hu') as [Hst'|[-> [= ->]]].
    + destruct (A3 _ _ _ Hst' Hin) as (c & Hc & HP). exists c.
      split; [|done]. rewrite lookup_insert_ne; [done|].
      apply lookup_lt_Some in Hst'. unfold u. lia.
    + apply list_elem_of_singleton in Hin as [= <-].
      exists outcome. split; [by rewrite lookup_insert_eq|done].
  - intros a vs Ha. destruct (A4 _ _ Ha) as [?|[c0 Hc0]]; [by left|right].
    exists c0. by apply lookup_app_l_Some.
Qed.

Lemma settle_withCollected t c cs w :
  settle t c (withCollected cs w) = withCollected cs (settle t c w).
Proof.
  unfold settle, withCollected. simpl.
  by destruct (promises w !! t) as [[]|].
Qed.

Lemma Accounted_withCollected N0 all values w :
  Accounted N0 w →
  mapM id values = None ∨ (∃ c, promises w !! all = Some (settledState c)) →
  Accounted N0 (withCollected (<[all := values]> (collected w)) w).
Proof.
  intros [A1 A2 A3 A4] Hv. split; try done.
  intros a vs. unfold withCollected. simpl.
  destruct (decide (a = all)) as [->|Hne].
  - rewrite lookup_insert_eq. by intros [= <-].
  - rewrite lookup_insert_ne by done. apply A4.
Qed.

Lemma Accounted_collect B top N0 N w index all elems s :
  Inv nodes input B top N w → Ext N0 N →
  N !! all = Some (AllOf elems) →
  Accounted N0 w →
  Accounted N0 (react input (AllElement index all) (Normal s) w).
Proof.
  intros I E Hall A. cbn [react].
  set (values := <[index := Some (asEntry s)]>
                   (default [] (collected w !! all))).
  destruct (mapM id values) as [entries|] eqn:Hm.
  - rewrite settle_withCollected.
    rewrite <- (collected_settle all (Normal (OfEntries entries)) w).
    apply Accounted_withCollected.
    + by eapply Accounted_settle_plain.
    + right. destruct (Inv_alive _ _ _ _ _ _ _ _ I Hall) as [st Hst].
      destruct (state_cases st) as [[rs ->]|[c' ->]].
      * eexists. by eapply settle_state.
      * exists c'. by erewrite settle_settled.
  - apply Accounted_withCollected; [done|by left].
Qed.

Lemma Accounted_deliver N0 u outcome w :
  external w !! u = Some outcome →
  (∀ key rd, N0 !! u ≠ Some (ProvidedOf key rd)) →
  Accounted N0 w →
  Accounted N0
    (settle u (liftOutcome outcome) (withExternal (delete u (external w)) w)).
Proof.
  intros Hu Hrole [A1 A2 A3 A4].
  set (w1 := withExternal (delete u (external w)) w).
  assert (Hother : ∀ u' rs pw,
            promises w !! u' = Some (Pending rs) → ResumeReturn pw ∈ rs →
            u' ≠ u →
            ∃ c, external w1 !! u' = Some c
              ∧ ∀ key rd, N0 !! pw = Some (ProvidedOf key rd) →
                  PromisedBy (invocations w) key c).
  { intros u' rs pw Hu' Hin Hne. destruct (A3 _ _ _ Hu' Hin) as (c & Hc & HP).
    exists c. split; [|done]. unfold w1. simpl.
    by rewrite lookup_delete_ne. }
  destruct (promises w !! u) as [st|] eqn:Hst.
  2:{ rewrite settle_none by done. split; try done.
      intros u' rs pw Hu' Hin. apply (Hother _ _ _ Hu' Hin).
      intros ->. change (promises w1) with (promises w) in Hu'. congruence. }
  destruct (state_cases st) as [[rs ->]|[c' ->]].
  2:{ erewrite settle_settled by done. split; try done.
      intros u' rs pw Hu' Hin. apply (Hother _ _ _ Hu' Hin).
      intros ->. change (promises w1) with (promises w) in Hu'.
      rewrite Hst in Hu'. by destruct c'. }
  assert (Hst1 : promises w1 !! u = Some (Pending rs)) by done.
  split.
  - intros pw key rd c Hpw Hs. rewrite invocations_settle.
    assert (pw ≠ u) by (intros ->; by destruct (Hrole key rd)).
    rewrite settle_other in Hs by done.
    destruct (A1 _ _ _ _ Hpw Hs) as [?|(e & -> & Hr)]; [by left|right].
    exists e. split; [done|]. by apply (settled_settle _ _ _ _ (Throw e)).
  - intros pw key rd c Hjob Hpw. rewrite invocations_settle.
    apply settle_jobs in Hjob as [Hjob|(rs' & r & Hrs & Hr & [= <- ->])].
    + by eapply A2.
    + assert (rs' = rs) as -> by congruence.
      destruct (A3 _ _ _ Hst Hr) as (c & Hc & HP).
      assert (c = outcome) as -> by congruence.
      apply PromisedBy_Outcome. by eapply HP.
  - intros u' rs' pw Hu' Hin. rewrite invocations_settle, external_settle.
    assert (u' ≠ u).
    { intros ->. rewrite (settle_state _ _ _ _ Hst1) in Hu'.
      by destruct outcome. }
    rewrite settle_other in Hu' by done. by eapply Hother.
  - intros a vs Ha. rewrite collected_settle in Ha.
    destruct (A4 _ _ Ha) as [?|[c0 Hc0]]; [by left|right].
    exists c0. by apply settled_settle.
Qed.

Lemma Accounted_react top N0 N w r c rest :
  Inv nodes input [] top N w → Ext N0 N → Accounted N0 w →
  jobs w = React r c :: rest →
  Accounted N0 (react input r c (withJobs rest w)).
Proof.
  intros I E A Hj.
  assert (Hin : React r c ∈ jobs w) by (rewrite Hj; by left).
  destruct (inv_jobs _ _ _ _ _ _ I _ Hin) as (q & HFe & Hq).
  destruct (Inv_pop _ _ _ _ _ _ _ I Hj) as (I1 & _ & _).
  set (w1 := withJobs rest w) in *.
  assert (A1 : Accounted N0 w1).
  { eapply Accounted_frame; [..|exact A]; try done.
    intros job Hjob. rewrite Hj. by right. }
  assert (Hlen : length N0 ≤ length (promises w1)).
  { change (promises w1) with (promises w).
    rewrite <- (inv_len _ _ _ _ _ _ I). apply E. }
  assert (Hsame : ∀ pw k k' rd rd',
            N0 !! pw = Some (ProvidedOf k rd) →
            N !! pw = Some (ProvidedOf k' rd') → k = k' ∧ rd = rd').
  { intros pw k k' rd rd' H0 HN. apply E in H0; [|done].
    rewrite HN in H0. by injection H0 as <- <-. }
  destruct r as [rc|key fn pw|pw|key derived|key cb|index all|rd|outer];
    simpl in HFe; cbn [react].
  - destruct HFe as [key Hrole]. by eapply Accounted_settle_plain.
  - destruct HFe as [Hrole (stored & Hstored & ->)].
    assert (Hnoret : ∀ rs pw', promises w1 !! pw = Some (Pending rs) →
              ResumeReturn pw' ∈ rs → False).
    { intros rs pw' Hst Hin'.
      pose proof (inv_feeds _ _ _ _ _ _ I1 _ _ _ Hst Hin') as HF.
      simpl in HF. congruence. }
    destruct c as [s|e].
    2:{ apply Accounted_settle; [done|..].
        - intros key' rd' rs Hpw _. right. exists e. split; [done|].
          destruct (Hsame _ _ _ _ _ Hpw Hrole) as [_ ->]. exact Hq.
        - intros rs pw' key' rd' Hst Hin' _. by destruct (Hnoret rs pw'). }
    set (o := asObject s). set (w2 := record key o w1).
    assert (Hin2 : (key, o) ∈ invocations w2).
    { unfold w2, record. simpl. apply elem_of_app. right.
      by apply list_elem_of_singleton. }
    assert (A2 : Accounted N0 w2).
    { eapply Accounted_frame; [..|exact A1]; try done.
      intros x Hx. unfold w2, record. simpl. apply elem_of_app. by left. }
    destruct (userFn stored input o) as [[v|outcome]|e] eqn:Hfn.
    + apply Accounted_awaitValue; [done|done|].
      intros key' rd' Hpw. destruct (Hsame _ _ _ _ _ Hpw Hrole) as [-> _].
      exists v. split; [done|]. exists o, stored. auto.
    + apply (Accounted_promised N0 outcome pw w2); [done|done|].
      intros key' rd' Hpw. destruct (Hsame _ _ _ _ _ Hpw Hrole) as [-> _].
      exists o, stored. auto.
    + apply Accounted_settle; [done|..].
      * intros key' rd' rs Hpw _. left.
        destruct (Hsame _ _ _ _ _ Hpw Hrole) as [-> _].
        exists o, stored. auto.
      * intros rs pw' key' rd' Hst Hin' _. by destruct (Hnoret rs pw').
  - destruct (inv_clause _ _ _ _ _ _ I1 q _ _ (held_settled _ _ c) HFe Hq)
      as [(key & rd & o & Hpw & Ho) _].
    apply Accounted_settle; [done|..].
    + intros key' rd' rs Hpw' _. left.
      by eapply (acc_returning _ _ A).
    + intros rs pw' key' rd' Hst Hin' _.
      pose proof (inv_feeds _ _ _ _ _ _ I1 _ _ _ Hst Hin') as HF.
      simpl in HF. congruence.
  - destruct c; by eapply Accounted_settle_plain.
  - destruct c; by eapply Accounted_settle_plain.
  - destruct HFe as (elems & Hrole & Hidx). destruct c as [s|e].
    + by eapply Accounted_collect.
    + by eapply Accounted_settle_plain.
  - destruct HFe as [keys Hrole]. destruct c; by eapply Accounted_settle_plain.
  - by eapply Accounted_settle_plain.
Qed.

Lemma Accounted_step top N0 N ev w :
  Inv nodes input [] top N w → Ext N0 N → Accounted N0 w →
  Accounted N0 (step input ev w).
Proof.
  intros I E A. destruct ev as [|u]; simpl.
  - destruct (jobs w) as [|[r c|outer src] rest] eqn:Hj; [done| |].
    + by eapply Accounted_react.
    + simpl. apply Accounted_subscribe; [done|].
      eapply Accounted_frame; [..|exact A]; try done.
      intros job Hjob. rewrite Hj. by right.
  - destruct (external w !! u) as [outcome|] eqn:Hu; [|done].
    apply Accounted_deliver; [done| |done].
    intros key rd Hrole. apply E in Hrole; [|done].
    destruct (inv_external _ _ _ _ _ _ I _ _ Hu) as [[pw Hurole] _]. congruence.
Qed.

Lemma Accounted_run top N0 events : ∀ N w,
  Inv nodes input [] top N w → Ext N0 N → Accounted N0 w →
  Accounted N0 (run input events w).
Proof.
  induction events as [|ev events IH]; intros N w I E A; simpl; [done|].
  destruct (step_Inv nodes input top N ev w I) as (N1 & I1 & E1).
  eapply (IH N1); [done|by eapply Ext_trans|]. by eapply Accounted_step.
Qed.
End Accounts.

(** *** The worlds that a call reaches *)

Section Reached.
Variable nodes : gmap string (Resolved P).
Variable input : P.
Variable rank : Key → nat.
Hypothesis Hranked : ranked rank nodes.
Variable results : ResultObject.
Variable top : option Key.
Variables (N0 : list Role) (w0 : World P).
Hypothesis I0 : Inv nodes input [] top N0 w0.
Hypothesis D0 : Dawn results w0.
Variables (N : list Role) (w : World P).
Hypothesis I : Inv nodes input [] top N w.
Hypothesis E : Ext N0 N.
Hypothesis A : Accounted nodes input N0 w.
Hypothesis Hcache : cache w = cache w0.
Hypothesis Hkeep : ∀ q c,
  promises w0 !! q = Some (settledState c) →
  promises w !! q = Some (settledState c).




(** How the resolution of [key] failed with the error [e]: the key is not
    registered, or its function threw [e] or returned a promise rejected
    with [e], or the resolution of a declared dependency failed and [e] is
    its error, wrapped. *)
Inductive Failed (log : list (Key * ResultObject)) : Key → JSError → Prop :=
  | failed_missing key :
      nodes !! key = None → Failed log key (notFound key)
  | failed_thrown key e :
      Thrown nodes input log key e → Failed log key e
  | failed_dependency key stored d e :
      nodes !! key = Some stored → d ∈ dependencies stored →
      Failed log d e → Failed log key (failedToResolve d e).

Lemma slot_catch d src :
  Awaited N d src → cache w !! d = Some src →
  N !! src = Some (SeedOf d)
  ∨ ∃ rc, N0 !! src = Some (CatchOf d rc) ∧ Computed N0 d rc.
Proof using I0 E Hcache.
  intros HA Hd. rewrite Hcache in Hd.
  destruct HA as [Hseed|[rc Hcatch]]; [by left|right].
  destruct (inv_cache _ _ _ _ _ _ I0 _ _ Hd)
    as [H0|[[src0 H0]|[rd [H0 _]]]];
    pose proof (proj2 E _ _ H0 ltac:(done)) as HN; rewrite Hcatch in HN;
    try done.
  injection HN as <-. exists rc. split; [done|].
  apply (inv_static _ _ _ _ _ _ I0 _ _ H0).
Qed.

(** The failed declared dependency behind a rejection of the promise of
    [resolveDependencies]. *)
Lemma dependencies_failed rd keys all e :
  N !! rd = Some (DependenciesOf keys all) → rejected w rd e →
  ∃ k qk rc cause,
    k ∈ keys ∧ cache w !! k = Some qk ∧ rejected w qk e
    ∧ N0 !! qk = Some (CatchOf k rc) ∧ Computed N0 k rc
    ∧ rejected w rc cause ∧ e = failedToResolve k cause.
Proof using I0 I E Hcache.
  intros Hrd Hrej.
  pose proof (inv_clause _ _ _ _ _ _ I rd _ _ (held_nil _ _) Hrd Hrej)
    as Hall. simpl in Hall.
  destruct (inv_static _ _ _ _ _ _ I _ _ Hrd) as (elems & Hallrole & Hkeys).
  destruct (inv_clause _ _ _ _ _ _ I all _ _ (held_nil _ _) Hallrole Hall)
    as (q & Hq & Hqrej).
  apply list_elem_of_lookup in Hq as [i Hi].
  destruct (Forall2_lookup_r _ _ _ _ _ Hkeys Hi) as (k & Hk & src & Hqrole).
  pose proof (inv_clause _ _ _ _ _ _ I q _ _ (held_nil _ _) Hqrole Hqrej)
    as Hsrc. simpl in Hsrc.
  destruct (Inv_entry nodes input _ _ _ _ _ _ _ I Hqrole)
    as [[Hslot HA]|[Hin _]].
  2:{ by destruct (inv_clause _ _ _ _ _ _ I src _ _ (held_nil _ _) Hin Hsrc)
        as (v & _ & [=]). }
  destruct (slot_catch _ _ HA Hslot) as [Hseed|(rc & Hcatch & Hcomp)].
  { by destruct (inv_clause _ _ _ _ _ _ I src _ _ (held_nil _ _) Hseed Hsrc). }
  pose proof (proj2 E _ _ Hcatch ltac:(done)) as HcatchN.
  destruct (inv_clause _ _ _ _ _ _ I src _ _ (held_nil _ _) HcatchN Hsrc)
    as (cause & Hcause & ->).
  exists k, src, rc, cause. split; [by eapply list_elem_of_lookup_2|].
  done.
Qed.

Lemma computed_failed : ∀ n key rc e,
  rank key < n → Computed N0 key rc → rejected w rc e →
  Failed (invocations w) key e.
Proof using Hranked I0 I E A Hcache.
  induction n as [|n IH]; intros key rc e Hn Hcomp Hrej; [lia|].
  destruct Hcomp as [Hm|(pw & rd & Hrc & Hpw)].
  - pose proof (inv_static _ _ _ _ _ _ I0 _ _ Hm) as Hnone. simpl in Hnone.
    apply E in Hm; [|done].
    pose proof (inv_clause _ _ _ _ _ _ I rc _ _ (held_nil _ _) Hm Hrej) as HC.
    simpl in HC. injection HC as ->. by apply failed_missing.
  - pose proof (proj2 E _ _ Hrc ltac:(done)) as HrcN.
    pose proof (proj2 E _ _ Hpw ltac:(done)) as HpwN.
    pose proof (inv_clause _ _ _ _ _ _ I rc _ _ (held_nil _ _) HrcN Hrej)
      as Hpwrej. simpl in Hpwrej.
    destruct (acc_returned _ _ _ _ A pw key rd (Throw e) Hpw Hpwrej)
      as [HT|(e' & [= <-] & Hrdrej)]; [by apply failed_thrown|].
    destruct (inv_static _ _ _ _ _ _ I _ _ HpwN) as (stored & all & Hs & Hrd).
    destruct (dependencies_failed _ _ _ _ Hrd Hrdrej)
      as (k & qk & rck & cause & Hk & _ & _ & _ & Hcompk & Hcause & ->).
    eapply failed_dependency; [done..|].
    eapply (IH k rck); [|done..].
    assert (rank k < rank key); [|lia].
    apply Hranked. by exists stored.
Qed.
End Reached.

(** *** When nothing is left to do *)

(** In a world with an empty queue where the environment owes no promise of
    a user function, every promise of the network is settled. *)
Section Finished.
Variable nodes : gmap string (Resolved P).
Variable input : P.
Variable rank : Key → nat.
Hypothesis Hranked : ranked rank nodes.
Variable top : option Key.
Variables (N0 N : list Role) (w : World P).
Hypothesis I : Inv nodes input [] top N w.
Hypothesis A : Accounted nodes input N0 w.
Hypothesis Hidle : jobs w = [].
Hypothesis Hdone : external w = ∅.








End Finished.

(** *** A call and what follows *)

Section Calls.
Variable nodes : gmap string (Resolved P).
Variable input : P.
Variable rank : Key → nat.
Hypothesis Hranked : ranked rank nodes.


(** The promise that [getMany] returns takes the state of the promise of
    [resolveDependencies] for the requested keys. *)
Lemma getMany_shape fuel keys results g w :
  getMany nodes fuel keys input results = Some (g, w) →
  ∃ N rd all, Quiet nodes input None N w
    ∧ N !! g = Some (TopOf rd)
    ∧ N !! rd = Some (DependenciesOf keys all).
Proof using Hranked.
  unfold getMany, resolveDependencies.
  destruct (newPromise (initial results)) as [g0 w1] eqn:Hn.
  destruct (Quiet_start nodes input _ _ _ Hn) as (Q1 & Hg & Hc1 & Hp1).
  subst g0.
  destruct (seeds_Inv nodes input (map_to_list results) [Fresh] w1 Q1)
    as (N2 & Q2 & G2 & Hno2).
  { intros [|q] role [=]. by left. }
  fold (resultsToPromises results w1) in Q2.
  destruct (resolveDependenciesWith (resolveComputation nodes fuel) keys input
              (resultsToPromises results w1)) as [[rd w3]|] eqn:Hrd; [|done].
  intros [= <- <-].
  destruct (resolveDependenciesWith_Inv nodes input _ _ _ _ _ _
              (resolveComputation_Inv nodes input rank Hranked fuel) Hrd Q2)
    as (N3 & all & Q3 & G3 & Hrole).
  assert (Hg3 : N3 !! 0 = Some Fresh).
  { eapply Grow_lookup; [exact G3|]. by eapply Grow_lookup. }
  assert (Hne : rd ≠ 0) by (intros ->; congruence).
  exists (<[0 := TopOf rd]> N3), rd, all. split; [|split].
  - by eapply Quiet_thenable.
  - apply list_lookup_insert_eq. by eapply lookup_lt_Some.
  - by rewrite list_lookup_insert_ne.
Qed.


(** What holds in every world that the event loop reaches from the start
    of a call. *)
Lemma reached results top N0 w0 events :
  Quiet nodes input top N0 w0 → Dawn results w0 →
  ∃ N, Inv nodes input [] top N (run input events w0)
    ∧ Ext N0 N
    ∧ Accounted nodes input N0 (run input events w0)
    ∧ cache (run input events w0) = cache w0.
Proof.
  intros [I0 _] D0.
  destruct (run_Inv nodes input top events N0 w0 I0) as (N & I & E).
  exists N. split; [done|]. split; [done|]. split; [|apply cache_run].
  eapply Accounted_run; [exact I0|apply Ext_refl|].
  by eapply Accounted_start.
Qed.
End Calls.

(** *** No call for a supplied key or a key that is not needed *)

Lemma get_spares nodes fuel key (input : P) results g w0 j :
  get nodes fuel key input results = Some (g, w0) →
  is_Some (results !! j) ∨ ¬ needs nodes key j →
  total j w0 = 0.
Proof.
  unfold get. destruct (newPromise (initial results)) as [g0 w1] eqn:Hn.
  apply Neutral_newPromise in Hn as [Hc1 Ht1].
  assert (H1 : total j w1 = 0).
  { specialize (Ht1 j). change (total j (initial results)) with 0 in Ht1. lia. }
  destruct (defined (prop results key)).
  { intros [= <- <-] _.
    destruct (Neutral_settle g0 (Normal (OfValue (prop results key))) w1)
      as [_ Ht]. specialize (Ht j). lia. }
  destruct (resolveComputation nodes fuel key input
              (resultsToPromises results w1)) as [[rc w2]|] eqn:Hrc; [|done].
  intros [= <- <-] Hj.
  destruct (resultsToPromises_spec results w1)
    as (_ & _ & Hin & _ & _ & _ & _ & _ & Ht).
  apply resolveComputation_Sparing in Hrc as [_ Hsp].
  assert (total j w2 ≤ total j (resultsToPromises results w1)) as H2.
  { apply Hsp. destruct Hj as [[v Hv]|?]; [left|by right].
    destruct (Hin j v Hv) as (q & -> & _). done. }
  rewrite Ht in H2.
  pose proof (proj2 (Neutral_enqueue (ResolveThenable g0 rc) w2
                       (λ _, eq_refl)) j). lia.
Qed.

(** A [get] for a key that the object of the caller has, or inherits,
    starts no call at all. *)
Lemma get_hit_spares nodes fuel key (input : P) results g w0 j :
  get nodes fuel key input results = Some (g, w0) →
  is_Some (results !! key) ∨ defined (prop results key) = true →
  total j w0 = 0.
Proof.
  unfold get. destruct (newPromise (initial results)) as [g0 w1] eqn:Hn.
  apply Neutral_newPromise in Hn as [Hc1 Ht1].
  assert (H1 : total j w1 = 0).
  { specialize (Ht1 j). change (total j (initial results)) with 0 in Ht1. lia. }
  destruct (defined (prop results key)).
  { intros [= <- <-] _.
    destruct (Neutral_settle g0 (Normal (OfValue (prop results key))) w1)
      as [_ Ht]. specialize (Ht j). lia. }
  intros Hget [[v Hv]|?]; [|done].
  destruct (resultsToPromises_spec results w1)
    as (_ & _ & Hin & _ & _ & _ & _ & _ & Ht).
  destruct (Hin key v Hv) as (q & Hq & _).
  destruct fuel as [|fuel]; [done|]. cbn [resolveComputation] in Hget.
  destruct (newPromise (resultsToPromises results w1)) as [rc w2] eqn:Hn2.
  apply Neutral_newPromise in Hn2 as [Hc2 Ht2].
  rewrite Hc2, Hq in Hget. injection Hget as <- <-.
  pose proof (proj2 (Neutral_enqueue (ResolveThenable g0 rc)
                       (subscribe q (ResumeComputation rc) w2)
                       (λ _, eq_refl)) j) as H3.
  pose proof (proj2 (Neutral_subscribe q (ResumeComputation rc) w2
                       (λ _, eq_refl)) j) as H4.
  specialize (Ht2 j). rewrite Ht in Ht2. lia.
Qed.

Lemma getMany_spares nodes fuel keys (input : P) results g w0 j :
  getMany nodes fuel keys input results = Some (g, w0) →
  is_Some (results !! j) ∨ (∀ k, k ∈ keys → ¬ needs nodes k j) →
  total j w0 = 0.
Proof.
  unfold getMany, resolveDependencies.
  destruct (newPromise (initial results)) as [g0 w1] eqn:Hn.
  apply Neutral_newPromise in Hn as [Hc1 Ht1].
  assert (H1 : total j w1 = 0).
  { specialize (Ht1 j). change (total j (initial results)) with 0 in Ht1. lia. }
  destruct (resolveDependenciesWith (resolveComputation nodes fuel) keys input
              (resultsToPromises results w1)) as [[rd w2]|] eqn:Hrd; [|done].
  intros [= <- <-] Hj.
  destruct (resultsToPromises_spec results w1)
    as (_ & _ & Hin & _ & _ & _ & _ & _ & Ht).
  apply (resolveDependenciesWith_Sparing nodes) in Hrd as [_ Hsp];
    [|apply resolveComputation_Sparing].
  assert (total j w2 ≤ total j (resultsToPromises results w1)) as H2.
  { apply Hsp. destruct Hj as [[v Hv]|Hno]; [left|right].
    - destruct (Hin j v Hv) as (q & -> & _). done.
    - intros (k & Hk & Hkj). by apply (Hno k). }
  rewrite Ht in H2.
  pose proof (proj2 (Neutral_enqueue (ResolveThenable g0 rd) w2
                       (λ _, eq_refl)) j). lia.
Qed.

Lemma async_timesCalled_pos key o (l : list (Key * ResultObject)) :
  (key, o) ∈ l → 0 < timesCalled key l.
Proof.
  intros Hin. unfold timesCalled.
  assert ((key, o) ∈ filter (λ c : Key * ResultObject, c.1 = key) l) as Hf
    by by apply list_elem_of_filter.
  destruct (filter _ l); [by apply elem_of_nil in Hf|simpl; lia].
Qed.

Lemma never_called (input : P) w0 j events :
  total j w0 = 0 → timesCalled j (invocations (run input events w0)) = 0.
Proof.
  intros Hz. pose proof (total_run input events w0 j) as Hle.
  unfold total in *. lia.
Qed.

(** *** From the failure of a function to the promise of its closure *)

Section Spending.
Variable nodes : gmap string (Resolved P).
Variable input : P.

Lemma notFound_not_wrapped k k' e : notFound k ≠ failedToResolve k' e.
Proof. unfold notFound, failedToResolve. intros [=]. Qed.

Lemma rejected_allocate state w p w' q e :
  allocate state w = (p, w') → (∀ e', state ≠ Rejected e') →
  rejected w' q e → rejected w q e.
Proof.
  intros [= <- <-] Hst. unfold rejected. simpl.
  intros [?|[_ H]]%lookup_app_Some; [done|].
  apply list_lookup_singleton_Some in H as [_ H]. by destruct (Hst e).
Qed.

(** A job rejects no promise but the one it resumes. *)
Lemma react_rejected_back r c w q e :
  rejected (react input r c w) q e → rejected w q e ∨ q = target r.
Proof.
  assert (Hsettle : ∀ t c' w', rejected (settle t c' w') q e →
            rejected w' q e ∨ q = t).
  { intros t c' w' [?|(-> & _)]%settle_rejected_back; eauto. }
  destruct r; cbn [react target]; try (by apply Hsettle);
    try (destruct c; by apply Hsettle).
  - destruct c as [s|e']; [|by apply Hsettle].
    destruct (fn input (asObject s)) as [[v|outcome]|e'].
    + unfold awaitValue.
      destruct (allocate (Fulfilled (OfValue v)) (record key (asObject s) w))
        as [u w3] eqn:Ha.
      intros Hr. left.
      apply (rejected_back nothing [] _ _ _ _ (Future_subscribe _ _ _ _)) in Hr;
        [|apply not_elem_of_nil].
      by apply (rejected_allocate _ _ _ _ _ _ Ha) in Hr.
    + destruct (allocate (Pending [ResumeReturn pw])
                  (record key (asObject s) w)) as [u w3] eqn:Ha.
      intros Hr. left.
      by apply (rejected_allocate _ _ _ _ q e Ha).
    + intros [?|?]%Hsettle; eauto.
  - destruct c as [s|e']; [|by apply Hsettle].
    destruct (mapM id _); [|by left].
    intros [?|?]%Hsettle; eauto.
Qed.

Lemma step_rejected_back ev w q e :
  rejected (step input ev w) q e →
  rejected w q e
  ∨ (∃ r c rest, ev = Microtask ∧ jobs w = React r c :: rest ∧ target r = q)
  ∨ (ev = Deliver q ∧ is_Some (external w !! q)).
Proof.
  destruct ev as [|u]; simpl.
  - destruct (jobs w) as [|[r c|outer src] rest] eqn:Hj; [by left| |]; simpl.
    + intros [?| ->]%react_rejected_back; [by left|].
      right. left. by exists r, c, rest.
    + intros Hr. left.
      by apply (rejected_back nothing [] _ _ _ _ (Future_subscribe _ _ _ _))
        in Hr; [|apply not_elem_of_nil].
  - destruct (external w !! u) as [outcome|] eqn:Hu; [|by left].
    intros [?|(-> & _)]%settle_rejected_back; [by left|].
    right. right. split; [done|]. by rewrite Hu.
Qed.

(** A closure that gives up because a dependency failed uses up the call
    of its key. *)
Lemma total_gives_up key fn pw e rest w :
  jobs w = React (ResumeProvided key fn pw) (Throw e) :: rest →
  total key (step input Microtask w) + 1 ≤ total key w.
Proof.
  intros Hj. simpl. rewrite Hj. cbn [runJob react].
  pose proof (measure_pop (startsCall key) 0 _ _ _ Hj) as Hpop.
  unfold total, pendingCalls in *.
  rewrite invocations_settle, measure_settle.
  simpl in Hpop. rewrite decide_True in Hpop by done.
  change (invocations (withJobs rest w)) with (invocations w). lia.
Qed.

Lemma waiting_counts key fn pw q rs w :
  promises w !! q = Some (Pending rs) → ResumeProvided key fn pw ∈ rs →
  1 ≤ pendingCalls key w.
Proof.
  intros Hq Hin. unfold pendingCalls, measure.
  pose proof (sum_list_with_in _ (stateWeight (startsCall key)) (promises w)
                (list_elem_of_lookup_2 _ _ _ Hq)) as H1.
  pose proof (sum_list_with_in _ (startsCall key) rs Hin) as H2.
  simpl in H1, H2. rewrite decide_True in H2 by done. lia.
Qed.

Lemma timesCalled_unique key o o' (l : list (Key * ResultObject)) :
  timesCalled key l ≤ 1 → (key, o) ∈ l → (key, o') ∈ l → o = o'.
Proof.
  induction l as [|[k a] l IH]; [by intros _ ?%elem_of_nil|].
  change ((k, a) :: l) with ([(k, a)] ++ l).
  rewrite async_timesCalled_app. intros Hle H1 H2.
  destruct (decide (k = key)) as [->|Hne].
  - assert (Hz : timesCalled key l = 0).
    { assert (timesCalled key [(key, a)] = 1); [|lia].
      unfold timesCalled. rewrite filter_cons. simpl.
      by rewrite decide_True. }
    assert (Hno : ∀ x, (key, x) ∈ l → False).
    { intros x Hx%async_timesCalled_pos. lia. }
    apply elem_of_app in H1 as [[= ->]%list_elem_of_singleton|?];
      [|by destruct (Hno o)].
    apply elem_of_app in H2 as [[= ->]%list_elem_of_singleton|?];
      [done|by destruct (Hno o')].
  - apply elem_of_app in H1 as [[= ? _]%list_elem_of_singleton|H1]; [done|].
    apply elem_of_app in H2 as [[= ? _]%list_elem_of_singleton|H2]; [done|].
    apply IH; [lia|done..].
Qed.

(** When the closure of [provideDependencies] of [key] was rejected
    because its dependencies were, the function of [key] was not called and
    will not be.  [N0] gives the roles at the start of the event loop. *)
Definition Spent (N0 : list Role) (w : World P) : Prop :=
  ∀ pw key rd e e', N0 !! pw = Some (ProvidedOf key rd) →
    rejected w pw e → rejected w rd e' → total key w = 0.

Lemma Spent_start results top N w :
  Inv nodes input [] top N w → Dawn results w → Spent N w.
Proof.
  intros I D pw key rd e e' Hpw _ Hrd. exfalso.
  destruct (dawn_rejected _ _ D _ _ Hrd) as [k ->].
  destruct (inv_static _ _ _ _ _ _ I _ _ Hpw) as (stored & all & _ & Hrdrole).
  destruct (dependencies_failed nodes input top N w I N w I (Ext_refl _)
              eq_refl _ _ _ _ Hrdrole Hrd)
    as (k' & _ & _ & cause & _ & _ & _ & _ & _ & _ & Heq).
  by apply notFound_not_wrapped in Heq.
Qed.

Lemma Spent_step top N0 N ev w :
  Inv nodes input [] top N w → Ext N0 N → (∀ k, total k w ≤ 1) →
  Spent N0 w → Spent N0 (step input ev w).
Proof.
  intros I E Hcount S pw key rd e e' Hpw Hrej Hrd.
  pose proof (total_step input ev w key) as Hle.
  assert (HpwN : N !! pw = Some (ProvidedOf key rd)) by by apply E.
  destruct (Inv_alive _ _ _ _ _ _ pw _ I HpwN) as [st Hst].
  pose proof (inv_clause _ _ _ _ _ _ I pw _ st (held_nil _ _) HpwN Hst) as HC.
  assert (Hnf : ∀ o, ¬ fulfilled w rd o).
  { intros o Ho. apply (step_settled input ev _ _ (Normal o)) in Ho.
    unfold rejected in Hrd. simpl in Ho. congruence. }
  destruct st as [rs|s|err]; simpl in HC.
  - destruct HC as [[fn Hw]|[[o Ho] _]]; [|by destruct (Hnf o)].
    destruct (step_rejected_back _ _ _ _ Hrej)
      as [Hold|[(r & c & rest & -> & Hj & Ht)|(-> & outcome & Hu)]].
    + unfold rejected in Hold. congruence.
    + assert (Hin : React r c ∈ jobs w) by (rewrite Hj; by left).
      destruct (inv_jobs _ _ _ _ _ _ I _ Hin) as (q & HFe & Hq).
      destruct r; simpl in Ht, HFe; subst; try (destruct HFe; congruence);
        try congruence.
      * destruct HFe as [Hrole _]. rewrite HpwN in Hrole.
        injection Hrole as <- <-.
        destruct c as [s|e0]; [by destruct (Hnf s)|].
        pose proof (total_gives_up _ _ _ _ _ _ Hj). specialize (Hcount key).
        lia.
      * destruct (inv_clause _ _ _ _ _ _ I q _ _ (held_settled _ _ c) HFe Hq)
          as [(key' & rd' & o & Hpw' & Ho) _].
        rewrite HpwN in Hpw'. injection Hpw' as <- <-. by destruct (Hnf o).
      * destruct HFe as (elems & ? & _). congruence.
    + destruct (inv_external _ _ _ _ _ _ I _ _ Hu) as [[pw' Hurole] _].
      congruence.
  - destruct HC as [_ [o Ho]]. by destruct (Hnf o).
  - destruct HC as [Hr|[o Ho]]; [|by destruct (Hnf o)].
    rewrite (S pw key rd err err Hpw Hst Hr) in Hle. lia.
Qed.

Lemma Spent_run top N0 events : ∀ N w,
  Inv nodes input [] top N w → Ext N0 N → (∀ k, total k w ≤ 1) →
  Spent N0 w → Spent N0 (run input events w).
Proof.
  induction events as [|ev events IH]; intros N w I E Hcount S; simpl; [done|].
  destruct (step_Inv nodes input top N ev w I) as (N1 & I1 & E1).
  eapply (IH N1); [done|by eapply Ext_trans| |by eapply Spent_step].
  intros k. etrans; [apply total_step|apply Hcount].
Qed.

(** In a world with an empty queue, the closure of a function that was
    called and threw, or returned a promise that has been rejected, is
    rejected with that error. *)
Lemma called_rejects top N0 N w pw key rd stored o e0 :
  Inv nodes input [] top N w → Ext N0 N → Accounted nodes input N0 w →
  Spent N0 w → (∀ k, total k w ≤ 1) → jobs w = [] →
  N0 !! pw = Some (ProvidedOf key rd) →
  nodes !! key = Some stored → (key, o) ∈ invocations w →
  userFn stored input o = Throw e0
  ∨ (userFn stored input o = Normal (Promised (Throw e0))
     ∧ ∀ u, external w !! u ≠ Some (Throw e0)) →
  rejected w pw e0.
Proof.
  intros I E A S Hcount Hidle Hpw Hs Hin Hfn.
  pose proof (async_timesCalled_pos _ _ _ Hin) as Hpos.
  assert (Hone : timesCalled key (invocations w) ≤ 1).
  { specialize (Hcount key). unfold total in Hcount. lia. }
  assert (Hsame : ∀ o' stored', (key, o') ∈ invocations w →
            nodes !! key = Some stored' →
            userFn stored' input o' = userFn stored input o).
  { intros o' stored' Hin' Hs'.
    rewrite (timesCalled_unique _ _ _ _ Hone Hin' Hin). congruence. }
  assert (Hout : ∀ c, Outcome nodes input (invocations w) key c →
            c = Throw e0).
  { intros [s|e]; simpl.
    - intros (v & -> & o' & stored' & Hin' & Hs' & Hfn').
      rewrite (Hsame _ _ Hin' Hs') in Hfn'.
      destruct Hfn as [Hfn|[Hfn _]], Hfn'; congruence.
    - intros (o' & stored' & Hin' & Hs' & Hfn').
      rewrite (Hsame _ _ Hin' Hs') in Hfn'.
      destruct Hfn as [Hfn|[Hfn _]], Hfn'; congruence. }
  assert (HpwN : N !! pw = Some (ProvidedOf key rd)) by by apply E.
  destruct (Inv_alive _ _ _ _ _ _ pw _ I HpwN) as [st Hst].
  pose proof (inv_clause _ _ _ _ _ _ I pw _ st (held_nil _ _) HpwN Hst) as HC.
  destruct st as [rs|s|err]; simpl in HC.
  - exfalso. destruct HC as [[fn Hw]|[_ (u & Hu & Hw)]].
    + destruct Hw as [(rs' & Hrd & Hr)|(c & _ & Hjob)].
      * pose proof (waiting_counts _ _ _ _ _ _ Hrd Hr) as Hp.
        specialize (Hcount key). unfold total in Hcount. lia.
      * rewrite Hidle in Hjob. by apply elem_of_nil in Hjob.
    + destruct Hw as [(rs' & Hust & Hr)|(c & _ & Hjob)].
      * destruct (acc_awaiting _ _ _ _ A _ _ _ Hust Hr) as (c & Hc & HP).
        destruct (HP _ _ Hpw) as (o' & stored' & Hin' & Hs' & Hfn').
        rewrite (Hsame _ _ Hin' Hs') in Hfn'.
        destruct Hfn as [Hfn|[Hfn Hext]]; [congruence|].
        apply (Hext u). congruence.
      * rewrite Hidle in Hjob. by apply elem_of_nil in Hjob.
  - exfalso.
    destruct (acc_returned _ _ _ _ A pw key rd (Normal s) Hpw Hst)
      as [HO|(e & [=] & _)].
    by apply Hout in HO.
  - destruct (acc_returned _ _ _ _ A pw key rd (Throw err) Hpw Hst)
      as [HO|(e & [= ->] & Hrd)].
    + apply Hout in HO. unfold rejected. congruence.
    + pose proof (S pw key rd e e Hpw Hst Hrd) as Hz.
      unfold total in Hz. lia.
Qed.
End Spending.

(** *** The promise that a call returned *)

Section Returned.
Variable nodes : gmap string (Resolved P).
Variable input : P.
Hypothesis Hconstructed : constructed nodes.






Lemma get_failure fuel key results g w0 events e :
  results !! key = None →
  get nodes fuel key input results = Some (g, w0) →
  rejected (run input events w0) g e →
  Failed nodes input (invocations (run input events w0)) key e.
Proof using Hconstructed.
  intros Hr Hget Hf.
  destruct (async_constructed_ranked _ Hconstructed) as [rank Hranked].
  destruct (get_Inv nodes input rank Hranked _ _ _ _ _ Hget)
    as (top & N0 & Q & _ & Hshape & Hcached).
  destruct (defined (prop results key)) eqn:Hdef.
  { destruct (Hcached eq_refl) as [_ Hg].
    pose proof (run_settled input events w0 g (Normal _) Hg) as Hg'.
    unfold rejected in Hf. simpl in Hg'. congruence. }
  destruct (Hshape eq_refl) as (rc & Hg & Hcomp & _).
  specialize (Hcomp Hr).
  assert (D0 : Dawn results w0).
  { eapply started_Dawn. left. eauto. }
  destruct (reached nodes input results top N0 w0 events Q D0)
    as (N & I & E & A & Hcache).
  apply E in Hg; [|done].
  pose proof (inv_clause _ _ _ _ _ _ I g _ _ (held_nil _ _) Hg Hf) as Hrc.
  simpl in Hrc.
  eapply (computed_failed nodes input rank Hranked top N0 w0 (proj1 Q) N _
            I E A Hcache (S (rank key)) key rc); [lia|done|done].
Qed.


Lemma getMany_failure fuel keys results g w0 events e :
  getMany nodes fuel keys input results = Some (g, w0) →
  rejected (run input events w0) g e →
  ∃ k cause, k ∈ keys ∧ e = failedToResolve k cause
    ∧ Failed nodes input (invocations (run input events w0)) k cause.
Proof using Hconstructed.
  intros Hget Hf.
  destruct (async_constructed_ranked _ Hconstructed) as [rank Hranked].
  destruct (getMany_shape nodes input rank Hranked _ _ _ _ _ Hget)
    as (N0 & rd & all & Q & Hg & Hrd).
  assert (D0 : Dawn results w0).
  { eapply started_Dawn. right. eauto. }
  destruct (reached nodes input results None N0 w0 events Q D0)
    as (N & I & E & A & Hcache).
  apply E in Hg; [|done]. apply E in Hrd; [|done].
  pose proof (inv_clause _ _ _ _ _ _ I g _ _ (held_nil _ _) Hg Hf) as Hrdf.
  simpl in Hrdf.
  destruct (dependencies_failed nodes input None N0 w0 (proj1 Q) N _ I E
              Hcache _ _ _ _ Hrd Hrdf)
    as (k & qk & rc & cause & Hk & _ & _ & _ & Hcomp & Hcause & ->).
  exists k, cause. split; [done|]. split; [done|].
  eapply (computed_failed nodes input rank Hranked None N0 w0 (proj1 Q) N _
            I E A Hcache (S (rank k)) k rc); [lia|done|done].
Qed.

Lemma invocations_run_mono events : ∀ (w : World P) x,
  x ∈ invocations w → x ∈ invocations (run input events w).
Proof.
  induction events as [|ev events IH]; intros w x Hx; simpl; [done|].
  apply IH. destruct ev as [|u]; simpl.
  - destruct (jobs w) as [|[r c|outer src] rest]; [done| |]; simpl.
    + rewrite invocations_react. apply elem_of_app. by left.
    + by rewrite invocations_subscribe.
  - destruct (external w !! u); [|done]. by rewrite invocations_settle.
Qed.



(** The failure of a function reaches the promises that wait for its
    node.  Let the function of [d] have been called in the course of a call
    [get(c)].  Once the queue is empty: if the function threw [e0], or
    returned a promise that the environment has rejected with [e0], the
    promise of the call is rejected with [e0] when [d] is [c], and otherwise
    the promise in the slot of [d] is rejected with the error that names [d]
    and wraps [e0]; and for every key [x] whose slot holds a rejected
    promise, every node [m] of the call that declares [x] as a dependency
    is rejected with the error of a failed dependency [k] of [m]: the
    promise of the call when [m] is [c], and otherwise the promise in the
    slot of [m], with the error wrapped once more, for [m]. *)
Lemma failure_surfaces fuel c results g w0 events d stored o :
  get nodes fuel c input results = Some (g, w0) →
  nodes !! d = Some stored →
  (d, o) ∈ invocations (run input events w0) →
  ∃ n,
    jobs (drain input n (run input events w0)) = []
    ∧ (∀ e0,
         userFn stored input o = Throw e0
         ∨ (userFn stored input o = Normal (Promised (Throw e0))
            ∧ ∀ u, external (drain input n (run input events w0)) !! u
                   ≠ Some (Throw e0)) →
         (d = c → rejected (drain input n (run input events w0)) g e0)
         ∧ (d ≠ c →
            ∃ qd, cache (drain input n (run input events w0)) !! d = Some qd
              ∧ rejected (drain input n (run input events w0)) qd
                  (failedToResolve d e0)))
    ∧ ∀ x qx e m sm,
        cache (drain input n (run input events w0)) !! x = Some qx →
        rejected (drain input n (run input events w0)) qx e →
        nodes !! m = Some sm → x ∈ dependencies sm →
        (m = c →
         ∃ k qk cause,
           k ∈ dependencies sm
           ∧ cache (drain input n (run input events w0)) !! k = Some qk
           ∧ rejected (drain input n (run input events w0)) qk
               (failedToResolve k cause)
           ∧ rejected (drain input n (run input events w0)) g
               (failedToResolve k cause)
           ∧ ∃ root,
               Origin nodes input (drain input n (run input events w0)) root
               ∧ retrievable root (failedToResolve k cause))
        ∧ (∀ slot, m ≠ c → results !! m = None →
           cache (drain input n (run input events w0)) !! m = Some slot →
           ∃ k qk cause,
             k ∈ dependencies sm
             ∧ cache (drain input n (run input events w0)) !! k = Some qk
             ∧ rejected (drain input n (run input events w0)) qk
                 (failedToResolve k cause)
             ∧ rejected (drain input n (run input events w0)) slot
                 (failedToResolve m (failedToResolve k cause))
             ∧ ∃ root,
                 Origin nodes input (drain input n (run input events w0))
                   root
                 ∧ retrievable root
                     (failedToResolve m (failedToResolve k cause))).
Proof using Hconstructed.
  intros Hget Hs Hin.
  destruct (async_constructed_ranked _ Hconstructed) as [rank Hranked].
  destruct (get_Inv nodes input rank Hranked _ _ _ _ _ Hget)
    as (top & N0 & Q & Htop & Hshape & _).
  assert (Hstart : started nodes input results g w0) by (left; eauto).
  pose proof (started_Dawn _ _ _ _ _ Hstart) as D0.
  pose proof (started_Counted _ _ _ _ _ Hconstructed Hstart) as Hcounted.
  set (n := workLeft (run input events w0)). exists n.
  assert (Hidle : jobs (drain input n (run input events w0)) = [])
    by by apply drain_quiet.
  split; [done|].
  assert (Hw : drain input n (run input events w0)
               = run input (events ++ replicate n Microtask) w0).
  { unfold drain, run. by rewrite foldl_app. }
  destruct (reached nodes input results top N0 w0
              (events ++ replicate n Microtask) Q D0)
    as (N & I & E & A & Hcache).
  assert (S : Spent N0 (run input (events ++ replicate n Microtask) w0)).
  { eapply Spent_run; [exact (proj1 Q)|apply Ext_refl| |].
    - intros k. apply Hcounted.
    - eapply Spent_start; [exact (proj1 Q)|exact D0]. }
  rewrite <- Hw in I, A, S, Hcache.
  set (w := drain input n (run input events w0)) in *.
  assert (Hcount : ∀ k, total k w ≤ 1).
  { intros k. rewrite Hw. etrans; [apply total_run|].
    apply Hcounted. }
  assert (Hinw : (d, o) ∈ invocations w).
  { unfold w, drain. by apply invocations_run_mono. }
  assert (Hcalled : ∀ j x, (j, x) ∈ invocations w → 0 < total j w0).
  { intros j x Hx%async_timesCalled_pos.
    assert (total j w ≤ total j w0); [|unfold total in *; lia].
    rewrite Hw. apply total_run. }
  assert (Hmiss : results !! c = None ∧ defined (prop results c) = false).
  { pose proof (Hcalled _ _ Hinw) as Hpos.
    destruct (results !! c) as [x|] eqn:Hc.
    { rewrite (get_hit_spares _ _ _ _ _ _ _ d Hget) in Hpos; [lia|].
      left. rewrite Hc. eauto. }
    split; [done|]. destruct (defined (prop results c)) eqn:Hdef; [|done].
    rewrite (get_hit_spares _ _ _ _ _ _ _ d Hget) in Hpos; [lia|by right]. }
  destruct Hmiss as [Hnone Hdef].
  destruct (Hshape Hdef) as (rc & Hg & Hcomp & _). specialize (Hcomp Hnone).
  destruct Q as [I0 _].
  split.
  - intros e0 Hfn.
    assert (Hclosure : ∀ src, Computed N0 d src → rejected w src e0).
    { intros src Hsrc.
      destruct (Computed_registered _ _ _ _ _ _ _ _ _ I0 Hsrc Hs)
        as (pw & rd & Hsrcrole & Hpw).
      eapply (computation_rejected nodes input top N w I Hidle);
        [by apply E|].
      by eapply (called_rejects nodes input top N0 N w pw d rd stored o e0). }
    split.
    + intros ->. eapply (top_rejected nodes input top N w I Hidle);
        [by apply E|]. by apply Hclosure.
    + intros Hne. pose proof (Hcalled _ _ Hinw) as Hpos.
      destruct (cache w0 !! d) as [qd|] eqn:Hqd.
      2:{ rewrite (proj2 (Hcounted d) Hqd) in Hpos. lia. }
      exists qd. split; [by rewrite Hcache|].
      destruct (inv_cache _ _ _ _ _ _ I0 _ _ Hqd)
        as [Hseed|[[src Hcatch]|(rdj & Hprov & ->)]].
      * exfalso. destruct (Inv_alive _ _ _ _ _ _ _ _ I0 Hseed) as [st Hst].
        destruct (inv_clause _ _ _ _ _ _ I0 qd _ st (held_nil _ _) Hseed Hst)
          as [v ->].
        pose proof (dawn_cache _ _ D0 _ _ _ Hqd Hst) as Hr.
        rewrite (get_spares _ _ _ _ _ _ _ d Hget) in Hpos; [lia|].
        left. rewrite Hr. eauto.
      * eapply (catch_rejected nodes input top N w I Hidle); [by apply E|].
        apply Hclosure. apply (inv_static _ _ _ _ _ _ I0 _ _ Hcatch).
      * exfalso. destruct Htop as [?|[= ->]]; done.
  - intros x qx e m sm Hqx Hrej Hm Hxm. split.
    + intros ->.
      destruct (call_rejected nodes input top N w I Hidle g rc c sm x qx e)
        as (k & qk & cause & Hk & Hqk & Hrk & Hrg); try done.
      { by apply E. }
      { by eapply Computed_mono. }
      exists k, qk, cause. do 4 (split; [done|]).
      apply (Blamed_retrievable nodes input). by eapply inv_blame.
    + intros slot Hne Hmnone Hmslot.
      assert (Hrole : ∃ rcm, N0 !! slot = Some (CatchOf m rcm)).
      { rewrite Hcache in Hmslot.
        destruct (inv_cache _ _ _ _ _ _ I0 _ _ Hmslot)
          as [Hseed|[?|(rdm & _ & ->)]]; [exfalso|done|].
        - destruct (Inv_alive _ _ _ _ _ _ _ _ I0 Hseed) as [st Hst].
          destruct (inv_clause _ _ _ _ _ _ I0 slot _ st (held_nil _ _)
                      Hseed Hst) as [v ->].
          pose proof (dawn_cache _ _ D0 _ _ _ Hmslot Hst). congruence.
        - destruct Htop as [?|[= ?]]; done. }
      destruct Hrole as [rcm Hrole].
      destruct (slot_rejected nodes input top N w I Hidle m slot rcm sm x qx e)
        as (k & qk & cause & Hk & Hqk & Hrk & Hrs); try done.
      { by apply E. }
      exists k, qk, cause. do 4 (split; [done|]).
      apply (Blamed_retrievable nodes input). by eapply inv_blame.
Qed.

End Returned.
End More.
End AsyncMore.

(** ** The claim about failures in the asynchronous graph *)

Section NetworkClaims.
Import Async ObjectFacts AsyncFacts AsyncNetwork AsyncMore.
Context {P : Type}.
Implicit Types (w : World P).

(** C7.  In the asynchronous graph, the error that [resolveDependencies]
    throws for a failed dependency [k] has the message
    [Failed to resolve dependencies for key "k": ] followed by the text of
    the error that made [k] fail.  Let a call [get(c, input, results)] be
    made with enough fuel; it returns its promise.  Let the function of a
    node [d] be called in the course of this call, whatever the event loop
    and the environment do.  Then the queue empties, and once it is empty:
    if the function of [d] threw an error [e0], or returned a promise that
    the environment has rejected with [e0], then the promise of the call is
    rejected with [e0] when [d] is the requested [c], and otherwise the
    promise in the cache slot of [d] is rejected with the error that names
    [d] and wraps [e0], whose message ends with the message of [e0]; and for
    every key [x] whose cache slot holds a rejected promise (as that of [d]
    does), every registered node [m] that declares [x] as a dependency is
    rejected with the error of a failed dependency [k] of [m], the error of
    the slot of [k]: the promise of the call is, when [m] is [c], and the
    promise in the slot of [m] is, with that error wrapped once more for
    [m], when [m] is another node that the caller did not supply.  The
    message of the error that a user function threw or rejected with, or of
    the lookup of an unregistered key, is the end of the message of each of
    these errors, and the rejections stay whatever happens later. *)
Theorem async_dependency_failure_surfaces
    (nodes : gmap string (Resolved P)) (input : P) fuel results c :
  constructed nodes → size nodes < fuel →
  (∀ k cause,
     message (failedToResolve k cause)
     = "Failed to resolve dependencies for key " +:+ quoted k +:+ ": "
       +:+ errorToString cause)
  ∧ ∃ g w0, get nodes fuel c input results = Some (g, w0)
    ∧ ∀ events d stored o,
        nodes !! d = Some stored →
        (d, o) ∈ invocations (run input events w0) →
        ∃ n,
          jobs (drain input n (run input events w0)) = []
          ∧ (∀ e0,
               userFn stored input o = Throw e0
               ∨ (userFn stored input o = Normal (Promised (Throw e0))
                  ∧ ∀ u, external (drain input n (run input events w0)) !! u
                         ≠ Some (Throw e0)) →
               (d = c → rejected (drain input n (run input events w0)) g e0)
               ∧ (d ≠ c →
                  ∃ qd,
                    cache (drain input n (run input events w0)) !! d
                    = Some qd
                    ∧ rejected (drain input n (run input events w0)) qd
                        (failedToResolve d e0)
                    ∧ retrievable e0 (failedToResolve d e0)))
          ∧ (∀ x qx e m sm,
               cache (drain input n (run input events w0)) !! x = Some qx →
               rejected (drain input n (run input events w0)) qx e →
               nodes !! m = Some sm → x ∈ dependencies sm →
               (m = c →
                ∃ k qk cause,
                  k ∈ dependencies sm
                  ∧ cache (drain input n (run input events w0)) !! k
                    = Some qk
                  ∧ rejected (drain input n (run input events w0)) qk
                      (failedToResolve k cause)
                  ∧ rejected (drain input n (run input events w0)) g
                      (failedToResolve k cause)
                  ∧ ∃ root,
                      Origin nodes input
                        (drain input n (run input events w0)) root
                      ∧ retrievable root (failedToResolve k cause))
               ∧ (∀ slot, m ≠ c → results !! m = None →
                  cache (drain input n (run input events w0)) !! m
                  = Some slot →
                  ∃ k qk cause,
                    k ∈ dependencies sm
                    ∧ cache (drain input n (run input events w0)) !! k
                      = Some qk
                    ∧ rejected (drain input n (run input events w0)) qk
                        (failedToResolve k cause)
                    ∧ rejected (drain input n (run input events w0)) slot
                        (failedToResolve m (failedToResolve k cause))
                    ∧ ∃ root,
                        Origin nodes input
                          (drain input n (run input events w0)) root
                        ∧ retrievable root
                            (failedToResolve m (failedToResolve k cause))))
          ∧ ∀ later p err,
              rejected (drain input n (run input events w0)) p err →
              rejected (run input later (drain input n (run input events w0)))
                p err.
Proof.
  intros Hc Hfuel. split; [done|].
  destruct (async_constructed_ranked _ Hc) as [rank Hranked].
  destruct (async_get_total nodes input rank Hranked fuel c results Hfuel)
    as [[g w0] Hget].
  exists g, w0. split; [done|]. intros events d stored o Hd Hin.
  destruct (failure_surfaces nodes input Hc fuel c results g w0 events d
              stored o Hget Hd Hin) as (n & Hidle & Hfail & Hdeps).
  exists n. split; [done|]. split; [|split; [exact Hdeps|]].
  - intros e0 Hfn. destruct (Hfail e0 Hfn) as [Htop Hslot].
    split; [done|]. intros Hne. destruct (Hslot Hne) as (qd & Hqd & Hrej).
    exists qd. split; [done|]. split; [done|].
    apply retrievable_wrap, retrievable_refl.
  - intros later p err Hp. by apply (run_settled input _ _ _ (Throw err)).
Qed.
End NetworkClaims.

Lemma async_dependency_failure_surfaces_witness :
  constructed (Chain.graph (Throw Chain.boom))
  ∧ size (Chain.graph (Throw Chain.boom)) < 4
  ∧ ∃ g w0 n,
      Async.get (Chain.graph (Throw Chain.boom)) 4 "top" () ∅ = Some (g, w0)
      ∧ ("base", ∅)
        ∈ Async.invocations (Async.run () (replicate 12 Async.Microtask) w0)
      ∧ Async.promises (Async.run () (replicate 12 Async.Microtask) w0) !! g
        = Some (Async.Pending [])
      ∧ rejected
          (Async.drain () n (Async.run () (replicate 12 Async.Microtask) w0))
          g
          (Async.failedToResolve "mid"
             (Async.failedToResolve "base" Chain.boom)).
Proof.
  assert (Hc : constructed (Chain.graph (Throw Chain.boom)))
    by (eexists; reflexivity).
  assert (Hs : size (Chain.graph (Throw Chain.boom)) < 4)
    by (vm_compute; lia).
  split; [exact Hc|]. split; [exact Hs|].
  destruct (async_dependency_failure_surfaces
              (Chain.graph (Throw Chain.boom)) () 4 ∅ "top" Hc Hs)
    as (_ & g & w0 & Hget & H).
  exists g, w0.
  assert (Hw : Async.get (Chain.graph (Throw Chain.boom)) 4 "top" () ∅
               = Some (g, w0)) by exact Hget.
  vm_compute in Hw. injection Hw as Hg Hw0.
  assert (Hin : ("base", ∅)
                ∈ Async.invocations
                    (Async.run () (replicate 12 Async.Microtask) w0)).
  { rewrite <- Hw0. vm_compute. apply list_elem_of_singleton. reflexivity. }
  destruct (H (replicate 12 Async.Microtask) "base"
              (Async.Provide (λ _ _, Throw Chain.boom) []) ∅)
    as (n & _ & Hfail & Hdeps & _).
  - vm_compute. reflexivity.
  - exact Hin.
  - exists n. split; [done|]. split; [exact Hin|]. split.
    + rewrite <- Hw0, <- Hg. vm_compute. reflexivity.
    + destruct (Hfail Chain.boom (or_introl eq_refl)) as [_ Hbase].
      destruct (Hbase ltac:(done)) as (qd & Hqd & Hrej & _).
      assert (Hcache : ∀ k,
                Async.cache
                  (Async.drain () n
                     (Async.run () (replicate 12 Async.Microtask) w0)) !! k
                = Async.cache w0 !! k).
      { intros k. unfold Async.drain. by rewrite !AsyncFacts.cache_run. }
      destruct (Async.cache w0 !! "mid") as [slot|] eqn:Hmid;
        [|rewrite <- Hw0 in Hmid; vm_compute in Hmid; done].
      destruct (Hdeps "base" qd _ "mid"
                  (Async.Provide (Chain.pass "base") ["base"]) Hqd Hrej)
        as [_ Hmidrej].
      { vm_compute. reflexivity. }
      { by left. }
      destruct (Hmidrej slot ltac:(done) eq_refl)
        as (k & qk & cause & Hk & Hqk & Hrk & Hrs & _).
      { by rewrite Hcache. }
      apply list_elem_of_singleton in Hk. subst k.
      assert (qk = qd) as -> by congruence.
      assert (Heq : Async.failedToResolve "base" cause
                    = Async.failedToResolve "base" Chain.boom).
      { unfold rejected in Hrk, Hrej. congruence. }
      rewrite Heq in Hrs.
      destruct (Hdeps "mid" slot _ "top"
                  (Async.Provide (Chain.pass "mid") ["mid"])
                  ltac:(by rewrite Hcache) Hrs)
        as [Htoprej _].
      { vm_compute. reflexivity. }
      { by left. }
      destruct (Htoprej eq_refl)
        as (k & qk' & cause' & Hk & Hqk' & Hrk' & Hrg & _).
      apply list_elem_of_singleton in Hk. subst k.
      assert (qk' = slot) as ->.
      { rewrite Hcache in Hqk'. congruence. }
      assert (Heq' : Async.failedToResolve "mid" cause'
                     = Async.failedToResolve "mid"
                         (Async.failedToResolve "base" Chain.boom)).
      { unfold rejected in Hrk', Hrs. congruence. }
      rewrite <- Heq'. exact Hrg.
Defined.

Section AsyncProperties.
Import Async ObjectFacts AsyncFacts AsyncNetwork AsyncMore.
Context {P : Type}.
Implicit Types (nodes : gmap string (Resolved P)) (w : World P).

(** X8.  The asynchronous [get] is lazy too: whatever the event loop does
    after the call, the function of a node is never called when the object
    of the caller has an entry for it (the value [undefined] included), nor
    when it is neither the requested node nor one the requested node depends
    on, directly or not. *)
Theorem async_get_calls_only_needed nodes fuel key (input : P) results g w0
    j events :
  get nodes fuel key input results = Some (g, w0) →
  is_Some (results !! j) ∨ ¬ needs nodes key j →
  timesCalled j (invocations (run input events w0)) = 0.
Proof. intros Hget Hj. apply never_called. by eapply get_spares. Qed.

(** X9.  The same for the asynchronous [getMany]: only the requested nodes
    and the nodes they depend on are ever called, and none of those that the
    object of the caller has an entry for. *)
Theorem async_getMany_calls_only_needed nodes fuel keys (input : P) results
    g w0 j events :
  getMany nodes fuel keys input results = Some (g, w0) →
  is_Some (results !! j) ∨ (∀ k, k ∈ keys → ¬ needs nodes k j) →
  timesCalled j (invocations (run input events w0)) = 0.
Proof. intros Hget Hj. apply never_called. by eapply getMany_spares. Qed.

(** X10.  [resultsToPromises] on the promise cache: each entry of the
    object of the caller, an entry with the value [undefined] included, gets
    a new promise that is fulfilled with its value, in the slot of its key;
    the slots of the other keys, the promises that existed, the queue and the
    log of calls are left as they were. *)
Theorem resultsToPromises_round_trip (results : ResultObject) w k :
  match results !! k with
  | Some v =>
      ∃ q, cache (resultsToPromises results w) !! k = Some q
        ∧ promises (resultsToPromises results w) !! q
          = Some (Fulfilled (OfValue v))
        ∧ promises w !! q = None
  | None => cache (resultsToPromises results w) !! k = cache w !! k
  end
  ∧ (∀ q st, promises w !! q = Some st →
       promises (resultsToPromises results w) !! q = Some st)
  ∧ jobs (resultsToPromises results w) = jobs w
  ∧ invocations (resultsToPromises results w) = invocations w
  ∧ supplied (resultsToPromises results w) = supplied w.
Proof.
  destruct (resultsToPromises_spec results w)
    as ((new & Hnew & _) & Hout & Hin & Hj & Hi & _ & _ & Hs & _).
  split; [|split; [|done]].
  - destruct (results !! k) as [v|] eqn:Hk; [|by apply Hout].
    destruct (Hin k v Hk) as (q & Hq & Hp & Hle). exists q.
    split; [done|]. split; [done|]. by apply lookup_ge_None.
  - intros q st Hq. rewrite Hnew. by apply lookup_app_l_Some.
Qed.

(** X11.  An asynchronous [get] for a key whose value in the object of the
    caller is defined returns a promise that is fulfilled with that value
    already; the queue is empty, no function was or will be called and the
    world never changes, whether the key is registered or not. *)
Theorem async_get_cached nodes fuel key (input : P) results :
  defined (prop results key) = true →
  ∃ g w0, get nodes fuel key input results = Some (g, w0)
    ∧ promises w0 !! g = Some (Fulfilled (OfValue (prop results key)))
    ∧ jobs w0 = [] ∧ invocations w0 = []
    ∧ ∀ events, run input events w0 = w0.
Proof.
  intros Hdef. unfold get. cbn. rewrite Hdef. eexists _, _.
  split; [reflexivity|]. cbn. split; [done|]. split; [done|]. split; [done|].
  induction events as [|[|u] events IH]; [done|exact IH|exact IH].
Qed.


(** X13.  The error of an asynchronous [get].  When the promise returned
    for a key that the caller did not supply is rejected with [e], then the
    key is not registered and [e] is its not-found error, or the function of
    the key threw [e] or returned a promise rejected with [e], or the
    resolution of a declared dependency [d] failed in one of these three
    ways with an error [e'] and [e] is
    [Failed to resolve dependencies for key "d": e']. *)
Theorem async_get_failure_origin nodes fuel key (input : P) results g w0
    events e :
  constructed nodes →
  results !! key = None →
  get nodes fuel key input results = Some (g, w0) →
  promises (run input events w0) !! g = Some (Rejected e) →
  Failed nodes input (invocations (run input events w0)) key e.
Proof. intros Hc Hr Hget Hf. by eapply get_failure. Qed.


(** X15.  The error of an asynchronous [getMany].  When the promise it
    returned is rejected, the error is
    [Failed to resolve dependencies for key "k": cause] for a requested key
    [k] whose resolution failed with [cause]: [k] is not registered, or its
    function threw or rejected, or one of its dependencies failed. *)
Theorem async_getMany_failure_origin nodes fuel keys (input : P) results g w0
    events e :
  constructed nodes →
  getMany nodes fuel keys input results = Some (g, w0) →
  promises (run input events w0) !! g = Some (Rejected e) →
  ∃ k cause, k ∈ keys ∧ e = failedToResolve k cause
    ∧ Failed nodes input (invocations (run input events w0)) k cause.
Proof. intros Hc Hget Hf. by eapply getMany_failure. Qed.


End AsyncProperties.

Lemma async_get_calls_only_needed_witness :
  ∃ g w0,
    Async.get (SharedAsync.graph (Normal (VNum 10))) 3 "child1" ()
      (<["dependency" := VNum 7]> ∅) = Some (g, w0)
    ∧ Async.timesCalled "dependency"
        (Async.invocations (Async.run () (replicate 20 Async.Microtask) w0))
      = 0.
Proof.
  eexists _, _. split; [vm_compute; reflexivity|].
  refine (async_get_calls_only_needed (SharedAsync.graph (Normal (VNum 10))) 3
            "child1" () (<["dependency" := VNum 7]> ∅) _ _ "dependency" _
            _ _).
  - vm_compute. reflexivity.
  - left. vm_compute. eauto.
Defined.

Lemma async_getMany_calls_only_needed_witness :
  ∃ g w0,
    Async.getMany (SharedAsync.graph (Normal (VNum 10))) 3
      ["child1"; "child2"] () (<["dependency" := VNum 7]> ∅) = Some (g, w0)
    ∧ Async.timesCalled "dependency"
        (Async.invocations (Async.run () (replicate 30 Async.Microtask) w0))
      = 0.
Proof.
  eexists _, _. split; [vm_compute; reflexivity|].
  refine (async_getMany_calls_only_needed
            (SharedAsync.graph (Normal (VNum 10))) 3 ["child1"; "child2"] ()
            (<["dependency" := VNum 7]> ∅) _ _ "dependency" _ _ _).
  - vm_compute. reflexivity.
  - left. vm_compute. eauto.
Defined.

Lemma async_get_cached_witness :
  ∃ g w0,
    Async.get (∅ : gmap string (Async.Resolved unit)) 0 "x" ()
      (<["x" := VNum 0]> ∅) = Some (g, w0)
    ∧ Async.promises w0 !! g
      = Some (Async.Fulfilled (Async.OfValue
                (prop (<["x" := VNum 0]> ∅) "x")))
    ∧ Async.jobs w0 = [] ∧ Async.invocations w0 = []
    ∧ ∀ events, Async.run () events w0 = w0.
Proof.
  refine (async_get_cached (∅ : gmap string (Async.Resolved unit)) 0 "x" ()
            (<["x" := VNum 0]> ∅) _).
  reflexivity.
Defined.


Lemma async_get_failure_origin_witness :
  ∃ g w0,
    Async.get (Chain.graph (Throw Chain.boom)) 4 "top" () ∅ = Some (g, w0)
    ∧ AsyncMore.Failed (Chain.graph (Throw Chain.boom)) ()
        (Async.invocations (Async.run () (replicate 40 Async.Microtask) w0))
        "top"
        (Async.failedToResolve "mid"
           (Async.failedToResolve "base" Chain.boom)).
Proof.
  eexists _, _. split; [vm_compute; reflexivity|].
  refine (async_get_failure_origin (Chain.graph (Throw Chain.boom)) 4 "top"
            () ∅ _ _ (replicate 40 Async.Microtask) _ _ _ _ _).
  - eexists. reflexivity.
  - reflexivity.
  - vm_compute. reflexivity.
  - vm_compute. reflexivity.
Defined.


Lemma async_getMany_failure_origin_witness :
  ∃ g w0 e,
    Async.getMany (Chain.graph (Normal (Async.Plainly (VNum 1)))) 4
      ["base"; "nope"] () ∅ = Some (g, w0)
    ∧ Async.promises (Async.run () (replicate 40 Async.Microtask) w0) !! g
      = Some (Async.Rejected e)
    ∧ ∃ k cause, k ∈ ["base"; "nope"] ∧ e = Async.failedToResolve k cause
        ∧ AsyncMore.Failed (Chain.graph (Normal (Async.Plainly (VNum 1)))) ()
            (Async.invocations
               (Async.run () (replicate 40 Async.Microtask) w0)) k cause.
Proof.
  eexists _, _, _. split; [vm_compute; reflexivity|].
  split; [vm_compute; reflexivity|].
  refine (async_getMany_failure_origin
            (Chain.graph (Normal (Async.Plainly (VNum 1)))) 4
            ["base"; "nope"] () ∅ _ _ _ _ _ _ _).
  - eexists. reflexivity.
  - vm_compute. reflexivity.
  - vm_compute. reflexivity.
Defined.



(** ** More about [define] and [has] *)

Module DefineMore.
Section More.
Context {P : Type}.

Lemma async_define_success (nodes : gmap string (Async.Resolved P)) key fn
    deps nodes' :
  Async.define key fn deps nodes = (Normal (), nodes') →
  nodes !! key = None
  ∧ nodes' = <[key := Async.Provide fn (default [] deps)]> nodes
  ∧ ∀ ds d, deps = Some ds → d ∈ ds → is_Some (nodes !! d).
Proof.
  unfold Async.define. destruct (Async.has nodes key) eqn:Hk; [done|].
  apply AsyncFacts.async_has_false in Hk.
  destruct deps as [ds|]; simpl.
  - destruct (Async.firstMissing nodes ds) eqn:Hm; [done|].
    intros [= <-]. split; [done|]. split; [done|].
    intros ds' d [= <-] Hd.
    rewrite AsyncFacts.async_firstMissing_None in Hm. by apply Hm.
  - intros [= <-]. split; [done|]. split; [done|]. done.
Qed.

Lemma async_define_keeps (nodes : gmap string (Async.Resolved P)) key fn deps
    k s :
  nodes !! k = Some s → (Async.define key fn deps nodes).2 !! k = Some s.
Proof.
  intros Hk.
  destruct (Async.define key fn deps nodes) as [[[]|e] nodes'] eqn:Hd.
  - apply async_define_success in Hd as (Hn & -> & _). simpl.
    rewrite lookup_insert_ne; [done|]. intros ->. congruence.
  - unfold Async.define in Hd.
    destruct (Async.has nodes key); [by injection Hd as _ <-|].
    destruct (deps ≫= Async.firstMissing nodes); [by injection Hd as _ <-|done].
Qed.

Lemma async_defineAll_keeps ds : ∀ (nodes : gmap string (Async.Resolved P)) k s,
  nodes !! k = Some s → Async.defineAll ds nodes !! k = Some s.
Proof.
  induction ds as [|d ds IH]; intros nodes k s Hk; simpl; [done|].
  apply IH. by apply async_define_keeps.
Qed.

Lemma sync_define_total (nodes : gmap string (Sync.Stored P)) key fn deps :
  nodes !! key = None →
  (∀ ds d, deps = Some ds → d ∈ ds → is_Some (nodes !! d)) →
  ∃ nodes', Sync.define key fn deps nodes = (Normal (), nodes').
Proof.
  intros Hk Hdeps. unfold Sync.define.
  apply SyncFacts.has_false in Hk. rewrite Hk.
  destruct deps as [ds|]; [|by eexists].
  destruct (Sync.firstMissing nodes ds) as [d|] eqn:Hm; [|by eexists].
  apply SyncFacts.firstMissing_Some in Hm as [Hd Hn].
  destruct (Hdeps ds d eq_refl Hd) as [? ?]. congruence.
Qed.

Lemma async_define_total (nodes : gmap string (Async.Resolved P)) key fn deps :
  nodes !! key = None →
  (∀ ds d, deps = Some ds → d ∈ ds → is_Some (nodes !! d)) →
  ∃ nodes', Async.define key fn deps nodes = (Normal (), nodes').
Proof.
  intros Hk Hdeps. unfold Async.define.
  apply AsyncFacts.async_has_false in Hk. rewrite Hk.
  destruct deps as [ds|]; simpl; [|by eexists].
  destruct (Async.firstMissing nodes ds) as [d|] eqn:Hm; [|by eexists].
  apply AsyncFacts.async_firstMissing_Some in Hm as [Hd Hn].
  destruct (Hdeps ds d eq_refl Hd) as [? ?]. congruence.
Qed.
End More.
End DefineMore.

Section DefineProperties.
Context {P : Type}.

(** X1.  In both graphs [define] succeeds exactly when the key is not
    registered and every declared dependency is; after a successful
    [define], [has] answers [true] for the new key and as before for every
    other key, whose stored function is untouched. *)
Theorem define_succeeds_exactly_when
    (snodes : gmap string (Sync.Stored P))
    (anodes : gmap string (Async.Resolved P)) key sfn afn deps :
  ((∃ nodes', Sync.define key sfn deps snodes = (Normal (), nodes'))
   ↔ snodes !! key = None
     ∧ ∀ ds d, deps = Some ds → d ∈ ds → Sync.has snodes d = true)
  ∧ (∀ nodes', Sync.define key sfn deps snodes = (Normal (), nodes') →
       Sync.has nodes' key = true
       ∧ ∀ k, k ≠ key →
           nodes' !! k = snodes !! k ∧ Sync.has nodes' k = Sync.has snodes k)
  ∧ ((∃ nodes', Async.define key afn deps anodes = (Normal (), nodes'))
     ↔ anodes !! key = None
       ∧ ∀ ds d, deps = Some ds → d ∈ ds → Async.has anodes d = true)
  ∧ (∀ nodes', Async.define key afn deps anodes = (Normal (), nodes') →
       Async.has nodes' key = true
       ∧ ∀ k, k ≠ key →
           nodes' !! k = anodes !! k
           ∧ Async.has nodes' k = Async.has anodes k).
Proof.
  split; [|split; [|split]].
  - split.
    + intros [nodes' (Hk & _ & Hdeps)%SyncMore.define_success].
      split; [done|]. intros ds d Hds Hd. apply SyncFacts.has_spec. eauto.
    + intros [Hk Hdeps]. apply DefineMore.sync_define_total; [done|].
      intros ds d Hds Hd. apply SyncFacts.has_spec. eauto.
  - intros nodes' (Hk & -> & _)%SyncMore.define_success. split.
    + apply SyncFacts.has_spec. rewrite lookup_insert_eq. by eexists.
    + intros k Hne. unfold Sync.has. by rewrite lookup_insert_ne.
  - split.
    + intros [nodes' (Hk & _ & Hdeps)%DefineMore.async_define_success].
      split; [done|]. intros ds d Hds Hd. apply AsyncFacts.async_has_spec.
      eauto.
    + intros [Hk Hdeps]. apply DefineMore.async_define_total; [done|].
      intros ds d Hds Hd. apply AsyncFacts.async_has_spec. eauto.
  - intros nodes' (Hk & -> & _)%DefineMore.async_define_success. split.
    + apply AsyncFacts.async_has_spec. rewrite lookup_insert_eq. by eexists.
    + intros k Hne. unfold Async.has. by rewrite lookup_insert_ne.
Qed.

(** X2.  In both graphs the first definition of a key wins: whatever
    [define] calls follow, failed ones included, a registered key stays
    registered with the function and the dependencies it was stored
    with. *)
Theorem first_definition_wins
    (sdefs : list (Key * Sync.ComputationNode P * option (list Key)))
    (adefs : list (Key * Async.AsyncComputationNode P * option (list Key)))
    (snodes : gmap string (Sync.Stored P))
    (anodes : gmap string (Async.Resolved P)) k :
  (∀ s, snodes !! k = Some s →
     Sync.defineAll sdefs snodes !! k = Some s
     ∧ Sync.has (Sync.defineAll sdefs snodes) k = true)
  ∧ (∀ s, anodes !! k = Some s →
       Async.defineAll adefs anodes !! k = Some s
       ∧ Async.has (Async.defineAll adefs anodes) k = true).
Proof.
  split; intros s Hk.
  - pose proof (SyncMore.defineAll_keeps sdefs snodes k s Hk) as H.
    split; [done|]. apply SyncFacts.has_spec. by eexists.
  - pose proof (DefineMore.async_defineAll_keeps adefs anodes k s Hk) as H.
    split; [done|]. apply AsyncFacts.async_has_spec. by eexists.
Qed.
End DefineProperties.
